(** * Permutohedral lattice filter: a shallow embedding of
      [PermutohedralLatticeGPU.cuh] and the properties of its hash table,
      lattice embedder, blur and slice kernels.

    Conventions of the embedding.
    - The element type [T] of the kernels (float or double) is taken to be
      the rationals [Q]: all statements are about exact arithmetic.
    - A device buffer ([T *], [short *], [int *]) is a map from element
      offsets to values, [Z -> A]; the C++ code performs no bounds check,
      and neither does the model.
    - [short] and [unsigned int] arithmetic wraps; the wrap-around is
      written out with [to_short] and [to_uint].  [int] arithmetic is
      modelled in [Z] (signed overflow is undefined in the source).
    - The conversion [(short) x] of a floating-point [x] is written as
      truncation followed by the 16-bit wrap.  This is the conversion of
      the source only while the truncated value fits a [short]: outside
      that range the conversion is undefined in C++, and the hardware
      need not wrap.  The statements about rounded coordinates are
      statements about the program for the coordinates that fit
      ([in_short], [valid_position]).
    - [while (1)] loops take a fuel argument; running out of fuel is the
      result [OutOfFuel], which stands for a loop that is still spinning.
    - A kernel launch is modelled by running its threads one after the other
      in increasing thread index.  Calls of [insert] that run at the same
      time are modelled apart, by interleaving their accesses of the table
      in any order, over a sequentially consistent memory. *)

From Stdlib Require Import ZArith QArith Qround Qabs List Lia Lra Bool String.
From Stdlib Require Import Permutation Psatz FunctionalExtensionality.
Import ListNotations.

Local Open Scope Z_scope.

(** ** Machine integers *)

Definition to_uint (x : Z) : Z := x mod 2 ^ 32.

Definition to_short (x : Z) : Z := (x + 2 ^ 15) mod 2 ^ 16 - 2 ^ 15.

Definition in_short (x : Z) : Prop := - 2 ^ 15 <= x < 2 ^ 15.

(** ** Buffers *)

Definition upd {A : Type} (m : Z -> A) (i : Z) (v : A) : Z -> A :=
  fun k => if Z.eqb k i then v else m k.

(** [for (int i = 0; i < n; i++) body], threading the state. *)
Definition for_up {S : Type} (n : nat) (body : Z -> S -> S) (s : S) : S :=
  fold_left (fun acc i => body (Z.of_nat i) acc) (seq 0 n) s.

(** All the indices [0 <= i < n] satisfy [p]. *)
Definition all_below (n : nat) (p : Z -> bool) : bool :=
  forallb (fun i => p (Z.of_nat i)) (seq 0 n).

(** ** Results of the kernels *)

Inductive result (A : Type) : Type :=
| Ret (a : A)
| OutOfFuel
| DivByZero.

Arguments Ret {A} a.
Arguments OutOfFuel {A}.
Arguments DivByZero {A}.

Definition bind {A B : Type} (r : result A) (k : A -> result B) : result B :=
  match r with
  | Ret a => k a
  | OutOfFuel => OutOfFuel
  | DivByZero => DivByZero
  end.

Notation "'do' x <- r ; k" := (bind r (fun x => k))
  (at level 10, x pattern, r at level 100, k at level 200).

(** ** The hash table *)

Record HashTableGPU : Type := mkTable {
  capacity : Z;
  values : Z -> Q;
  keys : Z -> Z;
  entries : Z -> Z
}.

Definition set_entries (t : HashTableGPU) (e : Z -> Z) : HashTableGPU :=
  mkTable (capacity t) (values t) (keys t) e.

Definition set_keys (t : HashTableGPU) (k : Z -> Z) : HashTableGPU :=
  mkTable (capacity t) (values t) k (entries t).

Definition set_values (t : HashTableGPU) (v : Z -> Q) : HashTableGPU :=
  mkTable (capacity t) v (keys t) (entries t).

(** [atomicCAS(address, compare, val)]: returns the old contents. *)
Definition atomicCAS (m : Z -> Z) (address compare val : Z) : Z * (Z -> Z) :=
  let old := m address in
  (old, if Z.eqb old compare then upd m address val else m).

(** [atomicExch(address, val)]. *)
Definition atomicExch (m : Z -> Z) (address val : Z) : Z -> Z :=
  upd m address val.

Definition hash_multiplier : Z := 2531011.

Section Table.

Variable pd : nat.
Variable vd : nat.

Definition modHash (t : HashTableGPU) (n : Z) : Z := n mod (2 * capacity t).

Definition hash (key : Z -> Z) : Z :=
  for_up pd (fun i k => to_uint (to_uint (k + key i) * hash_multiplier)) 0.

(** The polynomial hash as the specification words it:
    [k = k*2531011 + key[i]]. *)
Definition hash_as_specified (key : Z -> Z) : Z :=
  for_up pd (fun i k => to_uint (k * hash_multiplier + key i)) 0.

(** [for (i = 0; i < pd && match; i++) match = (keys[c*pd+i] == key[i])]. *)
Definition key_match (t : HashTableGPU) (c : Z) (key : Z -> Z) : bool :=
  all_below pd (fun i => Z.eqb (keys t (c * Z.of_nat pd + i)) (key i)).

Definition write_key (t : HashTableGPU) (slot : Z) (key : Z -> Z) : HashTableGPU :=
  set_keys t
    (for_up pd (fun i ks => upd ks (slot * Z.of_nat pd + i) (key i)) (keys t)).

(** [h++; if (h == capacity*2) h = 0;] *)
Definition next_bucket (t : HashTableGPU) (h : Z) : Z :=
  if Z.eqb (h + 1) (capacity t * 2) then 0 else h + 1.

Fixpoint insert_loop (fuel : nat) (t : HashTableGPU) (key : Z -> Z)
    (slot : Z) (h : Z) : result (Z * HashTableGPU) :=
  match fuel with
  | O => OutOfFuel
  | S fuel' =>
      let '(contents, e1) := atomicCAS (entries t) h (-1) (-2) in
      let t1 := set_entries t e1 in
      if Z.eqb contents (-2) then
        insert_loop fuel' t1 key slot (next_bucket t1 h)
      else if Z.eqb contents (-1) then
        let t2 := write_key t1 slot key in
        Ret (h, set_entries t2 (atomicExch (entries t2) h slot))
      else if key_match t1 contents key then
        Ret (h, t1)
      else
        insert_loop fuel' t1 key slot (next_bucket t1 h)
  end.

Definition insert (fuel : nat) (t : HashTableGPU) (key : Z -> Z) (slot : Z)
    : result (Z * HashTableGPU) :=
  insert_loop fuel t key slot (modHash t (hash key)).

Fixpoint retrieve_loop (fuel : nat) (t : HashTableGPU) (key : Z -> Z) (h : Z)
    : result Z :=
  match fuel with
  | O => OutOfFuel
  | S fuel' =>
      let e := entries t h in
      if Z.eqb e (-1) then Ret (-1)
      else if key_match t e key then Ret e
      else retrieve_loop fuel' t key (next_bucket t h)
  end.

Definition retrieve (fuel : nat) (t : HashTableGPU) (key : Z -> Z) : result Z :=
  retrieve_loop fuel t key (modHash t (hash key)).

(** *** Calls of [insert] that run at the same time

    Between two accesses of the shared table a call of [insert] is at one
    of four places; a step of a call is one access of the shared table,
    and the accesses of the calls are interleaved in any order (the memory
    is taken to be sequentially consistent). *)

Inductive insert_pc : Type :=
| AtCAS (h : Z)
| AtWrite (h i : Z)
| AtCompare (h contents i : Z)
| AtReturn (h : Z).

(** One access.  [AtCAS h]: the [atomicCAS] on bucket [h] and the branch on
    its result.  [AtWrite h i]: the store of [key[i]] into the slot, and
    the [atomicExch] that unlocks bucket [h] when the [pd] coordinates are
    written.  [AtCompare h contents i]: the comparison of coordinate [i] of
    the stored key, and the return when all [pd] agree.  [AtReturn h]: the
    call has returned [h]. *)
Definition insert_access (key : Z -> Z) (slot : Z) (t : HashTableGPU) (pc : insert_pc)
    : HashTableGPU * insert_pc :=
  match pc with
  | AtCAS h =>
      let '(contents, e1) := atomicCAS (entries t) h (-1) (-2) in
      let t1 := set_entries t e1 in
      if Z.eqb contents (-2) then (t1, AtCAS (next_bucket t1 h))
      else if Z.eqb contents (-1) then (t1, AtWrite h 0)
      else (t1, AtCompare h contents 0)
  | AtWrite h i =>
      if i <? Z.of_nat pd then
        (set_keys t (upd (keys t) (slot * Z.of_nat pd + i) (key i)), AtWrite h (i + 1))
      else (set_entries t (atomicExch (entries t) h slot), AtReturn h)
  | AtCompare h contents i =>
      if i <? Z.of_nat pd then
        if Z.eqb (keys t (contents * Z.of_nat pd + i)) (key i)
        then (t, AtCompare h contents (i + 1))
        else (t, AtCAS (next_bucket t h))
      else (t, AtReturn h)
  | AtReturn h => (t, AtReturn h)
  end.

(** The arguments of a call. *)
Record insert_call : Type := mkCall {
  call_key : Z -> Z;
  call_slot : Z
}.

(** A call that has not yet touched the table. *)
Definition start_calls (calls : Z -> insert_call) (t : HashTableGPU) : Z -> insert_pc :=
  fun tid => AtCAS (modHash t (hash (call_key (calls tid)))).

(** The next access is the one of call [tid]. *)
Definition schedule_step (calls : Z -> insert_call) (st : HashTableGPU * (Z -> insert_pc))
    (tid : Z) : HashTableGPU * (Z -> insert_pc) :=
  let '(t', pc') :=
    insert_access (call_key (calls tid)) (call_slot (calls tid)) (fst st) (snd st tid) in
  (t', upd (snd st) tid pc').

(** The table and the calls after the accesses of a schedule. *)
Definition run_schedule (calls : Z -> insert_call) (schedule : list Z)
    (st : HashTableGPU * (Z -> insert_pc)) : HashTableGPU * (Z -> insert_pc) :=
  fold_left (schedule_step calls) schedule st.

(** [resetHashTable()], line 65: [cudaMemset] of the first [capacity * vd]
    accumulators to zero. *)
Definition resetHashTable (t : HashTableGPU) : HashTableGPU :=
  set_values t
    (fun k => if (0 <=? k) && (k <? capacity t * Z.of_nat vd) then 0%Q else values t k).

End Table.

(** ** Element arithmetic *)

Definition Qlt_bool (x y : Q) : bool := negb (Qle_bool y x).

(** Conversion of a [T] to an integer type: truncation toward zero. *)
Definition Qtrunc (x : Q) : Z := Z.quot (Qnum x) (Zpos (Qden x)).

(** [for (int i = n; i > 0; i--) body]. *)
Definition for_down {S : Type} (n : nat) (body : Z -> S -> S) (s : S) : S :=
  fold_left (fun acc i => body (Z.of_nat i) acc) (rev (seq 1 n)) s.

(** A [for] loop whose body may fail to return. *)
Definition for_upM {S : Type} (n : nat) (body : Z -> S -> result S) (s : S) : result S :=
  fold_left (fun acc i => bind acc (body (Z.of_nat i))) (seq 0 n) (Ret s).

Record MatrixEntry : Type := mkEntry {
  index : Z;
  weight : Q
}.

Definition BLOCK_SIZE : nat := 256.

(** ** The kernels *)

Section Kernels.

Variable pd : nat.
Variable vd : nat.

(** [pd + 1] *)
Definition pd1 : Z := Z.of_nat pd + 1.

(** *** createLattice *)

(** Lines 164-170: the elevated coordinates of a position. *)
Definition elevate (position scaleFactor : Z -> Q) : Z -> Q :=
  let '(sm, elevated) :=
    for_down pd
      (fun i '(sm, elevated) =>
         let cf := (position (i - 1)%Z * scaleFactor (i - 1)%Z)%Q in
         ((sm + cf)%Q, upd elevated i (sm - inject_Z i * cf)%Q))
      (0%Q, fun _ => 0%Q) in
  upd elevated 0 sm.

(** The multiple of [pd + 1] chosen for one elevated coordinate
    (lines 177-184).  [(short) up] and [(short) down] are written as
    [to_short (Qtrunc _)]: the value of the source when the multiple fits
    a [short], the conversion being undefined otherwise. *)
Definition round_coordinate (e : Q) : Z :=
  let v := (e * (1 / inject_Z pd1))%Q in
  let up := (inject_Z (Qceiling v) * inject_Z pd1)%Q in
  let down := (inject_Z (Qfloor v) * inject_Z pd1)%Q in
  if Qlt_bool (up - e) (e - down) then to_short (Qtrunc up)
  else to_short (Qtrunc down).

(** Lines 175-187: [rem0] and the value of [sum] after [sum /= pd + 1]. *)
Definition round_to_lattice (elevated : Z -> Q) : Z * (Z -> Z) :=
  let '(sum, rem0) :=
    for_up (S pd)
      (fun i '(sum, rem0) =>
         let r := round_coordinate (elevated i) in
         (to_short (sum + r), upd rem0 i r))
      (0, fun _ => 0) in
  (to_short (Z.quot sum pd1), rem0).

(** [elevated[i] - rem0[i]] *)
Definition residual (elevated : Z -> Q) (rem0 : Z -> Z) (i : Z) : Q :=
  (elevated i - inject_Z (rem0 i))%Q.

(** Lines 216-223. *)
Definition rank_of (elevated : Z -> Q) (rem0 : Z -> Z) : Z -> Z :=
  for_up (S pd)
    (fun i rank =>
       for_up (S pd)
         (fun j rank =>
            if Qlt_bool (residual elevated rem0 i) (residual elevated rem0 j)
               || (Qeq_bool (residual elevated rem0 i) (residual elevated rem0 j)
                   && (j <? i))
            then upd rank i (rank i + 1) else rank)
         (upd rank i 0))
    (fun _ => 0).

(** Lines 225-243. *)
Definition correct_sum (sum : Z) (rem0 rank : Z -> Z) : (Z -> Z) * (Z -> Z) :=
  if 0 <? sum then
    for_up (S pd)
      (fun i '(rem0, rank) =>
         if pd1 - sum <=? rank i
         then (upd rem0 i (rem0 i - pd1), upd rank i (rank i + (sum - pd1)))
         else (rem0, upd rank i (rank i + sum)))
      (rem0, rank)
  else if sum <? 0 then
    for_up (S pd)
      (fun i '(rem0, rank) =>
         if rank i <? - sum
         then (upd rem0 i (rem0 i + pd1), upd rank i (rank i + (pd1 + sum)))
         else (rem0, upd rank i (rank i + sum)))
      (rem0, rank)
  else (rem0, rank).

(** Lines 245-254. *)
Definition barycentric_of (elevated : Z -> Q) (rem0 rank : Z -> Z) : Z -> Q :=
  let b :=
    for_up (S pd)
      (fun i b =>
         let delta := (residual elevated rem0 i * (1 / inject_Z pd1))%Q in
         let b1 := upd b (Z.of_nat pd - rank i) (b (Z.of_nat pd - rank i)%Z + delta)%Q in
         upd b1 (Z.of_nat pd + 1 - rank i) (b1 (Z.of_nat pd + 1 - rank i)%Z - delta)%Q)
      (fun _ => 0%Q) in
  upd b 0 (b 0%Z + (1 + b (Z.of_nat pd + 1)%Z))%Q.

(** Lines 264-268: the key of the simplex corner [remainder]. *)
Definition simplex_key (rem0 rank : Z -> Z) (remainder : Z) (key : Z -> Z) : Z -> Z :=
  for_up pd
    (fun i key =>
       let k := to_short (rem0 i + remainder) in
       upd key i (if Z.of_nat pd - remainder <? rank i then to_short (k - pd1) else k))
    key.

(** What a thread computes from its position before it touches the table. *)
Record Simplex : Type := mkSimplex {
  s_rem0 : Z -> Z;
  s_rank : Z -> Z;
  s_barycentric : Z -> Q
}.

Definition embed (position scaleFactor : Z -> Q) : Simplex :=
  let elevated := elevate position scaleFactor in
  let '(sum, rem0) := round_to_lattice elevated in
  let rank := rank_of elevated rem0 in
  let '(rem0, rank) := correct_sum sum rem0 rank in
  mkSimplex rem0 rank (barycentric_of elevated rem0 rank).

(** One thread of [createLattice].  [slot] is an [unsigned int] that holds
    the non-negative [int] [idx * (pd + 1) + remainder]. *)
Definition createLattice_thread (fuel : nat) (positions scaleFactor : Z -> Q) (idx : Z)
    (st : HashTableGPU * (Z -> MatrixEntry)) : result (HashTableGPU * (Z -> MatrixEntry)) :=
  let sx := embed (fun i => positions (idx * Z.of_nat pd + i)) scaleFactor in
  do (_, table, matrix) <-
    for_upM (S pd)
      (fun remainder '(key, table, matrix) =>
         let key := simplex_key (s_rem0 sx) (s_rank sx) remainder key in
         let slot := idx * pd1 + remainder in
         do (h, table) <- insert pd fuel table key slot;
         Ret (key, table,
              upd matrix (idx * pd1 + remainder)
                (mkEntry h (s_barycentric sx remainder))))
      (fun _ => 0, fst st, snd st);
  Ret (table, matrix).

Definition createLattice (fuel : nat) (n : nat) (positions scaleFactor : Z -> Q)
    (matrix : Z -> MatrixEntry) (table : HashTableGPU)
    : result (HashTableGPU * (Z -> MatrixEntry)) :=
  for_upM n (createLattice_thread fuel positions scaleFactor) (table, matrix).

(** *** cleanHashTable *)

Definition cleanHashTable_thread (fuel : nat) (idx : Z) (table : HashTableGPU)
    : result HashTableGPU :=
  let e := entries table idx in
  if 0 <=? e then
    do r <- retrieve pd fuel table (fun i => keys table (e * Z.of_nat pd + i));
    Ret (set_entries table (upd (entries table) idx r))
  else Ret table.

Definition cleanHashTable (fuel : nat) (n : nat) (table : HashTableGPU)
    : result HashTableGPU :=
  for_upM n (cleanHashTable_thread fuel) table.

(** *** splatCache *)

(** The part of a block before [__syncthreads()], for one thread. *)
Definition splat_load (n : Z) (values_in : Z -> Q) (table : HashTableGPU)
    (color blockIdx_x threadId : Z)
    (st : (Z -> MatrixEntry) * (Z -> Z) * (Z -> Q))
    : (Z -> MatrixEntry) * (Z -> Z) * (Z -> Q) :=
  let '(matrix, sharedOffsets, sharedValues) := st in
  let idx := threadId + blockIdx_x * Z.of_nat BLOCK_SIZE in
  if n <=? idx then (matrix, upd sharedOffsets threadId (-1), sharedValues)
  else
    let r := matrix (idx * pd1 + color) in
    let r_index := entries table (index r) in
    let matrix := upd matrix (idx * pd1 + color) (mkEntry r_index (weight r)) in
    let sharedOffsets := upd sharedOffsets threadId (r_index * Z.of_nat vd) in
    let sharedValues :=
      for_up (vd - 1)
        (fun j sv => upd sv (threadId * Z.of_nat vd + j)
                       (values_in (idx * (Z.of_nat vd - 1) + j)%Z * weight r)%Q)
        sharedValues in
    (matrix, sharedOffsets,
     upd sharedValues (threadId * Z.of_nat vd + (Z.of_nat vd - 1)) (weight r)).

(** The part of a block after [__syncthreads()], for one thread: the scan of
    the block (the flag records that the thread has returned) followed by
    the atomic additions. *)
Definition splat_reduce (n : Z) (sharedOffsets : Z -> Z) (blockIdx_x threadId : Z)
    (st : (Z -> Q) * (Z -> Q)) : (Z -> Q) * (Z -> Q) :=
  let '(sharedValues, table_values) := st in
  let idx := threadId + blockIdx_x * Z.of_nat BLOCK_SIZE in
  if n <=? idx then st
  else
    let myOffset := sharedOffsets threadId in
    let '(returned, sharedValues) :=
      for_up BLOCK_SIZE
        (fun i '(returned, sv) =>
           if (returned : bool) then (returned, sv)
           else if i <? threadId then
             (Z.eqb myOffset (sharedOffsets i), sv)
           else if threadId <? i then
             if Z.eqb myOffset (sharedOffsets i) then
               (false,
                for_up vd
                  (fun j sv => upd sv (threadId * Z.of_nat vd + j)
                                 (sv (threadId * Z.of_nat vd + j)%Z
                                  + sv (i * Z.of_nat vd + j)%Z)%Q)
                  sv)
             else (false, sv)
           else (false, sv))
        (false, sharedValues) in
    if returned then (sharedValues, table_values)
    else
      (sharedValues,
       for_up vd
         (fun j tv => upd tv (myOffset + j)
                        (tv (myOffset + j)%Z
                         + sharedValues (threadId * Z.of_nat vd + j)%Z)%Q)
         table_values).

Definition splat_block (n : Z) (values_in : Z -> Q) (color blockIdx_x : Z)
    (st : (Z -> MatrixEntry) * HashTableGPU) : (Z -> MatrixEntry) * HashTableGPU :=
  let '(matrix, table) := st in
  let '(matrix, sharedOffsets, sharedValues) :=
    for_up BLOCK_SIZE (splat_load n values_in table color blockIdx_x)
      (matrix, fun _ => 0, fun _ => 0%Q) in
  let '(_, table_values) :=
    for_up BLOCK_SIZE (splat_reduce n sharedOffsets blockIdx_x)
      (sharedValues, values table) in
  (matrix, set_values table table_values).

(** The grid of [splatCache]: [(n - 1) / BLOCK_SIZE + 1] blocks for each of
    the [pd + 1] colors. *)
Definition splatCache (n : Z) (values_in : Z -> Q) (matrix : Z -> MatrixEntry)
    (table : HashTableGPU) : (Z -> MatrixEntry) * HashTableGPU :=
  for_up (S pd)
    (fun color st =>
       for_up (Z.to_nat (Z.quot (n - 1) (Z.of_nat BLOCK_SIZE) + 1))
         (fun blockIdx_x st => splat_block n values_in color blockIdx_x st) st)
    (matrix, table).

(** *** blur *)

Definition neighbours (table : HashTableGPU) (idx color : Z) : (Z -> Z) * (Z -> Z) :=
  let '(np, nm) :=
    for_up pd
      (fun i '(np, nm) =>
         let myKey := keys table (idx * Z.of_nat pd + i) in
         (upd np i (to_short (myKey + 1)), upd nm i (to_short (myKey - 1))))
      (fun _ => 0, fun _ => 0) in
  (upd np color (to_short (np color - pd1)), upd nm color (to_short (nm color + pd1))).

Definition blur_thread (fuel : nat) (matrix : Z -> MatrixEntry) (color : Z)
    (table : HashTableGPU) (idx : Z) (newValues : Z -> Q) : result (Z -> Q) :=
  if negb (Z.eqb (index (matrix idx)) idx) then Ret newValues
  else
    let '(np, nm) := neighbours table idx color in
    do offNp <- retrieve pd fuel table np;
    do offNm <- retrieve pd fuel table nm;
    let valNp := fun i => if 0 <=? offNp then values table (Z.of_nat vd * offNp + i) else 0%Q in
    let valNm := fun i => if 0 <=? offNm then values table (Z.of_nat vd * offNm + i) else 0%Q in
    Ret (for_up vd
           (fun i out =>
              upd out (Z.of_nat vd * idx + i)
                ((1 # 4) * valNp i + (1 # 2) * values table (Z.of_nat vd * idx + i)%Z
                 + (1 # 4) * valNm i)%Q)
           newValues).

Definition blur (fuel : nat) (n : nat) (newValues : Z -> Q) (matrix : Z -> MatrixEntry)
    (color : Z) (table : HashTableGPU) : result (Z -> Q) :=
  for_upM n (blur_thread fuel matrix color table) newValues.

(** *** slice *)

(** Lines 418-428: the weighted sums of the value channels and of the mass
    channel of sample [idx]. *)
Definition slice_sums (matrix : Z -> MatrixEntry) (table : HashTableGPU) (idx : Z)
    : (Z -> Q) * Q :=
  for_up (S pd)
    (fun i '(value, weight_) =>
       let r := matrix (idx * pd1 + i) in
       let val := fun j => values table (index r * Z.of_nat vd + j) in
       (for_up (vd - 1) (fun j value => upd value j (value j + weight r * val j)%Q) value,
        (weight_ + weight r * val (Z.of_nat vd - 1)%Z)%Q))
    (fun _ => 0%Q, 0%Q).

(** [1.0f / weight], with the case of a zero divisor made explicit. *)
Definition reciprocal (x : Q) : result Q :=
  if Qeq_bool x 0 then DivByZero else Ret (1 / x)%Q.

Definition slice_thread (matrix : Z -> MatrixEntry) (table : HashTableGPU) (idx : Z)
    (values_out : Z -> Q) : result (Z -> Q) :=
  let '(value, weight_) := slice_sums matrix table idx in
  do w <- reciprocal weight_;
  Ret (for_up (vd - 1)
         (fun j out => upd out (idx * (Z.of_nat vd - 1) + j) (value j * w)%Q)
         values_out).

Definition slice (n : nat) (values_out : Z -> Q) (matrix : Z -> MatrixEntry)
    (table : HashTableGPU) : result (Z -> Q) :=
  for_upM n (slice_thread matrix table) values_out.

End Kernels.

(** ** The lattice object *)

Record PermutohedralLatticeGPU : Type := mkLattice {
  n : Z;
  canonical : Z -> Z;
  scaleFactor : Z -> Q;
  matrix : Z -> MatrixEntry;
  hashTable : HashTableGPU;
  newValues : Z -> Q
}.

(** [HashTableGPU(capacity_)]: values and keys zeroed, entries set to -1. *)
Definition new_table (capacity_ : Z) : HashTableGPU :=
  mkTable capacity_ (fun _ => 0%Q) (fun _ => 0) (fun _ => -1).

Definition capacity_message : string :=
  "Not enough GPU memory (on x axis, you can change the code to use other grid dims)".

Section Lattice.

Variable pd : nat.
Variable vd : nat.

(** The square root of the math library, on [T]. *)
Variable sqrtT : Q -> Q.

Definition init_canonical : Z -> Z :=
  for_up (S pd)
    (fun i c =>
       let c := for_up (S pd - Z.to_nat i)
                  (fun j c => upd c (i * pd1 pd + j) i) c in
       for_up (Z.to_nat i)
         (fun k c => let j := Z.of_nat pd - i + 1 + k in
                     upd c (i * pd1 pd + j) (i - pd1 pd)) c)
    (fun _ => 0).

Definition init_scaleFactor : Z -> Q :=
  let inv_std_dev := (inject_Z (pd1 pd) * sqrtT (2 / 3))%Q in
  for_up pd
    (fun i sf =>
       upd sf i (1 / sqrtT (inject_Z (i + 1) * inject_Z (i + 2)) * inv_std_dev)%Q)
    (fun _ => 0%Q).

(** The constructor, lines 492-516, with what it prints.  Device memory
    that [cudaMalloc] leaves uninitialised ([matrix]) starts as zeros. *)
Definition new_lattice (n_ : Z) : list string * PermutohedralLatticeGPU :=
  let out :=
    if 65535 * Z.of_nat BLOCK_SIZE <=? n_ then [capacity_message] else [] in
  (out,
   mkLattice n_ init_canonical init_scaleFactor
     (fun _ => mkEntry 0 0%Q)
     (new_table (n_ * pd1 pd))
     (fun _ => 0%Q)).

(** One round of the loop of lines 544-548 on the pair
    [(hashTable, newValues)]: the kernel, then
    [std::swap(hashTable.values, newValues)]. *)
Definition blur_round (fuel : nat) (n : nat) (matrix : Z -> MatrixEntry)
    (remainder : Z) (st : HashTableGPU * (Z -> Q)) : result (HashTableGPU * (Z -> Q)) :=
  let '(table, newValues) := st in
  do out <- blur pd vd fuel (n * S pd) newValues matrix remainder table;
  Ret (set_values table out, values table).

(** The rounds, in the order [0..pd], or [pd..0] when [reverse] is set. *)
Definition blur_rounds (fuel : nat) (n : nat) (reverse : bool)
    (matrix : Z -> MatrixEntry) (table : HashTableGPU) (newValues : Z -> Q)
    : result (HashTableGPU * (Z -> Q)) :=
  for_upM (S pd)
    (fun k st =>
       blur_round fuel n matrix (if reverse then Z.of_nat pd - k else k) st)
    (table, newValues).

(** The member function [filter], lines 527-552. *)
Definition lattice_filter (fuel : nat) (L : PermutohedralLatticeGPU)
    (output inputs positions : Z -> Q) (reverse : bool)
    : result ((Z -> Q) * PermutohedralLatticeGPU) :=
  do (table, matrix) <-
    createLattice pd fuel (Z.to_nat (n L)) positions (scaleFactor L) (matrix L) (hashTable L);
  do table <- cleanHashTable pd fuel (Z.to_nat (2 * n L * pd1 pd)) table;
  let '(matrix, table) := splatCache pd vd (n L) inputs matrix table in
  do (table, newValues) <-
    blur_rounds fuel (Z.to_nat (n L)) reverse matrix table (newValues L);
  do output <- slice pd vd (Z.to_nat (n L)) output matrix table;
  Ret (output, mkLattice (n L) (canonical L) (scaleFactor L) matrix table newValues).

(** The function [filter], lines 557-562: what is printed by the
    constructor, and the output buffer. *)
Definition filter (fuel : nat) (output input positions : Z -> Q) (n : Z) (reverse : bool)
    : list string * result (Z -> Q) :=
  let '(out, lattice) := new_lattice n in
  (out,
   do (output, _) <- lattice_filter fuel lattice output input positions reverse;
   Ret output).

End Lattice.

(** ** Positions from pixel coordinates *)

(** [for (int i = n - 1; i >= 0; i--) body], with a body that may fail to
    return. *)
Definition for_downM {S : Type} (n : nat) (body : Z -> S -> result S) (s : S) : result S :=
  fold_left (fun acc i => bind acc (body (Z.of_nat i))) (rev (seq 0 n)) (Ret s).

(** [x / y] on [T]; a zero divisor has no quotient in [Q] and is made
    explicit, as in [reciprocal]. *)
Definition divide (x y : Q) : result Q :=
  if Qeq_bool y 0 then DivByZero else Ret (x / y)%Q.

(** One thread of [compute_kernel], lines 578-587.  The [int] operators [/]
    and [%] truncate; a zero right operand is made explicit. *)
Definition compute_kernel_thread (reference : Z -> Q) (reference_channels n_sdims : Z)
    (sdims : Z -> Z) (spatial_std feature_std : Q) (idx : Z) (positions : Z -> Q)
    : result (Z -> Q) :=
  let num_dims := n_sdims + reference_channels in
  do (_, positions) <-
    for_downM (Z.to_nat n_sdims)
      (fun sdim '(divisor, positions) =>
         if (divisor =? 0) || (sdims sdim =? 0) then DivByZero
         else
           do p <- divide (inject_Z (Z.rem (Z.quot idx divisor) (sdims sdim))) spatial_std;
           Ret (divisor * sdims sdim, upd positions (num_dims * idx + sdim) p))
      (1, positions);
  for_upM (Z.to_nat reference_channels)
    (fun channel positions =>
       do p <- divide (reference (idx * reference_channels + channel)) feature_std;
       Ret (upd positions (num_dims * idx + n_sdims + channel) p))
    positions.

Definition compute_kernel (reference positions : Z -> Q)
    (num_super_pixels reference_channels n_sdims : Z) (sdims : Z -> Z)
    (spatial_std feature_std : Q) : result (Z -> Q) :=
  for_upM (Z.to_nat num_super_pixels)
    (compute_kernel_thread reference reference_channels n_sdims sdims spatial_std feature_std)
    positions.

(** * Properties *)

(** ** Loops and buffers *)

Lemma for_up_S {S : Type} (n : nat) (body : Z -> S -> S) (s : S) :
  for_up (Datatypes.S n) body s = body (Z.of_nat n) (for_up n body s).
Proof.
  unfold for_up. rewrite seq_S, fold_left_app. reflexivity.
Qed.

Lemma for_up_0 {S : Type} (body : Z -> S -> S) (s : S) : for_up 0 body s = s.
Proof. reflexivity. Qed.

(** Loop invariants: [P k s] holds after [k] iterations. *)
Lemma for_up_ind {S : Type} (P : nat -> S -> Prop) (body : Z -> S -> S) (s : S) (n : nat) :
  P O s ->
  (forall k acc, (k < n)%nat -> P k acc -> P (Datatypes.S k) (body (Z.of_nat k) acc)) ->
  P n (for_up n body s).
Proof.
  intros H0 Hstep. induction n as [|n IH].
  - exact H0.
  - rewrite for_up_S. apply Hstep; [lia|]. apply IH. intros; apply Hstep; [lia|assumption].
Qed.

Lemma upd_same {A : Type} (m : Z -> A) i v : upd m i v i = v.
Proof. unfold upd. now rewrite Z.eqb_refl. Qed.

Lemma upd_other {A : Type} (m : Z -> A) i v k : k <> i -> upd m i v k = m k.
Proof. unfold upd. intros H. apply Z.eqb_neq in H. now rewrite H. Qed.

Lemma all_below_spec (n : nat) (p : Z -> bool) :
  all_below n p = true <-> forall i, 0 <= i < Z.of_nat n -> p i = true.
Proof.
  unfold all_below. rewrite forallb_forall. split.
  - intros H i Hi. replace i with (Z.of_nat (Z.to_nat i)) by lia.
    apply H, in_seq. lia.
  - intros H i Hi. apply in_seq in Hi. apply H. lia.
Qed.

(** ** The hash function *)

(** Sum of [key i * m^(n-i)] for [i < n]. *)
Fixpoint weighted_key_sum (n : nat) (key : Z -> Z) : Z :=
  match n with
  | O => 0
  | S n' => (weighted_key_sum n' key + key (Z.of_nat n')) * hash_multiplier
  end.

Lemma hash_closed_form (pd : nat) (key : Z -> Z) :
  hash pd key = to_uint (weighted_key_sum pd key).
Proof.
  unfold hash. induction pd as [|n IH].
  - reflexivity.
  - rewrite for_up_S, IH. cbn [weighted_key_sum]. unfold to_uint.
    rewrite Z.mul_mod_idemp_l by lia.
    rewrite <- (Z.mul_mod_idemp_l (_ mod _ + _)) by lia.
    rewrite Z.add_mod_idemp_l by lia.
    rewrite Z.mul_mod_idemp_l by lia. reflexivity.
Qed.

Lemma hash_as_specified_relation (pd : nat) (key : Z -> Z) :
  hash pd key = to_uint (hash_multiplier * hash_as_specified pd key).
Proof.
  unfold hash, hash_as_specified. induction pd as [|n IH].
  - reflexivity.
  - rewrite !for_up_S, IH. unfold to_uint.
    rewrite Z.mul_mod_idemp_l by lia.
    rewrite Z.mul_mod_idemp_r by lia.
    rewrite <- (Z.mul_mod_idemp_l (_ mod _ + _)) by lia.
    rewrite Z.add_mod_idemp_l by lia.
    rewrite Z.mul_mod_idemp_l by lia.
    f_equal. ring.
Qed.

Lemma hash_range (pd : nat) (key : Z -> Z) : 0 <= hash pd key < 2 ^ 32.
Proof.
  rewrite hash_closed_form. unfold to_uint. apply Z.mod_pos_bound. lia.
Qed.

(** C7, as stated, fails: on the one-coordinate key [1] the code's hash is
    2531011 while the polynomial [k = k*2531011 + key[i]] gives 1. *)
Lemma hash_is_not_the_specified_polynomial :
  hash 1 (fun _ => 1) = 2531011 /\ hash_as_specified 1 (fun _ => 1) = 1.
Proof. split; reflexivity. Qed.

(** C7, amended: the hash iterates [k = (k + key[i]) * 2531011] in
    32-bit unsigned arithmetic, that is, it is [2531011] times the
    specified polynomial, equal to the sum of [key[i] * 2531011^(pd-i)]
    modulo [2^32]; the probe start index is that hash modulo
    [2*capacity]. *)
Theorem hash_add_then_multiply (pd : nat) (t : HashTableGPU) (key : Z -> Z) (fuel : nat) :
  hash pd key = to_uint (weighted_key_sum pd key) /\
  hash pd key = to_uint (hash_multiplier * hash_as_specified pd key) /\
  (forall n, hash (S n) key = to_uint (to_uint (hash n key + key (Z.of_nat n)) * 2531011)) /\
  modHash t (hash pd key) = hash pd key mod (2 * capacity t) /\
  insert pd fuel t key = (fun slot => insert_loop pd fuel t key slot (hash pd key mod (2 * capacity t))) /\
  retrieve pd fuel t key = retrieve_loop pd fuel t key (hash pd key mod (2 * capacity t)).
Proof.
  repeat split.
  - apply hash_closed_form.
  - apply hash_as_specified_relation.
  - intros n. unfold hash. now rewrite for_up_S.
Qed.

(** ** Sequential insert and retrieve *)

(** Copying [n] elements into a buffer at [base]. *)
Lemma for_up_fill {A : Type} (n : nat) (base : Z) (src : Z -> A) (m : Z -> A) (k : Z) :
  for_up n (fun i ks => upd ks (base + i) (src i)) m k =
  if (base <=? k) && (k <? base + Z.of_nat n) then src (k - base) else m k.
Proof.
  induction n as [|n IH].
  - rewrite for_up_0.
    destruct (Z.leb_spec base k), (Z.ltb_spec k (base + Z.of_nat 0));
      cbn [andb]; try reflexivity. lia.
  - rewrite for_up_S. unfold upd at 1.
    destruct (Z.eqb_spec k (base + Z.of_nat n)) as [->|Hne].
    + destruct (Z.leb_spec base (base + Z.of_nat n)); [|lia].
      destruct (Z.ltb_spec (base + Z.of_nat n) (base + Z.of_nat (S n))); [|lia].
      cbn [andb]. f_equal. lia.
    + rewrite IH.
      destruct (Z.leb_spec base k); cbn [andb]; [|reflexivity].
      destruct (Z.ltb_spec k (base + Z.of_nat n)), (Z.ltb_spec k (base + Z.of_nat (S n)));
        try reflexivity; lia.
Qed.

Section TableFacts.

Variable pd : nat.

(** A table as sequential code sees it: no bucket is locked. *)
Definition unlocked (t : HashTableGPU) : Prop := forall p, entries t p <> -2.

Lemma set_entries_same (t : HashTableGPU) : set_entries t (entries t) = t.
Proof. destruct t; reflexivity. Qed.

Lemma write_key_keys (t : HashTableGPU) (slot : Z) (key : Z -> Z) (k : Z) :
  keys (write_key pd t slot key) k =
  if (slot * Z.of_nat pd <=? k) && (k <? slot * Z.of_nat pd + Z.of_nat pd)
  then key (k - slot * Z.of_nat pd) else keys t k.
Proof.
  unfold write_key. cbn [keys set_keys]. apply for_up_fill.
Qed.

Lemma key_match_spec (t : HashTableGPU) (c : Z) (key : Z -> Z) :
  key_match pd t c key = true <->
  forall i, 0 <= i < Z.of_nat pd -> keys t (c * Z.of_nat pd + i) = key i.
Proof.
  unfold key_match. rewrite all_below_spec. split; intros H i Hi.
  - apply Z.eqb_eq, H, Hi.
  - apply Z.eqb_eq, H, Hi.
Qed.

(** [key_match] only reads the [pd] cells of slot [c]. *)
Lemma key_match_ext (t t' : HashTableGPU) (c : Z) (key : Z -> Z) :
  (forall i, 0 <= i < Z.of_nat pd ->
     keys t' (c * Z.of_nat pd + i) = keys t (c * Z.of_nat pd + i)) ->
  key_match pd t' c key = key_match pd t c key.
Proof.
  intros H. apply eq_true_iff_eq. rewrite !key_match_spec.
  split; intros M i Hi; [rewrite <- H | rewrite H]; auto.
Qed.

Lemma key_match_written (t : HashTableGPU) (slot : Z) (key : Z -> Z) :
  key_match pd (write_key pd t slot key) slot key = true.
Proof.
  apply key_match_spec. intros i Hi. rewrite write_key_keys.
  destruct (Z.leb_spec (slot * Z.of_nat pd) (slot * Z.of_nat pd + i)); [|lia].
  destruct (Z.ltb_spec (slot * Z.of_nat pd + i) (slot * Z.of_nat pd + Z.of_nat pd)); [|lia].
  cbn [andb]. f_equal. lia.
Qed.

Lemma write_key_other_slot (t : HashTableGPU) (slot c : Z) (key : Z -> Z) (i : Z) :
  c <> slot -> 0 <= i < Z.of_nat pd ->
  keys (write_key pd t slot key) (c * Z.of_nat pd + i) = keys t (c * Z.of_nat pd + i).
Proof.
  intros Hc Hi. rewrite write_key_keys.
  destruct (Z.leb_spec (slot * Z.of_nat pd) (c * Z.of_nat pd + i)); cbn [andb]; [|reflexivity].
  destruct (Z.ltb_spec (c * Z.of_nat pd + i) (slot * Z.of_nat pd + Z.of_nat pd)); [|reflexivity].
  exfalso. nia.
Qed.

Lemma key_match_other_slot (t : HashTableGPU) (slot c : Z) (key key' : Z -> Z) :
  c <> slot ->
  key_match pd (write_key pd t slot key) c key' = key_match pd t c key'.
Proof.
  intros Hc. apply key_match_ext. intros i Hi. now apply write_key_other_slot.
Qed.

(** What one call of [insert] does to the table: either it claims the empty
    bucket it returns and stores the key in [slot], or it finds the key and
    leaves the table as it is. *)
Inductive insert_effect (t : HashTableGPU) (key : Z -> Z) (slot h : Z)
    (t' : HashTableGPU) : Prop :=
| Claimed :
    entries t h = -1 ->
    capacity t' = capacity t ->
    values t' = values t ->
    keys t' = keys (write_key pd t slot key) ->
    (forall p, entries t' p = if Z.eqb p h then slot else entries t p) ->
    insert_effect t key slot h t'
| Found :
    entries t h <> -1 ->
    key_match pd t (entries t h) key = true ->
    t' = t ->
    insert_effect t key slot h t'.

Lemma insert_loop_effect (fuel : nat) (t : HashTableGPU) (key : Z -> Z)
    (slot h0 h : Z) (t' : HashTableGPU) :
  unlocked t ->
  insert_loop pd fuel t key slot h0 = Ret (h, t') ->
  insert_effect t key slot h t'.
Proof.
  intros Hu. revert h0. induction fuel as [|fuel IH]; intros h0 H; [discriminate|].
  cbn [insert_loop] in H. unfold atomicCAS in H.
  destruct (Z.eqb_spec (entries t h0) (-2)) as [E2|_]; [now apply Hu in E2|].
  destruct (Z.eqb_spec (entries t h0) (-1)) as [E1|N1].
  - injection H as <- <-. apply Claimed; auto.
    intros p. cbn. unfold atomicExch, upd.
    destruct (Z.eqb p h0); reflexivity.
  - rewrite set_entries_same in H.
    destruct (key_match pd t (entries t h0) key) eqn:M.
    + injection H as <- <-. now apply Found.
    + eapply IH, H.
Qed.

Lemma insert_effect_capacity t key slot h t' :
  insert_effect t key slot h t' -> capacity t' = capacity t.
Proof. intros [? C _ _ _|_ _ ->]; auto. Qed.

Lemma insert_loop_retrieve_loop (fuel : nat) (t : HashTableGPU) (key : Z -> Z)
    (slot h0 h : Z) (t' : HashTableGPU) :
  unlocked t ->
  insert_loop pd fuel t key slot h0 = Ret (h, t') ->
  retrieve_loop pd fuel t' key h0 = Ret (entries t' h).
Proof.
  intros Hu. revert h0. induction fuel as [|fuel IH]; intros h0 H; [discriminate|].
  pose proof (insert_loop_effect _ _ _ _ _ _ _ Hu H) as Eff.
  cbn [insert_loop] in H. unfold atomicCAS in H.
  destruct (Z.eqb_spec (entries t h0) (-2)) as [E2|_]; [now apply Hu in E2|].
  destruct (Z.eqb_spec (entries t h0) (-1)) as [E1|N1].
  - injection H as <- <-. cbn [retrieve_loop].
    replace (entries _ h0) with slot by (cbn; unfold atomicExch; now rewrite upd_same).
    destruct (Z.eqb slot (-1)) eqn:S1.
    + apply Z.eqb_eq in S1. now subst.
    + replace (key_match pd _ slot key) with true; [reflexivity|].
      symmetry. erewrite key_match_ext; [apply (key_match_written t slot key)|].
      reflexivity.
  - rewrite set_entries_same in H.
    destruct (key_match pd t (entries t h0) key) eqn:M.
    + injection H as <- <-. cbn [retrieve_loop].
      apply Z.eqb_neq in N1. now rewrite N1, M.
    + specialize (IH _ H). cbn [retrieve_loop].
      destruct Eff as [Eh Cap _ Ks Es | _ _ ->].
      * assert (h0 <> h) by congruence.
        rewrite (Es h0). replace (h0 =? h) with false by (symmetry; now apply Z.eqb_neq).
        apply Z.eqb_neq in N1. rewrite N1.
        destruct (Z.eq_dec (entries t h0) slot) as [Es'|Ns].
        -- replace (key_match pd t' (entries t h0) key) with true.
           ++ rewrite (Es h), Z.eqb_refl. now rewrite Es'.
           ++ symmetry. rewrite Es'.
              erewrite key_match_ext; [apply (key_match_written t slot key)|].
              intros i Hi. now rewrite Ks.
        -- replace (key_match pd t' (entries t h0) key) with false.
           ++ unfold next_bucket in *. now rewrite Cap.
           ++ symmetry. rewrite <- M. rewrite <- (key_match_other_slot t slot _ key key Ns).
              apply key_match_ext. intros i Hi. now rewrite Ks.
      * apply Z.eqb_neq in N1. now rewrite N1, M.
Qed.

(** *** Termination of the probe loops *)

Lemma next_bucket_range (t : HashTableGPU) (h : Z) :
  0 <= h < 2 * capacity t -> 0 <= next_bucket t h < 2 * capacity t.
Proof.
  unfold next_bucket. intros Hh. destruct (Z.eqb_spec (h + 1) (capacity t * 2)); lia.
Qed.

Lemma next_bucket_mod (t : HashTableGPU) (h : Z) :
  0 <= h < 2 * capacity t -> next_bucket t h = (h + 1) mod (2 * capacity t).
Proof.
  unfold next_bucket. intros Hh. destruct (Z.eqb_spec (h + 1) (capacity t * 2)) as [E|N].
  - replace (2 * capacity t) with (h + 1) by lia. rewrite Z.mod_same; lia.
  - rewrite Z.mod_small; lia.
Qed.

Lemma iter_next_bucket (t : HashTableGPU) (d : nat) (h : Z) :
  0 <= h < 2 * capacity t ->
  Nat.iter d (next_bucket t) h = (h + Z.of_nat d) mod (2 * capacity t).
Proof.
  intros Hh. induction d as [|d IH].
  - simpl Nat.iter. change (Z.of_nat 0) with 0. rewrite Z.add_0_r.
    symmetry. apply Z.mod_small. lia.
  - simpl Nat.iter. rewrite IH. rewrite next_bucket_mod by (apply Z.mod_pos_bound; lia).
    rewrite Z.add_mod_idemp_l by lia. f_equal. lia.
Qed.

(** Every bucket is reached from every start within [2*capacity] steps. *)
Lemma bucket_reached (t : HashTableGPU) (h p : Z) :
  0 <= h < 2 * capacity t -> 0 <= p < 2 * capacity t ->
  exists d, (d < Z.to_nat (2 * capacity t))%nat /\ Nat.iter d (next_bucket t) h = p.
Proof.
  intros Hh Hp. exists (Z.to_nat ((p - h) mod (2 * capacity t))).
  pose proof (Z.mod_pos_bound (p - h) (2 * capacity t) ltac:(lia)) as B.
  split; [lia|]. rewrite iter_next_bucket by lia. rewrite Z2Nat.id by lia.
  rewrite Z.add_mod_idemp_r by lia. replace (h + (p - h)) with p by lia.
  apply Z.mod_small; lia.
Qed.

(** The bucket at which a probe for [key] stops. *)
Definition stops_at (t : HashTableGPU) (key : Z -> Z) (p : Z) : Prop :=
  entries t p = -1 \/ key_match pd t (entries t p) key = true.

Lemma retrieve_loop_terminates (t : HashTableGPU) (key : Z -> Z) (d fuel : nat) (h : Z) :
  (d < fuel)%nat -> stops_at t key (Nat.iter d (next_bucket t) h) ->
  exists r, retrieve_loop pd fuel t key h = Ret r.
Proof.
  revert fuel h. induction d as [|d IH]; intros [|fuel] h Hd Hs; try lia;
    cbn [retrieve_loop].
  - destruct (Z.eqb_spec (entries t h) (-1)); [eauto|].
    destruct Hs as [Hs|Hs]; simpl Nat.iter in Hs; [contradiction|].
    rewrite Hs. eauto.
  - destruct (Z.eqb (entries t h) (-1)); [eauto|].
    destruct (key_match pd t (entries t h) key); [eauto|].
    apply IH; [lia|]. now rewrite <- Nat.iter_succ_r.
Qed.

Lemma insert_loop_terminates (t : HashTableGPU) (key : Z -> Z) (slot : Z)
    (d fuel : nat) (h : Z) :
  unlocked t ->
  (d < fuel)%nat -> stops_at t key (Nat.iter d (next_bucket t) h) ->
  exists r, insert_loop pd fuel t key slot h = Ret r.
Proof.
  intros Hu. revert fuel h. induction d as [|d IH]; intros [|fuel] h Hd Hs; try lia;
    cbn [insert_loop]; unfold atomicCAS;
    (destruct (Z.eqb_spec (entries t h) (-2)) as [E2|_]; [now apply Hu in E2|]);
    (destruct (Z.eqb_spec (entries t h) (-1)) as [E1|N1]; [eauto|]);
    rewrite set_entries_same.
  - destruct Hs as [Hs|Hs]; simpl Nat.iter in Hs; [contradiction|].
    rewrite Hs. eauto.
  - destruct (key_match pd t (entries t h) key); [eauto|].
    apply IH; [lia|]. now rewrite <- Nat.iter_succ_r.
Qed.

(** A table all of whose buckets hold other keys. *)
Definition full_without (t : HashTableGPU) (key : Z -> Z) : Prop :=
  forall p, 0 <= p < 2 * capacity t ->
    entries t p <> -1 /\ key_match pd t (entries t p) key = false.

Lemma retrieve_loop_spins (t : HashTableGPU) (key : Z -> Z) (fuel : nat) (h : Z) :
  full_without t key -> 0 <= h < 2 * capacity t ->
  retrieve_loop pd fuel t key h = OutOfFuel.
Proof.
  intros Hf. revert h. induction fuel as [|fuel IH]; intros h Hh; [reflexivity|].
  cbn [retrieve_loop]. destruct (Hf h Hh) as [N1 M].
  apply Z.eqb_neq in N1. rewrite N1, M. apply IH. now apply next_bucket_range.
Qed.

Lemma insert_loop_spins (t : HashTableGPU) (key : Z -> Z) (slot : Z) (fuel : nat) (h : Z) :
  unlocked t -> full_without t key -> 0 <= h < 2 * capacity t ->
  insert_loop pd fuel t key slot h = OutOfFuel.
Proof.
  intros Hu Hf. revert h. induction fuel as [|fuel IH]; intros h Hh; [reflexivity|].
  cbn [insert_loop]. unfold atomicCAS. destruct (Hf h Hh) as [N1 M].
  destruct (Z.eqb_spec (entries t h) (-2)) as [E2|_]; [now apply Hu in E2|].
  apply Z.eqb_neq in N1. rewrite N1. rewrite set_entries_same, M.
  apply IH. now apply next_bucket_range.
Qed.

Lemma modHash_range (t : HashTableGPU) (n : Z) :
  0 < capacity t -> 0 <= modHash t n < 2 * capacity t.
Proof. intros. apply Z.mod_pos_bound. lia. Qed.

End TableFacts.

(** [insert] followed at once by [retrieve] of the same key: the pair of
    the two returned indices. *)
Definition insert_then_retrieve (pd fuel : nat) (t : HashTableGPU)
    (key : Z -> Z) (slot : Z) : result (Z * Z) :=
  do (h, t') <- insert pd fuel t key slot;
  do r <- retrieve pd fuel t' key;
  Ret (h, r).

(** C1, as stated, fails: in a fresh table of capacity 1 the key [1] hashes
    to bucket 1; [insert] with slot 0 returns the bucket index 1, and
    [retrieve] returns the slot 0 stored in that bucket. *)
Lemma retrieve_returns_slot_not_bucket :
  insert_then_retrieve 1 2 (new_table 1) (fun _ => 1) 0 = Ret (1, 0).
Proof. reflexivity. Qed.

(** The table left by a call of [insert] ([t] itself while it spins). *)
Definition table_after {A : Type} (r : result (A * HashTableGPU)) (t : HashTableGPU)
    : HashTableGPU :=
  match r with
  | Ret (_, t') => t'
  | _ => t
  end.

(** A table of capacity 1 whose two buckets both own slot 0, holding key [6]. *)
Definition full_table : HashTableGPU :=
  mkTable 1 (fun _ => 0%Q) (fun _ => 6) (fun _ => 0).

Lemma full_table_full : full_without 1 full_table (fun _ => 7).
Proof. intros p Hp. split; [cbn; lia | reflexivity]. Qed.

Lemma full_table_unlocked : unlocked full_table.
Proof. intros p. cbn. lia. Qed.

(** C9, as stated, fails: probing the full table for the absent key [7]
    wraps from the last bucket to bucket 0 and is still running after any
    number of steps, for [retrieve] and for [insert]; no error is raised. *)
Lemma probe_of_full_table_spins :
  next_bucket full_table 1 = 0 /\
  (forall fuel, retrieve 1 fuel full_table (fun _ => 7) = OutOfFuel) /\
  (forall fuel, insert 1 fuel full_table (fun _ => 7) 0 = OutOfFuel).
Proof.
  split; [reflexivity|]. split; intros fuel.
  - apply retrieve_loop_spins; [apply full_table_full|].
    apply modHash_range. reflexivity.
  - apply insert_loop_spins; [apply full_table_unlocked | apply full_table_full|].
    apply modHash_range. reflexivity.
Qed.

(** C9, amended: the probe index of [insert] and [retrieve] wraps around
    from the last bucket to bucket 0 and no error is raised.  On a table
    without locked buckets the loops return within [2*capacity] steps when
    some bucket is empty or holds the key, and never return when all
    [2*capacity] buckets are occupied by other keys. *)
Theorem probe_loop_wraps_around (pd : nat) (t : HashTableGPU) (key : Z -> Z) (slot : Z) :
  0 < capacity t ->
  unlocked t ->
  next_bucket t (2 * capacity t - 1) = 0 /\
  ((exists p, 0 <= p < 2 * capacity t /\ stops_at pd t key p) ->
     (exists r, retrieve pd (Z.to_nat (2 * capacity t)) t key = Ret r) /\
     (exists r, insert pd (Z.to_nat (2 * capacity t)) t key slot = Ret r)) /\
  (full_without pd t key ->
     forall fuel, retrieve pd fuel t key = OutOfFuel /\
                  insert pd fuel t key slot = OutOfFuel).
Proof.
  intros Hc Hu. split; [|split].
  - unfold next_bucket. destruct (Z.eqb_spec (2 * capacity t - 1 + 1) (capacity t * 2)); lia.
  - intros (p & Hp & Hs).
    destruct (bucket_reached t (modHash t (hash pd key)) p) as (d & Hd & <-);
      [now apply modHash_range | assumption |].
    split.
    + eapply retrieve_loop_terminates; eauto.
    + eapply insert_loop_terminates; eauto.
  - intros Hf fuel. split.
    + apply retrieve_loop_spins; [assumption | now apply modHash_range].
    + apply insert_loop_spins; [assumption | assumption | now apply modHash_range].
Qed.

Lemma probe_loop_wraps_around_witness :
  next_bucket (new_table 1) (2 * capacity (new_table 1) - 1) = 0 /\
  ((exists p, 0 <= p < 2 * capacity (new_table 1) /\ stops_at 1 (new_table 1) (fun _ => 7) p) ->
     (exists r, retrieve 1 (Z.to_nat (2 * capacity (new_table 1))) (new_table 1) (fun _ => 7) = Ret r) /\
     (exists r, insert 1 (Z.to_nat (2 * capacity (new_table 1))) (new_table 1) (fun _ => 7) 0 = Ret r)) /\
  (full_without 1 (new_table 1) (fun _ => 7) ->
     forall fuel, retrieve 1 fuel (new_table 1) (fun _ => 7) = OutOfFuel /\
                  insert 1 fuel (new_table 1) (fun _ => 7) 0 = OutOfFuel).
Proof.
  apply (probe_loop_wraps_around 1 (new_table 1) (fun _ => 7) 0).
  - reflexivity.
  - intros p. cbn. lia.
Defined.

(** ** The lattice embedder: elevation *)

(** Sum of [f 0 .. f (n-1)]. *)
Fixpoint sumQ (f : Z -> Q) (n : nat) : Q :=
  match n with
  | O => 0
  | S n' => sumQ f n' + f (Z.of_nat n')
  end.

Fixpoint sumZ (f : Z -> Z) (n : nat) : Z :=
  match n with
  | O => 0
  | S n' => sumZ f n' + f (Z.of_nat n')
  end.

Lemma for_down_S {S : Type} (n : nat) (body : Z -> S -> S) (s : S) :
  for_down (Datatypes.S n) body s = for_down n body (body (Z.of_nat (Datatypes.S n)) s).
Proof.
  unfold for_down. rewrite seq_S, rev_app_distr. reflexivity.
Qed.

(** The scaled coordinate [position[j] * scaleFactor[j]]. *)
Definition scaled (position scaleFactor : Z -> Q) (j : Z) : Q :=
  position j * scaleFactor j.

Definition elevate_body (position scaleFactor : Z -> Q) (i : Z) (st : Q * (Z -> Q))
    : Q * (Z -> Q) :=
  let '(sm, elevated) := st in
  let cf := (position (i - 1)%Z * scaleFactor (i - 1)%Z)%Q in
  ((sm + cf)%Q, upd elevated i (sm - inject_Z i * cf)%Q).

Lemma elevate_loop_spec (position scaleFactor : Z -> Q) (n : nat) (sm0 : Q) (el0 : Z -> Q) :
  let c := scaled position scaleFactor in
  let r := for_down n (elevate_body position scaleFactor) (sm0, el0) in
  fst r == sm0 + sumQ c n /\
  (forall i, 1 <= i <= Z.of_nat n ->
     snd r i == sm0 + (sumQ c n - sumQ c (Z.to_nat i)) - inject_Z i * c (i - 1)) /\
  (forall i, ~ (1 <= i <= Z.of_nat n) -> snd r i = el0 i) /\
  sumQ (fun i => snd r (i + 1)) n + fst r == inject_Z (Z.of_nat n + 1) * sm0.
Proof.
  cbv zeta. revert sm0 el0. induction n as [|n IH]; intros sm0 el0.
  - cbn. repeat split; try ring; intros; lia.
  - rewrite for_down_S. cbn [elevate_body].
    replace (Z.of_nat (S n) - 1) with (Z.of_nat n) by lia.
    fold (scaled position scaleFactor (Z.of_nat n)).
    set (c := scaled position scaleFactor) in *.
    specialize (IH (sm0 + c (Z.of_nat n))%Q
                  (upd el0 (Z.of_nat (S n)) (sm0 - inject_Z (Z.of_nat (S n)) * c (Z.of_nat n))%Q)).
    destruct IH as (IH1 & IH2 & IH3 & IH4).
    set (r := for_down n _ _) in *.
    repeat split.
    + rewrite IH1. cbn [sumQ]. ring.
    + intros i Hi. destruct (Z.eq_dec i (Z.of_nat (S n))) as [->|Hne].
      * rewrite IH3 by lia. rewrite upd_same. rewrite Nat2Z.id.
        replace (Z.of_nat (S n) - 1) with (Z.of_nat n) by lia. ring.
      * rewrite IH2 by lia. cbn [sumQ]. ring.
    + intros i Hi. rewrite IH3 by lia. apply upd_other. lia.
    + cbn [sumQ]. rewrite (IH3 (Z.of_nat n + 1)) by lia.
      replace (Z.of_nat n + 1) with (Z.of_nat (S n)) at 1 by lia. rewrite upd_same.
      transitivity (sumQ (fun i : Z => snd r (i + 1)%Z) n + fst r
                    + (sm0 - inject_Z (Z.of_nat (S n)) * c (Z.of_nat n)))%Q; [ring|].
      rewrite IH4. rewrite !inject_Z_plus, Nat2Z.inj_succ.
      unfold Z.succ. rewrite !inject_Z_plus. ring.
Qed.

Lemma elevate_unfold (pd : nat) (position scaleFactor : Z -> Q) :
  elevate pd position scaleFactor =
  upd (snd (for_down pd (elevate_body position scaleFactor) (0%Q, fun _ => 0%Q))) 0
      (fst (for_down pd (elevate_body position scaleFactor) (0%Q, fun _ => 0%Q))).
Proof.
  unfold elevate. fold (elevate_body position scaleFactor).
  destruct (for_down pd _ _). reflexivity.
Qed.

Lemma sumQ_ext (f g : Z -> Q) (n : nat) :
  (forall i, 0 <= i < Z.of_nat n -> f i == g i) -> sumQ f n == sumQ g n.
Proof.
  induction n as [|n IH]; intros H; [reflexivity|].
  cbn [sumQ]. rewrite IH, (H (Z.of_nat n)) by (try intros; try apply H; lia). reflexivity.
Qed.

(** Splitting off the first term. *)
Lemma sumQ_shift (f : Z -> Q) (n : nat) :
  sumQ f (S n) == f 0 + sumQ (fun i => f (i + 1)) n.
Proof.
  induction n as [|n IH].
  - cbn. ring.
  - cbn [sumQ] in *. rewrite IH.
    replace (Z.of_nat n + 1) with (Z.of_nat (S n)) by lia. ring.
Qed.

(** The elevated coordinates lie on the hyperplane of zero sum. *)
Lemma elevate_sum_zero (pd : nat) (position scaleFactor : Z -> Q) :
  sumQ (elevate pd position scaleFactor) (S pd) == 0.
Proof.
  rewrite sumQ_shift, elevate_unfold.
  destruct (elevate_loop_spec position scaleFactor pd 0 (fun _ => 0%Q)) as (_ & _ & _ & H4).
  cbv zeta in H4. set (r := for_down pd _ _) in *.
  rewrite upd_same.
  rewrite (sumQ_ext _ (fun i => snd r (i + 1))).
  - rewrite Qplus_comm, H4. ring.
  - intros i Hi. rewrite upd_other by lia. reflexivity.
Qed.

(** C6, as stated, fails: for [pd = 1], position [1] and scale factor [1]
    the sum of the scaled coordinates is 1, and [elevated[pd]] is -1
    (it is [elevated[0]] that holds the sum). *)
Lemma elevated_pd_is_not_the_sum :
  sumQ (scaled (fun _ => 1%Q) (fun _ => 1%Q)) 1 == 1 /\
  elevate 1 (fun _ => 1%Q) (fun _ => 1%Q) 1 == - (1) /\
  elevate 1 (fun _ => 1%Q) (fun _ => 1%Q) 0 == 1.
Proof. repeat split. Qed.

(** C6, amended: [elevated[0]] is the sum of the [pd] scaled coordinates,
    and for [i] from [pd] down to 1, [elevated[i]] is the running sum of
    the scaled coordinates of index [i] and above, minus [i] times the
    scaled coordinate of index [i-1]; the running sum is updated after each
    step. *)
Theorem elevate_spec (pd : nat) (position scaleFactor : Z -> Q) :
  let c := scaled position scaleFactor in
  let elevated := elevate pd position scaleFactor in
  elevated 0 == sumQ c pd /\
  forall i : nat, (1 <= i <= pd)%nat ->
    elevated (Z.of_nat i) == (sumQ c pd - sumQ c i) - inject_Z (Z.of_nat i) * c (Z.of_nat i - 1).
Proof.
  cbv zeta. rewrite elevate_unfold.
  destruct (elevate_loop_spec position scaleFactor pd 0 (fun _ => 0%Q)) as (H1 & H2 & _ & _).
  cbv zeta in H1, H2. split.
  - rewrite upd_same, H1. ring.
  - intros i Hi. rewrite upd_other by lia. rewrite H2 by lia.
    rewrite Nat2Z.id. ring.
Qed.

(** ** The lattice embedder: rounding *)

Lemma inject_Z_le (x y : Z) : x <= y <-> (inject_Z x <= inject_Z y)%Q.
Proof. now rewrite Zle_Qle. Qed.

Lemma inject_Z_lt (x y : Z) : x < y <-> (inject_Z x < inject_Z y)%Q.
Proof. now rewrite Zlt_Qlt. Qed.

Lemma Qlt_bool_iff (x y : Q) : Qlt_bool x y = true <-> (x < y)%Q.
Proof.
  unfold Qlt_bool. rewrite negb_true_iff. split.
  - intros H. apply Qnot_le_lt. intros L. apply Qle_bool_iff in L. congruence.
  - intros H. destruct (Qle_bool y x) eqn:E; [|reflexivity].
    apply Qle_bool_iff in E. exfalso. apply (Qlt_not_le _ _ H E).
Qed.

Lemma Qlt_bool_false (x y : Q) : Qlt_bool x y = false <-> (y <= x)%Q.
Proof.
  unfold Qlt_bool. rewrite negb_false_iff. apply Qle_bool_iff.
Qed.

Lemma pd1_pos (pd : nat) : 0 < pd1 pd.
Proof. unfold pd1. lia. Qed.

Lemma pd1_posQ (pd : nat) : (0 < inject_Z (pd1 pd))%Q.
Proof. apply (proj1 (inject_Z_lt 0 (pd1 pd))). apply pd1_pos. Qed.

Lemma Qtrunc_mult (a b : Z) : Qtrunc (inject_Z a * inject_Z b) = a * b.
Proof. unfold Qtrunc. cbn. apply Z.quot_1_r. Qed.

(** [floor(v) * (pd + 1)] and [ceil(v) * (pd + 1)] for
    [v = e * (1 / (pd + 1))], as integers. *)
Definition lower_multiple (pd : nat) (e : Q) : Z :=
  Qfloor (e * (1 / inject_Z (pd1 pd))) * pd1 pd.

Definition upper_multiple (pd : nat) (e : Q) : Z :=
  Qceiling (e * (1 / inject_Z (pd1 pd))) * pd1 pd.

Lemma round_coordinate_unfold (pd : nat) (e : Q) :
  round_coordinate pd e =
  if Qlt_bool (inject_Z (upper_multiple pd e) - e) (e - inject_Z (lower_multiple pd e))
  then to_short (upper_multiple pd e) else to_short (lower_multiple pd e).
Proof.
  unfold round_coordinate, upper_multiple, lower_multiple.
  rewrite !Qtrunc_mult, !inject_Z_mult. reflexivity.
Qed.

Lemma scaled_back (pd : nat) (e : Q) :
  (e * (1 / inject_Z (pd1 pd)) * inject_Z (pd1 pd) == e)%Q.
Proof.
  field. pose proof (pd1_posQ pd). intros E. rewrite E in H. discriminate.
Qed.

(** The two candidates bracket [e] and are at most [pd + 1] apart. *)
Lemma multiples_bracket (pd : nat) (e : Q) :
  (inject_Z (lower_multiple pd e) <= e)%Q /\
  (e <= inject_Z (upper_multiple pd e))%Q /\
  (e < inject_Z (lower_multiple pd e + pd1 pd))%Q /\
  (inject_Z (upper_multiple pd e - pd1 pd) < e)%Q.
Proof.
  unfold lower_multiple, upper_multiple.
  pose proof (pd1_posQ pd) as HD. pose proof (scaled_back pd e) as HE.
  set (v := (e * (1 / inject_Z (pd1 pd)))%Q) in *.
  pose proof (Qfloor_le v). pose proof (Qle_ceiling v).
  pose proof (Qlt_floor v) as F. pose proof (Qceiling_lt v) as C.
  rewrite inject_Z_plus in F. unfold Z.sub in C. rewrite inject_Z_plus, inject_Z_opp in C.
  unfold Z.sub. rewrite !inject_Z_plus, !inject_Z_mult, inject_Z_opp.
  set (D := inject_Z (pd1 pd)) in *.
  set (f := inject_Z (Qfloor v)) in *. set (c := inject_Z (Qceiling v)) in *.
  change (inject_Z 1) with 1%Q in *.
  clearbody f c v D.
  repeat split; nra.
Qed.

Lemma multiples_gap (pd : nat) (e : Q) :
  upper_multiple pd e = lower_multiple pd e \/
  upper_multiple pd e = lower_multiple pd e + pd1 pd.
Proof.
  destruct (multiples_bracket pd e) as (L & U & L' & U').
  assert (lower_multiple pd e <= upper_multiple pd e)
    by (apply (proj2 (inject_Z_le _ _)); eapply Qle_trans; eauto).
  assert (upper_multiple pd e - pd1 pd < lower_multiple pd e + pd1 pd)
    by (apply (proj2 (inject_Z_lt _ _)); eapply Qlt_trans; eauto).
  unfold upper_multiple, lower_multiple in *. pose proof (pd1_pos pd).
  set (f := Qfloor _) in *. set (c := Qceiling _) in *.
  assert (f <= c) by nia. assert (c < f + 2) by nia.
  destruct (Z.eq_dec c f) as [->|]; [now left|right].
  replace c with (f + 1) by lia. ring.
Qed.

(** No multiple of [pd + 1] lies strictly between the two candidates. *)
Lemma multiple_outside (pd : nat) (e : Q) (m : Z) :
  (pd1 pd | m) -> m <= lower_multiple pd e \/ upper_multiple pd e <= m.
Proof.
  intros [k ->]. destruct (multiples_gap pd e) as [G|G]; rewrite G.
  - lia.
  - unfold lower_multiple. pose proof (pd1_pos pd).
    set (f := Qfloor _). destruct (Z_le_gt_dec k f); [left|right]; nia.
Qed.

Lemma to_short_small (x : Z) : in_short x -> to_short x = x.
Proof.
  unfold in_short, to_short. intros H. rewrite Z.mod_small; lia.
Qed.

Lemma to_short_range (x : Z) : in_short (to_short x).
Proof.
  unfold in_short, to_short. pose proof (Z.mod_pos_bound (x + 2 ^ 15) (2 ^ 16)). lia.
Qed.

Lemma to_short_idem_add (a b : Z) : to_short (to_short a + b) = to_short (a + b).
Proof.
  unfold to_short. f_equal.
  replace ((a + 2 ^ 15) mod 2 ^ 16 - 2 ^ 15 + b + 2 ^ 15) with ((a + 2 ^ 15) mod 2 ^ 16 + b) by lia.
  rewrite Z.add_mod_idemp_l by lia. f_equal. lia.
Qed.

Lemma sumZ_ext (f g : Z -> Z) (n : nat) :
  (forall i, 0 <= i < Z.of_nat n -> f i = g i) -> sumZ f n = sumZ g n.
Proof.
  induction n as [|n IH]; intros H; [reflexivity|].
  cbn [sumZ]. rewrite IH, (H (Z.of_nat n)) by (try intros; try apply H; lia). reflexivity.
Qed.

Definition round_body (pd : nat) (elevated : Z -> Q) (i : Z) (st : Z * (Z -> Z)) : Z * (Z -> Z) :=
  let '(sum, rem0) := st in
  let r := round_coordinate pd (elevated i) in
  (to_short (sum + r), upd rem0 i r).

Lemma round_loop_spec (pd : nat) (elevated : Z -> Q) (n : nat) :
  let r := for_up n (round_body pd elevated) (0, fun _ => 0) in
  fst r = to_short (sumZ (snd r) n) /\
  (forall i, 0 <= i < Z.of_nat n -> snd r i = round_coordinate pd (elevated i)) /\
  (forall i, ~ 0 <= i < Z.of_nat n -> snd r i = 0).
Proof.
  cbv zeta. induction n as [|n (IH1 & IH2 & IH3)].
  - cbn. repeat split; intros; lia.
  - rewrite for_up_S. destruct (for_up n _ _) as [sum rem0]. cbn [fst snd round_body] in *.
    assert (E : sumZ (upd rem0 (Z.of_nat n) (round_coordinate pd (elevated (Z.of_nat n)))) n
                = sumZ rem0 n).
    { apply sumZ_ext. intros i Hi. apply upd_other. lia. }
    repeat split.
    + cbn [sumZ]. rewrite upd_same, E, IH1. apply to_short_idem_add.
    + intros i Hi. destruct (Z.eq_dec i (Z.of_nat n)) as [->|Hne].
      * apply upd_same.
      * rewrite upd_other by assumption. apply IH2. lia.
    + intros i Hi. rewrite upd_other by lia. apply IH3. lia.
Qed.

Lemma round_to_lattice_unfold (pd : nat) (elevated : Z -> Q) :
  round_to_lattice pd elevated =
  (to_short (Z.quot (fst (for_up (S pd) (round_body pd elevated) (0, fun _ => 0))) (pd1 pd)),
   snd (for_up (S pd) (round_body pd elevated) (0, fun _ => 0))).
Proof.
  unfold round_to_lattice. fold (round_body pd elevated).
  destruct (for_up (S pd) _ _). reflexivity.
Qed.

Lemma Qabs_ge_both (x : Q) : (x <= Qabs x /\ - x <= Qabs x)%Q.
Proof.
  split; [apply Qle_Qabs|]. rewrite <- Qabs_opp. apply Qle_Qabs.
Qed.

(** The candidate that the comparison [up - e < e - down] selects. *)
Definition chosen_multiple (pd : nat) (e : Q) : Z :=
  if Qlt_bool (inject_Z (upper_multiple pd e) - e) (e - inject_Z (lower_multiple pd e))
  then upper_multiple pd e else lower_multiple pd e.

Lemma chosen_multiple_divides (pd : nat) (e : Q) : (pd1 pd | chosen_multiple pd e).
Proof.
  unfold chosen_multiple, upper_multiple, lower_multiple.
  destruct (Qlt_bool _ _); apply Z.divide_factor_r.
Qed.

Lemma chosen_multiple_nearest (pd : nat) (e : Q) (m : Z) :
  (pd1 pd | m) ->
  (Qabs (e - inject_Z (chosen_multiple pd e)) <= Qabs (e - inject_Z m))%Q.
Proof.
  intros Hm. destruct (multiples_bracket pd e) as (L & U & _ & _).
  apply Qabs_Qle_condition. destruct (Qabs_ge_both (e - inject_Z m)) as [A1 A2].
  unfold chosen_multiple.
  destruct (Qlt_bool _ _) eqn:E;
    [apply Qlt_bool_iff in E | apply Qlt_bool_false in E];
    (destruct (multiple_outside pd e m Hm) as [O|O]; apply inject_Z_le in O);
    split; lra.
Qed.

Lemma chosen_multiple_tie (pd : nat) (e : Q) (m : Z) :
  (pd1 pd | m) ->
  (Qabs (e - inject_Z m) == Qabs (e - inject_Z (chosen_multiple pd e)))%Q ->
  chosen_multiple pd e <= m.
Proof.
  intros Hm T. destruct (multiples_bracket pd e) as (L & U & _ & _).
  destruct (Z_le_gt_dec (chosen_multiple pd e) m) as [|Hgt]; [assumption|exfalso].
  assert (Hstep : m <= chosen_multiple pd e - pd1 pd).
  { destruct Hm as [k ->]. destruct (chosen_multiple_divides pd e) as [k' Hk'].
    rewrite Hk' in Hgt |- *. pose proof (pd1_pos pd).
    assert (k < k') by nia. nia. }
  apply inject_Z_le in Hstep. unfold Z.sub in Hstep.
  rewrite inject_Z_plus, inject_Z_opp in Hstep.
  pose proof (pd1_posQ pd) as HD.
  unfold chosen_multiple in *.
  destruct (Qlt_bool _ _) eqn:E;
    [apply Qlt_bool_iff in E | apply Qlt_bool_false in E].
  - destruct (multiples_gap pd e) as [G|G]; rewrite G in *.
    + lra.
    + rewrite inject_Z_plus in *.
      rewrite (Qabs_pos (e - inject_Z m)) in T by lra.
      rewrite (Qabs_neg (e - (inject_Z (lower_multiple pd e) + inject_Z (pd1 pd)))) in T by lra.
      lra.
  - rewrite (Qabs_pos (e - inject_Z m)) in T by lra.
    rewrite (Qabs_pos (e - inject_Z (lower_multiple pd e))) in T by lra.
    lra.
Qed.

Lemma round_coordinate_chosen (pd : nat) (e : Q) :
  round_coordinate pd e = to_short (chosen_multiple pd e).
Proof.
  rewrite round_coordinate_unfold. unfold chosen_multiple.
  destruct (Qlt_bool _ _); reflexivity.
Qed.

(** C5, as stated, fails: for [pd = 1] the coordinate [1] is at distance
    1 from both [down = 0] and [up = 2], and it is rounded to 0. *)
Lemma tie_is_rounded_down :
  lower_multiple 1 1 = 0 /\ upper_multiple 1 1 = 2 /\
  (inject_Z 2 - 1 == 1 - inject_Z 0)%Q /\
  round_coordinate 1 1 = 0.
Proof. repeat split. Qed.

(** C5, amended: when the multiples of [pd + 1] next below and next above
    every elevated coordinate fit a 16-bit [short], each elevated
    coordinate is rounded to the nearest multiple of [pd + 1] by comparing
    the distance up with the distance down, with ties broken toward the
    lower multiple ("down"); the chosen remainders are summed (in 16-bit
    arithmetic) and the sum is divided by [pd + 1] with integer division. *)
Theorem round_to_nearest_ties_down (pd : nat) (elevated : Z -> Q) :
  (forall i, 0 <= i <= Z.of_nat pd ->
     in_short (lower_multiple pd (elevated i)) /\
     in_short (upper_multiple pd (elevated i))) ->
  let sum := fst (round_to_lattice pd elevated) in
  let rem0 := snd (round_to_lattice pd elevated) in
  (forall i, 0 <= i <= Z.of_nat pd ->
     let e := elevated i in
     let up := upper_multiple pd e in
     let down := lower_multiple pd e in
     rem0 i = (if Qlt_bool (inject_Z up - e) (e - inject_Z down) then up else down) /\
     (pd1 pd | rem0 i) /\
     (forall m, (pd1 pd | m) ->
        (Qabs (e - inject_Z (rem0 i)) <= Qabs (e - inject_Z m))%Q) /\
     (forall m, (pd1 pd | m) ->
        (Qabs (e - inject_Z m) == Qabs (e - inject_Z (rem0 i)))%Q -> rem0 i <= m)) /\
  sum = to_short (Z.quot (to_short (sumZ rem0 (S pd))) (pd1 pd)).
Proof.
  intros Hv. cbv zeta. rewrite round_to_lattice_unfold. cbn [fst snd].
  destruct (round_loop_spec pd elevated (S pd)) as (S1 & S2 & _). cbv zeta in S1, S2.
  split; [|now rewrite S1].
  intros i Hi. rewrite S2 by lia. rewrite round_coordinate_chosen.
  assert (R : to_short (chosen_multiple pd (elevated i)) = chosen_multiple pd (elevated i)).
  { apply to_short_small. unfold chosen_multiple.
    destruct (Qlt_bool _ _); apply (Hv i Hi). }
  rewrite R. repeat split.
  - apply chosen_multiple_divides.
  - intros m Hm. now apply chosen_multiple_nearest.
  - intros m Hm. now apply chosen_multiple_tie.
Qed.

Lemma round_to_nearest_ties_down_witness :
  let elevated := fun _ : Z => 1%Q in
  let sum := fst (round_to_lattice 1 elevated) in
  let rem0 := snd (round_to_lattice 1 elevated) in
  (forall i, 0 <= i <= Z.of_nat 1 ->
     let e := elevated i in
     let up := upper_multiple 1 e in
     let down := lower_multiple 1 e in
     rem0 i = (if Qlt_bool (inject_Z up - e) (e - inject_Z down) then up else down) /\
     (pd1 1 | rem0 i) /\
     (forall m, (pd1 1 | m) ->
        (Qabs (e - inject_Z (rem0 i)) <= Qabs (e - inject_Z m))%Q) /\
     (forall m, (pd1 1 | m) ->
        (Qabs (e - inject_Z m) == Qabs (e - inject_Z (rem0 i)))%Q -> rem0 i <= m)) /\
  sum = to_short (Z.quot (to_short (sumZ rem0 2)) (pd1 1)).
Proof.
  apply (round_to_nearest_ties_down 1 (fun _ => 1%Q)).
  intros i Hi. vm_compute. intuition discriminate.
Defined.

(** ** The lattice embedder: ranks *)

(** The number of [j < n] with [p j]. *)
Fixpoint countb (p : Z -> bool) (n : nat) : Z :=
  match n with
  | O => 0
  | S n' => countb p n' + (if p (Z.of_nat n') then 1 else 0)
  end.

(** The test of line 219: coordinate [j] comes before coordinate [i] in the
    order of decreasing residual, equal residuals being ordered by index. *)
Definition before (pd : nat) (elevated : Z -> Q) (rem0 : Z -> Z) (i j : Z) : bool :=
  Qlt_bool (residual elevated rem0 i) (residual elevated rem0 j)
  || (Qeq_bool (residual elevated rem0 i) (residual elevated rem0 j) && (j <? i)).

Lemma countb_range (p : Z -> bool) (n : nat) : 0 <= countb p n <= Z.of_nat n.
Proof.
  induction n as [|n IH]; cbn [countb]; [lia|]. destruct (p (Z.of_nat n)); lia.
Qed.

Lemma countb_miss (p : Z -> bool) (n : nat) (i : Z) :
  0 <= i < Z.of_nat n -> p i = false -> countb p n < Z.of_nat n.
Proof.
  induction n as [|n IH]; intros Hi Hp; [lia|]. cbn [countb].
  destruct (Z.eq_dec i (Z.of_nat n)) as [->|Hne].
  - rewrite Hp. pose proof (countb_range p n). lia.
  - specialize (IH ltac:(lia) Hp). destruct (p (Z.of_nat n)); lia.
Qed.

Lemma before_irrefl (pd : nat) (elevated : Z -> Q) (rem0 : Z -> Z) (i : Z) :
  before pd elevated rem0 i i = false.
Proof.
  unfold before. rewrite Z.ltb_irrefl, andb_false_r, orb_false_r.
  apply Qlt_bool_false. apply Qle_refl.
Qed.

Lemma rank_inner_spec (p : Z -> bool) (i : Z) (n : nat) (rank : Z -> Z) :
  let r := for_up n (fun j rank => if p j then upd rank i (rank i + 1) else rank) rank in
  r i = rank i + countb p n /\ forall k, k <> i -> r k = rank k.
Proof.
  cbv zeta. induction n as [|n (IH1 & IH2)].
  - cbn. split; [lia|reflexivity].
  - rewrite for_up_S. cbn [countb]. destruct (p (Z.of_nat n)).
    + split; [rewrite upd_same; lia|]. intros k Hk. rewrite upd_other by assumption. auto.
    + split; [lia|assumption].
Qed.

Lemma rank_loops_spec (pd : nat) (elevated : Z -> Q) (rem0 : Z -> Z) (n m : nat) (k : Z) :
  for_up m
    (fun i rank =>
       for_up n
         (fun j rank =>
            if before pd elevated rem0 i j then upd rank i (rank i + 1) else rank)
         (upd rank i 0))
    (fun _ => 0) k
  = if (0 <=? k) && (k <? Z.of_nat m) then countb (before pd elevated rem0 k) n else 0.
Proof.
  induction m as [|m IH].
  - rewrite for_up_0. destruct (Z.leb_spec 0 k), (Z.ltb_spec k (Z.of_nat 0));
      cbn [andb]; try reflexivity; lia.
  - rewrite for_up_S. set (r := for_up m _ _) in *.
    destruct (rank_inner_spec (before pd elevated rem0 (Z.of_nat m)) (Z.of_nat m) n
                (upd r (Z.of_nat m) 0)) as (H1 & H2). cbv zeta in H1, H2.
    destruct (Z.eq_dec k (Z.of_nat m)) as [->|Hne].
    + rewrite H1, upd_same.
      destruct (Z.leb_spec 0 (Z.of_nat m)), (Z.ltb_spec (Z.of_nat m) (Z.of_nat (S m)));
        cbn [andb]; lia.
    + rewrite H2, upd_other, IH by assumption.
      destruct (Z.leb_spec 0 k); cbn [andb]; [|reflexivity].
      destruct (Z.ltb_spec k (Z.of_nat m)), (Z.ltb_spec k (Z.of_nat (S m)));
        try reflexivity; lia.
Qed.

Lemma rank_of_spec (pd : nat) (elevated : Z -> Q) (rem0 : Z -> Z) (i : Z) :
  0 <= i <= Z.of_nat pd ->
  rank_of pd elevated rem0 i = countb (before pd elevated rem0 i) (S pd).
Proof.
  intros Hi. unfold rank_of.
  etransitivity; [exact (rank_loops_spec pd elevated rem0 (S pd) (S pd) i)|].
  destruct (Z.leb_spec 0 i), (Z.ltb_spec i (Z.of_nat (S pd))); cbn [andb];
    try reflexivity; lia.
Qed.

Lemma rank_of_range (pd : nat) (elevated : Z -> Q) (rem0 : Z -> Z) (i : Z) :
  0 <= i <= Z.of_nat pd ->
  0 <= rank_of pd elevated rem0 i <= Z.of_nat pd.
Proof.
  intros Hi. rewrite rank_of_spec by assumption.
  pose proof (countb_range (before pd elevated rem0 i) (S pd)).
  pose proof (countb_miss (before pd elevated rem0 i) (S pd) i ltac:(lia)
                (before_irrefl pd elevated rem0 i)).
  lia.
Qed.

(** *** The correction for a non-zero [sum] *)

(** What the loops of lines 225-243 do to the pair [(rem0[i], rank[i])]. *)
Definition corrected (pd : nat) (sum : Z) (rk : Z * Z) : Z * Z :=
  let '(r, k) := rk in
  if 0 <? sum then
    if pd1 pd - sum <=? k then (r - pd1 pd, k + (sum - pd1 pd)) else (r, k + sum)
  else if sum <? 0 then
    if k <? - sum then (r + pd1 pd, k + (pd1 pd + sum)) else (r, k + sum)
  else (r, k).

(** A loop whose step [i] rewrites the pair at index [i] only. *)
Lemma pointwise_loop_spec (f : Z * Z -> Z * Z)
    (body : Z -> (Z -> Z) * (Z -> Z) -> (Z -> Z) * (Z -> Z)) (n : nat)
    (st : (Z -> Z) * (Z -> Z)) (i : Z) :
  (forall j st k,
     (fst (body j st) k, snd (body j st) k) =
     if Z.eqb k j then f (fst st j, snd st j) else (fst st k, snd st k)) ->
  let r := for_up n body st in
  (fst r i, snd r i) =
  if (0 <=? i) && (i <? Z.of_nat n) then f (fst st i, snd st i) else (fst st i, snd st i).
Proof.
  intros Hbody. cbv zeta. induction n as [|n IH].
  - rewrite for_up_0. destruct (Z.leb_spec 0 i), (Z.ltb_spec i (Z.of_nat 0));
      cbn [andb]; try reflexivity; lia.
  - rewrite for_up_S, Hbody.
    destruct (Z.eqb_spec i (Z.of_nat n)) as [->|Hne].
    + destruct (Z.leb_spec 0 (Z.of_nat n)), (Z.ltb_spec (Z.of_nat n) (Z.of_nat n)),
        (Z.ltb_spec (Z.of_nat n) (Z.of_nat (S n))); cbn [andb] in *; try lia.
      injection IH as -> ->. reflexivity.
    + rewrite IH.
      destruct (Z.leb_spec 0 i); cbn [andb]; [|reflexivity].
      destruct (Z.ltb_spec i (Z.of_nat n)), (Z.ltb_spec i (Z.of_nat (S n)));
        try reflexivity; lia.
Qed.

Lemma correct_sum_spec (pd : nat) (sum : Z) (rem0 rank : Z -> Z) (i : Z) :
  let r := correct_sum pd sum rem0 rank in
  (fst r i, snd r i) =
  if (0 <=? i) && (i <=? Z.of_nat pd) then corrected pd sum (rem0 i, rank i)
  else (rem0 i, rank i).
Proof.
  cbv zeta. unfold correct_sum, corrected.
  replace (i <=? Z.of_nat pd) with (i <? Z.of_nat (S pd))
    by (destruct (Z.ltb_spec i (Z.of_nat (S pd))), (Z.leb_spec i (Z.of_nat pd)); lia).
  destruct (0 <? sum); [|destruct (sum <? 0)].
  - rewrite (pointwise_loop_spec
               (fun rk => if pd1 pd - sum <=? snd rk
                          then (fst rk - pd1 pd, snd rk + (sum - pd1 pd))
                          else (fst rk, snd rk + sum))).
    + reflexivity.
    + intros j [r0 k0] k. cbn [fst snd].
      destruct (pd1 pd - sum <=? k0 j); cbn [fst snd]; unfold upd;
        destruct (Z.eqb_spec k j) as [->|]; reflexivity.
  - rewrite (pointwise_loop_spec
               (fun rk => if snd rk <? - sum
                          then (fst rk + pd1 pd, snd rk + (pd1 pd + sum))
                          else (fst rk, snd rk + sum))).
    + reflexivity.
    + intros j [r0 k0] k. cbn [fst snd].
      destruct (k0 j <? - sum); cbn [fst snd]; unfold upd;
        destruct (Z.eqb_spec k j) as [->|]; reflexivity.
  - now destruct (_ && _).
Qed.

Lemma corrected_rank_range (pd : nat) (sum r k : Z) :
  - pd1 pd <= sum <= pd1 pd -> 0 <= k <= Z.of_nat pd ->
  0 <= snd (corrected pd sum (r, k)) <= Z.of_nat pd.
Proof.
  intros Hs Hk. unfold corrected, pd1 in *.
  destruct (Z.ltb_spec 0 sum); [|destruct (Z.ltb_spec sum 0)].
  - destruct (Z.leb_spec (Z.of_nat pd + 1 - sum) k); cbn [snd]; lia.
  - destruct (Z.ltb_spec k (- sum)); cbn [snd]; lia.
  - cbn [snd]. lia.
Qed.

(** *** The size of [sum] *)

Lemma sumQ_minus_inject (f : Z -> Q) (g : Z -> Z) (n : nat) :
  (sumQ (fun i => f i - inject_Z (g i)) n == sumQ f n - inject_Z (sumZ g n))%Q.
Proof.
  induction n as [|n IH]; [reflexivity|].
  cbn [sumQ sumZ]. rewrite IH, inject_Z_plus. ring.
Qed.

Lemma sumQ_bounded (f : Z -> Q) (lo hi : Q) (n : nat) :
  (forall i, 0 <= i < Z.of_nat n -> (lo <= f i <= hi)%Q) ->
  (inject_Z (Z.of_nat n) * lo <= sumQ f n <= inject_Z (Z.of_nat n) * hi)%Q.
Proof.
  induction n as [|n IH]; intros H.
  - change (inject_Z (Z.of_nat 0)) with 0%Q. cbn [sumQ]. lra.
  - cbn [sumQ]. destruct IH as [IH1 IH2]; [intros; apply H; lia|].
    destruct (H (Z.of_nat n) ltac:(lia)) as [H1 H2].
    rewrite Nat2Z.inj_succ. unfold Z.succ. rewrite inject_Z_plus.
    change (inject_Z 1) with 1%Q. split; lra.
Qed.

(** The chosen multiple is within half a step of the coordinate. *)
Lemma chosen_multiple_error (pd : nat) (e : Q) :
  (- inject_Z (pd1 pd) < 2 * (e - inject_Z (chosen_multiple pd e)) <= inject_Z (pd1 pd))%Q.
Proof.
  destruct (multiples_bracket pd e) as (L & U & _ & _).
  pose proof (pd1_posQ pd) as HD. unfold chosen_multiple.
  destruct (Qlt_bool _ _) eqn:E;
    [apply Qlt_bool_iff in E | apply Qlt_bool_false in E];
    destruct (multiples_gap pd e) as [G|G]; rewrite G in *;
    rewrite ?inject_Z_plus in *; split; lra.
Qed.

Lemma to_short_add_r (a b : Z) : to_short (a + to_short b) = to_short (a + b).
Proof.
  rewrite Z.add_comm, to_short_idem_add. f_equal. lia.
Qed.

Lemma to_short_sumZ (f g : Z -> Z) (n : nat) :
  (forall i, 0 <= i < Z.of_nat n -> g i = to_short (f i)) ->
  to_short (sumZ g n) = to_short (sumZ f n).
Proof.
  induction n as [|n IH]; intros H; [reflexivity|].
  cbn [sumZ]. rewrite (H (Z.of_nat n)) by lia. rewrite to_short_add_r.
  rewrite <- to_short_idem_add, IH by (intros; apply H; lia).
  apply to_short_idem_add.
Qed.

(** The sum of the chosen multiples is at most [(pd+1)^2 / 2] in size. *)
Lemma chosen_sum_bound (pd : nat) (position scaleFactor : Z -> Q) :
  let elevated := elevate pd position scaleFactor in
  let total := sumZ (fun i => chosen_multiple pd (elevated i)) (S pd) in
  - (pd1 pd * pd1 pd) <= 2 * total <= pd1 pd * pd1 pd.
Proof.
  cbv zeta. set (elevated := elevate pd position scaleFactor).
  set (c := fun i => chosen_multiple pd (elevated i)).
  pose proof (sumQ_minus_inject elevated c (S pd)) as E.
  pose proof (elevate_sum_zero pd position scaleFactor) as Z0. fold elevated in Z0.
  pose proof (sumQ_bounded (fun i => elevated i - inject_Z (c i))%Q
                (- inject_Z (pd1 pd) * (1 # 2)) (inject_Z (pd1 pd) * (1 # 2)) (S pd)) as B.
  destruct B as [B1 B2].
  { intros i _. pose proof (chosen_multiple_error pd (elevated i)). unfold c. split; lra. }
  replace (Z.of_nat (S pd)) with (pd1 pd) in B1, B2 by (unfold pd1; lia).
  fold c. set (total := sumZ c (S pd)) in *.
  split; apply inject_Z_le; rewrite ?inject_Z_opp, !inject_Z_mult;
    change (inject_Z 2) with 2%Q; set (D := inject_Z (pd1 pd)) in *;
    set (T := inject_Z total) in *; clearbody D T; nra.
Qed.

Lemma quot_bound (x d b : Z) : 0 < d -> - (d * b) <= x <= d * b -> - b <= Z.quot x d <= b.
Proof.
  intros Hd Hx. destruct (Z_le_gt_dec 0 x).
  - rewrite Z.quot_div_nonneg by lia.
    pose proof (Z.div_pos x d ltac:(lia) Hd).
    pose proof (Z.div_le_upper_bound x d b Hd ltac:(lia)). lia.
  - replace x with (- (- x)) by lia. rewrite Z.quot_opp_l by lia.
    rewrite Z.quot_div_nonneg by lia.
    pose proof (Z.div_pos (- x) d ltac:(lia) Hd).
    pose proof (Z.div_le_upper_bound (- x) d b Hd ltac:(lia)). lia.
Qed.

(** [sum], after the division, is at most [pd + 1] in size. *)
Lemma deficiency_range (pd : nat) (position scaleFactor : Z -> Q) :
  let sum := fst (round_to_lattice pd (elevate pd position scaleFactor)) in
  - pd1 pd <= sum <= pd1 pd.
Proof.
  cbv zeta. set (elevated := elevate pd position scaleFactor).
  rewrite round_to_lattice_unfold. cbn [fst].
  destruct (round_loop_spec pd elevated (S pd)) as (S1 & S2 & _). cbv zeta in S1, S2.
  rewrite S1.
  rewrite (to_short_sumZ (fun i => chosen_multiple pd (elevated i)))
    by (intros; rewrite S2 by assumption; apply round_coordinate_chosen).
  pose proof (chosen_sum_bound pd position scaleFactor) as B. cbv zeta in B.
  fold elevated in B.
  set (total := sumZ (fun i => chosen_multiple pd (elevated i)) (S pd)) in *.
  pose proof (pd1_pos pd) as HD.
  destruct (Z_lt_ge_dec (pd1 pd * pd1 pd) (2 ^ 16)) as [Hsmall|Hbig].
  - assert (HD' : pd1 pd < 2 ^ 15) by nia.
    rewrite (to_short_small total) by (unfold in_short; lia).
    pose proof (quot_bound total (pd1 pd) (pd1 pd) HD ltac:(lia)).
    rewrite to_short_small by (unfold in_short; lia). lia.
  - assert (HD' : 2 ^ 8 <= pd1 pd) by nia.
    pose proof (to_short_range total) as R. unfold in_short in R.
    pose proof (quot_bound (to_short total) (pd1 pd) (2 ^ 7) HD ltac:(lia)).
    rewrite to_short_small by (unfold in_short; lia). lia.
Qed.

(** ** The lattice embedder: barycentric weights *)

Lemma embed_unfold (pd : nat) (position scaleFactor : Z -> Q) :
  let elevated := elevate pd position scaleFactor in
  let sr := round_to_lattice pd elevated in
  let c := correct_sum pd (fst sr) (snd sr) (rank_of pd elevated (snd sr)) in
  embed pd position scaleFactor =
  mkSimplex (fst c) (snd c) (barycentric_of pd elevated (fst c) (snd c)).
Proof.
  cbv zeta. unfold embed. destruct (round_to_lattice pd _) as [sum rem0]. cbn [fst snd].
  destruct (correct_sum pd sum rem0 _). reflexivity.
Qed.

(** After the correction every rank is again between 0 and [pd]. *)
Lemma embed_rank_range (pd : nat) (position scaleFactor : Z -> Q) (i : Z) :
  0 <= i <= Z.of_nat pd ->
  0 <= s_rank (embed pd position scaleFactor) i <= Z.of_nat pd.
Proof.
  intros Hi. pose proof (embed_unfold pd position scaleFactor) as E. cbv zeta in E.
  rewrite E. cbn [s_rank]. clear E.
  set (elevated := elevate pd position scaleFactor).
  set (sr := round_to_lattice pd elevated).
  pose proof (correct_sum_spec pd (fst sr) (snd sr) (rank_of pd elevated (snd sr)) i) as C.
  cbv zeta in C.
  destruct (Z.leb_spec 0 i), (Z.leb_spec i (Z.of_nat pd)); try lia. cbn [andb] in C.
  replace (snd (correct_sum pd (fst sr) (snd sr) (rank_of pd elevated (snd sr))) i)
    with (snd (corrected pd (fst sr) (snd sr i, rank_of pd elevated (snd sr) i)))
    by (rewrite <- C; reflexivity).
  apply corrected_rank_range.
  - apply deficiency_range.
  - now apply rank_of_range.
Qed.

Lemma sumQ_upd_out (f : Z -> Q) (k : Z) (v : Q) (n : nat) :
  ~ 0 <= k < Z.of_nat n -> sumQ (upd f k v) n = sumQ f n.
Proof.
  induction n as [|n IH]; intros H; [reflexivity|].
  cbn [sumQ]. rewrite IH by lia. rewrite upd_other by lia. reflexivity.
Qed.

Lemma sumQ_upd_in (f : Z -> Q) (k : Z) (v : Q) (n : nat) :
  0 <= k < Z.of_nat n -> (sumQ (upd f k v) n == sumQ f n - f k + v)%Q.
Proof.
  induction n as [|n IH]; intros H; [lia|].
  cbn [sumQ]. destruct (Z.eq_dec k (Z.of_nat n)) as [->|Hne].
  - rewrite upd_same, sumQ_upd_out by lia. ring.
  - rewrite IH by lia. rewrite upd_other by lia. ring.
Qed.

Definition barycentric_body (pd : nat) (elevated : Z -> Q) (rem0 rank : Z -> Z)
    (i : Z) (b : Z -> Q) : Z -> Q :=
  let delta := (residual elevated rem0 i * (1 / inject_Z (pd1 pd)))%Q in
  let b1 := upd b (Z.of_nat pd - rank i) (b (Z.of_nat pd - rank i)%Z + delta)%Q in
  upd b1 (Z.of_nat pd + 1 - rank i) (b1 (Z.of_nat pd + 1 - rank i)%Z - delta)%Q.

Lemma barycentric_body_sum (pd : nat) (elevated : Z -> Q) (rem0 rank : Z -> Z)
    (i : Z) (b : Z -> Q) :
  0 <= rank i <= Z.of_nat pd ->
  (sumQ (barycentric_body pd elevated rem0 rank i b) (S (S pd)) == sumQ b (S (S pd)))%Q.
Proof.
  intros Hr. unfold barycentric_body. cbv zeta.
  rewrite !sumQ_upd_in by lia. ring.
Qed.

Lemma barycentric_loop_sum (pd : nat) (elevated : Z -> Q) (rem0 rank : Z -> Z) (n : nat) :
  (forall i, 0 <= i < Z.of_nat n -> 0 <= rank i <= Z.of_nat pd) ->
  (sumQ (for_up n (barycentric_body pd elevated rem0 rank) (fun _ => 0%Q)) (S (S pd)) == 0)%Q.
Proof.
  induction n as [|n IH]; intros H.
  - rewrite for_up_0. generalize (S (S pd)). intros m.
    induction m as [|m IHm]; [reflexivity|]. cbn [sumQ]. rewrite IHm. ring.
  - rewrite for_up_S, barycentric_body_sum by (apply H; lia).
    apply IH. intros; apply H; lia.
Qed.

Lemma barycentric_of_sum (pd : nat) (elevated : Z -> Q) (rem0 rank : Z -> Z) :
  (forall i, 0 <= i <= Z.of_nat pd -> 0 <= rank i <= Z.of_nat pd) ->
  (sumQ (barycentric_of pd elevated rem0 rank) (S pd) == 1)%Q.
Proof.
  intros H. unfold barycentric_of. fold (barycentric_body pd elevated rem0 rank).
  pose proof (barycentric_loop_sum pd elevated rem0 rank (S pd)) as L.
  set (b := for_up (S pd) _ _) in *.
  rewrite sumQ_upd_in by lia. cbn [sumQ] in L.
  replace (Z.of_nat pd + 1) with (Z.of_nat (S pd)) by lia.
  specialize (L ltac:(intros; apply H; lia)).
  cbn [sumQ]. lra.
Qed.

(** C3: the [pd + 1] barycentric weights that the embedder computes for a
    position sum to 1 in exact arithmetic. *)
Theorem barycentric_weights_sum_to_one (pd : nat) (position scaleFactor : Z -> Q) :
  (sumQ (s_barycentric (embed pd position scaleFactor)) (S pd) == 1)%Q.
Proof.
  pose proof (embed_rank_range pd position scaleFactor) as R.
  pose proof (embed_unfold pd position scaleFactor) as E. cbv zeta in E.
  rewrite E in R |- *. cbn [s_barycentric s_rank] in *.
  now apply barycentric_of_sum.
Qed.

(** ** Loops that may not return *)

Lemma for_upM_S {S : Type} (n : nat) (body : Z -> S -> result S) (s : S) :
  for_upM (Datatypes.S n) body s = bind (for_upM n body s) (body (Z.of_nat n)).
Proof.
  unfold for_upM. rewrite seq_S, fold_left_app. reflexivity.
Qed.

Lemma for_upM_0 {S : Type} (body : Z -> S -> result S) (s : S) : for_upM 0 body s = Ret s.
Proof. reflexivity. Qed.

Lemma bind_Ret {A B : Type} (r : result A) (k : A -> result B) (b : B) :
  bind r k = Ret b -> exists a, r = Ret a /\ k a = Ret b.
Proof. destruct r; cbn; intros H; try discriminate. eauto. Qed.

(** A loop returns when each step preserves an invariant under which the
    body returns, and then the invariant holds of the result. *)
Lemma for_upM_ind {S : Type} (P : nat -> S -> Prop) (body : Z -> S -> result S) (s : S) (n : nat) :
  P O s ->
  (forall k acc, (k < n)%nat -> P k acc ->
     exists acc', body (Z.of_nat k) acc = Ret acc' /\ P (Datatypes.S k) acc') ->
  exists r, for_upM n body s = Ret r /\ P n r.
Proof.
  intros H0 Hstep. induction n as [|n IH].
  - exists s. split; [reflexivity|assumption].
  - destruct IH as (r & Hr & HP); [intros; apply Hstep; [lia|assumption]|].
    destruct (Hstep n r ltac:(lia) HP) as (r' & Hr' & HP').
    exists r'. rewrite for_upM_S, Hr. cbn [bind]. auto.
Qed.

(** The invariant of a loop that has returned. *)
Lemma for_upM_inv {S : Type} (P : nat -> S -> Prop) (body : Z -> S -> result S) (s r : S) (n : nat) :
  P O s ->
  (forall k acc acc', (k < n)%nat -> P k acc -> body (Z.of_nat k) acc = Ret acc' ->
     P (Datatypes.S k) acc') ->
  for_upM n body s = Ret r -> P n r.
Proof.
  intros H0 Hstep. revert r. induction n as [|n IH]; intros r Hr.
  - rewrite for_upM_0 in Hr. now injection Hr as <-.
  - rewrite for_upM_S in Hr. apply bind_Ret in Hr. destruct Hr as (a & Ha & Hb).
    eapply Hstep; [lia| |exact Hb]. apply IH; [|exact Ha].
    intros; eapply Hstep; eauto.
Qed.

(** ** The blur kernel *)

Section BlurFacts.

Variable pd : nat.
Variable vd : nat.

(** The row that a thread of [blur] writes, given the slots of the two
    neighbours (negative when the neighbour is absent). *)
Definition blurred (table : HashTableGPU) (idx offNp offNm : Z) (i : Z) : Q :=
  ((1 # 4) * (if 0 <=? offNp then values table (Z.of_nat vd * offNp + i) else 0)
   + (1 # 2) * values table (Z.of_nat vd * idx + i)
   + (1 # 4) * (if 0 <=? offNm then values table (Z.of_nat vd * offNm + i) else 0))%Q.

(** Buffer [out] is [src] with row [idx] replaced by [row]. *)
Definition row_written (idx : Z) (row : Z -> Q) (src out : Z -> Q) : Prop :=
  forall k, out k =
    if (Z.of_nat vd * idx <=? k) && (k <? Z.of_nat vd * idx + Z.of_nat vd)
    then row (k - Z.of_nat vd * idx) else src k.

(** What one thread does. *)
Inductive blur_thread_effect (matrix : Z -> MatrixEntry) (color : Z)
    (table : HashTableGPU) (fuel : nat) (idx : Z) (src out : Z -> Q) : Prop :=
| Skipped :
    index (matrix idx) <> idx -> out = src ->
    blur_thread_effect matrix color table fuel idx src out
| Blurred (offNp offNm : Z) :
    index (matrix idx) = idx ->
    retrieve pd fuel table (fst (neighbours pd table idx color)) = Ret offNp ->
    retrieve pd fuel table (snd (neighbours pd table idx color)) = Ret offNm ->
    row_written idx (blurred table idx offNp offNm) src out ->
    blur_thread_effect matrix color table fuel idx src out.

Lemma blur_thread_spec (fuel : nat) (matrix : Z -> MatrixEntry) (color : Z)
    (table : HashTableGPU) (idx : Z) (src out : Z -> Q) :
  blur_thread pd vd fuel matrix color table idx src = Ret out ->
  blur_thread_effect matrix color table fuel idx src out.
Proof.
  unfold blur_thread. destruct (Z.eqb_spec (index (matrix idx)) idx) as [E|N]; cbn [negb].
  - destruct (neighbours pd table idx color) as [np nm] eqn:EN.
    intros H. apply bind_Ret in H. destruct H as (offNp & Hp & H).
    apply bind_Ret in H. destruct H as (offNm & Hm & H). injection H as <-.
    apply (Blurred _ _ _ _ _ _ _ offNp offNm); rewrite ?EN; cbn [fst snd]; auto.
    intros k. apply (for_up_fill vd (Z.of_nat vd * idx) (blurred table idx offNp offNm) src k).
  - intros H. injection H as <-. now apply Skipped.
Qed.

Lemma blur_thread_returns (fuel : nat) (matrix : Z -> MatrixEntry) (color : Z)
    (table : HashTableGPU) (idx : Z) (src : Z -> Q) :
  (forall key, exists r, retrieve pd fuel table key = Ret r) ->
  exists out, blur_thread pd vd fuel matrix color table idx src = Ret out.
Proof.
  intros T. unfold blur_thread. destruct (negb _); [eauto|].
  destruct (neighbours pd table idx color) as [np nm].
  destruct (T np) as (a & ->). destruct (T nm) as (b & ->). cbn [bind]. eauto.
Qed.

Lemma row_written_other (idx idx' : Z) (row : Z -> Q) (src out : Z -> Q) (i : Z) :
  row_written idx row src out -> idx' <> idx -> 0 <= i < Z.of_nat vd ->
  out (Z.of_nat vd * idx' + i) = src (Z.of_nat vd * idx' + i).
Proof.
  intros H Hne Hi. rewrite H.
  destruct (Z.leb_spec (Z.of_nat vd * idx) (Z.of_nat vd * idx' + i)); cbn [andb]; [|reflexivity].
  destruct (Z.ltb_spec (Z.of_nat vd * idx' + i) (Z.of_nat vd * idx + Z.of_nat vd));
    [|reflexivity].
  exfalso. nia.
Qed.

Lemma row_written_same (idx : Z) (row : Z -> Q) (src out : Z -> Q) (i : Z) :
  row_written idx row src out -> 0 <= i < Z.of_nat vd ->
  out (Z.of_nat vd * idx + i) = row i.
Proof.
  intros H Hi. rewrite H.
  destruct (Z.leb_spec (Z.of_nat vd * idx) (Z.of_nat vd * idx + i)); [|lia].
  destruct (Z.ltb_spec (Z.of_nat vd * idx + i) (Z.of_nat vd * idx + Z.of_nat vd)); [|lia].
  cbn [andb]. f_equal. lia.
Qed.

(** What the kernel leaves in row [idx] of its output buffer. *)
Definition blur_row_spec (matrix : Z -> MatrixEntry) (color : Z) (table : HashTableGPU)
    (fuel : nat) (idx : Z) (src out : Z -> Q) : Prop :=
  (index (matrix idx) <> idx /\
   forall i, 0 <= i < Z.of_nat vd ->
     out (Z.of_nat vd * idx + i) = src (Z.of_nat vd * idx + i)) \/
  (index (matrix idx) = idx /\
   exists offNp offNm,
     retrieve pd fuel table (fst (neighbours pd table idx color)) = Ret offNp /\
     retrieve pd fuel table (snd (neighbours pd table idx color)) = Ret offNm /\
     forall i, 0 <= i < Z.of_nat vd ->
       out (Z.of_nat vd * idx + i) = blurred table idx offNp offNm i).

Lemma blur_thread_other_row (fuel : nat) (matrix : Z -> MatrixEntry) (color : Z)
    (table : HashTableGPU) (idx idx' : Z) (src out : Z -> Q) (i : Z) :
  blur_thread pd vd fuel matrix color table idx src = Ret out ->
  idx' <> idx -> 0 <= i < Z.of_nat vd ->
  out (Z.of_nat vd * idx' + i) = src (Z.of_nat vd * idx' + i).
Proof.
  intros H Hne Hi. apply blur_thread_spec in H.
  destruct H as [_ ->|offNp offNm _ _ _ W]; [reflexivity|].
  eapply row_written_other; eauto.
Qed.

Lemma blur_spec (fuel : nat) (n : nat) (src : Z -> Q) (matrix : Z -> MatrixEntry)
    (color : Z) (table : HashTableGPU) (out : Z -> Q) :
  blur pd vd fuel n src matrix color table = Ret out ->
  (forall idx, 0 <= idx < Z.of_nat n ->
     blur_row_spec matrix color table fuel idx src out) /\
  (forall idx i, ~ 0 <= idx < Z.of_nat n -> 0 <= i < Z.of_nat vd ->
     out (Z.of_nat vd * idx + i) = src (Z.of_nat vd * idx + i)).
Proof.
  unfold blur. revert out. induction n as [|n IH]; intros out H.
  - rewrite for_upM_0 in H. injection H as <-. split; intros; [exfalso; lia|reflexivity].
  - rewrite for_upM_S in H. apply bind_Ret in H. destruct H as (mid & Hmid & Hth).
    destruct (IH _ Hmid) as (IH1 & IH2). split.
    + intros idx Hidx. destruct (Z.eq_dec idx (Z.of_nat n)) as [->|Hne].
      * pose proof (blur_thread_spec _ _ _ _ _ _ _ Hth) as [Hs ->|offNp offNm Hv Hp Hm W].
        -- left. split; [assumption|]. intros i Hi. apply IH2; [lia|assumption].
        -- right. split; [assumption|]. exists offNp, offNm. repeat split; auto.
           intros i Hi. eapply row_written_same; eauto.
      * assert (Hin : 0 <= idx < Z.of_nat n) by lia.
        destruct (IH1 idx Hin) as [(Hs & Hrow)|(Hv & offNp & offNm & Hp & Hm & Hrow)].
        -- left. split; [assumption|]. intros i Hi.
           rewrite (blur_thread_other_row _ _ _ _ _ _ _ _ _ Hth Hne Hi). auto.
        -- right. split; [assumption|]. exists offNp, offNm. repeat split; auto.
           intros i Hi. rewrite (blur_thread_other_row _ _ _ _ _ _ _ _ _ Hth Hne Hi). auto.
    + intros idx i Hidx Hi. assert (Hne : idx <> Z.of_nat n) by lia.
      rewrite (blur_thread_other_row _ _ _ _ _ _ _ _ _ Hth Hne Hi).
      apply IH2; [lia|assumption].
Qed.

Lemma blur_returns (fuel : nat) (n : nat) (src : Z -> Q) (matrix : Z -> MatrixEntry)
    (color : Z) (table : HashTableGPU) :
  (forall key, exists r, retrieve pd fuel table key = Ret r) ->
  exists out, blur pd vd fuel n src matrix color table = Ret out.
Proof.
  intros T. unfold blur.
  destruct (for_upM_ind (fun _ _ => True) (blur_thread pd vd fuel matrix color table) src n I)
    as (r & Hr & _); [|eauto].
  intros k acc _ _. destruct (blur_thread_returns fuel matrix color table (Z.of_nat k) acc T)
    as (out & ->). eauto.
Qed.

(** [retrieve] returns, for every key, when some bucket is empty. *)
Lemma retrieve_returns (table : HashTableGPU) (fuel : nat) (key : Z -> Z) :
  0 < capacity table ->
  (exists p, 0 <= p < 2 * capacity table /\ entries table p = -1) ->
  (Z.to_nat (2 * capacity table) <= fuel)%nat ->
  exists r, retrieve pd fuel table key = Ret r.
Proof.
  intros Hc (p & Hp & He) Hf.
  destruct (bucket_reached table (modHash table (hash pd key)) p) as (d & Hd & Hit);
    [now apply modHash_range | assumption |].
  apply (retrieve_loop_terminates pd table key d); [lia|].
  left. now rewrite Hit.
Qed.

End BlurFacts.

(** The two neighbour keys of the vertex stored in slot [idx], along the
    axis [color]. *)
Lemma neighbours_spec (pd : nat) (table : HashTableGPU) (idx color i : Z) :
  0 <= i < Z.of_nat pd ->
  let myKey := keys table (idx * Z.of_nat pd + i) in
  fst (neighbours pd table idx color) i =
    (if Z.eqb i color then to_short (to_short (myKey + 1) - pd1 pd)
     else to_short (myKey + 1)) /\
  snd (neighbours pd table idx color) i =
    (if Z.eqb i color then to_short (to_short (myKey - 1) + pd1 pd)
     else to_short (myKey - 1)).
Proof.
  intros Hi. cbv zeta. unfold neighbours.
  set (body := fun (i : Z) '(np, nm) => _).
  assert (L : forall n, (n <= pd)%nat ->
            forall k, 0 <= k < Z.of_nat n ->
              fst (for_up n body (fun _ => 0, fun _ => 0)) k
                = to_short (keys table (idx * Z.of_nat pd + k) + 1) /\
              snd (for_up n body (fun _ => 0, fun _ => 0)) k
                = to_short (keys table (idx * Z.of_nat pd + k) - 1)).
  { intros m. induction m as [|n IH]; intros Hn k Hk; [lia|].
    rewrite for_up_S. destruct (for_up n body _) as [np nm] eqn:E. cbn [body fst snd] in *.
    destruct (Z.eq_dec k (Z.of_nat n)) as [->|Hne].
    - now rewrite !upd_same.
    - rewrite !upd_other by assumption. apply IH; lia. }
  specialize (L pd (Nat.le_refl _)).
  destruct (for_up pd body _) as [np nm]. cbn [fst snd] in *.
  destruct (Z.eqb_spec i color) as [->|Hne].
  - rewrite !upd_same. destruct (L color Hi) as [-> ->]. auto.
  - rewrite !upd_other by assumption. now apply L.
Qed.

(** ** The slice kernel *)

Section SliceFacts.

Variable pd : nat.
Variable vd : nat.

(** The barycentric weight of corner [i] of sample [idx], and channel [j]
    of the accumulator of that corner. *)
Definition corner_weight (matrix : Z -> MatrixEntry) (idx i : Z) : Q :=
  weight (matrix (idx * pd1 pd + i)).

Definition corner_value (matrix : Z -> MatrixEntry) (table : HashTableGPU) (idx i j : Z) : Q :=
  values table (index (matrix (idx * pd1 pd + i)) * Z.of_nat vd + j).

(** The weighted sum of channel [j] over the [pd + 1] corners. *)
Definition weighted_sum (matrix : Z -> MatrixEntry) (table : HashTableGPU) (idx j : Z) : Q :=
  sumQ (fun i => corner_weight matrix idx i * corner_value matrix table idx i j)%Q (S pd).

Lemma accumulate_spec (f : Z -> Q) (m : nat) (value : Z -> Q) (j : Z) :
  for_up m (fun j value => upd value j (value j + f j)%Q) value j =
  if (0 <=? j) && (j <? Z.of_nat m) then (value j + f j)%Q else value j.
Proof.
  induction m as [|m IH].
  - rewrite for_up_0. destruct (Z.leb_spec 0 j), (Z.ltb_spec j (Z.of_nat 0));
      cbn [andb]; try reflexivity; lia.
  - rewrite for_up_S. destruct (Z.eq_dec j (Z.of_nat m)) as [->|Hne].
    + rewrite upd_same, IH.
      destruct (Z.leb_spec 0 (Z.of_nat m)), (Z.ltb_spec (Z.of_nat m) (Z.of_nat m)),
        (Z.ltb_spec (Z.of_nat m) (Z.of_nat (S m))); cbn [andb]; try lia. reflexivity.
    + rewrite upd_other, IH by assumption.
      destruct (Z.leb_spec 0 j); cbn [andb]; [|reflexivity].
      destruct (Z.ltb_spec j (Z.of_nat m)), (Z.ltb_spec j (Z.of_nat (S m)));
        try reflexivity; lia.
Qed.

Lemma slice_sums_spec (matrix : Z -> MatrixEntry) (table : HashTableGPU) (idx : Z) :
  snd (slice_sums pd vd matrix table idx)
    = weighted_sum matrix table idx (Z.of_nat vd - 1) /\
  forall j, 0 <= j < Z.of_nat (vd - 1) ->
    fst (slice_sums pd vd matrix table idx) j = weighted_sum matrix table idx j.
Proof.
  unfold slice_sums, weighted_sum. generalize (S pd). intros m.
  induction m as [|m (IH1 & IH2)].
  - split; [reflexivity|]. intros; reflexivity.
  - rewrite for_up_S. destruct (for_up m _ _) as [value weight_]. cbn [fst snd sumQ] in *.
    split.
    + rewrite IH1. reflexivity.
    + intros j Hj.
      rewrite (accumulate_spec
                 (fun j => corner_weight matrix idx (Z.of_nat m)
                           * corner_value matrix table idx (Z.of_nat m) j)%Q).
      destruct (Z.leb_spec 0 j), (Z.ltb_spec j (Z.of_nat (vd - 1))); try lia.
      cbn [andb]. rewrite IH2 by assumption. reflexivity.
Qed.

(** The output buffer after thread [idx], when the mass is not zero. *)
Definition sliced (matrix : Z -> MatrixEntry) (table : HashTableGPU) (idx : Z)
    (values_out out : Z -> Q) : Prop :=
  forall k, out k =
    if (idx * (Z.of_nat vd - 1) <=? k) && (k <? idx * (Z.of_nat vd - 1) + Z.of_nat (vd - 1))
    then (weighted_sum matrix table idx (k - idx * (Z.of_nat vd - 1))
          * (1 / weighted_sum matrix table idx (Z.of_nat vd - 1)))%Q
    else values_out k.

Lemma slice_thread_spec (matrix : Z -> MatrixEntry) (table : HashTableGPU) (idx : Z)
    (values_out : Z -> Q) :
  let mass := weighted_sum matrix table idx (Z.of_nat vd - 1) in
  (mass == 0 -> slice_thread pd vd matrix table idx values_out = DivByZero) /\
  (~ mass == 0 ->
   exists out, slice_thread pd vd matrix table idx values_out = Ret out /\
               sliced matrix table idx values_out out).
Proof.
  cbv zeta. unfold slice_thread.
  destruct (slice_sums_spec matrix table idx) as (Hw & Hv).
  destruct (slice_sums pd vd matrix table idx) as [value weight_]. cbn [fst snd] in *.
  subst weight_. unfold reciprocal. split; intros Hm.
  - apply Qeq_bool_iff in Hm. now rewrite Hm.
  - destruct (Qeq_bool _ 0) eqn:E; [apply Qeq_bool_iff in E; contradiction|].
    cbn [bind]. eexists. split; [reflexivity|]. intros k.
    rewrite (for_up_fill (vd - 1) (idx * (Z.of_nat vd - 1))
               (fun j => value j * (1 / weighted_sum matrix table idx (Z.of_nat vd - 1)))%Q).
    destruct (Z.leb_spec (idx * (Z.of_nat vd - 1)) k); cbn [andb]; [|reflexivity].
    destruct (Z.ltb_spec k (idx * (Z.of_nat vd - 1) + Z.of_nat (vd - 1))); [|reflexivity].
    rewrite Hv by lia. reflexivity.
Qed.

Lemma sumQ_zero (f : Z -> Q) (m : nat) :
  (forall i, f i == 0) -> sumQ f m == 0.
Proof.
  intros H. induction m as [|m IH]; [reflexivity|].
  cbn [sumQ]. rewrite IH, H. reflexivity.
Qed.

End SliceFacts.

(** C10: [slice] divides by the accumulated mass with no guard.  For every
    sample the output is the weighted value sum times the reciprocal of the
    weighted mass sum, and when that mass is zero the kernel takes the
    division-by-zero branch; this happens for the accumulators of a table
    that has just been reset. *)
Theorem slice_divides_by_mass (pd vd : nat) (matrix : Z -> MatrixEntry)
    (table : HashTableGPU) (idx : Z) (values_out : Z -> Q) :
  let mass := weighted_sum pd vd matrix table idx (Z.of_nat vd - 1) in
  (mass == 0 -> slice_thread pd vd matrix table idx values_out = DivByZero) /\
  (~ mass == 0 ->
   exists out,
     slice_thread pd vd matrix table idx values_out = Ret out /\
     (forall j, 0 <= j < Z.of_nat (vd - 1) ->
        out (idx * (Z.of_nat vd - 1) + j)
        = (weighted_sum pd vd matrix table idx j * (1 / mass))%Q) /\
     (forall k, ~ idx * (Z.of_nat vd - 1) <= k < idx * (Z.of_nat vd - 1) + Z.of_nat (vd - 1) ->
        out k = values_out k)) /\
  slice pd vd 1 values_out matrix (new_table (capacity table)) = DivByZero.
Proof.
  cbv zeta. destruct (slice_thread_spec pd vd matrix table idx values_out) as (H0 & H1).
  cbv zeta in H0, H1. split; [exact H0|]. split.
  - intros Hm. destruct (H1 Hm) as (out & Hout & Hs). exists out.
    split; [exact Hout|]. split.
    + intros j Hj. rewrite Hs.
      destruct (Z.leb_spec (idx * (Z.of_nat vd - 1)) (idx * (Z.of_nat vd - 1) + j)); [|lia].
      destruct (Z.ltb_spec (idx * (Z.of_nat vd - 1) + j)
                  (idx * (Z.of_nat vd - 1) + Z.of_nat (vd - 1))); [|lia].
      cbn [andb]. do 2 f_equal. lia.
    + intros k Hk. rewrite Hs.
      destruct (Z.leb_spec (idx * (Z.of_nat vd - 1)) k); cbn [andb]; [|reflexivity].
      destruct (Z.ltb_spec k (idx * (Z.of_nat vd - 1) + Z.of_nat (vd - 1))); [lia|reflexivity].
  - unfold slice. rewrite for_upM_S, for_upM_0. cbn [bind].
    apply (slice_thread_spec pd vd matrix (new_table (capacity table)) 0 values_out).
    apply sumQ_zero. intros i. unfold corner_value. cbn [values new_table]. ring.
Qed.

(** ** The constructor *)

(** C8: at [n = 65535 * BLOCK_SIZE] the constructor prints its message and
    goes on to build the lattice, with a table of capacity [n * (pd + 1)];
    [filter] then launches the kernels on it. *)
Theorem constructor_continues_past_limit (pd vd : nat) (sqrtT : Q -> Q) (fuel : nat)
    (output input positions : Z -> Q) (reverse : bool) :
  let limit := 65535 * Z.of_nat BLOCK_SIZE in
  let L := snd (new_lattice pd sqrtT limit) in
  fst (new_lattice pd sqrtT limit) = [capacity_message] /\
  n L = 16776960 /\
  capacity (hashTable L) = 16776960 * pd1 pd /\
  filter pd vd sqrtT fuel output input positions limit reverse =
    ([capacity_message],
     do (output, _) <- lattice_filter pd vd fuel L output input positions reverse;
     Ret output).
Proof. cbv zeta. repeat split. Qed.

(** ** The barycentric weights are not negative *)

Lemma countb_le (p q : Z -> bool) (m : nat) :
  (forall k, 0 <= k < Z.of_nat m -> p k = true -> q k = true) ->
  countb p m <= countb q m.
Proof.
  induction m as [|m IH]; intros H; [reflexivity|]. cbn [countb].
  specialize (IH ltac:(intros; apply H; [lia|assumption])).
  pose proof (H (Z.of_nat m) ltac:(lia)).
  destruct (p (Z.of_nat m)), (q (Z.of_nat m));
    first [lia | discriminate (H0 eq_refl)].
Qed.

Lemma countb_lt (p q : Z -> bool) (m : nat) (k0 : Z) :
  (forall k, 0 <= k < Z.of_nat m -> p k = true -> q k = true) ->
  0 <= k0 < Z.of_nat m -> p k0 = false -> q k0 = true ->
  countb p m < countb q m.
Proof.
  induction m as [|m IH]; intros H Hk Hp Hq; [lia|]. cbn [countb].
  destruct (Z.eq_dec k0 (Z.of_nat m)) as [->|Hne].
  - rewrite Hp, Hq.
    pose proof (countb_le p q m ltac:(intros; apply H; [lia|assumption])). lia.
  - specialize (IH ltac:(intros; apply H; [lia|assumption]) ltac:(lia) Hp Hq).
    pose proof (H (Z.of_nat m) ltac:(lia)).
    destruct (p (Z.of_nat m)), (q (Z.of_nat m));
      first [lia | discriminate (H0 eq_refl)].
Qed.

Section RankOrder.

Variable pd : nat.
Variable elevated : Z -> Q.
Variable rem0 : Z -> Z.

Let d := residual elevated rem0.
Let rank := rank_of pd elevated rem0.

(** [j] comes before [i]: its residual is larger, or equal with a smaller
    index. *)
Definition precedes (j i : Z) : Prop :=
  (d i < d j)%Q \/ ((d i == d j)%Q /\ j < i).

Lemma before_iff (i j : Z) : before pd elevated rem0 i j = true <-> precedes j i.
Proof.
  unfold before, precedes. fold d.
  rewrite orb_true_iff, andb_true_iff, Qlt_bool_iff, Qeq_bool_iff, Z.ltb_lt.
  reflexivity.
Qed.

Lemma precedes_trans (k j i : Z) : precedes k j -> precedes j i -> precedes k i.
Proof.
  unfold precedes. intros [A|[A A']] [B|[B B']].
  - left. lra.
  - left. lra.
  - left. lra.
  - right. split; [lra|lia].
Qed.

Lemma precedes_irrefl (i : Z) : ~ precedes i i.
Proof. unfold precedes. intros [A|[_ A]]; [lra|lia]. Qed.

Lemma precedes_total (i j : Z) : i <> j -> precedes i j \/ precedes j i.
Proof.
  unfold precedes. intros Hne.
  destruct (Qlt_le_dec (d i) (d j)) as [L|L]; [right; now left|].
  destruct (Qlt_le_dec (d j) (d i)) as [L'|L']; [left; now left|].
  assert (E : (d i == d j)%Q) by lra.
  destruct (Z_lt_ge_dec i j); [left|right]; right; split; try lia; lra.
Qed.

Lemma rank_lt (i j : Z) :
  0 <= i <= Z.of_nat pd -> 0 <= j <= Z.of_nat pd -> precedes j i -> rank j < rank i.
Proof.
  intros Hi Hj P. unfold rank. rewrite !rank_of_spec by assumption.
  apply (countb_lt _ _ _ j).
  - intros k _ Hk. apply before_iff. apply before_iff in Hk.
    eapply precedes_trans; eauto.
  - lia.
  - apply before_irrefl.
  - now apply before_iff.
Qed.

Lemma rank_injective (i j : Z) :
  0 <= i <= Z.of_nat pd -> 0 <= j <= Z.of_nat pd -> rank i = rank j -> i = j.
Proof.
  intros Hi Hj E. destruct (Z.eq_dec i j) as [|Hne]; [assumption|exfalso].
  destruct (precedes_total i j Hne) as [P|P].
  - pose proof (rank_lt j i Hj Hi P). lia.
  - pose proof (rank_lt i j Hi Hj P). lia.
Qed.

Lemma rank_monotone (i j : Z) :
  0 <= i <= Z.of_nat pd -> 0 <= j <= Z.of_nat pd -> rank i < rank j -> (d j <= d i)%Q.
Proof.
  intros Hi Hj L. destruct (Qlt_le_dec (d i) (d j)) as [C|C]; [exfalso|assumption].
  pose proof (rank_lt i j Hi Hj (or_introl C)). lia.
Qed.

End RankOrder.

Section CorrectedOrder.

Variable pd : nat.
Variable elevated : Z -> Q.
Variable rem0 rank : Z -> Z.
Variable sum : Z.

Let d := residual elevated rem0.
Let rem0' := fun i => fst (corrected pd sum (rem0 i, rank i)).
Let rank' := fun i => snd (corrected pd sum (rem0 i, rank i)).
Let d' := residual elevated rem0'.

Hypothesis rank_range : forall i, 0 <= i <= Z.of_nat pd -> 0 <= rank i <= Z.of_nat pd.
Hypothesis rank_inj :
  forall i j, 0 <= i <= Z.of_nat pd -> 0 <= j <= Z.of_nat pd -> rank i = rank j -> i = j.
Hypothesis rank_mono :
  forall i j, 0 <= i <= Z.of_nat pd -> 0 <= j <= Z.of_nat pd ->
    rank i < rank j -> (d j <= d i)%Q.
Hypothesis d_range :
  forall i, 0 <= i <= Z.of_nat pd ->
    (- inject_Z (pd1 pd) < 2 * d i <= inject_Z (pd1 pd))%Q.
Hypothesis sum_range : - pd1 pd < sum < pd1 pd.

Lemma corrected_injective (i j : Z) :
  0 <= i <= Z.of_nat pd -> 0 <= j <= Z.of_nat pd -> rank' i = rank' j -> i = j.
Proof.
  intros Hi Hj E. pose proof (rank_range i Hi). pose proof (rank_range j Hj).
  apply rank_inj; try assumption.
  unfold rank', corrected in E.
  pose proof (eq_refl : pd1 pd = Z.of_nat pd + 1) as HD1.
  destruct (Z.ltb_spec 0 sum); [|destruct (Z.ltb_spec sum 0)].
  - destruct (Z.leb_spec (pd1 pd - sum) (rank i)),
      (Z.leb_spec (pd1 pd - sum) (rank j)); cbn [snd] in E; lia.
  - destruct (Z.ltb_spec (rank i) (- sum)), (Z.ltb_spec (rank j) (- sum));
      cbn [snd] in E; lia.
  - cbn [snd] in E. lia.
Qed.

Lemma corrected_order (i j : Z) :
  0 <= i <= Z.of_nat pd -> 0 <= j <= Z.of_nat pd -> rank' i < rank' j ->
  (d' j <= d' i <= d' j + inject_Z (pd1 pd))%Q.
Proof.
  intros Hi Hj L. pose proof (rank_range i Hi). pose proof (rank_range j Hj).
  pose proof (d_range i Hi) as Di. pose proof (d_range j Hj) as Dj.
  pose proof (rank_mono i j Hi Hj) as Mij. pose proof (rank_mono j i Hj Hi) as Mji.
  pose proof (rank_inj i j Hi Hj) as Inj.
  pose proof (eq_refl : pd1 pd = Z.of_nat pd + 1) as HD1.
  unfold rank', corrected in L. unfold d', rem0', residual, corrected.
  unfold d, residual in Di, Dj, Mij, Mji.
  destruct (Z.lt_trichotomy (rank i) (rank j)) as [C|[C|C]].
  - specialize (Mij C). clear Mji Inj.
    destruct (Z.ltb_spec 0 sum); [|destruct (Z.ltb_spec sum 0)].
    + destruct (Z.leb_spec (pd1 pd - sum) (rank i)), (Z.leb_spec (pd1 pd - sum) (rank j));
        cbn [fst snd] in *; try (exfalso; lia);
        unfold Z.sub; rewrite ?inject_Z_plus, ?inject_Z_opp; split; lra.
    + destruct (Z.ltb_spec (rank i) (- sum)), (Z.ltb_spec (rank j) (- sum));
        cbn [fst snd] in *; try (exfalso; lia);
        rewrite ?inject_Z_plus; split; lra.
    + cbn [fst snd] in *. split; lra.
  - specialize (Inj C). subst j. exfalso. lia.
  - specialize (Mji C). clear Mij Inj.
    destruct (Z.ltb_spec 0 sum); [|destruct (Z.ltb_spec sum 0)].
    + destruct (Z.leb_spec (pd1 pd - sum) (rank i)), (Z.leb_spec (pd1 pd - sum) (rank j));
        cbn [fst snd] in *; try (exfalso; lia);
        unfold Z.sub; rewrite ?inject_Z_plus, ?inject_Z_opp; split; lra.
    + destruct (Z.ltb_spec (rank i) (- sum)), (Z.ltb_spec (rank j) (- sum));
        cbn [fst snd] in *; try (exfalso; lia);
        rewrite ?inject_Z_plus; split; lra.
    + cbn [fst snd] in *. exfalso. lia.
Qed.

End CorrectedOrder.

(** An injective map of [0..m-1] into itself reaches every index. *)
Lemma injective_surjective (m : nat) (f : Z -> Z) :
  (forall i, 0 <= i < Z.of_nat m -> 0 <= f i < Z.of_nat m) ->
  (forall i j, 0 <= i < Z.of_nat m -> 0 <= j < Z.of_nat m -> f i = f j -> i = j) ->
  forall k, 0 <= k < Z.of_nat m -> exists i, 0 <= i < Z.of_nat m /\ f i = k.
Proof.
  intros Hr Hi k Hk.
  set (dom := map Z.of_nat (seq 0 m)).
  assert (Hdom : forall x, In x dom <-> 0 <= x < Z.of_nat m).
  { intros x. unfold dom. rewrite in_map_iff. split.
    - intros (y & <- & Hy). apply in_seq in Hy. lia.
    - intros Hx. exists (Z.to_nat x). split; [lia|]. apply in_seq. lia. }
  assert (Nd : NoDup dom).
  { unfold dom. apply NoDup_map_NoDup_ForallPairs; [|apply seq_NoDup].
    intros x y _ _ E. lia. }
  assert (Nf : NoDup (map f dom)).
  { apply NoDup_map_NoDup_ForallPairs; [|exact Nd].
    intros x y Hx Hy E. apply Hi; try assumption; now apply Hdom. }
  assert (Inc : incl dom (map f dom)).
  { apply NoDup_length_incl; [exact Nf | now rewrite length_map |].
    intros y Hy. apply in_map_iff in Hy. destruct Hy as (x & <- & Hx).
    apply Hdom, Hr, Hdom, Hx. }
  specialize (Inc k (proj2 (Hdom k) Hk)). apply in_map_iff in Inc.
  destruct Inc as (i & E & Hin). exists i. split; [now apply Hdom|assumption].
Qed.

Lemma sumQ_single (f : Z -> Q) (m : nat) (i0 : Z) :
  0 <= i0 < Z.of_nat m ->
  (forall i, 0 <= i < Z.of_nat m -> i <> i0 -> f i == 0) ->
  sumQ f m == f i0.
Proof.
  induction m as [|m IH]; intros H0 Hz; [lia|]. cbn [sumQ].
  destruct (Z.eq_dec i0 (Z.of_nat m)) as [->|Hne].
  - rewrite (sumQ_ext f (fun _ => 0%Q)) by (intros; apply Hz; lia).
    rewrite (sumQ_zero (fun _ => 0%Q)) by reflexivity. ring.
  - rewrite IH by (try intros; try apply Hz; lia).
    rewrite (Hz (Z.of_nat m)) by lia. ring.
Qed.

Lemma sumQ_sub (f g : Z -> Q) (m : nat) :
  (sumQ (fun i => f i - g i) m == sumQ f m - sumQ g m)%Q.
Proof.
  induction m as [|m IH]; [reflexivity|]. cbn [sumQ]. rewrite IH. ring.
Qed.

Section BarycentricSign.

Variable pd : nat.
Variable elevated : Z -> Q.
Variable rem0 rank : Z -> Z.

Let d := residual elevated rem0.
Let delta := fun i => (d i * (1 / inject_Z (pd1 pd)))%Q.

Hypothesis rank_range : forall i, 0 <= i <= Z.of_nat pd -> 0 <= rank i <= Z.of_nat pd.
Hypothesis rank_inj :
  forall i j, 0 <= i <= Z.of_nat pd -> 0 <= j <= Z.of_nat pd -> rank i = rank j -> i = j.
Hypothesis rank_order :
  forall i j, 0 <= i <= Z.of_nat pd -> 0 <= j <= Z.of_nat pd -> rank i < rank j ->
    (d j <= d i <= d j + inject_Z (pd1 pd))%Q.

(** The sum of the deltas of the coordinates of rank [m]. *)
Definition rank_class (m : Z) : Q :=
  sumQ (fun i => if Z.eqb (rank i) m then delta i else 0%Q) (S pd).

Lemma barycentric_loop_spec (n : nat) (k : Z) :
  (for_up n (barycentric_body pd elevated rem0 rank) (fun _ => 0%Q) k ==
   sumQ (fun i => if Z.eqb (rank i) (Z.of_nat pd - k) then delta i else 0%Q) n
   - sumQ (fun i => if Z.eqb (rank i) (Z.of_nat pd + 1 - k) then delta i else 0%Q) n)%Q.
Proof.
  induction n as [|n IH].
  - rewrite for_up_0. cbn [sumQ]. ring.
  - rewrite for_up_S. cbn [sumQ]. unfold barycentric_body at 1. cbv zeta.
    fold d. fold (delta (Z.of_nat n)).
    set (b := for_up n _ _) in *.
    destruct (Z.eqb_spec (rank (Z.of_nat n)) (Z.of_nat pd - k)) as [E1|N1];
      destruct (Z.eqb_spec (rank (Z.of_nat n)) (Z.of_nat pd + 1 - k)) as [E2|N2];
      try lia.
    + rewrite upd_other by lia. replace (Z.of_nat pd - rank (Z.of_nat n)) with k by lia.
      rewrite upd_same, IH. ring.
    + replace (Z.of_nat pd + 1 - rank (Z.of_nat n)) with k by lia.
      rewrite upd_same, upd_other by lia. rewrite IH. ring.
    + rewrite !upd_other by lia. rewrite IH. ring.
Qed.

Lemma rank_class_at (i : Z) :
  0 <= i <= Z.of_nat pd -> rank_class (rank i) == delta i.
Proof.
  intros Hi. unfold rank_class.
  etransitivity; [apply (sumQ_single _ _ i); [lia|]|].
  - intros j Hj Hne. destruct (Z.eqb_spec (rank j) (rank i)) as [E|]; [|reflexivity].
    apply rank_inj in E; lia.
  - cbv beta. now rewrite Z.eqb_refl.
Qed.

Lemma rank_class_outside (m : Z) :
  ~ 0 <= m <= Z.of_nat pd -> rank_class m == 0.
Proof.
  intros Hm. unfold rank_class.
  rewrite (sumQ_ext _ (fun _ => 0%Q)); [now apply sumQ_zero|].
  intros i Hi. destruct (Z.eqb_spec (rank i) m) as [E|]; [|reflexivity].
  pose proof (rank_range i ltac:(lia)). lia.
Qed.

Lemma rank_reached (m : Z) :
  0 <= m <= Z.of_nat pd -> exists i, 0 <= i <= Z.of_nat pd /\ rank i = m.
Proof.
  intros Hm. destruct (injective_surjective (S pd) rank) with (k := m) as (i & Hi & E).
  - intros i Hi. pose proof (rank_range i ltac:(lia)). lia.
  - intros i j Hi Hj. apply rank_inj; lia.
  - lia.
  - exists i. split; [lia|assumption].
Qed.

Lemma delta_order (i j : Z) :
  0 <= i <= Z.of_nat pd -> 0 <= j <= Z.of_nat pd -> rank i < rank j ->
  (delta j <= delta i <= delta j + 1)%Q.
Proof.
  intros Hi Hj L. destruct (rank_order i j Hi Hj L) as [A B].
  unfold delta. pose proof (pd1_posQ pd) as HD.
  set (D := inject_Z (pd1 pd)) in *.
  assert (HI : (0 < 1 / D)%Q) by (apply Qlt_shift_div_l; lra).
  assert (E : ((d j + D) * (1 / D) == d j * (1 / D) + 1)%Q) by (field; lra).
  split; [|rewrite <- E]; apply Qmult_le_compat_r; lra.
Qed.

(** Non-negativity of the weights. *)
Lemma barycentric_nonneg (k : Z) :
  0 <= k <= Z.of_nat pd ->
  (0 <= barycentric_of pd elevated rem0 rank k)%Q.
Proof.
  intros Hk. unfold barycentric_of. fold (barycentric_body pd elevated rem0 rank).
  set (b := for_up (S pd) _ _).
  assert (Hb : forall k, (b k == rank_class (Z.of_nat pd - k)
                                 - rank_class (Z.of_nat pd + 1 - k))%Q).
  { intros k'. unfold b, rank_class. apply barycentric_loop_spec. }
  destruct (Z.eq_dec k 0) as [->|Hne].
  - rewrite upd_same, !Hb.
    replace (Z.of_nat pd - 0) with (Z.of_nat pd) by lia.
    replace (Z.of_nat pd + 1 - (Z.of_nat pd + 1)) with 0 by lia.
    replace (Z.of_nat pd + 1 - 0) with (Z.of_nat pd + 1) by lia.
    replace (Z.of_nat pd - (Z.of_nat pd + 1)) with (-1) by lia.
    rewrite (rank_class_outside (Z.of_nat pd + 1)) by lia.
    rewrite (rank_class_outside (-1)) by lia.
    destruct (rank_reached (Z.of_nat pd) ltac:(lia)) as (i & Hi & Ei).
    destruct (rank_reached 0 ltac:(lia)) as (j & Hj & Ej).
    pose proof (rank_class_at i Hi) as Ci. rewrite Ei in Ci.
    pose proof (rank_class_at j Hj) as Cj. rewrite Ej in Cj.
    rewrite Ci, Cj.
    destruct (Z.eq_dec i j) as [->|Hij]; [lra|].
    assert (L : rank j < rank i).
    { pose proof (rank_range i Hi). destruct (Z.eq_dec (rank i) (rank j)) as [E|];
        [apply rank_inj in E; try assumption; congruence | lia]. }
    pose proof (delta_order j i Hj Hi L). lra.
  - rewrite upd_other by assumption. rewrite Hb.
    destruct (rank_reached (Z.of_nat pd - k) ltac:(lia)) as (i & Hi & Ei).
    destruct (rank_reached (Z.of_nat pd + 1 - k) ltac:(lia)) as (j & Hj & Ej).
    pose proof (rank_class_at i Hi) as Ci. rewrite Ei in Ci.
    pose proof (rank_class_at j Hj) as Cj. rewrite Ej in Cj.
    rewrite Ci, Cj.
    pose proof (delta_order i j Hi Hj ltac:(lia)). lra.
Qed.

End BarycentricSign.

(** A position is valid when the conversions to [short] of line 181 and
    183 are exact: the two candidate multiples of every elevated
    coordinate fit in 16 bits. *)
Definition valid_position (pd : nat) (position scaleFactor : Z -> Q) : Prop :=
  forall i, 0 <= i <= Z.of_nat pd ->
    in_short (lower_multiple pd (elevate pd position scaleFactor i)) /\
    in_short (upper_multiple pd (elevate pd position scaleFactor i)).

Section ValidEmbedding.

Variable pd : nat.
Variable position scaleFactor : Z -> Q.

Hypothesis pd_small : pd1 pd * pd1 pd < 2 ^ 16.
Hypothesis valid : valid_position pd position scaleFactor.

Let elevated := elevate pd position scaleFactor.
Let sum := fst (round_to_lattice pd elevated).
Let rem0 := snd (round_to_lattice pd elevated).
Let rank := rank_of pd elevated rem0.

Lemma valid_rem0 (i : Z) :
  0 <= i <= Z.of_nat pd -> rem0 i = chosen_multiple pd (elevated i).
Proof.
  intros Hi. unfold rem0. rewrite round_to_lattice_unfold. cbn [snd].
  destruct (round_loop_spec pd elevated (S pd)) as (_ & S2 & _). cbv zeta in S2.
  rewrite S2 by lia. rewrite round_coordinate_chosen. apply to_short_small.
  unfold chosen_multiple. destruct (Qlt_bool _ _); apply (valid i Hi).
Qed.

Lemma valid_residual_range (i : Z) :
  0 <= i <= Z.of_nat pd ->
  (- inject_Z (pd1 pd) < 2 * residual elevated rem0 i <= inject_Z (pd1 pd))%Q.
Proof.
  intros Hi. unfold residual. rewrite valid_rem0 by assumption.
  apply chosen_multiple_error.
Qed.

Lemma valid_sum_range : - pd1 pd < sum < pd1 pd.
Proof.
  unfold sum. rewrite round_to_lattice_unfold. cbn [fst].
  destruct (round_loop_spec pd elevated (S pd)) as (S1 & S2 & _). cbv zeta in S1, S2.
  rewrite S1.
  rewrite (to_short_sumZ (fun i => chosen_multiple pd (elevated i)))
    by (intros; rewrite S2 by assumption; apply round_coordinate_chosen).
  pose proof (chosen_sum_bound pd position scaleFactor) as B. cbv zeta in B.
  fold elevated in B.
  set (total := sumZ (fun i => chosen_multiple pd (elevated i)) (S pd)) in *.
  pose proof (pd1_pos pd) as HD.
  assert (HD' : pd1 pd < 2 ^ 15) by nia.
  rewrite (to_short_small total) by (unfold in_short; lia).
  assert (Hb : - (pd1 pd * (pd1 pd - 1)) <= total <= pd1 pd * (pd1 pd - 1)).
  { destruct (Z.eq_dec (pd1 pd) 1) as [E|NE]; [rewrite E in *; lia|nia]. }
  pose proof (quot_bound total (pd1 pd) (pd1 pd - 1) HD Hb).
  rewrite to_short_small by (unfold in_short; lia). lia.
Qed.

(** The weights of a valid position are not negative. *)
Lemma valid_weights_nonneg (k : Z) :
  0 <= k <= Z.of_nat pd ->
  (0 <= s_barycentric (embed pd position scaleFactor) k)%Q.
Proof.
  intros Hk. pose proof (embed_unfold pd position scaleFactor) as E.
  cbv zeta in E. rewrite E. cbn [s_barycentric]. clear E.
  fold elevated. fold sum. fold rem0. fold rank.
  set (c := correct_sum pd sum rem0 rank).
  assert (Hc : forall i, 0 <= i <= Z.of_nat pd ->
            fst c i = fst (corrected pd sum (rem0 i, rank i)) /\
            snd c i = snd (corrected pd sum (rem0 i, rank i))).
  { intros i Hi. pose proof (correct_sum_spec pd sum rem0 rank i) as S.
    cbv zeta in S. fold c in S.
    destruct (Z.leb_spec 0 i), (Z.leb_spec i (Z.of_nat pd)); try lia.
    cbn [andb] in S. rewrite <- S. auto. }
  assert (R : forall i, 0 <= i <= Z.of_nat pd -> 0 <= rank i <= Z.of_nat pd)
    by (intros; now apply rank_of_range).
  assert (Inj : forall i j, 0 <= i <= Z.of_nat pd -> 0 <= j <= Z.of_nat pd ->
                  rank i = rank j -> i = j)
    by (intros i j; apply rank_injective).
  assert (Mono : forall i j, 0 <= i <= Z.of_nat pd -> 0 <= j <= Z.of_nat pd ->
                   rank i < rank j -> (residual elevated rem0 j <= residual elevated rem0 i)%Q)
    by (intros i j; apply rank_monotone).
  apply barycentric_nonneg; try assumption.
  - intros i Hi. rewrite (proj2 (Hc i Hi)). apply corrected_rank_range; [|now apply R].
    pose proof valid_sum_range. lia.
  - intros i j Hi Hj. rewrite (proj2 (Hc i Hi)), (proj2 (Hc j Hj)).
    now apply (corrected_injective pd rem0 rank sum R Inj valid_sum_range).
  - intros i j Hi Hj. rewrite (proj2 (Hc i Hi)), (proj2 (Hc j Hj)).
    unfold residual. rewrite (proj1 (Hc i Hi)), (proj1 (Hc j Hj)).
    apply (corrected_order pd elevated rem0 rank sum R Inj Mono
             valid_residual_range valid_sum_range); assumption.
Qed.

End ValidEmbedding.

(** ** The table built by createLattice *)

Lemma for_up_ext {S : Type} (n : nat) (body body' : Z -> S -> S) (s : S) :
  (forall i acc, 0 <= i < Z.of_nat n -> body i acc = body' i acc) ->
  for_up n body s = for_up n body' s.
Proof.
  induction n as [|n IH]; intros H; [reflexivity|].
  rewrite !for_up_S, IH by (intros; apply H; lia). apply H. lia.
Qed.

Lemma upd_id {A : Type} (m : Z -> A) (i : Z) : upd m i (m i) = m.
Proof.
  apply functional_extensionality. intros k. unfold upd.
  destruct (Z.eqb_spec k i) as [->|]; reflexivity.
Qed.

Lemma countb_all_false (p : Z -> bool) (m : nat) :
  (forall i, 0 <= i < Z.of_nat m -> p i = false) -> countb p m = 0.
Proof.
  induction m as [|m IH]; intros H; [reflexivity|]. cbn [countb].
  rewrite IH, (H (Z.of_nat m)) by (try intros; try apply H; lia). reflexivity.
Qed.

(** Fewer than [m] hits among [m] indices: some index is missed. *)
Lemma countb_missed (p : Z -> bool) (m : nat) :
  countb p m < Z.of_nat m -> exists i, 0 <= i < Z.of_nat m /\ p i = false.
Proof.
  induction m as [|m IH]; intros H; [cbn in H; lia|]. cbn [countb] in H.
  destruct (p (Z.of_nat m)) eqn:E.
  - destruct IH as (i & Hi & Hp); [lia|]. exists i. split; [lia|assumption].
  - exists (Z.of_nat m). split; [lia|assumption].
Qed.

(** Changing one bucket changes the number of occupied buckets by at most
    one. *)
Lemma countb_upd (f : Z -> bool) (e : Z -> Z) (h v : Z) (m : nat) :
  countb (fun p => f (upd e h v p)) m <= countb (fun p => f (e p)) m + 1.
Proof.
  assert (G : forall m, (~ 0 <= h < Z.of_nat m ->
                         countb (fun p => f (upd e h v p)) m = countb (fun p => f (e p)) m)).
  { intros k. induction k as [|k IH]; intros Hh; [reflexivity|]. cbn [countb].
    rewrite IH by lia. rewrite upd_other by lia. reflexivity. }
  induction m as [|m IH]; [cbn; lia|]. cbn [countb].
  destruct (Z.eq_dec h (Z.of_nat m)) as [->|Hne].
  - rewrite G by lia. destruct (f _), (f _); lia.
  - rewrite upd_other by lia. destruct (f (e (Z.of_nat m))); lia.
Qed.

Section KeyExtensionality.

Variable pd : nat.

Lemma hash_ext (key key' : Z -> Z) :
  (forall i, 0 <= i < Z.of_nat pd -> key i = key' i) -> hash pd key = hash pd key'.
Proof.
  intros H. unfold hash. apply for_up_ext. intros i acc Hi. now rewrite H.
Qed.

Lemma key_match_key_ext (t : HashTableGPU) (c : Z) (key key' : Z -> Z) :
  (forall i, 0 <= i < Z.of_nat pd -> key i = key' i) ->
  key_match pd t c key = key_match pd t c key'.
Proof.
  intros H. apply eq_true_iff_eq. rewrite !key_match_spec.
  split; intros M i Hi; [rewrite <- H | rewrite H]; auto.
Qed.

Lemma retrieve_key_ext (fuel : nat) (t : HashTableGPU) (key key' : Z -> Z) :
  (forall i, 0 <= i < Z.of_nat pd -> key i = key' i) ->
  retrieve pd fuel t key = retrieve pd fuel t key'.
Proof.
  intros H. unfold retrieve. rewrite (hash_ext key key' H).
  generalize (modHash t (hash pd key')). induction fuel as [|fuel IH]; intros h;
    [reflexivity|].
  cbn [retrieve_loop]. rewrite (key_match_key_ext t _ key key' H), IH. reflexivity.
Qed.

(** A lookup that finds its key finds it again after a later insertion
    into a fresh slot. *)
Lemma retrieve_loop_stable (fuel : nat) (t t' : HashTableGPU) (key K : Z -> Z)
    (slot h h0 c : Z) :
  insert_effect pd t K slot h t' ->
  (forall p, entries t p <> slot) ->
  retrieve_loop pd fuel t key h0 = Ret c -> c <> -1 ->
  retrieve_loop pd fuel t' key h0 = Ret c.
Proof.
  intros [Eh Cap _ Ks Es|_ _ ->] Fresh; [|auto].
  revert h0. induction fuel as [|fuel IH]; intros h0 H Hc; [discriminate|].
  cbn [retrieve_loop] in *.
  destruct (Z.eqb_spec (entries t h0) (-1)) as [E1|N1]; [congruence|].
  assert (h0 <> h) by congruence.
  rewrite (Es h0). replace (h0 =? h) with false by (symmetry; now apply Z.eqb_neq).
  apply Z.eqb_neq in N1. rewrite N1.
  replace (key_match pd t' (entries t h0) key) with (key_match pd t (entries t h0) key).
  - destruct (key_match pd t (entries t h0) key); [assumption|].
    unfold next_bucket in *. rewrite Cap. now apply IH.
  - symmetry. rewrite <- (key_match_other_slot pd t slot _ K key (Fresh h0)).
    apply key_match_ext. intros i Hi. now rewrite Ks.
Qed.

End KeyExtensionality.

Lemma for_up_tabulate {A : Type} (n : nat) (g : Z -> A) (m : Z -> A) (k : Z) :
  for_up n (fun i ks => upd ks i (g i)) m k =
  if (0 <=? k) && (k <? Z.of_nat n) then g k else m k.
Proof.
  rewrite (for_up_ext n _ (fun i ks => upd ks (0 + i) (g i)))
    by (intros; reflexivity).
  rewrite for_up_fill. replace (k - 0) with k by lia. reflexivity.
Qed.

Section CreateLatticeFacts.

Variable pd : nat.
Variable fuel : nat.
Variable positions scaleFactor : Z -> Q.
Variable cap : Z.

(** What thread [idx] computes from its position. *)
Definition sample_simplex (idx : Z) : Simplex :=
  embed pd (fun i => positions (idx * Z.of_nat pd + i)) scaleFactor.

(** The key of corner [r] of a simplex. *)
Definition corner_key (sx : Simplex) (r : Z) : Z -> Z :=
  fun i =>
    if (0 <=? i) && (i <? Z.of_nat pd) then
      let k := to_short (s_rem0 sx i + r) in
      if Z.of_nat pd - r <? s_rank sx i then to_short (k - pd1 pd) else k
    else 0.

(** The key and the weight that belong to slot [s = idx * (pd+1) + r]. *)
Definition key_of (s : Z) : Z -> Z :=
  corner_key (sample_simplex (s / pd1 pd)) (s mod pd1 pd).

Definition weight_of (s : Z) : Q :=
  s_barycentric (sample_simplex (s / pd1 pd)) (s mod pd1 pd).

Lemma simplex_key_corner (sx : Simplex) (r : Z) (key : Z -> Z) :
  (forall i, ~ 0 <= i < Z.of_nat pd -> key i = 0) ->
  simplex_key pd (s_rem0 sx) (s_rank sx) r key = corner_key sx r.
Proof.
  intros H. apply functional_extensionality. intros i.
  unfold simplex_key, corner_key.
  rewrite (for_up_tabulate pd
             (fun i => let k := to_short (s_rem0 sx i + r) in
                       if Z.of_nat pd - r <? s_rank sx i then to_short (k - pd1 pd) else k)).
  destruct (Z.leb_spec 0 i), (Z.ltb_spec i (Z.of_nat pd)); cbn [andb];
    try reflexivity; apply H; lia.
Qed.

Lemma corner_key_outside (sx : Simplex) (r i : Z) :
  ~ 0 <= i < Z.of_nat pd -> corner_key sx r i = 0.
Proof.
  intros H. unfold corner_key.
  destruct (Z.leb_spec 0 i), (Z.ltb_spec i (Z.of_nat pd)); cbn [andb];
    try reflexivity; lia.
Qed.

Lemma slot_div (idx r : Z) : 0 <= r < pd1 pd -> (idx * pd1 pd + r) / pd1 pd = idx.
Proof.
  intros Hr. rewrite Z.add_comm, Z.div_add by lia. rewrite Z.div_small by lia. lia.
Qed.

Lemma slot_mod (idx r : Z) : 0 <= r < pd1 pd -> (idx * pd1 pd + r) mod pd1 pd = r.
Proof.
  intros Hr. rewrite Z.add_comm, Z.mod_add by lia. apply Z.mod_small. lia.
Qed.

(** The state of the table and of the matrix when the slots below [k] have
    been inserted, one after the other. *)
Record lattice_inv (k : Z) (t : HashTableGPU) (m : Z -> MatrixEntry) : Prop := {
  inv_capacity : capacity t = cap;
  inv_values : values t = fun _ => 0%Q;
  inv_entries : forall p, entries t p = -1 \/ 0 <= entries t p < k;
  inv_count :
    countb (fun p => negb (Z.eqb (entries t p) (-1))) (Z.to_nat (2 * cap)) <= k;
  inv_owner : forall p, entries t p <> -1 -> index (m (entries t p)) = p;
  inv_found : forall s, 0 <= s < k ->
    entries t (index (m s)) <> -1 /\
    retrieve pd fuel t (key_of s) = Ret (entries t (index (m s))) /\
    weight (m s) = weight_of s;
  inv_keys : forall p, entries t p <> -1 ->
    forall i, 0 <= i < Z.of_nat pd ->
      keys t (entries t p * Z.of_nat pd + i) = key_of (entries t p) i
}.

Lemma lattice_inv_unlocked (k : Z) (t : HashTableGPU) (m : Z -> MatrixEntry) :
  0 <= k -> lattice_inv k t m -> unlocked t.
Proof.
  intros Hk I p. destruct (inv_entries _ _ _ I p); lia.
Qed.

Lemma lattice_inv_empty_bucket (k : Z) (t : HashTableGPU) (m : Z -> MatrixEntry) :
  lattice_inv k t m -> k < 2 * cap ->
  exists p, 0 <= p < 2 * capacity t /\ entries t p = -1.
Proof.
  intros I Hk. rewrite (inv_capacity _ _ _ I).
  destruct (countb_missed (fun p => negb (Z.eqb (entries t p) (-1))) (Z.to_nat (2 * cap)))
    as (p & Hp & E).
  - pose proof (inv_count _ _ _ I). lia.
  - exists p. split; [lia|]. apply negb_false_iff in E. now apply Z.eqb_eq.
Qed.

Lemma insert_returns (k : Z) (t : HashTableGPU) (m : Z -> MatrixEntry) (key : Z -> Z)
    (slot : Z) :
  lattice_inv k t m -> 0 <= k < 2 * cap -> (Z.to_nat (2 * cap) <= fuel)%nat ->
  exists h t', insert pd fuel t key slot = Ret (h, t').
Proof.
  intros I Hk Hf.
  destruct (lattice_inv_empty_bucket k t m I ltac:(lia)) as (p & Hp & E).
  pose proof (inv_capacity _ _ _ I) as C.
  destruct (bucket_reached t (modHash t (hash pd key)) p) as (d & Hd & Hit);
    [apply modHash_range; lia | assumption |].
  destruct (insert_loop_terminates pd t key slot d fuel (modHash t (hash pd key)))
    as ([h t'] & Hr).
  - eapply lattice_inv_unlocked; [|eassumption]. lia.
  - rewrite C in Hd. lia.
  - left. now rewrite Hit.
  - exists h, t'. exact Hr.
Qed.

End CreateLatticeFacts.

(** The lookup that follows an insertion finds the slot of the bucket that
    the insertion returned. *)
Lemma insert_retrieve (pd fuel : nat) (t : HashTableGPU) (key : Z -> Z)
    (slot h : Z) (t' : HashTableGPU) :
  unlocked t ->
  insert pd fuel t key slot = Ret (h, t') ->
  retrieve pd fuel t' key = Ret (entries t' h).
Proof.
  intros Hu H. unfold insert in H. unfold retrieve.
  pose proof (insert_loop_effect _ _ _ _ _ _ _ _ Hu H) as Eff.
  replace (modHash t' (hash pd key)) with (modHash t (hash pd key))
    by (unfold modHash; now rewrite (insert_effect_capacity _ _ _ _ _ _ Eff)).
  eapply insert_loop_retrieve_loop; eauto.
Qed.

Section CreateLatticeSteps.

Variable pd : nat.
Variable fuel : nat.
Variable positions scaleFactor : Z -> Q.
Variable cap : Z.

Local Abbreviation inv := (lattice_inv pd fuel positions scaleFactor cap).
Local Abbreviation key_of := (key_of pd positions scaleFactor).
Local Abbreviation weight_of := (weight_of pd positions scaleFactor).

Hypothesis enough_fuel : (Z.to_nat (2 * cap) <= fuel)%nat.

(** Inserting the key of slot [k] when the slots below [k] are in. *)
Lemma insert_step (k : Z) (t : HashTableGPU) (m : Z -> MatrixEntry) :
  inv k t m -> 0 <= k < 2 * cap ->
  exists h t',
    insert pd fuel t (key_of k) k = Ret (h, t') /\
    inv (k + 1) t' (upd m k (mkEntry h (weight_of k))).
Proof.
  intros I Hk.
  destruct (insert_returns pd fuel positions scaleFactor cap k t m (key_of k) k I Hk
              enough_fuel) as (h & t' & Hins).
  exists h, t'. split; [exact Hins|].
  assert (Hu : unlocked t) by (eapply lattice_inv_unlocked; [|eassumption]; lia).
  pose proof (insert_retrieve pd fuel t (key_of k) k h t' Hu Hins) as Hret.
  pose proof (insert_loop_effect pd fuel t (key_of k) k _ h t' Hu Hins) as Eff.
  assert (Fresh : forall p, entries t p <> k).
  { intros p. destruct (inv_entries _ _ _ _ _ _ _ _ I p); lia. }
  destruct I as [IC IV IE IN IO IF IK].
  destruct Eff as [Eh Cap Vs Ks Es | Nh Mh ->].
  - (* the key was new: bucket [h] now owns slot [k] *)
    constructor.
    + congruence.
    + congruence.
    + intros p. rewrite Es. destruct (Z.eqb_spec p h); [right; lia|].
      destruct (IE p); [now left|right; lia].
    + assert (Ee : entries t' = upd (entries t) h k).
      { apply functional_extensionality. intros p. rewrite Es. unfold upd.
        reflexivity. }
      rewrite Ee.
      pose proof (countb_upd (fun e => negb (Z.eqb e (-1))) (entries t) h k
                    (Z.to_nat (2 * cap))) as Hcount.
      cbv beta in Hcount. lia.
    + intros p Hp. rewrite Es in Hp |- *. destruct (Z.eqb_spec p h) as [E|Hne].
      * subst p. now rewrite upd_same.
      * rewrite upd_other by (apply Fresh). now apply IO.
    + intros s Hs. destruct (Z.eq_dec s k) as [->|Hne].
      * rewrite upd_same. cbn [index weight]. rewrite Es, Z.eqb_refl.
        repeat split; [lia|]. rewrite Hret, Es, Z.eqb_refl. reflexivity.
      * rewrite upd_other by assumption.
        destruct (IF s ltac:(lia)) as (F1 & F2 & F3).
        assert (index (m s) <> h) by congruence.
        rewrite Es. replace (index (m s) =? h) with false
          by (symmetry; now apply Z.eqb_neq).
        repeat split; try assumption.
        unfold retrieve in *. unfold modHash in *. rewrite Cap.
        eapply retrieve_loop_stable; eauto.
        apply (Claimed pd t (key_of k) k h t'); assumption.
    + intros p Hp i Hi. rewrite Es in Hp |- *. rewrite Ks.
      destruct (Z.eqb_spec p h) as [E|Hne].
      * subst p. rewrite write_key_keys.
        destruct (Z.leb_spec (k * Z.of_nat pd) (k * Z.of_nat pd + i)); [|lia].
        destruct (Z.ltb_spec (k * Z.of_nat pd + i) (k * Z.of_nat pd + Z.of_nat pd)); [|lia].
        cbn [andb]. f_equal. lia.
      * rewrite write_key_other_slot by (try apply Fresh; assumption). now apply IK.
  - (* the key was there: nothing changes but the matrix entry of slot [k] *)
    constructor; try assumption.
    + intros p. destruct (IE p); [now left|right; lia].
    + lia.
    + intros p Hp. rewrite upd_other by (apply Fresh). now apply IO.
    + intros s Hs. destruct (Z.eq_dec s k) as [->|Hne].
      * rewrite upd_same. cbn [index weight]. repeat split; assumption.
      * rewrite upd_other by assumption. apply IF. lia.
Qed.

End CreateLatticeSteps.

Section CreateLatticeKernel.

Variable pd : nat.
Variable fuel : nat.
Variable positions scaleFactor : Z -> Q.
Variable cap : Z.

Local Abbreviation inv := (lattice_inv pd fuel positions scaleFactor cap).

Hypothesis enough_fuel : (Z.to_nat (2 * cap) <= fuel)%nat.

Lemma createLattice_thread_spec (idx : Z) (t : HashTableGPU) (m : Z -> MatrixEntry) :
  0 <= idx -> (idx + 1) * pd1 pd <= 2 * cap ->
  inv (idx * pd1 pd) t m ->
  exists t' m',
    createLattice_thread pd fuel positions scaleFactor idx (t, m) = Ret (t', m') /\
    inv ((idx + 1) * pd1 pd) t' m'.
Proof.
  intros Hidx Hcap I. unfold createLattice_thread.
  fold (sample_simplex pd positions scaleFactor idx).
  set (sx := sample_simplex pd positions scaleFactor idx).
  set (body := fun (remainder : Z) '(key, table, matrix) => _).
  destruct (for_upM_ind
    (fun r (st : (Z -> Z) * HashTableGPU * (Z -> MatrixEntry)) =>
       (forall i, ~ 0 <= i < Z.of_nat pd -> fst (fst st) i = 0) /\
       inv (idx * pd1 pd + Z.of_nat r) (snd (fst st)) (snd st))
    body (fun _ => 0, fst (t, m), snd (t, m)) (S pd)) as ([[key t'] m'] & Hr & _ & I').
  - cbn [fst snd]. split; [reflexivity|]. now rewrite Z.add_0_r.
  - intros r [[key t1] m1] Hr (Hkey & I1). cbn [fst snd] in *.
    assert (Hr' : 0 <= Z.of_nat r < pd1 pd) by (unfold pd1; lia).
    pose proof (pd1_pos pd) as HD.
    destruct (insert_step pd fuel positions scaleFactor cap enough_fuel _ t1 m1 I1)
      as (h & t2 & Hins & I2); [nia|].
    unfold body. rewrite (simplex_key_corner pd sx (Z.of_nat r) key Hkey).
    unfold key_of in Hins. rewrite slot_div, slot_mod in Hins by assumption.
    fold sx in Hins. rewrite Hins. cbn [bind].
    eexists. split; [reflexivity|]. cbn [fst snd]. split.
    + intros i Hi. now apply corner_key_outside.
    + unfold weight_of in I2. rewrite slot_div, slot_mod in I2 by assumption.
      fold sx in I2. replace (idx * pd1 pd + Z.of_nat (S r))
        with (idx * pd1 pd + Z.of_nat r + 1) by lia. exact I2.
  - rewrite Hr. cbn [bind]. exists t', m'. split; [reflexivity|].
    cbn [fst snd] in I'. replace ((idx + 1) * pd1 pd) with (idx * pd1 pd + Z.of_nat (S pd))
      by (unfold pd1; lia). exact I'.
Qed.

Lemma new_table_inv (m : Z -> MatrixEntry) : inv 0 (new_table cap) m.
Proof.
  constructor; cbn [new_table capacity values entries keys]; try reflexivity.
  - intros p. now left.
  - rewrite countb_all_false; [lia|]. intros i _. reflexivity.
  - intros p Hp. contradiction.
  - intros s Hs. lia.
  - intros p Hp. contradiction.
Qed.

Lemma createLattice_spec (n : nat) (m : Z -> MatrixEntry) :
  Z.of_nat n * pd1 pd <= 2 * cap ->
  exists t' m',
    createLattice pd fuel n positions scaleFactor m (new_table cap) = Ret (t', m') /\
    inv (Z.of_nat n * pd1 pd) t' m'.
Proof.
  intros Hn. unfold createLattice.
  destruct (for_upM_ind
    (fun k (st : HashTableGPU * (Z -> MatrixEntry)) =>
       inv (Z.of_nat k * pd1 pd) (fst st) (snd st))
    (createLattice_thread pd fuel positions scaleFactor) (new_table cap, m) n)
    as ([t' m'] & Hr & I').
  - apply new_table_inv.
  - intros k [t1 m1] Hk I1. cbn [fst snd] in I1. pose proof (pd1_pos pd).
    destruct (createLattice_thread_spec (Z.of_nat k) t1 m1) as (t2 & m2 & H2 & I2);
      [lia | nia | assumption |].
    exists (t2, m2). split; [assumption|]. cbn [fst snd].
    replace (Z.of_nat (S k)) with (Z.of_nat k + 1) by lia. exact I2.
  - exists t', m'. split; assumption.
Qed.

(** On such a table the coalescing pass changes nothing. *)
Lemma cleanHashTable_thread_id (k : Z) (t : HashTableGPU) (m : Z -> MatrixEntry) (idx : Z) :
  inv k t m -> cleanHashTable_thread pd fuel idx t = Ret t.
Proof.
  intros I. unfold cleanHashTable_thread.
  destruct (Z.leb_spec 0 (entries t idx)) as [He|]; [|reflexivity].
  assert (Hn : entries t idx <> -1) by lia.
  pose proof (inv_owner _ _ _ _ _ _ _ _ I idx Hn) as Ho.
  destruct (inv_entries _ _ _ _ _ _ _ _ I idx) as [|Hrange]; [lia|].
  destruct (inv_found _ _ _ _ _ _ _ _ I _ Hrange) as (_ & Hf & _).
  rewrite Ho in Hf.
  rewrite (retrieve_key_ext pd fuel t _ (key_of pd positions scaleFactor (entries t idx)))
    by (intros i Hi; now apply (inv_keys _ _ _ _ _ _ _ _ I)).
  rewrite Hf. cbn [bind]. rewrite upd_id, set_entries_same. reflexivity.
Qed.

Lemma cleanHashTable_id (k : Z) (t : HashTableGPU) (m : Z -> MatrixEntry) (n : nat) :
  inv k t m -> cleanHashTable pd fuel n t = Ret t.
Proof.
  intros I. unfold cleanHashTable. induction n as [|n' IH]; [reflexivity|].
  rewrite for_upM_S, IH. cbn [bind]. now apply (cleanHashTable_thread_id k t m).
Qed.

End CreateLatticeKernel.

(** ** Accumulator buffers under a constant input *)

Section Accumulators.

Variable vd : nat.
Hypothesis vd_pos : (1 <= vd)%nat.

(** The constant value vector of the input. *)
Variable v : Z -> Q.

(** The mass channel of row [s] of a buffer. *)
Definition mass (tv : Z -> Q) (s : Z) : Q := tv (s * Z.of_nat vd + (Z.of_nat vd - 1)).

(** Every row is its mass times the constant value vector, and no mass is
    negative. *)
Definition proportional (tv : Z -> Q) : Prop :=
  (forall s j, 0 <= j < Z.of_nat vd - 1 ->
     tv (s * Z.of_nat vd + j) == v j * mass tv s) /\
  (forall s, (0 <= mass tv s)%Q).

Lemma proportional_zero : proportional (fun _ => 0%Q).
Proof.
  split.
  - intros s j _. unfold mass. ring.
  - intros s. unfold mass. apply Qle_refl.
Qed.

(** Cells of different rows are different. *)
Lemma cell_inj (s s' j j' : Z) :
  0 <= j < Z.of_nat vd -> 0 <= j' < Z.of_nat vd ->
  s * Z.of_nat vd + j = s' * Z.of_nat vd + j' -> s = s' /\ j = j'.
Proof.
  intros Hj Hj' E.
  assert (s = s') by (destruct (Z.lt_trichotomy s s') as [L|[L|L]]; [exfalso; nia|assumption|exfalso; nia]).
  subst s'. split; [reflexivity|lia].
Qed.

(** A buffer that agrees with [tv] except on row [r], where it holds
    [row]. *)
Definition row_replaced (r : Z) (row : Z -> Q) (tv tv' : Z -> Q) : Prop :=
  forall s j, 0 <= j < Z.of_nat vd ->
    tv' (s * Z.of_nat vd + j) = if Z.eqb s r then row j else tv (s * Z.of_nat vd + j).

Lemma row_replaced_proportional (r : Z) (row : Z -> Q) (tv tv' : Z -> Q) :
  row_replaced r row tv tv' -> proportional tv ->
  (forall j, 0 <= j < Z.of_nat vd - 1 -> row j == v j * row (Z.of_nat vd - 1)) ->
  (0 <= row (Z.of_nat vd - 1)%Z)%Q ->
  proportional tv'.
Proof.
  intros R [P1 P2] Hrow Hm. split.
  - intros s j Hj. unfold mass. rewrite !R by lia.
    destruct (Z.eqb s r); [now apply Hrow|now apply P1].
  - intros s. unfold mass. rewrite R by lia.
    destruct (Z.eqb s r); [assumption|apply P2].
Qed.

(** Adding [src] to the [vd] cells that start at [base]. *)
Lemma for_up_add (m : nat) (base : Z) (src : Z -> Q) (tv : Z -> Q) (k : Z) :
  for_up m (fun j tv => upd tv (base + j) (tv (base + j)%Z + src j)%Q) tv k =
  if (base <=? k) && (k <? base + Z.of_nat m) then (tv k + src (k - base)%Z)%Q else tv k.
Proof.
  induction m as [|m IH].
  - rewrite for_up_0. destruct (Z.leb_spec base k), (Z.ltb_spec k (base + Z.of_nat 0));
      cbn [andb]; try reflexivity; lia.
  - rewrite for_up_S. unfold upd at 1.
    destruct (Z.eqb_spec k (base + Z.of_nat m)) as [->|Hne].
    + rewrite IH.
      destruct (Z.leb_spec base (base + Z.of_nat m)); [|lia].
      destruct (Z.ltb_spec (base + Z.of_nat m) (base + Z.of_nat m)); [lia|].
      destruct (Z.ltb_spec (base + Z.of_nat m) (base + Z.of_nat (S m))); [|lia].
      cbn [andb]. do 2 f_equal. lia.
    + rewrite IH.
      destruct (Z.leb_spec base k); cbn [andb]; [|reflexivity].
      destruct (Z.ltb_spec k (base + Z.of_nat m)), (Z.ltb_spec k (base + Z.of_nat (S m)));
        try reflexivity; lia.
Qed.

Lemma in_row (r s j : Z) :
  0 <= j < Z.of_nat vd ->
  (r * Z.of_nat vd <=? s * Z.of_nat vd + j)
  && (s * Z.of_nat vd + j <? r * Z.of_nat vd + Z.of_nat vd) = Z.eqb s r.
Proof.
  intros Hj. destruct (Z.eqb_spec s r) as [->|Hne].
  - destruct (Z.leb_spec (r * Z.of_nat vd) (r * Z.of_nat vd + j)); [|lia].
    destruct (Z.ltb_spec (r * Z.of_nat vd + j) (r * Z.of_nat vd + Z.of_nat vd)); [|lia].
    reflexivity.
  - destruct (Z.leb_spec (r * Z.of_nat vd) (s * Z.of_nat vd + j)); cbn [andb];
      [|reflexivity].
    destruct (Z.ltb_spec (s * Z.of_nat vd + j) (r * Z.of_nat vd + Z.of_nat vd));
      [|reflexivity].
    exfalso. nia.
Qed.

(** Adding a proportional row to row [r] of a proportional buffer. *)
Lemma add_row_spec (r : Z) (src : Z -> Q) (tv : Z -> Q) :
  row_replaced r (fun j => tv (r * Z.of_nat vd + j)%Z + src j)%Q tv
    (for_up vd (fun j tv => upd tv (r * Z.of_nat vd + j)
                              (tv (r * Z.of_nat vd + j)%Z + src j)%Q) tv).
Proof.
  intros s j Hj. rewrite for_up_add, in_row by assumption.
  destruct (Z.eqb_spec s r) as [->|]; [|reflexivity].
  do 2 f_equal. lia.
Qed.

Lemma add_row_proportional (r : Z) (src : Z -> Q) (tv tv' : Z -> Q) :
  row_replaced r (fun j => tv (r * Z.of_nat vd + j)%Z + src j)%Q tv tv' ->
  proportional tv ->
  (forall j, 0 <= j < Z.of_nat vd - 1 -> src j == v j * src (Z.of_nat vd - 1)) ->
  (0 <= src (Z.of_nat vd - 1)%Z)%Q ->
  proportional tv' /\
  (forall s, (mass tv s <= mass tv' s)%Q) /\
  (mass tv' r == mass tv r + src (Z.of_nat vd - 1)%Z)%Q.
Proof.
  intros R P Hs Hm. pose proof P as [P1 P2]. split; [|split].
  - apply (row_replaced_proportional r _ tv tv' R P).
    + intros j Hj. rewrite (P1 r j Hj), (Hs j Hj). unfold mass. ring.
    + specialize (P2 r). unfold mass in P2. lra.
  - intros s. unfold mass. rewrite R by lia.
    destruct (Z.eqb_spec s r) as [->|]; lra.
  - unfold mass. rewrite R by lia. rewrite Z.eqb_refl. reflexivity.
Qed.

End Accumulators.

(** ** The splat kernel under a constant input *)

Section SplatBlock.

Variable pd vd : nat.
Hypothesis vd_pos : (1 <= vd)%nat.

Variable v : Z -> Q.
Variable n : Z.
Variable values_in : Z -> Q.

Hypothesis constant_values :
  forall idx j, 0 <= idx < n -> 0 <= j < Z.of_nat vd - 1 ->
    values_in (idx * (Z.of_nat vd - 1) + j) = v j.

(** The table when the block starts (its entries do not change), the color
    and the index of the block. *)
Variable table : HashTableGPU.
Variable color blockIdx_x : Z.
Hypothesis color_range : 0 <= color < pd1 pd.
Hypothesis block_range : 0 <= blockIdx_x.

(** The sample of a thread and its cell of the matrix. *)
Definition sample_of (threadId : Z) : Z := threadId + blockIdx_x * Z.of_nat BLOCK_SIZE.

Definition cell_of (threadId : Z) : Z := sample_of threadId * pd1 pd + color.

(** A matrix entry turned from a bucket index into a slot. *)
Definition converted (matrix : Z -> MatrixEntry) (c : Z) : MatrixEntry :=
  mkEntry (entries table (index (matrix c))) (weight (matrix c)).

Lemma cell_of_inj (t1 t2 : Z) : cell_of t1 = cell_of t2 -> t1 = t2.
Proof. unfold cell_of, sample_of. pose proof (pd1_pos pd). nia. Qed.

(** The row a thread stores in [sharedValues]. *)
Definition loaded_row (matrix : Z -> MatrixEntry) (threadId : Z) (j : Z) : Q :=
  if Z.eqb j (Z.of_nat vd - 1) then weight (matrix (cell_of threadId))
  else (values_in (sample_of threadId * (Z.of_nat vd - 1) + j)
        * weight (matrix (cell_of threadId)))%Q.

Lemma splat_load_out (threadId : Z) (matrix : Z -> MatrixEntry) (offs : Z -> Z)
    (sv : Z -> Q) :
  n <= sample_of threadId ->
  splat_load pd vd n values_in table color blockIdx_x threadId (matrix, offs, sv)
  = (matrix, upd offs threadId (-1), sv).
Proof.
  intros H. unfold splat_load. fold (sample_of threadId).
  destruct (Z.leb_spec n (sample_of threadId)); [reflexivity|lia].
Qed.

Lemma splat_load_in (threadId : Z) (matrix : Z -> MatrixEntry) (offs : Z -> Z)
    (sv : Z -> Q) :
  sample_of threadId < n ->
  exists sv',
    splat_load pd vd n values_in table color blockIdx_x threadId (matrix, offs, sv)
    = (upd matrix (cell_of threadId) (converted matrix (cell_of threadId)),
       upd offs threadId (entries table (index (matrix (cell_of threadId))) * Z.of_nat vd),
       sv') /\
    row_replaced vd threadId (loaded_row matrix threadId) sv sv'.
Proof.
  intros H. unfold splat_load. fold (sample_of threadId). fold (cell_of threadId).
  destruct (Z.leb_spec n (sample_of threadId)); [lia|].
  eexists. split; [reflexivity|].
  intros s j Hj. unfold loaded_row.
  set (w := weight (matrix (cell_of threadId))).
  unfold upd at 1.
  destruct (Z.eqb_spec (s * Z.of_nat vd + j) (threadId * Z.of_nat vd + (Z.of_nat vd - 1)))
    as [E|NE].
  - assert (Hl : 0 <= Z.of_nat vd - 1 < Z.of_nat vd) by lia.
    destruct (cell_inj vd vd_pos _ _ _ _ Hj Hl E) as [-> ->].
    now rewrite !Z.eqb_refl.
  - rewrite (for_up_fill (vd - 1) (threadId * Z.of_nat vd)
               (fun j => values_in (sample_of threadId * (Z.of_nat vd - 1) + j)%Z * w)%Q).
    destruct (Z.eqb_spec s threadId) as [->|Hs].
    + destruct (Z.eqb_spec j (Z.of_nat vd - 1)) as [->|Hj']; [contradiction|].
      destruct (Z.leb_spec (threadId * Z.of_nat vd) (threadId * Z.of_nat vd + j)); [|lia].
      destruct (Z.ltb_spec (threadId * Z.of_nat vd + j)
                  (threadId * Z.of_nat vd + Z.of_nat (vd - 1))); [|lia].
      cbn [andb]. do 3 f_equal. lia.
    + destruct (Z.leb_spec (threadId * Z.of_nat vd) (s * Z.of_nat vd + j));
        cbn [andb]; [|reflexivity].
      destruct (Z.ltb_spec (s * Z.of_nat vd + j)
                  (threadId * Z.of_nat vd + Z.of_nat (vd - 1))); [|reflexivity].
      exfalso. nia.
Qed.

Lemma loaded_row_proportional (matrix : Z -> MatrixEntry) (threadId : Z) :
  0 <= sample_of threadId < n ->
  (0 <= weight (matrix (cell_of threadId)))%Q ->
  (forall j, 0 <= j < Z.of_nat vd - 1 ->
     loaded_row matrix threadId j == v j * loaded_row matrix threadId (Z.of_nat vd - 1)) /\
  (0 <= loaded_row matrix threadId (Z.of_nat vd - 1))%Q.
Proof.
  intros Hs Hw. unfold loaded_row. rewrite Z.eqb_refl. split; [|assumption].
  intros j Hj. destruct (Z.eqb_spec j (Z.of_nat vd - 1)); [lia|].
  rewrite constant_values by assumption. reflexivity.
Qed.

(** The state of a block when its first [k] threads have reached the
    barrier. *)
Record loaded (matrix : Z -> MatrixEntry) (k : nat)
    (st : (Z -> MatrixEntry) * (Z -> Z) * (Z -> Q)) : Prop := {
  loaded_cells : forall tid, 0 <= tid < Z.of_nat k -> sample_of tid < n ->
    fst (fst st) (cell_of tid) = converted matrix (cell_of tid);
  loaded_frame : forall c,
    (forall tid, 0 <= tid < Z.of_nat k -> sample_of tid < n -> c <> cell_of tid) ->
    fst (fst st) c = matrix c;
  loaded_offsets : forall tid, 0 <= tid < Z.of_nat k -> sample_of tid < n ->
    snd (fst st) tid = entries table (index (matrix (cell_of tid))) * Z.of_nat vd /\
    mass vd (snd st) tid = weight (matrix (cell_of tid));
  loaded_values : proportional vd v (snd st)
}.

Lemma load_phase (matrix : Z -> MatrixEntry) (k : nat) :
  (forall tid, 0 <= tid < Z.of_nat k -> sample_of tid < n ->
     (0 <= weight (matrix (cell_of tid)))%Q) ->
  loaded matrix k
    (for_up k (splat_load pd vd n values_in table color blockIdx_x)
       (matrix, fun _ => 0, fun _ => 0%Q)).
Proof.
  intros Hw. induction k as [|k IH].
  - rewrite for_up_0. constructor; cbn [fst snd]; intros; try lia.
    + reflexivity.
    + apply proportional_zero.
  - rewrite for_up_S. specialize (IH ltac:(intros; apply Hw; [lia|assumption])).
    destruct (for_up k _ _) as [[M offs] sv]. destruct IH as [IC IF IO IV].
    cbn [fst snd] in *.
    destruct (Z_lt_ge_dec (sample_of (Z.of_nat k)) n) as [Hin|Hout].
    + destruct (splat_load_in (Z.of_nat k) M offs sv Hin) as (sv' & -> & R).
      assert (EM : M (cell_of (Z.of_nat k)) = matrix (cell_of (Z.of_nat k))).
      { apply IF. intros tid Ht _ E. apply cell_of_inj in E. lia. }
      assert (EC : converted M (cell_of (Z.of_nat k))
                   = converted matrix (cell_of (Z.of_nat k)))
        by (unfold converted; now rewrite EM).
      assert (Hs : 0 <= sample_of (Z.of_nat k) < n)
        by (unfold sample_of in *; split; [nia|assumption]).
      assert (Hwk : (0 <= weight (M (cell_of (Z.of_nat k))))%Q)
        by (rewrite EM; apply Hw; [lia|assumption]).
      destruct (loaded_row_proportional M (Z.of_nat k) Hs Hwk) as [L1 L2].
      constructor; cbn [fst snd].
      * intros tid Ht Hs'. destruct (Z.eq_dec tid (Z.of_nat k)) as [->|Hne].
        -- now rewrite upd_same.
        -- rewrite upd_other by (intros E; apply cell_of_inj in E; lia).
           apply IC; [lia|assumption].
      * intros c Hc. rewrite upd_other by (apply Hc; [lia|assumption]).
        apply IF. intros tid Ht Hs'. apply Hc; [lia|assumption].
      * intros tid Ht Hs'. destruct (Z.eq_dec tid (Z.of_nat k)) as [->|Hne].
        -- rewrite upd_same, EM. split; [reflexivity|].
           unfold mass. rewrite R by lia. rewrite Z.eqb_refl.
           unfold loaded_row. now rewrite Z.eqb_refl, EM.
        -- rewrite upd_other by assumption. destruct (IO tid ltac:(lia) Hs') as [O1 O2].
           split; [assumption|]. unfold mass in *. rewrite R by lia.
           destruct (Z.eqb_spec tid (Z.of_nat k)); [contradiction|assumption].
      * eapply row_replaced_proportional; eauto.
    + rewrite splat_load_out by lia.
      constructor; cbn [fst snd].
      * intros tid Ht Hs'. apply IC; [|assumption].
        destruct (Z.eq_dec tid (Z.of_nat k)) as [->|]; lia.
      * intros c Hc. apply IF. intros tid Ht Hs'. apply Hc; [lia|assumption].
      * intros tid Ht Hs'.
        assert (tid <> Z.of_nat k) by (intros ->; lia).
        rewrite upd_other by assumption. apply IO; [lia|assumption].
      * assumption.
Qed.

End SplatBlock.

Section SplatReduce.

Variable vd : nat.
Hypothesis vd_pos : (1 <= vd)%nat.
Variable v : Z -> Q.
Variable n : Z.
Variable sharedOffsets : Z -> Z.
Variable blockIdx_x : Z.

(** Lines 349-351: row [i] is added to row [threadId]. *)
Lemma accumulate_row (threadId i : Z) (sv : Z -> Q) :
  i <> threadId ->
  row_replaced vd threadId
    (fun j => sv (threadId * Z.of_nat vd + j)%Z + sv (i * Z.of_nat vd + j)%Z)%Q sv
    (for_up vd
       (fun j sv => upd sv (threadId * Z.of_nat vd + j)
                      (sv (threadId * Z.of_nat vd + j)%Z + sv (i * Z.of_nat vd + j)%Z)%Q)
       sv).
Proof.
  intros Hne.
  assert (L : forall m, (m <= vd)%nat -> forall k,
            for_up m
              (fun j sv => upd sv (threadId * Z.of_nat vd + j)
                 (sv (threadId * Z.of_nat vd + j)%Z + sv (i * Z.of_nat vd + j)%Z)%Q) sv k
            = if (threadId * Z.of_nat vd <=? k) && (k <? threadId * Z.of_nat vd + Z.of_nat m)
              then (sv k + sv (i * Z.of_nat vd + (k - threadId * Z.of_nat vd))%Z)%Q
              else sv k).
  { intros m. induction m as [|m IH]; intros Hm k.
    - rewrite for_up_0.
      destruct (Z.leb_spec (threadId * Z.of_nat vd) k),
        (Z.ltb_spec k (threadId * Z.of_nat vd + Z.of_nat 0)); cbn [andb];
        try reflexivity; lia.
    - rewrite for_up_S. set (prev := for_up m _ sv) in *.
      assert (E1 : prev (threadId * Z.of_nat vd + Z.of_nat m)
                   = sv (threadId * Z.of_nat vd + Z.of_nat m)).
      { unfold prev. rewrite IH by lia.
        destruct (Z.leb_spec (threadId * Z.of_nat vd) (threadId * Z.of_nat vd + Z.of_nat m));
          cbn [andb]; [|reflexivity].
        destruct (Z.ltb_spec (threadId * Z.of_nat vd + Z.of_nat m)
                    (threadId * Z.of_nat vd + Z.of_nat m)); [lia|reflexivity]. }
      assert (E2 : prev (i * Z.of_nat vd + Z.of_nat m) = sv (i * Z.of_nat vd + Z.of_nat m)).
      { unfold prev. rewrite IH by lia.
        destruct (Z.leb_spec (threadId * Z.of_nat vd) (i * Z.of_nat vd + Z.of_nat m));
          cbn [andb]; [|reflexivity].
        destruct (Z.ltb_spec (i * Z.of_nat vd + Z.of_nat m)
                    (threadId * Z.of_nat vd + Z.of_nat m)); [|reflexivity].
        exfalso. nia. }
      rewrite E1, E2. unfold upd.
      destruct (Z.eqb_spec k (threadId * Z.of_nat vd + Z.of_nat m)) as [->|Hk].
      + destruct (Z.leb_spec (threadId * Z.of_nat vd) (threadId * Z.of_nat vd + Z.of_nat m));
          [|lia].
        destruct (Z.ltb_spec (threadId * Z.of_nat vd + Z.of_nat m)
                    (threadId * Z.of_nat vd + Z.of_nat (S m))); [|lia].
        cbn [andb]. do 2 f_equal. lia.
      + unfold prev. rewrite IH by lia.
        destruct (Z.leb_spec (threadId * Z.of_nat vd) k); cbn [andb]; [|reflexivity].
        destruct (Z.ltb_spec k (threadId * Z.of_nat vd + Z.of_nat m)),
          (Z.ltb_spec k (threadId * Z.of_nat vd + Z.of_nat (S m)));
          try reflexivity; lia. }
  intros s j Hj. rewrite (L vd (Nat.le_refl _)), (in_row vd vd_pos) by assumption.
  destruct (Z.eqb_spec s threadId) as [->|]; [|reflexivity].
  do 2 f_equal. lia.
Qed.

(** The scan of lines 340-354 by thread [threadId]. *)
Definition scan_step (threadId : Z) (i : Z) (st : bool * (Z -> Q)) : bool * (Z -> Q) :=
  let '(returned, sv) := st in
  if (returned : bool) then (returned, sv)
  else if i <? threadId then
    (Z.eqb (sharedOffsets threadId) (sharedOffsets i), sv)
  else if threadId <? i then
    if Z.eqb (sharedOffsets threadId) (sharedOffsets i) then
      (false,
       for_up vd
         (fun j sv => upd sv (threadId * Z.of_nat vd + j)
                        (sv (threadId * Z.of_nat vd + j)%Z
                         + sv (i * Z.of_nat vd + j)%Z)%Q)
         sv)
    else (false, sv)
  else (false, sv).

Lemma scan_spec (threadId : Z) (sv : Z -> Q) (k : nat) :
  proportional vd v sv ->
  let r := for_up k (scan_step threadId) (false, sv) in
  proportional vd v (snd r) /\
  (forall s, (mass vd sv s <= mass vd (snd r) s)%Q) /\
  (threadId = 0 -> fst r = false).
Proof.
  intros P. cbv zeta. induction k as [|k (IH1 & IH2 & IH3)].
  - rewrite for_up_0. cbn [fst snd].
    split; [assumption|]. split; [intros; apply Qle_refl|reflexivity].
  - rewrite for_up_S. destruct (for_up k _ _) as [returned sv']. cbn [fst snd] in *.
    unfold scan_step. destruct returned.
    + cbn [fst snd]. split; [assumption|]. split; [assumption|].
      intros E. now apply IH3.
    + destruct (Z.ltb_spec (Z.of_nat k) threadId).
      * cbn [fst snd]. split; [assumption|]. split; [assumption|]. intros E. lia.
      * destruct (Z.ltb_spec threadId (Z.of_nat k));
          [|cbn [fst snd]; split; [assumption|]; split; [assumption|reflexivity]].
        destruct (Z.eqb _ _);
          [|cbn [fst snd]; split; [assumption|]; split; [assumption|reflexivity]].
        cbn [fst snd].
        pose proof (accumulate_row threadId (Z.of_nat k) sv' ltac:(lia)) as R.
        destruct (add_row_proportional vd vd_pos v threadId
                    (fun j => sv' (Z.of_nat k * Z.of_nat vd + j)) sv' _ R IH1)
          as (A1 & A2 & _).
        -- intros j Hj. apply (proj1 IH1). assumption.
        -- apply (proj2 IH1).
        -- split; [assumption|]. split; [|reflexivity].
           intros s. eapply Qle_trans; [apply IH2|apply A2].
Qed.

Lemma splat_reduce_unfold (threadId : Z) (sv tv : Z -> Q) :
  splat_reduce vd n sharedOffsets blockIdx_x threadId (sv, tv) =
  if n <=? threadId + blockIdx_x * Z.of_nat BLOCK_SIZE then (sv, tv)
  else
    let r := for_up BLOCK_SIZE (scan_step threadId) (false, sv) in
    if fst r then (snd r, tv)
    else (snd r,
          for_up vd
            (fun j tv => upd tv (sharedOffsets threadId + j)
                           (tv (sharedOffsets threadId + j)%Z
                            + snd r (threadId * Z.of_nat vd + j)%Z)%Q)
            tv).
Proof.
  unfold splat_reduce. destruct (n <=? _); [reflexivity|].
  fold (scan_step threadId). cbv zeta.
  destruct (for_up BLOCK_SIZE (scan_step threadId) (false, sv)) as [returned sv'].
  reflexivity.
Qed.

(** One thread after the barrier. *)
Lemma splat_reduce_spec (threadId : Z) (sv tv : Z -> Q) :
  proportional vd v sv -> proportional vd v tv ->
  (threadId + blockIdx_x * Z.of_nat BLOCK_SIZE < n ->
     exists e, sharedOffsets threadId = e * Z.of_nat vd) ->
  let r := splat_reduce vd n sharedOffsets blockIdx_x threadId (sv, tv) in
  proportional vd v (fst r) /\ proportional vd v (snd r) /\
  (forall s, (mass vd tv s <= mass vd (snd r) s)%Q) /\
  (threadId = 0 -> blockIdx_x * Z.of_nat BLOCK_SIZE < n ->
   forall e, sharedOffsets 0 = e * Z.of_nat vd ->
     (mass vd tv e + mass vd sv 0 <= mass vd (snd r) e)%Q).
Proof.
  intros Ps Pt Hoff. cbv zeta. rewrite splat_reduce_unfold.
  destruct (Z.leb_spec n (threadId + blockIdx_x * Z.of_nat BLOCK_SIZE)) as [Hout|Hin].
  - cbn [fst snd]. split; [assumption|]. split; [assumption|].
    split; [intros; apply Qle_refl|]. intros -> Hb. lia.
  - destruct (scan_spec threadId sv BLOCK_SIZE Ps) as (S1 & S2 & S3). cbv zeta in *.
    set (r := for_up BLOCK_SIZE (scan_step threadId) (false, sv)) in *.
    destruct (Hoff Hin) as (e & He).
    destruct (fst r) eqn:Er.
    + cbn [fst snd]. split; [assumption|]. split; [assumption|].
      split; [intros; apply Qle_refl|]. intros E. specialize (S3 E). congruence.
    + cbn [fst snd]. rewrite He.
      pose proof (add_row_spec vd vd_pos e
                    (fun j => snd r (threadId * Z.of_nat vd + j)) tv) as R.
      destruct (add_row_proportional vd vd_pos v e _ tv _ R Pt) as (A1 & A2 & A3).
      * intros j Hj. apply (proj1 S1). assumption.
      * apply (proj2 S1).
      * split; [assumption|]. split; [assumption|]. split; [assumption|].
        intros -> Hb e' He'. assert (e' = e) by nia. subst e'.
        rewrite A3. specialize (S2 0). unfold mass in *.
        cbv beta. lra.
Qed.

(** The threads of a block after the barrier. *)
Lemma reduce_phase (sv tv : Z -> Q) (k : nat) :
  proportional vd v sv -> proportional vd v tv ->
  (forall tid, 0 <= tid < Z.of_nat k ->
     tid + blockIdx_x * Z.of_nat BLOCK_SIZE < n ->
     exists e, sharedOffsets tid = e * Z.of_nat vd) ->
  let r := for_up k (splat_reduce vd n sharedOffsets blockIdx_x) (sv, tv) in
  proportional vd v (fst r) /\ proportional vd v (snd r) /\
  (forall s, (mass vd tv s <= mass vd (snd r) s)%Q) /\
  ((1 <= k)%nat -> blockIdx_x * Z.of_nat BLOCK_SIZE < n ->
   forall e, sharedOffsets 0 = e * Z.of_nat vd ->
     (mass vd tv e + mass vd sv 0 <= mass vd (snd r) e)%Q).
Proof.
  intros Ps Pt Hoff. cbv zeta. induction k as [|k IH].
  - rewrite for_up_0. cbn [fst snd]. split; [assumption|]. split; [assumption|].
    split; [intros; apply Qle_refl|lia].
  - rewrite for_up_S.
    destruct IH as (I1 & I2 & I3 & I4); [intros; apply Hoff; [lia|assumption]|].
    destruct (for_up k _ _) as [sv' tv'] eqn:E. cbn [fst snd] in *.
    destruct (splat_reduce_spec (Z.of_nat k) sv' tv' I1 I2) as (R1 & R2 & R3 & R4).
    { apply Hoff. lia. }
    cbv zeta in *. split; [assumption|]. split; [assumption|]. split.
    + intros s. eapply Qle_trans; [apply I3|apply R3].
    + intros _ Hb e He. destruct k as [|k'].
      * rewrite for_up_0 in E. injection E as <- <-.
        apply (R4 eq_refl Hb e He).
      * eapply Qle_trans; [apply (I4 ltac:(lia) Hb e He)|apply R3].
Qed.

End SplatReduce.

(** A cell of the matrix determines its sample and its color. *)
Lemma matrix_cell_inj (pd : nat) (idx idx' col col' : Z) :
  0 <= col < pd1 pd -> 0 <= col' < pd1 pd ->
  idx * pd1 pd + col = idx' * pd1 pd + col' -> idx = idx' /\ col = col'.
Proof.
  intros Hc Hc' E.
  assert (idx = idx')
    by (destruct (Z.lt_trichotomy idx idx') as [L|[L|L]];
        [exfalso; nia|assumption|exfalso; nia]).
  subst idx'. split; [reflexivity|lia].
Qed.

Section SplatKernel.

Variable pd vd : nat.
Hypothesis vd_pos : (1 <= vd)%nat.
Variable v : Z -> Q.
Variable n : Z.
Variable values_in : Z -> Q.

Hypothesis constant_values :
  forall idx j, 0 <= idx < n -> 0 <= j < Z.of_nat vd - 1 ->
    values_in (idx * (Z.of_nat vd - 1) + j) = v j.

(** The table and the matrix when the kernel is launched. *)
Variable t0 : HashTableGPU.
Variable m0 : Z -> MatrixEntry.

Hypothesis weights_nonneg :
  forall idx col, 0 <= idx < n -> 0 <= col < pd1 pd ->
    (0 <= weight (m0 (idx * pd1 pd + col)))%Q.
Hypothesis values_proportional : proportional vd v (values t0).

(** The cells converted when the colors below [c] are done and [b] blocks
    of color [c]. *)
Definition visited (c b idx col : Z) : bool :=
  (0 <=? idx) && (idx <? n)
  && ((col <? c) || ((col =? c) && (idx <? b * Z.of_nat BLOCK_SIZE))).

Record splat_inv (c b : Z) (st : (Z -> MatrixEntry) * HashTableGPU) : Prop := {
  si_entries : entries (snd st) = entries t0;
  si_keys : keys (snd st) = keys t0;
  si_capacity : capacity (snd st) = capacity t0;
  si_cells : forall idx col, 0 <= col < pd1 pd ->
    fst st (idx * pd1 pd + col) =
    if visited c b idx col then converted t0 m0 (idx * pd1 pd + col)
    else m0 (idx * pd1 pd + col);
  si_values : proportional vd v (values (snd st));
  si_lower : forall r, 0 <= r < pd1 pd -> r < c \/ (r = c /\ 1 <= b) -> 0 < n ->
    (weight (m0 r) <= mass vd (values (snd st)) (entries t0 (index (m0 r))))%Q
}.

Lemma splat_block_unfold (color blockIdx_x : Z) (matrix : Z -> MatrixEntry)
    (table : HashTableGPU) :
  let loaded := for_up BLOCK_SIZE (splat_load pd vd n values_in table color blockIdx_x)
                  (matrix, fun _ => 0, fun _ => 0%Q) in
  let reduced := for_up BLOCK_SIZE (splat_reduce vd n (snd (fst loaded)) blockIdx_x)
                   (snd loaded, values table) in
  splat_block pd vd n values_in color blockIdx_x (matrix, table)
  = (fst (fst loaded), set_values table (snd reduced)).
Proof.
  cbv zeta. unfold splat_block.
  destruct (for_up BLOCK_SIZE (splat_load _ _ _ _ _ _ _) _) as [[M offs] sv].
  cbn [fst snd]. destruct (for_up BLOCK_SIZE (splat_reduce _ _ _ _) _). reflexivity.
Qed.

Lemma splat_block_step (c b : Z) (st : (Z -> MatrixEntry) * HashTableGPU) :
  0 <= c < pd1 pd -> 0 <= b ->
  splat_inv c b st ->
  splat_inv c (b + 1) (splat_block pd vd n values_in c b st).
Proof.
  intros Hc Hb [IE IK IC ICe IV IL]. destruct st as [M T]. cbn [fst snd] in *.
  pose proof (splat_block_unfold c b M T) as U. cbv zeta in U. rewrite U. clear U.
  pose proof (pd1_pos pd) as HD.
  assert (Unv : forall tid, 0 <= tid ->
            M (cell_of pd c b tid) = m0 (cell_of pd c b tid)).
  { intros tid Ht. unfold cell_of, sample_of. rewrite ICe by assumption.
    unfold visited. destruct (Z.ltb_spec c c); [lia|].
    destruct (Z.ltb_spec (tid + b * Z.of_nat BLOCK_SIZE) (b * Z.of_nat BLOCK_SIZE)); [lia|].
    now rewrite andb_false_r, orb_false_r, andb_false_r. }
  destruct (load_phase pd vd vd_pos v n values_in constant_values T c b Hb M BLOCK_SIZE)
    as [LC LF LO LV].
  { intros tid Ht Hs. rewrite Unv by lia. unfold cell_of.
    apply weights_nonneg; [unfold sample_of in *; split; [nia|assumption]|assumption]. }
  set (ld := for_up BLOCK_SIZE (splat_load _ _ _ _ _ _ _) _) in *.
  destruct (reduce_phase vd vd_pos v n (snd (fst ld)) b (snd ld) (values T) BLOCK_SIZE LV IV)
    as (_ & R2 & R3 & R4).
  { intros tid Ht Hs. destruct (LO tid Ht Hs) as [O _]. eauto. }
  cbv zeta in R2, R3, R4.
  set (rd := for_up BLOCK_SIZE (splat_reduce _ _ _ _) _) in *.
  constructor; cbn [fst snd set_values entries keys capacity values]; try assumption.
  - (* the matrix *)
    intros idx col Hcol.
    assert (Frame : forall tid, 0 <= tid < Z.of_nat BLOCK_SIZE ->
              idx * pd1 pd + col = cell_of pd c b tid ->
              col = c /\ idx = tid + b * Z.of_nat BLOCK_SIZE).
    { intros tid Ht E. unfold cell_of, sample_of in E.
      destruct (matrix_cell_inj pd _ _ _ _ Hcol Hc E). auto. }
    destruct (Z.eq_dec col c) as [->|Hcol'].
    + destruct (Z_le_gt_dec (b * Z.of_nat BLOCK_SIZE) idx) as [Hlo|Hlo].
      * destruct (Z_lt_ge_dec idx ((b + 1) * Z.of_nat BLOCK_SIZE)) as [Hhi|Hhi].
        -- destruct (Z_lt_ge_dec idx n) as [Hn|Hn].
           ++ (* converted by this block *)
              set (tid := idx - b * Z.of_nat BLOCK_SIZE).
              assert (Ecell : idx * pd1 pd + c = cell_of pd c b tid)
                by (unfold cell_of, sample_of, tid; f_equal; f_equal; lia).
              rewrite Ecell, LC by (unfold sample_of, tid; lia).
              unfold converted. rewrite Unv, IE by (unfold tid; lia). rewrite <- Ecell.
              unfold visited.
              destruct (Z.leb_spec 0 idx); [|lia]. destruct (Z.ltb_spec idx n); [|lia].
              destruct (Z.ltb_spec idx ((b + 1) * Z.of_nat BLOCK_SIZE)); [|lia].
              now rewrite Z.eqb_refl, orb_true_r.
           ++ rewrite LF, ICe by
                (try assumption; intros tid Ht Hs E;
                 destruct (Frame tid Ht E); unfold sample_of in Hs; lia).
              unfold visited. destruct (Z.ltb_spec idx n); [lia|].
              now rewrite !andb_false_r.
        -- rewrite LF, ICe by
             (try assumption; intros tid Ht Hs E; destruct (Frame tid Ht E); lia).
           unfold visited.
           destruct (Z.ltb_spec idx (b * Z.of_nat BLOCK_SIZE)); [lia|].
           destruct (Z.ltb_spec idx ((b + 1) * Z.of_nat BLOCK_SIZE)); [lia|].
           reflexivity.
      * rewrite LF, ICe by
          (try assumption; intros tid Ht Hs E; destruct (Frame tid Ht E); lia).
        unfold visited.
        destruct (Z.ltb_spec idx (b * Z.of_nat BLOCK_SIZE)); [|lia].
        destruct (Z.ltb_spec idx ((b + 1) * Z.of_nat BLOCK_SIZE)); [|lia].
        reflexivity.
    + rewrite LF, ICe by
        (try assumption; intros tid Ht Hs E; destruct (Frame tid Ht E); lia).
      unfold visited. destruct (Z.eqb_spec col c); [contradiction|].
      reflexivity.
  - (* the lower bounds *)
    intros r Hr Hcase Hn.
    destruct (Z_le_gt_dec 1 b) as [Hb1|Hb0].
    + eapply Qle_trans; [apply IL; try assumption; lia|apply R3].
    + destruct Hcase as [Hlt|[-> _]].
      * eapply Qle_trans; [apply IL; try assumption; lia|apply R3].
      * assert (b = 0) by lia. subst b.
        assert (Ec : cell_of pd c 0 0 = c) by (unfold cell_of, sample_of; lia).
        destruct (LO 0 ltac:(unfold BLOCK_SIZE; lia) ltac:(unfold sample_of; lia))
          as [O1 O2].
        pose proof (Unv 0 ltac:(lia)) as U0. rewrite Ec in U0, O1, O2.
        rewrite U0 in O1, O2. rewrite IE in O1.
        specialize (R4 ltac:(unfold BLOCK_SIZE; lia) ltac:(lia) _ O1).
        rewrite O2 in R4.
        pose proof (proj2 IV (entries t0 (index (m0 c)))). lra.
Qed.

Lemma splat_blocks (c : Z) (B : nat) (st : (Z -> MatrixEntry) * HashTableGPU) :
  0 <= c < pd1 pd ->
  splat_inv c 0 st ->
  splat_inv c (Z.of_nat B)
    (for_up B (fun blockIdx_x st => splat_block pd vd n values_in c blockIdx_x st) st).
Proof.
  intros Hc I. induction B as [|B IH]; [exact I|].
  rewrite for_up_S. replace (Z.of_nat (S B)) with (Z.of_nat B + 1) by lia.
  apply splat_block_step; [assumption|lia|exact IH].
Qed.

Lemma splat_color_done (c B : Z) (st : (Z -> MatrixEntry) * HashTableGPU) :
  0 <= c < pd1 pd -> n <= B * Z.of_nat BLOCK_SIZE -> 1 <= B ->
  splat_inv c B st -> splat_inv (c + 1) 0 st.
Proof.
  intros Hc HB HB1 [IE IK IC ICe IV IL]. constructor; try assumption.
  - intros idx col Hcol. rewrite ICe by assumption.
    replace (visited (c + 1) 0 idx col) with (visited c B idx col); [reflexivity|].
    unfold visited.
    destruct (Z.leb_spec 0 idx), (Z.ltb_spec idx n); cbn [andb]; try reflexivity.
    destruct (Z.ltb_spec col c), (Z.ltb_spec col (c + 1)), (Z.eqb_spec col c),
      (Z.eqb_spec col (c + 1)), (Z.ltb_spec idx (B * Z.of_nat BLOCK_SIZE)),
      (Z.ltb_spec idx (0 * Z.of_nat BLOCK_SIZE)); cbn [andb orb]; try reflexivity; lia.
  - intros r Hr Hcase Hn. apply IL; try assumption. lia.
Qed.

Lemma block_count :
  0 <= n ->
  let B := Z.to_nat (Z.quot (n - 1) (Z.of_nat BLOCK_SIZE) + 1) in
  n <= Z.of_nat B * Z.of_nat BLOCK_SIZE /\ 1 <= Z.of_nat B.
Proof.
  intros Hn. cbv zeta. change (Z.of_nat BLOCK_SIZE) with 256.
  destruct (Z.eq_dec n 0) as [->|Hne]; [cbn; lia|].
  rewrite Z.quot_div_nonneg by lia.
  pose proof (Z.div_pos (n - 1) 256 ltac:(lia) ltac:(lia)).
  pose proof (Z.mul_succ_div_gt (n - 1) 256 ltac:(lia)).
  rewrite Z2Nat.id by lia. lia.
Qed.

(** The matrix and the table that [splatCache] leaves. *)
Lemma splatCache_spec :
  0 <= n -> splat_inv (pd1 pd) 0 (splatCache pd vd n values_in m0 t0).
Proof.
  intros Hn. unfold splatCache.
  destruct (block_count Hn) as (HB & HB1). cbv zeta in HB, HB1.
  set (B := Z.to_nat (Z.quot (n - 1) (Z.of_nat BLOCK_SIZE) + 1)) in *.
  replace (pd1 pd) with (Z.of_nat (S pd)) by (unfold pd1; lia).
  apply (for_up_ind (fun c st => splat_inv (Z.of_nat c) 0 st)).
  - constructor; cbn [fst snd]; try reflexivity; try assumption.
    + intros idx col Hcol.
      assert (V : visited 0 0 idx col = false).
      { unfold visited. destruct (Z.ltb_spec col 0); [lia|].
        destruct (Z.ltb_spec idx (0 * Z.of_nat BLOCK_SIZE)), (Z.leb_spec 0 idx),
          (Z.ltb_spec idx n), (Z.eqb_spec col 0); cbn [andb orb]; try reflexivity; lia. }
      change (Z.of_nat 0) with 0. now rewrite V.
    + intros r Hr Hcase. lia.
  - intros c st Hc I.
    replace (Z.of_nat (S c)) with (Z.of_nat c + 1) by lia.
    apply (splat_color_done (Z.of_nat c) (Z.of_nat B)); try assumption.
    + unfold pd1. lia.
    + apply splat_blocks; [unfold pd1; lia|assumption].
Qed.

End SplatKernel.

(** ** The blur rounds under a constant input *)

Section BlurRounds.

Variable pd vd : nat.
Hypothesis vd_pos : (1 <= vd)%nat.
Variable v : Z -> Q.
Variable fuel : nat.
Variable n : nat.
Variable matrix : Z -> MatrixEntry.

(** The table when the rounds start: the rounds only replace its values. *)
Variable t0 : HashTableGPU.
Hypothesis capacity_pos : 0 < capacity t0.
Hypothesis empty_bucket : exists p, 0 <= p < 2 * capacity t0 /\ entries t0 p = -1.
Hypothesis enough_fuel : (Z.to_nat (2 * capacity t0) <= fuel)%nat.

(** Occupied vertices whose mass is to stay positive. *)
Variable watched : Z -> Prop.
Hypothesis watched_valid :
  forall s, watched s -> 0 <= s < Z.of_nat (n * S pd) /\ index (matrix s) = s.

Record blur_inv (st : HashTableGPU * (Z -> Q)) : Prop := {
  bi_entries : entries (fst st) = entries t0;
  bi_keys : keys (fst st) = keys t0;
  bi_capacity : capacity (fst st) = capacity t0;
  bi_values : proportional vd v (values (fst st));
  bi_other : proportional vd v (snd st);
  bi_positive : forall s, watched s -> (0 < mass vd (values (fst st)) s)%Q
}.

(** The accumulator of a neighbour, or zero. *)
Definition neighbour_value (table : HashTableGPU) (off i : Z) : Q :=
  if 0 <=? off then values table (Z.of_nat vd * off + i) else 0%Q.

Lemma neighbour_value_proportional (table : HashTableGPU) (off : Z) :
  proportional vd v (values table) ->
  (forall j, 0 <= j < Z.of_nat vd - 1 ->
     neighbour_value table off j == v j * neighbour_value table off (Z.of_nat vd - 1)) /\
  (0 <= neighbour_value table off (Z.of_nat vd - 1))%Q.
Proof.
  intros [P1 P2]. unfold neighbour_value. destruct (0 <=? off).
  - rewrite (Z.mul_comm (Z.of_nat vd) off). split.
    + intros j Hj. apply P1. assumption.
    + apply P2.
  - split; [intros; ring|apply Qle_refl].
Qed.

Lemma blurred_proportional (table : HashTableGPU) (idx offNp offNm : Z) :
  proportional vd v (values table) ->
  (forall j, 0 <= j < Z.of_nat vd - 1 ->
     blurred vd table idx offNp offNm j
     == v j * blurred vd table idx offNp offNm (Z.of_nat vd - 1)) /\
  ((1 # 2) * mass vd (values table) idx
   <= blurred vd table idx offNp offNm (Z.of_nat vd - 1))%Q.
Proof.
  intros P. pose proof P as [P1 P2].
  destruct (neighbour_value_proportional table offNp P) as [A1 A2].
  destruct (neighbour_value_proportional table offNm P) as [B1 B2].
  unfold blurred. fold (neighbour_value table offNp). fold (neighbour_value table offNm).
  rewrite (Z.mul_comm (Z.of_nat vd) idx). split.
  - intros j Hj. change (neighbour_value table offNp j) with (neighbour_value table offNp j).
    unfold neighbour_value in *.
    rewrite (A1 j Hj), (B1 j Hj), (P1 idx j Hj). unfold mass. ring.
  - unfold mass, neighbour_value in *. lra.
Qed.

Lemma blur_round_step (color : Z) (st : HashTableGPU * (Z -> Q)) :
  blur_inv st ->
  exists st', blur_round pd vd fuel n matrix color st = Ret st' /\ blur_inv st'.
Proof.
  intros [IE IK IC IV IO IP]. destruct st as [T nv]. cbn [fst snd] in *.
  destruct (blur_returns pd vd fuel (n * S pd) nv matrix color T) as (out & Hout).
  { intros key. apply retrieve_returns; rewrite ?IC, ?IE; assumption. }
  exists (set_values T out, values T). split.
  - unfold blur_round. now rewrite Hout.
  - destruct (blur_spec _ _ _ _ _ _ _ _ _ Hout) as (Hrows & Hframe).
    assert (Rows : forall s,
              (forall i, 0 <= i < Z.of_nat vd ->
                 out (s * Z.of_nat vd + i) = nv (s * Z.of_nat vd + i)) \/
              (0 <= s < Z.of_nat (n * S pd) /\ index (matrix s) = s /\
               exists offNp offNm, forall i, 0 <= i < Z.of_nat vd ->
                 out (s * Z.of_nat vd + i) = blurred vd T s offNp offNm i)).
    { intros s. rewrite (Z.mul_comm s).
      destruct (Z_le_gt_dec 0 s) as [H0|H0];
        [destruct (Z_lt_ge_dec s (Z.of_nat (n * S pd))) as [H1|H1]|].
      - destruct (Hrows s ltac:(lia)) as [(_ & Hrow)|(Hv & a & b & _ & _ & Hrow)].
        + left. exact Hrow.
        + right. split; [lia|]. split; [assumption|]. exists a, b. exact Hrow.
      - left. intros i Hi. apply Hframe; [lia|assumption].
      - left. intros i Hi. apply Hframe; [lia|assumption]. }
    constructor; cbn [fst snd set_values entries keys capacity values]; try assumption.
    + split.
      * intros s j Hj. unfold mass.
        destruct (Rows s) as [Hrow|(_ & _ & a & b & Hrow)]; rewrite !Hrow by lia.
        -- apply (proj1 IO). assumption.
        -- apply (blurred_proportional T s a b IV). assumption.
      * intros s. unfold mass.
        destruct (Rows s) as [Hrow|(_ & _ & a & b & Hrow)]; rewrite !Hrow by lia.
        -- apply (proj2 IO).
        -- pose proof (proj2 (blurred_proportional T s a b IV)).
           pose proof (proj2 IV s). lra.
    + intros s Hs. destruct (watched_valid s Hs) as [Hr Hv]. unfold mass.
      destruct (Hrows s Hr) as [(Hn & _)|(_ & a & b & _ & _ & Hrow)]; [contradiction|].
      rewrite (Z.mul_comm s), Hrow by lia.
      pose proof (proj2 (blurred_proportional T s a b IV)).
      pose proof (IP s Hs). lra.
Qed.

Lemma blur_rounds_spec (reverse : bool) (table : HashTableGPU) (nv : Z -> Q) :
  blur_inv (table, nv) ->
  exists st', blur_rounds pd vd fuel n reverse matrix table nv = Ret st' /\ blur_inv st'.
Proof.
  intros I. unfold blur_rounds.
  apply (for_upM_ind (fun _ st => blur_inv st)); [assumption|].
  intros k acc _ Ia. now apply blur_round_step.
Qed.

End BlurRounds.

(** ** The slice kernel under a constant input *)

Lemma sumQ_scale (c : Q) (f : Z -> Q) (m : nat) :
  (sumQ (fun i => c * f i) m == c * sumQ f m)%Q.
Proof.
  induction m as [|m IH]; cbn [sumQ]; [ring|]. rewrite IH. ring.
Qed.

Lemma sumQ_extQ (f g : Z -> Q) (m : nat) :
  (forall i, 0 <= i < Z.of_nat m -> f i == g i) -> sumQ f m == sumQ g m.
Proof. apply sumQ_ext. Qed.

Lemma sumQ_nonneg (f : Z -> Q) (m : nat) :
  (forall i, 0 <= i < Z.of_nat m -> (0 <= f i)%Q) -> (0 <= sumQ f m)%Q.
Proof.
  induction m as [|m IH]; intros H; cbn [sumQ]; [apply Qle_refl|].
  specialize (IH ltac:(intros; apply H; lia)).
  pose proof (H (Z.of_nat m) ltac:(lia)). lra.
Qed.

Lemma sumQ_positive (f : Z -> Q) (m : nat) (i0 : Z) :
  (forall i, 0 <= i < Z.of_nat m -> (0 <= f i)%Q) ->
  0 <= i0 < Z.of_nat m -> (0 < f i0)%Q -> (0 < sumQ f m)%Q.
Proof.
  induction m as [|m IH]; intros H Hi Hp; [lia|]. cbn [sumQ].
  pose proof (sumQ_nonneg f m ltac:(intros; apply H; lia)).
  pose proof (H (Z.of_nat m) ltac:(lia)).
  destruct (Z.eq_dec i0 (Z.of_nat m)) as [->|Hne]; [lra|].
  specialize (IH ltac:(intros; apply H; lia) ltac:(lia) Hp). lra.
Qed.

Lemma sumQ_some_positive (f : Z -> Q) (m : nat) :
  (0 < sumQ f m)%Q -> exists i, 0 <= i < Z.of_nat m /\ (0 < f i)%Q.
Proof.
  induction m as [|m IH]; cbn [sumQ]; intros H; [lra|].
  destruct (Qlt_le_dec 0 (f (Z.of_nat m))) as [Hp|Hn].
  - exists (Z.of_nat m). split; [lia|assumption].
  - destruct IH as (i & Hi & Hp); [lra|]. exists i. split; [lia|assumption].
Qed.

Section SliceConstant.

Variable pd vd : nat.
Hypothesis vd_pos : (1 <= vd)%nat.
Variable v : Z -> Q.
Variable matrix : Z -> MatrixEntry.
Variable table : HashTableGPU.
Variable n : nat.

Hypothesis values_proportional : proportional vd v (values table).
Hypothesis mass_positive :
  forall idx, 0 <= idx < Z.of_nat n ->
    (0 < weighted_sum pd vd matrix table idx (Z.of_nat vd - 1))%Q.

Lemma weighted_sum_proportional (idx j : Z) :
  0 <= j < Z.of_nat vd - 1 ->
  weighted_sum pd vd matrix table idx j
  == v j * weighted_sum pd vd matrix table idx (Z.of_nat vd - 1).
Proof.
  intros Hj. unfold weighted_sum. rewrite <- sumQ_scale. apply sumQ_ext.
  intros i _. unfold corner_value.
  rewrite (proj1 values_proportional _ j Hj). unfold mass. ring.
Qed.

Lemma slice_constant (values_out : Z -> Q) :
  exists out,
    slice pd vd n values_out matrix table = Ret out /\
    forall idx j, 0 <= idx < Z.of_nat n -> 0 <= j < Z.of_nat vd - 1 ->
      out (idx * (Z.of_nat vd - 1) + j) == v j.
Proof.
  unfold slice.
  apply (for_upM_ind
    (fun k out => forall idx j, 0 <= idx < Z.of_nat k -> 0 <= j < Z.of_nat vd - 1 ->
                    out (idx * (Z.of_nat vd - 1) + j) == v j)).
  - intros idx j Hidx. lia.
  - intros k acc Hk IH.
    pose proof (mass_positive (Z.of_nat k) ltac:(lia)) as Hm.
    destruct (slice_thread_spec pd vd matrix table (Z.of_nat k) acc) as (_ & Hret).
    cbv zeta in Hret. destruct Hret as (out & Hout & Hs).
    { intros E. rewrite E in Hm. discriminate. }
    exists out. split; [assumption|]. intros idx j Hidx Hj. rewrite Hs.
    destruct (Z.eq_dec idx (Z.of_nat k)) as [->|Hne].
    + destruct (Z.leb_spec (Z.of_nat k * (Z.of_nat vd - 1))
                  (Z.of_nat k * (Z.of_nat vd - 1) + j)); [|lia].
      destruct (Z.ltb_spec (Z.of_nat k * (Z.of_nat vd - 1) + j)
                  (Z.of_nat k * (Z.of_nat vd - 1) + Z.of_nat (vd - 1))); [|lia].
      cbn [andb].
      replace (Z.of_nat k * (Z.of_nat vd - 1) + j - Z.of_nat k * (Z.of_nat vd - 1))
        with j by lia.
      rewrite (weighted_sum_proportional (Z.of_nat k) j Hj).
      field. intros E. rewrite E in Hm. discriminate.
    + destruct (Z.leb_spec (Z.of_nat k * (Z.of_nat vd - 1))
                  (idx * (Z.of_nat vd - 1) + j)); cbn [andb]; [|apply IH; lia].
      destruct (Z.ltb_spec (idx * (Z.of_nat vd - 1) + j)
                  (Z.of_nat k * (Z.of_nat vd - 1) + Z.of_nat (vd - 1)));
        [exfalso; nia|apply IH; lia].
Qed.

End SliceConstant.

(** ** Samples that share one position *)

Lemma elevate_loop_ext (position position' scaleFactor : Z -> Q) (m : nat)
    (st : Q * (Z -> Q)) :
  (forall i, 0 <= i < Z.of_nat m -> position i = position' i) ->
  for_down m (elevate_body position scaleFactor) st
  = for_down m (elevate_body position' scaleFactor) st.
Proof.
  revert st. induction m as [|m IH]; intros st H; [reflexivity|].
  rewrite !for_down_S. rewrite IH by (intros; apply H; lia).
  f_equal. destruct st as [sm el]. cbn [elevate_body].
  rewrite (H (Z.of_nat (S m) - 1)) by lia. reflexivity.
Qed.

Lemma elevate_ext (pd : nat) (position position' scaleFactor : Z -> Q) :
  (forall i, 0 <= i < Z.of_nat pd -> position i = position' i) ->
  elevate pd position scaleFactor = elevate pd position' scaleFactor.
Proof.
  intros H. rewrite !elevate_unfold.
  rewrite (elevate_loop_ext position position' scaleFactor pd _ H). reflexivity.
Qed.

Lemma embed_ext (pd : nat) (position position' scaleFactor : Z -> Q) :
  (forall i, 0 <= i < Z.of_nat pd -> position i = position' i) ->
  embed pd position scaleFactor = embed pd position' scaleFactor.
Proof.
  intros H. unfold embed. rewrite (elevate_ext pd position position' scaleFactor H).
  reflexivity.
Qed.

Section ConstantField.

Variable pd vd : nat.
Hypothesis vd_pos : (1 <= vd)%nat.
Hypothesis pd_small : pd1 pd * pd1 pd < 2 ^ 16.
Variable scaleFactor : Z -> Q.
Variable fuel : nat.
Variable n : nat.
Hypothesis n_pos : (1 <= n)%nat.
Variable positions p : Z -> Q.
Variable inputs v : Z -> Q.

Hypothesis uniform_positions :
  forall idx i, 0 <= idx < Z.of_nat n -> 0 <= i < Z.of_nat pd ->
    positions (idx * Z.of_nat pd + i) = p i.
Hypothesis valid : valid_position pd p scaleFactor.
Hypothesis constant_values :
  forall idx j, 0 <= idx < Z.of_nat n -> 0 <= j < Z.of_nat vd - 1 ->
    inputs (idx * (Z.of_nat vd - 1) + j) = v j.
Hypothesis enough_fuel : (Z.to_nat (2 * (Z.of_nat n * pd1 pd)) <= fuel)%nat.

Local Abbreviation cells := (Z.of_nat n * pd1 pd).

Lemma uniform_simplex (idx : Z) :
  0 <= idx < Z.of_nat n ->
  sample_simplex pd positions scaleFactor idx = embed pd p scaleFactor.
Proof.
  intros Hidx. unfold sample_simplex. apply embed_ext.
  intros i Hi. apply uniform_positions; assumption.
Qed.

Lemma cell_sample (s : Z) :
  0 <= s < cells -> 0 <= s / pd1 pd < Z.of_nat n /\ 0 <= s mod pd1 pd < pd1 pd.
Proof.
  intros Hs. pose proof (pd1_pos pd) as HD. split.
  - split; [apply Z.div_pos; lia|]. apply Z.div_lt_upper_bound; lia.
  - apply Z.mod_pos_bound. assumption.
Qed.

Lemma column_cell (r : Z) : 0 <= r < pd1 pd -> 0 <= r < cells.
Proof. intros Hr. pose proof (pd1_pos pd). nia. Qed.

Lemma uniform_key (s : Z) :
  0 <= s < cells ->
  key_of pd positions scaleFactor s = key_of pd positions scaleFactor (s mod pd1 pd).
Proof.
  intros Hs. destruct (cell_sample s Hs) as [Hq Hr].
  destruct (cell_sample (s mod pd1 pd) (column_cell _ Hr)) as [Hq' _].
  unfold key_of. rewrite !uniform_simplex by assumption.
  rewrite Z.mod_mod by (pose proof (pd1_pos pd); lia). reflexivity.
Qed.

Lemma uniform_weight (s : Z) :
  0 <= s < cells ->
  weight_of pd positions scaleFactor s
  = s_barycentric (embed pd p scaleFactor) (s mod pd1 pd).
Proof.
  intros Hs. destruct (cell_sample s Hs) as [Hq Hr].
  unfold weight_of. rewrite uniform_simplex by assumption. reflexivity.
Qed.

Variable t1 : HashTableGPU.
Variable m1 : Z -> MatrixEntry.
Hypothesis built : lattice_inv pd fuel positions scaleFactor cells cells t1 m1.

Definition slot (s : Z) : Z := entries t1 (index (m1 s)).

Lemma uniform_slot (s : Z) : 0 <= s < cells -> slot s = slot (s mod pd1 pd).
Proof.
  intros Hs. destruct (cell_sample s Hs) as [_ Hr].
  destruct (inv_found _ _ _ _ _ _ _ _ built s Hs) as (_ & R1 & _).
  destruct (inv_found _ _ _ _ _ _ _ _ built _ (column_cell _ Hr)) as (_ & R2 & _).
  rewrite (uniform_key s Hs) in R1. rewrite R1 in R2.
  unfold slot. congruence.
Qed.

Lemma built_weight (s : Z) :
  0 <= s < cells ->
  weight (m1 s) = s_barycentric (embed pd p scaleFactor) (s mod pd1 pd).
Proof.
  intros Hs. destruct (inv_found _ _ _ _ _ _ _ _ built s Hs) as (_ & _ & W).
  rewrite W. apply uniform_weight. assumption.
Qed.

Lemma built_weight_nonneg (idx col : Z) :
  0 <= idx < Z.of_nat n -> 0 <= col < pd1 pd ->
  (0 <= weight (m1 (idx * pd1 pd + col)%Z))%Q.
Proof.
  intros Hidx Hcol. rewrite built_weight by nia.
  rewrite slot_mod by assumption.
  apply valid_weights_nonneg; [assumption|assumption|unfold pd1 in Hcol; lia].
Qed.

Lemma slot_range (s : Z) : 0 <= s < cells -> 0 <= slot s < cells.
Proof.
  intros Hs. destruct (inv_found _ _ _ _ _ _ _ _ built s Hs) as (Hne & _ & _).
  destruct (inv_entries _ _ _ _ _ _ _ _ built (index (m1 s))) as [E|E];
    [contradiction|exact E].
Qed.

Lemma slot_owner (s : Z) : 0 <= s < cells -> slot (slot s) = slot s.
Proof.
  intros Hs. destruct (inv_found _ _ _ _ _ _ _ _ built s Hs) as (Hne & _ & _).
  unfold slot. rewrite (inv_owner _ _ _ _ _ _ _ _ built _ Hne). reflexivity.
Qed.

(** The slots of the corners that carry weight. *)
Definition watched_slot (s : Z) : Prop :=
  exists r, 0 <= r < pd1 pd /\ s = slot r /\ (0 < weight (m1 r))%Q.

Variable st2 : (Z -> MatrixEntry) * HashTableGPU.
Hypothesis splatted : splat_inv pd vd v (Z.of_nat n) t1 m1 (pd1 pd) 0 st2.

Lemma splat_cell (s : Z) : 0 <= s < cells -> fst st2 s = converted t1 m1 s.
Proof.
  intros Hs. destruct (cell_sample s Hs) as [Hq Hr].
  pose proof (pd1_pos pd) as HD.
  pose proof (si_cells _ _ _ _ _ _ _ _ _ splatted (s / pd1 pd) (s mod pd1 pd) Hr) as C.
  replace (s / pd1 pd * pd1 pd + s mod pd1 pd) with s in C
    by (rewrite (Z.div_mod s (pd1 pd)) at 1; lia).
  rewrite C. unfold visited.
  destruct (Z.leb_spec 0 (s / pd1 pd)); [|lia].
  destruct (Z.ltb_spec (s / pd1 pd) (Z.of_nat n)); [|lia].
  destruct (Z.ltb_spec (s mod pd1 pd) (pd1 pd)); [|lia].
  reflexivity.
Qed.

Lemma watched_slot_valid (s : Z) :
  watched_slot s -> 0 <= s < Z.of_nat (n * S pd) /\ index (fst st2 s) = s.
Proof.
  intros (r & Hr & -> & _). pose proof (slot_range r (column_cell r Hr)) as R.
  split.
  - unfold pd1 in R. lia.
  - rewrite splat_cell by assumption. cbn [converted index].
    apply (slot_owner r). apply column_cell. assumption.
Qed.

Lemma splat_blur_inv :
  blur_inv vd v (snd st2) watched_slot (snd st2, fun _ => 0%Q).
Proof.
  constructor; cbn [fst snd]; try reflexivity.
  - exact (si_values _ _ _ _ _ _ _ _ _ splatted).
  - apply proportional_zero.
  - intros s (r & Hr & -> & Hw).
    pose proof (si_lower _ _ _ _ _ _ _ _ _ splatted r Hr ltac:(lia) ltac:(lia)) as L.
    unfold slot. lra.
Qed.

Variable st3 : HashTableGPU * (Z -> Q).
Hypothesis blurred_inv : blur_inv vd v (snd st2) watched_slot st3.

Lemma some_corner_weighs :
  exists r, 0 <= r < pd1 pd /\ (0 < weight (m1 r))%Q.
Proof.
  assert (S1 : sumQ (s_barycentric (embed pd p scaleFactor)) (S pd) == 1).
  { pose proof (embed_rank_range pd p scaleFactor) as R.
    pose proof (embed_unfold pd p scaleFactor) as E. cbv zeta in E.
    rewrite E in R |- *. cbn [s_barycentric s_rank] in *.
    now apply barycentric_of_sum. }
  destruct (sumQ_some_positive (s_barycentric (embed pd p scaleFactor)) (S pd))
    as (r & Hr & Hp); [rewrite S1; reflexivity|].
  assert (Hr' : 0 <= r < pd1 pd) by (unfold pd1; lia).
  exists r. split; [assumption|].
  rewrite built_weight by (apply column_cell; assumption).
  rewrite Z.mod_small by assumption. assumption.
Qed.

Lemma sample_mass_positive (idx : Z) :
  0 <= idx < Z.of_nat n ->
  (0 < weighted_sum pd vd (fst st2) (fst st3) idx (Z.of_nat vd - 1))%Q.
Proof.
  intros Hidx. destruct some_corner_weighs as (r & Hr & Hw).
  pose proof (bi_values _ _ _ _ _ blurred_inv) as [_ Hmass].
  assert (Cell : forall i, 0 <= i < pd1 pd ->
            corner_weight pd (fst st2) idx i = weight (m1 i) /\
            corner_value pd vd (fst st2) (fst st3) idx i (Z.of_nat vd - 1)
            = mass vd (values (fst st3)) (slot i)).
  { intros i Hi. unfold corner_weight, corner_value.
    assert (Hs : 0 <= idx * pd1 pd + i < cells) by nia.
    rewrite splat_cell by assumption. cbn [converted index weight].
    split.
    - rewrite (built_weight _ Hs), (built_weight i (column_cell i Hi)).
      rewrite slot_mod by assumption. rewrite Z.mod_small by assumption. reflexivity.
    - fold (slot (idx * pd1 pd + i)). rewrite uniform_slot by assumption.
      rewrite slot_mod by assumption. reflexivity. }
  unfold weighted_sum. apply (sumQ_positive _ (S pd) r).
  - intros i Hi. assert (Hi' : 0 <= i < pd1 pd) by (unfold pd1; lia).
    destruct (Cell i Hi') as [-> ->].
    apply Qmult_le_0_compat; [|apply Hmass].
    rewrite built_weight by (apply column_cell; assumption).
    rewrite Z.mod_small by assumption.
    apply valid_weights_nonneg; [assumption|assumption|lia].
  - unfold pd1 in Hr. lia.
  - destruct (Cell r Hr) as [-> ->].
    apply Qmult_lt_0_compat; [assumption|].
    apply (bi_positive _ _ _ _ _ blurred_inv). exists r. auto.
Qed.

End ConstantField.

(** ** The whole filter on a constant field *)

Lemma blur_rounds_no_samples (pd vd fuel : nat) (reverse : bool)
    (matrix : Z -> MatrixEntry) (table : HashTableGPU) (nv : Z -> Q) :
  exists st, blur_rounds pd vd fuel 0 reverse matrix table nv = Ret st.
Proof.
  unfold blur_rounds.
  destruct (for_upM_ind (fun _ _ => True)
              (fun k st => blur_round pd vd fuel 0 matrix
                             (if reverse then Z.of_nat pd - k else k) st)
              (table, nv) (S pd)) as (r & Hr & _).
  - exact I.
  - intros k [t a] _ _. unfold blur_round, blur. cbn [Nat.mul].
    rewrite for_upM_0. cbn [bind]. eauto.
  - eauto.
Qed.

(** C4. On a constant field (every sample has the position [p] and the value
    vector [v]) the filter returns, and its output equals its input at every
    channel of every sample, for every number of samples and both settings
    of [reverse].  The position is one whose lattice coordinates fit the
    16-bit keys, and the loops of the table are given the fuel of one full
    turn. *)
Theorem filter_preserves_constant_field (pd vd : nat) (sqrtT : Q -> Q) (fuel num_samples : nat)
    (reverse : bool) (output inputs positions p v : Z -> Q) :
  (1 <= vd)%nat ->
  pd1 pd * pd1 pd < 2 ^ 16 ->
  (forall idx i, 0 <= idx < Z.of_nat num_samples -> 0 <= i < Z.of_nat pd ->
     positions (idx * Z.of_nat pd + i) = p i) ->
  valid_position pd p (init_scaleFactor pd sqrtT) ->
  (forall idx j, 0 <= idx < Z.of_nat num_samples -> 0 <= j < Z.of_nat vd - 1 ->
     inputs (idx * (Z.of_nat vd - 1) + j) = v j) ->
  (Z.to_nat (2 * (Z.of_nat num_samples * pd1 pd)) <= fuel)%nat ->
  exists out,
    snd (filter pd vd sqrtT fuel output inputs positions (Z.of_nat num_samples) reverse) = Ret out /\
    forall idx j, 0 <= idx < Z.of_nat num_samples -> 0 <= j < Z.of_nat vd - 1 ->
      out (idx * (Z.of_nat vd - 1) + j) == inputs (idx * (Z.of_nat vd - 1) + j).
Proof.
  intros vd_pos pd_small Hu Hv Hc Hf.
  unfold filter, new_lattice. cbv zeta. cbn [snd].
  unfold lattice_filter.
  cbn [n matrix hashTable newValues scaleFactor canonical].
  rewrite Nat2Z.id.
  set (sf := init_scaleFactor pd sqrtT) in *.
  destruct (Nat.eq_dec num_samples 0) as [->|Hn].
  - unfold createLattice, cleanHashTable, slice.
    replace (Z.to_nat (2 * Z.of_nat 0 * pd1 pd)) with 0%nat by lia.
    rewrite for_upM_0. cbn [bind]. rewrite for_upM_0. cbn [bind].
    match goal with
    | |- context [splatCache ?a ?b ?c ?d ?e ?f] => destruct (splatCache a b c d e f) as [M2 T2]
    end.
    destruct (blur_rounds_no_samples pd vd fuel reverse M2 T2 (fun _ => 0%Q))
      as ([T3 nv3] & ->).
    cbn [bind]. rewrite for_upM_0. cbn [bind].
    exists output. split; [reflexivity|]. intros idx j Hidx. lia.
  - assert (n_pos : (1 <= num_samples)%nat) by lia.
    pose proof (pd1_pos pd) as HD.
    destruct (createLattice_spec pd fuel positions sf (Z.of_nat num_samples * pd1 pd) Hf
                num_samples (fun _ => mkEntry 0 0%Q) ltac:(lia))
      as (t1 & m1 & -> & Hinv).
    cbn [bind].
    replace (2 * Z.of_nat num_samples * pd1 pd)
      with (2 * (Z.of_nat num_samples * pd1 pd)) by lia.
    rewrite (cleanHashTable_id pd fuel positions sf _ Hf _ t1 m1 _ Hinv). cbn [bind].
    assert (Hzero : proportional vd v (values t1)).
    { rewrite (inv_values _ _ _ _ _ _ _ _ Hinv). apply proportional_zero. }
    pose proof (splatCache_spec pd vd vd_pos v (Z.of_nat num_samples) inputs Hc t1 m1
                  (built_weight_nonneg pd vd vd_pos pd_small sf fuel num_samples n_pos
                     positions p Hu Hv Hf t1 m1 Hinv)
                  Hzero ltac:(lia)) as Hs.
    destruct (splatCache pd vd (Z.of_nat num_samples) inputs m1 t1) as [M2 T2].
    assert (Hcap : capacity T2 = Z.of_nat num_samples * pd1 pd).
    { pose proof (si_capacity _ _ _ _ _ _ _ _ _ Hs) as C. cbn [snd] in C.
      rewrite C. apply (inv_capacity _ _ _ _ _ _ _ _ Hinv). }
    pose proof (si_entries _ _ _ _ _ _ _ _ _ Hs) as Hent. cbn [snd] in Hent.
    assert (Hempty : exists q, 0 <= q < 2 * capacity T2 /\ entries T2 q = -1).
    { destruct (lattice_inv_empty_bucket _ _ _ _ _ _ _ _ Hinv ltac:(nia)) as (q & Hq & Eq).
      exists q. rewrite Hent, Hcap.
      rewrite (inv_capacity _ _ _ _ _ _ _ _ Hinv) in Hq. auto. }
    destruct (blur_rounds_spec pd vd vd_pos v fuel num_samples M2 T2
                ltac:(rewrite Hcap; nia) Hempty ltac:(rewrite Hcap; exact Hf)
                (watched_slot pd t1 m1)
                (watched_slot_valid pd vd vd_pos pd_small sf fuel num_samples n_pos
                   positions v Hf t1 m1 Hinv (M2, T2) Hs)
                reverse T2 (fun _ => 0%Q)
                (splat_blur_inv pd vd vd_pos fuel num_samples n_pos v Hf t1 m1 (M2, T2) Hs))
      as ([T3 nv3] & -> & Hbi).
    cbn [bind].
    destruct (slice_constant pd vd vd_pos v M2 T3 num_samples
                (bi_values _ _ _ _ _ Hbi)
                (sample_mass_positive pd vd vd_pos pd_small sf fuel num_samples n_pos
                   positions p v Hu Hv Hf t1 m1 Hinv (M2, T2) Hs (T3, nv3) Hbi)
                output) as (out & -> & Hout).
    cbn [bind]. exists out. split; [reflexivity|].
    intros idx j Hidx Hj. rewrite Hout, Hc by assumption. reflexivity.
Qed.

Lemma filter_preserves_constant_field_witness :
  exists out,
    snd (filter 1 2 (fun x => x) 8 (fun _ => 0%Q) (fun _ => 5%Q) (fun _ => 0%Q)
           (Z.of_nat 2) false) = Ret out /\
    forall idx j, 0 <= idx < Z.of_nat 2 -> 0 <= j < Z.of_nat 2 - 1 ->
      out (idx * (Z.of_nat 2 - 1) + j) == 5%Q.
Proof.
  apply (filter_preserves_constant_field 1 2 (fun x => x) 8 2 false
           (fun _ => 0%Q) (fun _ => 5%Q) (fun _ => 0%Q) (fun _ => 0%Q) (fun _ => 5%Q)).
  - lia.
  - reflexivity.
  - intros idx i _ _. reflexivity.
  - intros i Hi. assert (E : i = 0 \/ i = 1) by lia.
    destruct E as [-> | ->]; vm_compute; intuition discriminate.
  - intros idx j _ _. reflexivity.
  - vm_compute. lia.
Defined.

(** * Further properties of the code *)

(** ** The hash table: lookups *)

Section LookupFacts.

Variable pd : nat.

(** What a lookup can return: the marker of an empty bucket, or the slot
    of a bucket on the probe path, whose stored key is the one asked for. *)
Lemma retrieve_loop_result (fuel : nat) (t : HashTableGPU) (key : Z -> Z) (h0 r : Z) :
  0 <= h0 < 2 * capacity t ->
  retrieve_loop pd fuel t key h0 = Ret r ->
  (exists p, 0 <= p < 2 * capacity t /\ entries t p = r) /\
  (r = -1 \/ key_match pd t r key = true).
Proof.
  revert h0. induction fuel as [|fuel IH]; intros h0 Hh H; [discriminate|].
  cbn [retrieve_loop] in H.
  destruct (Z.eqb_spec (entries t h0) (-1)) as [E|N].
  - injection H as <-. split; [exists h0; auto|now left].
  - destruct (key_match pd t (entries t h0) key) eqn:M.
    + injection H as <-. split; [exists h0; auto|now right].
    + apply (IH (next_bucket t h0)); [now apply next_bucket_range|assumption].
Qed.

Lemma insert_loop_range (fuel : nat) (t : HashTableGPU) (key : Z -> Z)
    (slot h0 h : Z) (t' : HashTableGPU) :
  unlocked t -> 0 <= h0 < 2 * capacity t ->
  insert_loop pd fuel t key slot h0 = Ret (h, t') ->
  0 <= h < 2 * capacity t.
Proof.
  intros Hu. revert h0. induction fuel as [|fuel IH]; intros h0 Hh H; [discriminate|].
  cbn [insert_loop] in H. unfold atomicCAS in H.
  destruct (Z.eqb_spec (entries t h0) (-2)) as [E2|_]; [now apply Hu in E2|].
  destruct (Z.eqb_spec (entries t h0) (-1)) as [E1|N1].
  - injection H as <- _. assumption.
  - rewrite set_entries_same in H.
    destruct (key_match pd t (entries t h0) key).
    + injection H as <- _. assumption.
    + apply (IH (next_bucket t h0)); [now apply next_bucket_range|assumption].
Qed.

(** A second insertion walks the path of the first one and stops in the
    bucket the first one returned. *)
Lemma insert_loop_again (fuel : nat) (t : HashTableGPU) (key : Z -> Z)
    (slot slot' h0 h : Z) (t' : HashTableGPU) :
  unlocked t -> 0 <= slot -> (forall p, entries t p <> slot) ->
  insert_loop pd fuel t key slot h0 = Ret (h, t') ->
  insert_loop pd fuel t' key slot' h0 = Ret (h, t').
Proof.
  intros Hu Hslot Fresh. revert h0.
  induction fuel as [|fuel IH]; intros h0 H; [discriminate|].
  pose proof (insert_loop_effect _ _ _ _ _ _ _ _ Hu H) as Eff.
  cbn [insert_loop] in H |- *. unfold atomicCAS in *.
  destruct (Z.eqb_spec (entries t h0) (-2)) as [E2|_]; [now apply Hu in E2|].
  destruct (Z.eqb_spec (entries t h0) (-1)) as [E1|N1].
  - injection H as <- <-.
    set (t2 := set_entries _ _).
    assert (Eh : entries t2 h0 = slot)
      by (unfold t2; cbn; unfold atomicExch; now rewrite upd_same).
    rewrite Eh.
    destruct (Z.eqb_spec slot (-2)); [lia|]. destruct (Z.eqb_spec slot (-1)); [lia|].
    rewrite set_entries_same.
    replace (key_match pd t2 slot key) with true; [reflexivity|].
    symmetry. erewrite key_match_ext; [apply (key_match_written pd t slot key)|].
    reflexivity.
  - rewrite set_entries_same in H.
    destruct (key_match pd t (entries t h0) key) eqn:M.
    + injection H as <- <-.
      destruct (Z.eqb_spec (entries t h0) (-2)) as [E2|_]; [now apply Hu in E2|].
      destruct (Z.eqb_spec (entries t h0) (-1)); [contradiction|].
      now rewrite set_entries_same, M.
    + specialize (IH _ H).
      destruct Eff as [Eh Cap _ Ks Es | _ _ ->].
      * assert (h0 <> h) by congruence.
        rewrite (Es h0). replace (h0 =? h) with false by (symmetry; now apply Z.eqb_neq).
        destruct (Z.eqb_spec (entries t h0) (-2)) as [E2|_]; [now apply Hu in E2|].
        destruct (Z.eqb_spec (entries t h0) (-1)); [contradiction|].
        rewrite set_entries_same.
        replace (key_match pd t' (entries t h0) key) with false.
        -- unfold next_bucket in *. now rewrite Cap.
        -- symmetry. rewrite <- M.
           rewrite <- (key_match_other_slot pd t slot _ key key (Fresh h0)).
           apply key_match_ext. intros i Hi. now rewrite Ks.
      * destruct (Z.eqb_spec (entries t h0) (-2)) as [E2|_]; [now apply Hu in E2|].
        destruct (Z.eqb_spec (entries t h0) (-1)); [contradiction|].
        now rewrite set_entries_same, M.
Qed.

(** The probe loop reads the capacity, the keys and the entries only. *)
Lemma retrieve_loop_values (fuel : nat) (t : HashTableGPU) (vs : Z -> Q)
    (key : Z -> Z) (h0 : Z) :
  retrieve_loop pd fuel (set_values t vs) key h0 = retrieve_loop pd fuel t key h0.
Proof.
  revert h0. induction fuel as [|fuel IH]; intros h0; [reflexivity|].
  cbn [retrieve_loop]. cbn [entries set_values].
  replace (key_match pd (set_values t vs) (entries t h0) key)
    with (key_match pd t (entries t h0) key) by reflexivity.
  replace (next_bucket (set_values t vs) h0) with (next_bucket t h0) by reflexivity.
  now rewrite IH.
Qed.

End LookupFacts.

(** X1. A key that no occupied bucket holds is reported missing: when some
    bucket of the table is empty and the loop may probe every bucket once,
    [retrieve] returns -1. *)
Theorem retrieve_of_absent_key (pd fuel : nat) (t : HashTableGPU) (key : Z -> Z) :
  0 < capacity t ->
  (exists p, 0 <= p < 2 * capacity t /\ entries t p = -1) ->
  (forall p, 0 <= p < 2 * capacity t -> entries t p <> -1 ->
     key_match pd t (entries t p) key = false) ->
  (Z.to_nat (2 * capacity t) <= fuel)%nat ->
  retrieve pd fuel t key = Ret (-1).
Proof.
  intros Hc He Habs Hf.
  destruct (retrieve_returns pd t fuel key Hc He Hf) as (r & Hr).
  rewrite Hr. f_equal.
  destruct (retrieve_loop_result pd fuel t key _ r (modHash_range t _ Hc) Hr)
    as ((p & Hp & Ep) & [E|M]); [assumption|].
  destruct (Z.eq_dec r (-1)) as [|N]; [assumption|].
  rewrite <- Ep in M, N. rewrite (Habs p Hp N) in M. discriminate.
Qed.

Lemma retrieve_of_absent_key_witness :
  retrieve 2 2 (new_table 1) (fun i => i + 3) = Ret (-1).
Proof.
  apply (retrieve_of_absent_key 2 2 (new_table 1) (fun i => i + 3)).
  - reflexivity.
  - exists 0. split; [cbn; lia|reflexivity].
  - intros p _ Hp. cbn in Hp. lia.
  - cbn. lia.
Defined.

(** X2. A slot that [retrieve] returns is the contents of a bucket of the
    table, and the [pd] coordinates stored in that slot are the key that
    was asked for. *)
Theorem retrieve_finds_the_key (pd fuel : nat) (t : HashTableGPU) (key : Z -> Z) (r : Z) :
  0 < capacity t ->
  retrieve pd fuel t key = Ret r ->
  r <> -1 ->
  (exists p, 0 <= p < 2 * capacity t /\ entries t p = r) /\
  forall i, 0 <= i < Z.of_nat pd -> keys t (r * Z.of_nat pd + i) = key i.
Proof.
  intros Hc Hr Hn.
  destruct (retrieve_loop_result pd fuel t key _ r (modHash_range t _ Hc) Hr)
    as (Hp & [E|M]); [contradiction|].
  split; [assumption|]. now apply key_match_spec.
Qed.

Lemma retrieve_finds_the_key_witness :
  let t := table_after (insert 2 2 (new_table 1) (fun i => i + 3) 0) (new_table 1) in
  (exists p, 0 <= p < 2 * capacity t /\ entries t p = 0) /\
  forall i, 0 <= i < Z.of_nat 2 -> keys t (0 * Z.of_nat 2 + i) = i + 3.
Proof.
  apply (retrieve_finds_the_key 2 2
           (table_after (insert 2 2 (new_table 1) (fun i => i + 3) 0) (new_table 1))
           (fun i => i + 3) 0).
  - reflexivity.
  - vm_compute. reflexivity.
  - lia.
Defined.

(** X3. What a sequential [insert] leaves alone: the bucket it returns is
    inside the table, the capacity and the accumulators are unchanged, no
    other bucket is written, and the stored keys change in the row of
    [slot] at most; either the returned bucket now owns [slot], or the
    table is as it was. *)
Theorem insert_touches_one_bucket (pd fuel : nat) (t : HashTableGPU) (key : Z -> Z)
    (slot h : Z) (t' : HashTableGPU) :
  0 < capacity t ->
  unlocked t ->
  insert pd fuel t key slot = Ret (h, t') ->
  0 <= h < 2 * capacity t /\
  capacity t' = capacity t /\
  values t' = values t /\
  (forall p, p <> h -> entries t' p = entries t p) /\
  (forall c i, c <> slot -> 0 <= i < Z.of_nat pd ->
     keys t' (c * Z.of_nat pd + i) = keys t (c * Z.of_nat pd + i)) /\
  ((entries t h = -1 /\ entries t' h = slot) \/ t' = t).
Proof.
  intros Hc Hu H. unfold insert in H.
  pose proof (insert_loop_range pd fuel t key slot _ h t' Hu (modHash_range t _ Hc) H) as R.
  pose proof (insert_loop_effect _ _ _ _ _ _ _ _ Hu H) as [Eh Cap Vs Ks Es | _ _ ->].
  - repeat split; try assumption; try lia.
    + intros p Hp. rewrite Es. apply Z.eqb_neq in Hp. now rewrite Hp.
    + intros c i Hne Hi. rewrite Ks. now apply write_key_other_slot.
    + left. split; [assumption|]. now rewrite Es, Z.eqb_refl.
  - repeat split; auto; lia.
Qed.

Lemma insert_touches_one_bucket_witness :
  let t := new_table 1 in
  let t' := table_after (insert 2 2 t (fun i => i + 3) 0) t in
  0 <= 1 < 2 * capacity t /\
  capacity t' = capacity t /\
  values t' = values t /\
  (forall p, p <> 1 -> entries t' p = entries t p) /\
  (forall c i, c <> 0 -> 0 <= i < Z.of_nat 2 ->
     keys t' (c * Z.of_nat 2 + i) = keys t (c * Z.of_nat 2 + i)) /\
  ((entries t 1 = -1 /\ entries t' 1 = 0) \/ t' = t).
Proof.
  apply (insert_touches_one_bucket 2 2 (new_table 1) (fun i => i + 3) 0 1).
  - reflexivity.
  - intros p. cbn. lia.
  - vm_compute. reflexivity.
Defined.

(** X4. Inserting a key again changes nothing: after a sequential [insert]
    of a key into a slot that no bucket owned, every further [insert] of
    the same key, whatever slot it offers, returns the same bucket and
    leaves the table as it is. *)
Theorem insert_again_is_a_lookup (pd fuel : nat) (t : HashTableGPU) (key : Z -> Z)
    (slot h : Z) (t' : HashTableGPU) :
  unlocked t ->
  0 <= slot ->
  (forall p, entries t p <> slot) ->
  insert pd fuel t key slot = Ret (h, t') ->
  forall slot', insert pd fuel t' key slot' = Ret (h, t').
Proof.
  intros Hu Hs Fresh H slot'. unfold insert in *.
  pose proof (insert_loop_effect _ _ _ _ _ _ _ _ Hu H) as Eff.
  replace (modHash t' (hash pd key)) with (modHash t (hash pd key))
    by (unfold modHash; now rewrite (insert_effect_capacity _ _ _ _ _ _ Eff)).
  eapply insert_loop_again; eauto.
Qed.

Lemma insert_again_is_a_lookup_witness :
  let t' := table_after (insert 2 2 (new_table 1) (fun i => i + 3) 0) (new_table 1) in
  insert 2 2 t' (fun i => i + 3) 5 = Ret (1, t').
Proof.
  apply (insert_again_is_a_lookup 2 2 (new_table 1) (fun i => i + 3) 0 1).
  - intros p. cbn. lia.
  - lia.
  - intros p. cbn. lia.
  - vm_compute. reflexivity.
Defined.

(** ** Merging of duplicate keys *)

Section CleanMerges.

Variable pd : nat.

(** The bucket at which a probe for [key] stops. *)
Fixpoint probe_stop (fuel : nat) (t : HashTableGPU) (key : Z -> Z) (h : Z) : option Z :=
  match fuel with
  | O => None
  | S fuel' =>
      if (entries t h =? -1) || key_match pd t (entries t h) key then Some h
      else probe_stop fuel' t key (next_bucket t h)
  end.

Lemma retrieve_loop_stop (fuel : nat) (t : HashTableGPU) (key : Z -> Z) (h : Z) :
  retrieve_loop pd fuel t key h =
  match probe_stop fuel t key h with
  | Some b => Ret (entries t b)
  | None => OutOfFuel
  end.
Proof.
  revert h. induction fuel as [|fuel IH]; intros h; [reflexivity|].
  cbn [retrieve_loop probe_stop].
  destruct (Z.eqb_spec (entries t h) (-1)) as [E|N]; cbn [orb].
  - now rewrite E.
  - destruct (key_match pd t (entries t h) key); [reflexivity|apply IH].
Qed.

Lemma probe_stop_flag (fuel : nat) (t : HashTableGPU) (key : Z -> Z) (h b : Z) :
  probe_stop fuel t key h = Some b ->
  (entries t b =? -1) || key_match pd t (entries t b) key = true.
Proof.
  revert h. induction fuel as [|fuel IH]; intros h H; [discriminate|].
  cbn [probe_stop] in H.
  destruct ((entries t h =? -1) || key_match pd t (entries t h) key) eqn:F.
  - injection H as <-. exact F.
  - eapply IH, H.
Qed.

(** The stop depends on the capacity and on which buckets would stop the
    probe, not on what the buckets point to. *)
Lemma probe_stop_ext (fuel : nat) (t t' : HashTableGPU) (key : Z -> Z) (h : Z) :
  capacity t' = capacity t ->
  (forall b, (entries t' b =? -1) || key_match pd t' (entries t' b) key
             = (entries t b =? -1) || key_match pd t (entries t b) key) ->
  probe_stop fuel t' key h = probe_stop fuel t key h.
Proof.
  intros C F. revert h. induction fuel as [|fuel IH]; intros h; [reflexivity|].
  cbn [probe_stop]. rewrite F. unfold next_bucket. rewrite C.
  destruct ((entries t h =? -1) || key_match pd t (entries t h) key); [reflexivity|apply IH].
Qed.

(** [key_match] compares the cells of the slot: slots with equal cells match
    the same keys. *)
Lemma key_match_same_cells (t t' : HashTableGPU) (c c' : Z) (key : Z -> Z) :
  (forall i, 0 <= i < Z.of_nat pd ->
     keys t' (c' * Z.of_nat pd + i) = keys t (c * Z.of_nat pd + i)) ->
  key_match pd t' c' key = key_match pd t c key.
Proof.
  intros H. apply eq_true_iff_eq. rewrite !key_match_spec.
  split; intros M i Hi; [rewrite <- H | rewrite H]; auto.
Qed.

Variable fuel : nat.
Variable t0 : HashTableGPU.

Hypothesis capacity_pos : 0 < capacity t0.
Hypothesis enough_fuel : (Z.to_nat (2 * capacity t0) <= fuel)%nat.

(** The key stored for bucket [b]. *)
Definition bucket_key (b : Z) : Z -> Z :=
  fun i => keys t0 (entries t0 b * Z.of_nat pd + i).

(** Every key of the table is found by a lookup. *)
Hypothesis keys_found :
  forall b, 0 <= b < 2 * capacity t0 -> 0 <= entries t0 b ->
    retrieve pd fuel t0 (bucket_key b) <> Ret (-1).

Lemma bucket_lookup (b : Z) :
  0 <= b < 2 * capacity t0 -> 0 <= entries t0 b ->
  exists m,
    probe_stop fuel t0 (bucket_key b) (modHash t0 (hash pd (bucket_key b))) = Some m /\
    retrieve pd fuel t0 (bucket_key b) = Ret (entries t0 m) /\
    entries t0 m <> -1 /\
    (forall i, 0 <= i < Z.of_nat pd ->
       keys t0 (entries t0 m * Z.of_nat pd + i) = bucket_key b i).
Proof.
  intros Hb He.
  assert (R : exists r, retrieve pd fuel t0 (bucket_key b) = Ret r).
  { unfold retrieve.
    destruct (bucket_reached t0 (modHash t0 (hash pd (bucket_key b))) b) as (d & Hd & Hit);
      [now apply modHash_range | assumption |].
    apply (retrieve_loop_terminates pd t0 (bucket_key b) d); [lia|].
    right. rewrite Hit. apply key_match_spec. reflexivity. }
  destruct R as (r & Hr). pose proof (keys_found b Hb He) as Hne.
  unfold retrieve in Hr, Hne. rewrite retrieve_loop_stop in Hr, Hne.
  destruct (probe_stop fuel t0 (bucket_key b) (modHash t0 (hash pd (bucket_key b))))
    as [m|] eqn:P; [|discriminate].
  exists m. split; [reflexivity|]. split; [unfold retrieve; now rewrite retrieve_loop_stop, P|].
  assert (N : entries t0 m <> -1) by congruence. split; [exact N|].
  apply probe_stop_flag in P. apply Z.eqb_neq in N. rewrite N in P. cbn [orb] in P.
  now apply key_match_spec.
Qed.

(** The table after the threads of the buckets below [k]. *)
Record clean_inv (k : Z) (t : HashTableGPU) : Prop := {
  ci_capacity : capacity t = capacity t0;
  ci_keys : keys t = keys t0;
  ci_values : values t = values t0;
  ci_done : forall b, 0 <= b < k -> 0 <= entries t0 b ->
              retrieve pd fuel t0 (bucket_key b) = Ret (entries t b);
  ci_rest : forall b, ~ (0 <= b < k /\ 0 <= entries t0 b) -> entries t b = entries t0 b
}.

Lemma processed_dec (b k e : Z) : {0 <= b < k /\ 0 <= e} + {~ (0 <= b < k /\ 0 <= e)}.
Proof.
  destruct (Z_le_dec 0 b), (Z_lt_dec b k), (Z_le_dec 0 e); (left; lia) || (right; lia).
Qed.

(** The threads leave every bucket as it was for the probes: empty or not,
    and pointing to a slot with the same key. *)
Lemma clean_inv_flag (k : Z) (t : HashTableGPU) (key : Z -> Z) (b : Z) :
  k <= 2 * capacity t0 -> clean_inv k t ->
  (entries t b =? -1) || key_match pd t (entries t b) key
  = (entries t0 b =? -1) || key_match pd t0 (entries t0 b) key.
Proof.
  intros Hk I.
  destruct (processed_dec b k (entries t0 b)) as [[Hb He]|Hn].
  - destruct (bucket_lookup b ltac:(lia) He) as (m & _ & R & N & Hkey).
    rewrite (ci_done _ _ I b Hb He) in R. injection R as R. rewrite R.
    destruct (Z.eqb_spec (entries t0 m) (-1)); [contradiction|].
    destruct (Z.eqb_spec (entries t0 b) (-1)); [lia|]. cbn [orb].
    apply key_match_same_cells. intros i Hi.
    rewrite (ci_keys _ _ I). now rewrite Hkey.
  - rewrite (ci_rest _ _ I b Hn). f_equal.
    apply key_match_ext. intros i Hi. now rewrite (ci_keys _ _ I).
Qed.

Lemma clean_step (k : nat) (t : HashTableGPU) :
  Z.of_nat k < 2 * capacity t0 -> clean_inv (Z.of_nat k) t ->
  exists t', cleanHashTable_thread pd fuel (Z.of_nat k) t = Ret t' /\
             clean_inv (Z.of_nat (S k)) t'.
Proof.
  intros Hk I. unfold cleanHashTable_thread.
  assert (E : entries t (Z.of_nat k) = entries t0 (Z.of_nat k))
    by (apply (ci_rest _ _ I); lia).
  rewrite E. destruct (Z.leb_spec 0 (entries t0 (Z.of_nat k))) as [He|He].
  - rewrite (ci_keys _ _ I). fold (bucket_key (Z.of_nat k)).
    destruct (bucket_lookup (Z.of_nat k) ltac:(lia) He) as (m & P & R & N & Hkey).
    assert (Rt : retrieve pd fuel t (bucket_key (Z.of_nat k)) = Ret (entries t0 m)).
    { unfold retrieve. rewrite retrieve_loop_stop. unfold modHash.
      rewrite (ci_capacity _ _ I).
      rewrite (probe_stop_ext fuel t0 t _ _ (ci_capacity _ _ I)
                 (fun b => clean_inv_flag (Z.of_nat k) t (bucket_key (Z.of_nat k)) b ltac:(lia) I)).
      unfold modHash in P. rewrite P. f_equal.
      destruct (processed_dec m (Z.of_nat k) (entries t0 m)) as [[Hm Hem]|Hn].
      - pose proof (ci_done _ _ I m Hm Hem) as D.
        rewrite (retrieve_key_ext pd fuel t0 (bucket_key m) (bucket_key (Z.of_nat k))) in D
          by (intros i Hi; unfold bucket_key at 1; now apply Hkey).
        rewrite R in D. now injection D.
      - now apply (ci_rest _ _ I). }
    rewrite Rt. cbn [bind]. eexists. split; [reflexivity|].
    constructor; cbn [capacity keys values entries set_entries].
    + apply (ci_capacity _ _ I).
    + apply (ci_keys _ _ I).
    + apply (ci_values _ _ I).
    + intros b Hb Hbe. destruct (Z.eq_dec b (Z.of_nat k)) as [->|Hne].
      * now rewrite upd_same.
      * rewrite upd_other by assumption. apply (ci_done _ _ I); [lia|assumption].
    + intros b Hb. destruct (Z.eq_dec b (Z.of_nat k)) as [->|Hne]; [exfalso; lia|].
      rewrite upd_other by assumption. apply (ci_rest _ _ I). lia.
  - exists t. split; [reflexivity|]. constructor.
    + apply (ci_capacity _ _ I).
    + apply (ci_keys _ _ I).
    + apply (ci_values _ _ I).
    + intros b Hb Hbe. apply (ci_done _ _ I); [|assumption].
      destruct (Z.eq_dec b (Z.of_nat k)) as [->|Hne]; lia.
    + intros b Hb. apply (ci_rest _ _ I). lia.
Qed.

Lemma clean_all (m : nat) :
  Z.of_nat m <= 2 * capacity t0 ->
  exists t', cleanHashTable pd fuel m t0 = Ret t' /\ clean_inv (Z.of_nat m) t'.
Proof.
  intros Hm. unfold cleanHashTable.
  apply (for_upM_ind (fun k t => clean_inv (Z.of_nat k) t)).
  - constructor; try reflexivity. intros b Hb. lia.
  - intros k acc Hk I. apply clean_step; [lia|assumption].
Qed.

End CleanMerges.

(** X23. On a table in which every stored key can be looked up,
    [cleanHashTable] over all the buckets returns, changes neither keys nor
    accumulators, and leaves in every occupied bucket the slot that the
    lookup of the bucket's key returned in the table it started from: buckets
    that hold equal keys end up pointing to one slot. *)
Theorem cleanHashTable_merges_duplicates (pd fuel : nat) (t : HashTableGPU) :
  0 < capacity t ->
  (Z.to_nat (2 * capacity t) <= fuel)%nat ->
  (forall b, 0 <= b < 2 * capacity t -> 0 <= entries t b ->
     retrieve pd fuel t (fun i => keys t (entries t b * Z.of_nat pd + i)) <> Ret (-1)) ->
  exists t',
    cleanHashTable pd fuel (Z.to_nat (2 * capacity t)) t = Ret t' /\
    keys t' = keys t /\ values t' = values t /\
    (forall b, 0 <= b < 2 * capacity t -> 0 <= entries t b ->
       retrieve pd fuel t (fun i => keys t (entries t b * Z.of_nat pd + i))
       = Ret (entries t' b)) /\
    (forall p q, 0 <= p < 2 * capacity t -> 0 <= q < 2 * capacity t ->
       0 <= entries t p -> 0 <= entries t q ->
       (forall i, 0 <= i < Z.of_nat pd ->
          keys t (entries t p * Z.of_nat pd + i) = keys t (entries t q * Z.of_nat pd + i)) ->
       entries t' p = entries t' q).
Proof.
  intros Hc Hf Hk.
  destruct (clean_all pd fuel t Hc Hf Hk (Z.to_nat (2 * capacity t)) ltac:(lia))
    as (t' & Ht' & I).
  exists t'. split; [exact Ht'|].
  split; [apply (ci_keys _ _ _ _ _ I)|]. split; [apply (ci_values _ _ _ _ _ I)|].
  assert (D : forall b, 0 <= b < 2 * capacity t -> 0 <= entries t b ->
            retrieve pd fuel t (fun i => keys t (entries t b * Z.of_nat pd + i))
            = Ret (entries t' b)).
  { intros b Hb He. apply (ci_done _ _ _ _ _ I); [lia|assumption]. }
  split; [exact D|].
  intros p q Hp Hq Hep Heq Hsame.
  pose proof (D p Hp Hep) as Dp. pose proof (D q Hq Heq) as Dq.
  rewrite (retrieve_key_ext pd fuel t _ _ Hsame) in Dp. rewrite Dq in Dp.
  now injection Dp.
Qed.

Lemma cleanHashTable_merges_duplicates_witness :
  let t := mkTable 2 (fun _ => 0%Q) (fun _ => 0)
             (fun b => if b =? 0 then 0 else if b =? 1 then 1 else -1) in
  exists t',
    cleanHashTable 1 4 (Z.to_nat (2 * capacity t)) t = Ret t' /\
    keys t' = keys t /\ values t' = values t /\
    (forall b, 0 <= b < 2 * capacity t -> 0 <= entries t b ->
       retrieve 1 4 t (fun i => keys t (entries t b * Z.of_nat 1 + i))
       = Ret (entries t' b)) /\
    (forall p q, 0 <= p < 2 * capacity t -> 0 <= q < 2 * capacity t ->
       0 <= entries t p -> 0 <= entries t q ->
       (forall i, 0 <= i < Z.of_nat 1 ->
          keys t (entries t p * Z.of_nat 1 + i) = keys t (entries t q * Z.of_nat 1 + i)) ->
       entries t' p = entries t' q).
Proof.
  apply (cleanHashTable_merges_duplicates 1 4
           (mkTable 2 (fun _ => 0%Q) (fun _ => 0)
              (fun b => if b =? 0 then 0 else if b =? 1 then 1 else -1))).
  - cbn. lia.
  - cbn. lia.
  - intros b Hb He. cbn [capacity] in Hb.
    assert (E : b = 0 \/ b = 1 \/ b = 2 \/ b = 3) by lia.
    destruct E as [-> | [-> | [-> | ->]]]; cbn in He; try lia; vm_compute; discriminate.
Defined.

(** The pass changes no lookup: every key is found where it was. *)
Lemma clean_keeps_lookups (pd fuel : nat) (t0 : HashTableGPU) :
  0 < capacity t0 ->
  (Z.to_nat (2 * capacity t0) <= fuel)%nat ->
  (forall b, 0 <= b < 2 * capacity t0 -> 0 <= entries t0 b ->
     retrieve pd fuel t0 (bucket_key pd t0 b) <> Ret (-1)) ->
  forall (k : Z) (t : HashTableGPU) (key : Z -> Z),
    k <= 2 * capacity t0 -> clean_inv pd fuel t0 k t ->
    retrieve pd fuel t key = retrieve pd fuel t0 key.
Proof.
  intros Hc Hf Hk k t key Hle I. unfold retrieve. rewrite !retrieve_loop_stop.
  unfold modHash. rewrite (ci_capacity _ _ _ _ _ I).
  rewrite (probe_stop_ext pd fuel t0 t key _ (ci_capacity _ _ _ _ _ I)
             (fun b => clean_inv_flag pd fuel t0 Hc Hf Hk k t key b Hle I)).
  destruct (probe_stop pd fuel t0 key (hash pd key mod (2 * capacity t0))) as [m|] eqn:P;
    [|reflexivity].
  f_equal.
  destruct (processed_dec fuel t0 Hf m k (entries t0 m)) as [[Hm He]|Hn];
    [|now apply (ci_rest _ _ _ _ _ I)].
  pose proof (ci_done _ _ _ _ _ I m Hm He) as D.
  pose proof (probe_stop_flag pd fuel t0 key _ m P) as F.
  destruct (Z.eqb_spec (entries t0 m) (-1)); [lia|]. cbn [orb] in F.
  rewrite (retrieve_key_ext pd fuel t0 (bucket_key pd t0 m) key) in D
    by (intros i Hi; unfold bucket_key; now apply key_match_spec).
  unfold retrieve in D. rewrite retrieve_loop_stop in D. unfold modHash in D.
  rewrite P in D. now injection D.
Qed.

(** A key that lies on its probe path behind buckets that are not empty is
    found by the probe. *)
Lemma probe_stop_path (pd : nat) (t : HashTableGPU) (key : Z -> Z) (d : nat) :
  forall (fuel : nat) (h : Z),
    (d < fuel)%nat ->
    (forall d', (d' < d)%nat -> entries t (Nat.iter d' (next_bucket t) h) <> -1) ->
    entries t (Nat.iter d (next_bucket t) h) <> -1 ->
    key_match pd t (entries t (Nat.iter d (next_bucket t) h)) key = true ->
    exists m, probe_stop pd fuel t key h = Some m /\
              entries t m <> -1 /\ key_match pd t (entries t m) key = true.
Proof.
  induction d as [|d IH]; intros [|fuel] h Hd P E M; try lia; cbn [probe_stop].
  - change (Nat.iter 0 (next_bucket t) h) with h in E, M. rewrite M, orb_true_r. eauto.
  - pose proof (P 0%nat ltac:(lia)) as E0. change (Nat.iter 0 (next_bucket t) h) with h in E0.
    destruct (Z.eqb_spec (entries t h) (-1)); [contradiction|]. cbn [orb].
    destruct (key_match pd t (entries t h) key) eqn:M0; [eauto|].
    apply IH; [lia| | |].
    + intros d' Hd'. rewrite <- Nat.iter_succ_r. apply P. lia.
    + now rewrite <- Nat.iter_succ_r.
    + now rewrite <- Nat.iter_succ_r.
Qed.

(** ** The blur round on a table at rest *)

(** The key is stored: some bucket points to a slot that holds it. *)
Definition stored (pd : nat) (t : HashTableGPU) (key : Z -> Z) : Prop :=
  exists p, 0 <= p < 2 * capacity t /\ entries t p <> -1 /\
            key_match pd t (entries t p) key = true.

(** Bucket [p] is reached from bucket [h] through buckets that are not
    empty, within [fuel] probes. *)
Fixpoint reaches (fuel : nat) (t : HashTableGPU) (h p : Z) : bool :=
  match fuel with
  | O => false
  | S fuel' =>
      if Z.eqb h p then true
      else if Z.eqb (entries t h) (-1) then false
      else reaches fuel' t (next_bucket t h) p
  end.

(** A table at rest, as insertions leave it: every bucket is empty or
    points to a slot, and the bucket of a slot lies on the probe path of
    the key of the slot, behind buckets that are not empty. *)
Definition at_rest (pd : nat) (t : HashTableGPU) : Prop :=
  forall p, 0 <= p < 2 * capacity t ->
    entries t p = -1 \/
    (0 <= entries t p /\
     reaches (Z.to_nat (2 * capacity t)) t
       (modHash t (hash pd (fun i => keys t (entries t p * Z.of_nat pd + i)))) p = true).

Lemma reaches_path (fuel : nat) (t : HashTableGPU) (p : Z) :
  forall h, reaches fuel t h p = true ->
    exists d, (d < fuel)%nat /\ Nat.iter d (next_bucket t) h = p /\
              forall d', (d' < d)%nat -> entries t (Nat.iter d' (next_bucket t) h) <> -1.
Proof.
  induction fuel as [|fuel IH]; intros h H; [discriminate|]. cbn [reaches] in H.
  destruct (Z.eqb_spec h p) as [E0|Hne].
  - exists 0%nat. split; [lia|]. split; [exact E0|]. intros d' Hd. lia.
  - destruct (Z.eqb_spec (entries t h) (-1)) as [|Hn]; [discriminate|].
    destruct (IH _ H) as (d & Hd & E & P). exists (S d). split; [lia|].
    split; [now rewrite Nat.iter_succ_r|].
    intros [|d'] Hd'; [exact Hn|]. rewrite Nat.iter_succ_r. apply P. lia.
Qed.

(** On a table at rest a stored key is found by the probe. *)
Lemma stored_found (pd fuel : nat) (t : HashTableGPU) (key : Z -> Z) :
  (Z.to_nat (2 * capacity t) <= fuel)%nat ->
  at_rest pd t -> stored pd t key ->
  exists m, probe_stop pd fuel t key (modHash t (hash pd key)) = Some m /\
            entries t m <> -1 /\ key_match pd t (entries t m) key = true.
Proof.
  intros Hf R (p & Hp & Ep & M).
  destruct (R p Hp) as [E|(_ & Hr)]; [contradiction|].
  rewrite (hash_ext pd _ key) in Hr by (now apply key_match_spec).
  destruct (reaches_path _ _ _ _ Hr) as (d & Hd & E & P).
  apply (probe_stop_path pd t key d); [lia|exact P| |]; now rewrite E.
Qed.

(** What a lookup answers on a table at rest: the slot of a bucket that
    holds the key, when the key is stored, and -1 when it is not. *)
Lemma lookup_at_rest (pd fuel : nat) (t : HashTableGPU) (key : Z -> Z) (r : Z) :
  0 < capacity t ->
  (Z.to_nat (2 * capacity t) <= fuel)%nat ->
  at_rest pd t ->
  retrieve pd fuel t key = Ret r ->
  (stored pd t key ->
   0 <= r /\ (exists p, 0 <= p < 2 * capacity t /\ entries t p = r) /\
   forall i, 0 <= i < Z.of_nat pd -> keys t (r * Z.of_nat pd + i) = key i) /\
  (~ stored pd t key -> r = -1).
Proof.
  intros Hc Hf R H. unfold retrieve in H.
  destruct (retrieve_loop_result pd fuel t key _ r (modHash_range t _ Hc) H)
    as ((p & Hp & Ep) & Hm).
  split.
  - intros S. destruct (stored_found pd fuel t key Hf R S) as (m & Pm & Em & Mm).
    rewrite retrieve_loop_stop, Pm in H. injection H as H.
    assert (Hr : r <> -1) by congruence.
    split; [|split; [eauto|]].
    + destruct (R p Hp) as [E|[E _]]; lia.
    + rewrite <- H. now apply key_match_spec.
  - intros NS. destruct (Z.eq_dec r (-1)) as [|Hr]; [assumption|].
    exfalso. apply NS. exists p. rewrite Ep. destruct Hm; [contradiction|auto].
Qed.

(** C2: a round of blur with color [c] on a table at rest returns (some
    bucket of the table is empty, so that every lookup ends).  For every
    occupied vertex (a slot [idx] with [matrix[idx].index == idx]) it
    computes the two neighbour keys along axis [c] and looks them up: a
    neighbour that the table stores is found, in a slot that holds its key,
    and the accumulators of that slot are its row; a neighbour that the
    table does not store is answered by -1 and counts as the zero vector.
    The round writes [0.25*next + 0.5*self + 0.25*prev] into [newValues],
    never into the table's own values; the other rows of [newValues] are
    left as they were.  The round ends by swapping the two buffers. *)
Theorem blur_round_spec (pd vd fuel n : nat) (matrix : Z -> MatrixEntry) (c : Z)
    (table : HashTableGPU) (newValues : Z -> Q) :
  0 < capacity table ->
  (exists p, 0 <= p < 2 * capacity table /\ entries table p = -1) ->
  (Z.to_nat (2 * capacity table) <= fuel)%nat ->
  at_rest pd table ->
  exists out,
    blur_round pd vd fuel n matrix c (table, newValues)
      = Ret (set_values table out, values table) /\
    forall idx, 0 <= idx < Z.of_nat (n * S pd) ->
      (index (matrix idx) = idx ->
       let np := fst (neighbours pd table idx c) in
       let nm := snd (neighbours pd table idx c) in
       exists offNp offNm,
         (forall i, 0 <= i < Z.of_nat pd ->
            let myKey := keys table (idx * Z.of_nat pd + i) in
            np i = (if Z.eqb i c then to_short (to_short (myKey + 1) - pd1 pd)
                    else to_short (myKey + 1)) /\
            nm i = (if Z.eqb i c then to_short (to_short (myKey - 1) + pd1 pd)
                    else to_short (myKey - 1))) /\
         retrieve pd fuel table np = Ret offNp /\
         retrieve pd fuel table nm = Ret offNm /\
         (stored pd table np ->
          0 <= offNp /\ (exists p, 0 <= p < 2 * capacity table /\ entries table p = offNp) /\
          forall i, 0 <= i < Z.of_nat pd -> keys table (offNp * Z.of_nat pd + i) = np i) /\
         (~ stored pd table np -> offNp = -1) /\
         (stored pd table nm ->
          0 <= offNm /\ (exists p, 0 <= p < 2 * capacity table /\ entries table p = offNm) /\
          forall i, 0 <= i < Z.of_nat pd -> keys table (offNm * Z.of_nat pd + i) = nm i) /\
         (~ stored pd table nm -> offNm = -1) /\
         (forall i, 0 <= i < Z.of_nat vd ->
            out (Z.of_nat vd * idx + i) =
            ((1 # 4) * (if 0 <=? offNp then values table (Z.of_nat vd * offNp + i) else 0)
             + (1 # 2) * values table (Z.of_nat vd * idx + i)
             + (1 # 4) * (if 0 <=? offNm then values table (Z.of_nat vd * offNm + i) else 0))%Q))
      /\
      (index (matrix idx) <> idx ->
       forall i, 0 <= i < Z.of_nat vd ->
         out (Z.of_nat vd * idx + i) = newValues (Z.of_nat vd * idx + i)).
Proof.
  intros Hc He Hf Hr.
  destruct (blur_returns pd vd fuel (n * S pd) newValues matrix c table) as (out & Hout).
  { intros key. now apply retrieve_returns. }
  exists out. split.
  - unfold blur_round. now rewrite Hout.
  - intros idx Hidx. destruct (blur_spec _ _ _ _ _ _ _ _ _ Hout) as (Hrows & _).
    destruct (Hrows idx Hidx) as [(Hs & Hrow)|(Hv & offNp & offNm & Hp & Hm & Hrow)].
    + split; [intros; contradiction|]. intros _. exact Hrow.
    + split; [|intros; contradiction]. intros _. cbv zeta.
      exists offNp, offNm.
      destruct (lookup_at_rest pd fuel table _ offNp Hc Hf Hr Hp) as (Sp & Np).
      destruct (lookup_at_rest pd fuel table _ offNm Hc Hf Hr Hm) as (Sm & Nm).
      split; [intros i Hi; now apply neighbours_spec|].
      split; [exact Hp|]. split; [exact Hm|].
      split; [exact Sp|]. split; [exact Np|]. split; [exact Sm|]. split; [exact Nm|].
      exact Hrow.
Qed.

(** A table with the two vertices 5 and 6 of a one-dimensional lattice, in
    the slots 0 and 1. *)
Definition two_vertices : HashTableGPU :=
  mkTable 2 (fun k => inject_Z (k + 1))
    (fun k => if k =? 0 then 5 else if k =? 1 then 6 else 0)
    (fun b => if b =? 3 then 0 else if b =? 2 then 1 else -1).

Lemma blur_round_spec_witness :
  exists out,
    blur_round 1 2 4 1 (fun s => mkEntry s 0) 0 (two_vertices, fun _ => 0%Q)
      = Ret (set_values two_vertices out, values two_vertices) /\
    forall idx, 0 <= idx < Z.of_nat (1 * 2) ->
      (index ((fun s => mkEntry s 0) idx) = idx ->
       let np := fst (neighbours 1 two_vertices idx 0) in
       let nm := snd (neighbours 1 two_vertices idx 0) in
       exists offNp offNm,
         (forall i, 0 <= i < Z.of_nat 1 ->
            let myKey := keys two_vertices (idx * Z.of_nat 1 + i) in
            np i = (if Z.eqb i 0 then to_short (to_short (myKey + 1) - pd1 1)
                    else to_short (myKey + 1)) /\
            nm i = (if Z.eqb i 0 then to_short (to_short (myKey - 1) + pd1 1)
                    else to_short (myKey - 1))) /\
         retrieve 1 4 two_vertices np = Ret offNp /\
         retrieve 1 4 two_vertices nm = Ret offNm /\
         (stored 1 two_vertices np ->
          0 <= offNp /\
          (exists p, 0 <= p < 2 * capacity two_vertices /\ entries two_vertices p = offNp) /\
          forall i, 0 <= i < Z.of_nat 1 -> keys two_vertices (offNp * Z.of_nat 1 + i) = np i) /\
         (~ stored 1 two_vertices np -> offNp = -1) /\
         (stored 1 two_vertices nm ->
          0 <= offNm /\
          (exists p, 0 <= p < 2 * capacity two_vertices /\ entries two_vertices p = offNm) /\
          forall i, 0 <= i < Z.of_nat 1 -> keys two_vertices (offNm * Z.of_nat 1 + i) = nm i) /\
         (~ stored 1 two_vertices nm -> offNm = -1) /\
         (forall i, 0 <= i < Z.of_nat 2 ->
            out (Z.of_nat 2 * idx + i) =
            ((1 # 4) * (if 0 <=? offNp then values two_vertices (Z.of_nat 2 * offNp + i) else 0)
             + (1 # 2) * values two_vertices (Z.of_nat 2 * idx + i)
             + (1 # 4) * (if 0 <=? offNm then values two_vertices (Z.of_nat 2 * offNm + i)
                          else 0))%Q))
      /\
      (index ((fun s => mkEntry s 0) idx) <> idx ->
       forall i, 0 <= i < Z.of_nat 2 ->
         out (Z.of_nat 2 * idx + i) = (fun _ => 0%Q) (Z.of_nat 2 * idx + i)).
Proof.
  apply (blur_round_spec 1 2 4 1 (fun s => mkEntry s 0) 0 two_vertices (fun _ => 0%Q)).
  - reflexivity.
  - exists 0. split; [cbn; lia|reflexivity].
  - cbn. lia.
  - intros p Hp. cbn [capacity two_vertices] in Hp.
    assert (E : p = 0 \/ p = 1 \/ p = 2 \/ p = 3) by lia.
    destruct E as [-> | [-> | [-> | ->]]];
      [left; reflexivity|left; reflexivity|right|right]; (split; [cbn; lia|reflexivity]).
Defined.

(** In that table the vertex 5 has the neighbour 6 and lacks the neighbour
    4: the round gives its row a quarter of the row of 6 and half of its
    own. *)
Lemma blur_round_of_two_vertices :
  match blur_round 1 2 4 1 (fun s => mkEntry s 0) 0 (two_vertices, fun _ => 0%Q) with
  | Ret (t, _) =>
      Qeq_bool (values t 0) (5 # 4) && Qeq_bool (values t 1) 2
      && Qeq_bool (values t 2) (7 # 4) && Qeq_bool (values t 3) (5 # 2)
  | _ => false
  end = true.
Proof. vm_compute. reflexivity. Qed.

(** *** The table of createLattice is at rest *)

Lemma path_reaches (t : HashTableGPU) (p : Z) (d : nat) :
  forall (fuel : nat) (h : Z),
    (d < fuel)%nat -> Nat.iter d (next_bucket t) h = p ->
    (forall d', (d' < d)%nat -> entries t (Nat.iter d' (next_bucket t) h) <> -1) ->
    reaches fuel t h p = true.
Proof.
  induction d as [|d IH]; intros [|fuel] h Hd E P; try lia; cbn [reaches].
  - change (Nat.iter 0 (next_bucket t) h) with h in E. apply Z.eqb_eq in E. now rewrite E.
  - destruct (Z.eqb_spec h p); [reflexivity|].
    pose proof (P 0%nat ltac:(lia)) as E0. change (Nat.iter 0 (next_bucket t) h) with h in E0.
    destruct (Z.eqb_spec (entries t h) (-1)); [contradiction|].
    apply IH; [lia|now rewrite <- Nat.iter_succ_r|].
    intros d' Hd'. rewrite <- Nat.iter_succ_r. apply P. lia.
Qed.

(** A path is never longer than the table. *)
Lemma reaches_short (fuel : nat) (t : HashTableGPU) (h p : Z) :
  0 < capacity t -> 0 <= h < 2 * capacity t ->
  reaches fuel t h p = true ->
  reaches (Z.to_nat (2 * capacity t)) t h p = true.
Proof.
  intros Hc Hh H. destruct (reaches_path _ _ _ _ H) as (d & _ & E & P).
  set (d0 := Z.to_nat (Z.of_nat d mod (2 * capacity t))).
  pose proof (Z.mod_pos_bound (Z.of_nat d) (2 * capacity t) ltac:(lia)) as B.
  pose proof (Z.mod_le (Z.of_nat d) (2 * capacity t) ltac:(lia) ltac:(lia)) as Hle.
  apply (path_reaches t p d0).
  - unfold d0. lia.
  - rewrite <- E, !iter_next_bucket by assumption. unfold d0.
    rewrite Z2Nat.id by lia. now rewrite Z.add_mod_idemp_r by lia.
  - intros d' Hd'. apply P. unfold d0 in Hd'. lia.
Qed.

Lemma probe_stop_reaches (pd fuel : nat) (t : HashTableGPU) (key : Z -> Z) (m : Z) :
  forall h, probe_stop pd fuel t key h = Some m -> reaches fuel t h m = true.
Proof.
  induction fuel as [|fuel IH]; intros h H; [discriminate|].
  cbn [probe_stop reaches] in *.
  destruct (Z.eqb_spec h m); [reflexivity|].
  destruct (Z.eqb_spec (entries t h) (-1)); cbn [orb] in H; [congruence|].
  destruct (key_match pd t (entries t h) key); [congruence|]. now apply IH.
Qed.

(** The table that a sequential [createLattice] builds is at rest. *)
Lemma lattice_inv_at_rest (pd fuel : nat) (positions scaleFactor : Z -> Q) (cap k : Z)
    (t : HashTableGPU) (m : Z -> MatrixEntry) :
  0 < cap ->
  lattice_inv pd fuel positions scaleFactor cap k t m -> at_rest pd t.
Proof.
  intros Hc I p Hp. pose proof (inv_capacity _ _ _ _ _ _ _ _ I) as C.
  destruct (inv_entries _ _ _ _ _ _ _ _ I p) as [E|E]; [now left|right].
  split; [lia|].
  assert (Np : entries t p <> -1) by lia.
  destruct (inv_found _ _ _ _ _ _ _ _ I _ E) as (_ & R & _).
  rewrite (inv_owner _ _ _ _ _ _ _ _ I p Np) in R.
  rewrite (hash_ext pd _ (key_of pd positions scaleFactor (entries t p)))
    by (intros i Hi; now apply (inv_keys _ _ _ _ _ _ _ _ I p Np)).
  unfold retrieve in R. rewrite retrieve_loop_stop in R.
  destruct (probe_stop pd fuel t _ _) as [m'|] eqn:P; [|discriminate].
  injection R as R.
  assert (m' = p).
  { rewrite <- (inv_owner _ _ _ _ _ _ _ _ I m') by lia.
    rewrite R. now apply (inv_owner _ _ _ _ _ _ _ _ I p). }
  subst m'. apply (reaches_short fuel); [lia|apply modHash_range; lia|].
  exact (probe_stop_reaches pd fuel t _ p _ P).
Qed.

(** ** Calls of insert that run at the same time *)

(** *** A call that runs alone

    When no other call touches the table, the accesses of one call are the
    sequential [insert]. *)

Fixpoint run_alone (pd : nat) (key : Z -> Z) (slot : Z) (n : nat)
    (st : HashTableGPU * insert_pc) : HashTableGPU * insert_pc :=
  match n with
  | O => st
  | S n' => run_alone pd key slot n' (insert_access pd key slot (fst st) (snd st))
  end.

Lemma run_alone_app (pd : nat) (key : Z -> Z) (slot : Z) (a b : nat) :
  forall st,
    run_alone pd key slot (a + b) st = run_alone pd key slot b (run_alone pd key slot a st).
Proof.
  induction a as [|a IH]; intros st; [reflexivity|]. cbn [Nat.add run_alone]. apply IH.
Qed.

Lemma run_alone_write (pd : nat) (key : Z -> Z) (slot h : Z) (t : HashTableGPU) (k : nat) :
  (k <= pd)%nat ->
  run_alone pd key slot k (t, AtWrite h 0) =
  (set_keys t (for_up k (fun i ks => upd ks (slot * Z.of_nat pd + i) (key i)) (keys t)),
   AtWrite h (Z.of_nat k)).
Proof.
  induction k as [|k IH]; intros Hk.
  - cbn [run_alone]. rewrite for_up_0. now destruct t.
  - replace (S k) with (k + 1)%nat by lia. rewrite run_alone_app, IH by lia.
    cbn [run_alone fst snd insert_access].
    destruct (Z.ltb_spec (Z.of_nat k) (Z.of_nat pd)); [|lia].
    rewrite Nat.add_1_r, for_up_S. cbn [keys set_keys].
    now replace (Z.of_nat (S k)) with (Z.of_nat k + 1) by lia.
Qed.

Lemma run_alone_compare (pd : nat) (key : Z -> Z) (slot h c : Z) (t : HashTableGPU) (k : nat) :
  (k <= pd)%nat ->
  (forall i, 0 <= i < Z.of_nat k -> keys t (c * Z.of_nat pd + i) = key i) ->
  run_alone pd key slot k (t, AtCompare h c 0) = (t, AtCompare h c (Z.of_nat k)).
Proof.
  induction k as [|k IH]; intros Hk M; [reflexivity|].
  replace (S k) with (k + 1)%nat by lia. rewrite run_alone_app, IH by (try lia; intros; apply M; lia).
  cbn [run_alone fst snd insert_access].
  destruct (Z.ltb_spec (Z.of_nat k) (Z.of_nat pd)); [|lia].
  rewrite (M (Z.of_nat k)) by lia. rewrite Z.eqb_refl.
  now replace (Z.of_nat (k + 1)) with (Z.of_nat k + 1) by lia.
Qed.

(** The comparison of a key that differs stops at the first coordinate that
    differs. *)
Lemma run_alone_mismatch (pd : nat) (key : Z -> Z) (slot h c : Z) (t : HashTableGPU) (k : nat) :
  (k <= pd)%nat ->
  (forall i, 0 <= i < Z.of_nat k -> keys t (c * Z.of_nat pd + i) = key i) \/
  exists n, run_alone pd key slot n (t, AtCompare h c 0) = (t, AtCAS (next_bucket t h)).
Proof.
  induction k as [|k IH]; intros Hk; [left; intros; lia|].
  destruct IH as [M|?]; [lia| |now right].
  destruct (Z.eq_dec (keys t (c * Z.of_nat pd + Z.of_nat k)) (key (Z.of_nat k))) as [E|E].
  - left. intros i Hi. destruct (Z.eq_dec i (Z.of_nat k)) as [->|]; [exact E|apply M; lia].
  - right. exists (k + 1)%nat. rewrite run_alone_app, run_alone_compare by (try lia; exact M).
    cbn [run_alone fst snd insert_access].
    destruct (Z.ltb_spec (Z.of_nat k) (Z.of_nat pd)); [|lia].
    apply Z.eqb_neq in E. now rewrite E.
Qed.

(** The accesses of a call that runs alone end at the bucket and in the
    table that the sequential [insert] returns. *)
Lemma insert_loop_run_alone (pd fuel : nat) (key : Z -> Z) (slot : Z) :
  forall t h h' t',
    insert_loop pd fuel t key slot h = Ret (h', t') ->
    exists n, run_alone pd key slot n (t, AtCAS h) = (t', AtReturn h').
Proof.
  induction fuel as [|fuel IH]; intros t h h' t' H; [discriminate|].
  cbn [insert_loop] in H. unfold atomicCAS in H.
  destruct (Z.eqb_spec (entries t h) (-2)) as [E2|E2].
  - apply IH in H. destruct H as (n & H). exists (S n).
    cbn [run_alone fst snd insert_access]. unfold atomicCAS.
    destruct (Z.eqb_spec (entries t h) (-2)); [exact H|contradiction].
  - destruct (Z.eqb_spec (entries t h) (-1)) as [E1|E1].
    + injection H as <- <-. exists (1 + (pd + 1))%nat.
      rewrite run_alone_app. cbn [run_alone fst snd insert_access]. unfold atomicCAS.
      destruct (Z.eqb_spec (entries t h) (-2)); [contradiction|].
      destruct (Z.eqb_spec (entries t h) (-1)); [|contradiction].
      rewrite run_alone_app, run_alone_write by lia.
      cbn [run_alone fst snd insert_access].
      destruct (Z.ltb_spec (Z.of_nat pd) (Z.of_nat pd)); [lia|]. reflexivity.
    + destruct (key_match pd _ (entries t h) key) eqn:M.
      * injection H as <- <-. exists (1 + (pd + 1))%nat.
        rewrite run_alone_app. cbn [run_alone fst snd insert_access]. unfold atomicCAS.
        destruct (Z.eqb_spec (entries t h) (-2)); [contradiction|].
        destruct (Z.eqb_spec (entries t h) (-1)); [contradiction|].
        rewrite run_alone_app, run_alone_compare.
        -- cbn [run_alone fst snd insert_access].
           destruct (Z.ltb_spec (Z.of_nat pd) (Z.of_nat pd)); [lia|]. reflexivity.
        -- lia.
        -- intros i Hi. unfold key_match in M. rewrite all_below_spec in M.
           apply Z.eqb_eq. now apply M.
      * apply IH in H. destruct H as (n & H).
        destruct (run_alone_mismatch pd key slot h (entries t h)
                    (set_entries t (if entries t h =? -1 then upd (entries t) h (-2) else entries t))
                    pd ltac:(lia)) as [A|(n0 & A)].
        -- exfalso. apply Bool.not_true_iff_false in M. apply M.
           unfold key_match. rewrite all_below_spec. intros i Hi. apply Z.eqb_eq. now apply A.
        -- exists (1 + (n0 + n))%nat.
           rewrite run_alone_app. cbn [run_alone fst snd insert_access]. unfold atomicCAS.
           destruct (Z.eqb_spec (entries t h) (-2)); [contradiction|].
           destruct (Z.eqb_spec (entries t h) (-1)); [contradiction|].
           rewrite run_alone_app.
           destruct (Z.eqb_spec (entries t h) (-1)); [contradiction|].
           rewrite A. exact H.
Qed.

(** A schedule that holds one call only runs that call alone. *)
Lemma run_schedule_alone (pd : nat) (calls : Z -> insert_call) (tid : Z) (n : nat) :
  forall t pcs,
    let st := run_schedule pd calls (repeat tid n) (t, pcs) in
    (fst st, snd st tid) =
    run_alone pd (call_key (calls tid)) (call_slot (calls tid)) n (t, pcs tid).
Proof.
  induction n as [|n IH]; intros t pcs; [reflexivity|].
  cbn [repeat run_alone fst snd]. unfold run_schedule. cbn [fold_left].
  assert (S1 : schedule_step pd calls (t, pcs) tid =
               (fst (insert_access pd (call_key (calls tid)) (call_slot (calls tid)) t (pcs tid)),
                upd pcs tid
                  (snd (insert_access pd (call_key (calls tid)) (call_slot (calls tid)) t (pcs tid))))).
  { unfold schedule_step. cbn [fst snd]. now destruct (insert_access pd _ _ t (pcs tid)). }
  rewrite S1.
  destruct (insert_access pd _ _ t (pcs tid)) as [t1 pc1]. cbn [fst snd].
  specialize (IH t1 (upd pcs tid pc1)). cbn zeta in IH. rewrite upd_same in IH.
  exact IH.
Qed.

(** *** The invariant of the racing calls *)

Section RacingInserts.

Variable pd : nat.
Variable calls : Z -> insert_call.

(** The number of calls and the capacity of the table. *)
Variable N : Z.
Variable cap : Z.
Hypothesis cap_pos : 0 < cap.

Hypothesis slots_nonneg : forall tid, 0 <= tid < N -> 0 <= call_slot (calls tid).
Hypothesis slots_distinct :
  forall tid tid', 0 <= tid < N -> 0 <= tid' < N ->
    call_slot (calls tid) = call_slot (calls tid') -> tid = tid'.

Local Abbreviation key_of_call tid := (call_key (calls tid)).
Local Abbreviation slot_of_call tid := (call_slot (calls tid)).

(** [h++] with the wraparound, for a table of capacity [cap]. *)
Definition probe_next (h : Z) : Z := if Z.eqb (h + 1) (cap * 2) then 0 else h + 1.

Lemma next_bucket_cap (t : HashTableGPU) (h : Z) :
  capacity t = cap -> next_bucket t h = probe_next h.
Proof. intros C. unfold next_bucket, probe_next. now rewrite C. Qed.

Lemma probe_next_range (h : Z) : 0 <= h < 2 * cap -> 0 <= probe_next h < 2 * cap.
Proof. unfold probe_next. intros H. destruct (Z.eqb_spec (h + 1) (cap * 2)); lia. Qed.

(** The bucket where call [tid] starts to probe. *)
Definition first_bucket (tid : Z) : Z := hash pd (key_of_call tid) mod (2 * cap).

(** Call [tid] has probed its way to bucket [h]: the buckets before [h] on
    its path were not empty when it saw them, and are not empty now. *)
Definition on_path (t : HashTableGPU) (tid h : Z) : Prop :=
  exists d : nat,
    Nat.iter d probe_next (first_bucket tid) = h /\
    forall d', (d' < d)%nat -> entries t (Nat.iter d' probe_next (first_bucket tid)) <> -1.

(** Slot [s] holds the key [k]. *)
Definition stores (t : HashTableGPU) (s : Z) (k : Z -> Z) : Prop :=
  forall i, 0 <= i < Z.of_nat pd -> keys t (s * Z.of_nat pd + i) = k i.

(** A bucket is empty, or locked by a call that is writing its key, or it
    points to the slot of a call that has written its key and returned. *)
Definition bucket_ok (t : HashTableGPU) (pcs : Z -> insert_pc) (b : Z) : Prop :=
  entries t b = -1 \/
  (entries t b = -2 /\ exists tid i, 0 <= tid < N /\ pcs tid = AtWrite b i) \/
  (exists tid, 0 <= tid < N /\ entries t b = slot_of_call tid /\ pcs tid = AtReturn b /\
               stores t (slot_of_call tid) (key_of_call tid)).

Definition unpublished (t : HashTableGPU) (tid : Z) : Prop :=
  forall b, entries t b <> slot_of_call tid.

Definition pc_ok (t : HashTableGPU) (tid : Z) (pc : insert_pc) : Prop :=
  match pc with
  | AtCAS h =>
      0 <= h < 2 * cap /\ on_path t tid h /\ unpublished t tid
  | AtWrite h i =>
      0 <= h < 2 * cap /\ on_path t tid h /\ unpublished t tid /\
      entries t h = -2 /\ 0 <= i <= Z.of_nat pd /\
      (forall i', 0 <= i' < i ->
         keys t (slot_of_call tid * Z.of_nat pd + i') = key_of_call tid i')
  | AtCompare h c i =>
      0 <= h < 2 * cap /\ on_path t tid h /\ unpublished t tid /\
      entries t h = c /\ c <> -1 /\ c <> -2 /\ 0 <= i <= Z.of_nat pd /\
      (forall i', 0 <= i' < i -> keys t (c * Z.of_nat pd + i') = key_of_call tid i')
  | AtReturn h =>
      0 <= h < 2 * cap /\ on_path t tid h /\
      entries t h <> -1 /\ entries t h <> -2 /\ stores t (entries t h) (key_of_call tid)
  end.

Record racing_inv (st : HashTableGPU * (Z -> insert_pc)) : Prop := {
  ri_capacity : capacity (fst st) = cap;
  ri_buckets : forall b, bucket_ok (fst st) (snd st) b;
  ri_calls : forall tid, 0 <= tid < N -> pc_ok (fst st) tid (snd st tid);
  ri_lock : forall tid tid' h i i', 0 <= tid < N -> 0 <= tid' < N ->
    snd st tid = AtWrite h i -> snd st tid' = AtWrite h i' -> tid = tid'
}.

Lemma on_path_mono (t t' : HashTableGPU) (tid h : Z) :
  (forall b, entries t b <> -1 -> entries t' b <> -1) ->
  on_path t tid h -> on_path t' tid h.
Proof.
  intros M (d & E & P). exists d. split; [exact E|]. intros d' Hd. apply M, P, Hd.
Qed.

Lemma on_path_next (t : HashTableGPU) (tid h : Z) :
  entries t h <> -1 -> on_path t tid h -> on_path t tid (probe_next h).
Proof.
  intros Hh (d & E & P). exists (S d). split; [rewrite Nat.iter_succ; now rewrite E|].
  intros d' Hd. destruct (Nat.eq_dec d' d) as [->|Hne]; [now rewrite E|apply P; lia].
Qed.

Lemma slot_cell (s s' i i' : Z) :
  0 <= i < Z.of_nat pd -> 0 <= i' < Z.of_nat pd -> s <> s' ->
  s * Z.of_nat pd + i <> s' * Z.of_nat pd + i'.
Proof. intros Hi Hi' Hs E. apply Hs. nia. Qed.

(** **** What the access of one call leaves to the other calls *)

Section Frame.

Variable t t' : HashTableGPU.
Variable tid : Z.
Hypothesis tid_range : 0 <= tid < N.

(** The accessing call had not published its slot. *)
Hypothesis before : unpublished t tid.

(** The keys of the other slots are not written. *)
Hypothesis keys_frame :
  forall s i, 0 <= i < Z.of_nat pd -> s <> slot_of_call tid ->
    keys t' (s * Z.of_nat pd + i) = keys t (s * Z.of_nat pd + i).

Lemma stores_frame (s : Z) (k : Z -> Z) :
  s <> slot_of_call tid -> stores t s k -> stores t' s k.
Proof. intros Hs S i Hi. rewrite keys_frame by assumption. now apply S. Qed.

(** A bucket changes in one of two ways: it is locked, or the accessing
    call publishes its slot in the bucket that it had locked. *)
Variable locked_bucket : Z.
Hypothesis entries_frame :
  forall b, entries t' b = entries t b \/
            (entries t b = -1 /\ entries t' b = -2) \/
            (b = locked_bucket /\ entries t b = -2 /\ entries t' b = slot_of_call tid).

Lemma nonempty_frame (b : Z) : entries t b <> -1 -> entries t' b <> -1.
Proof.
  intros H. destruct (entries_frame b) as [E|[[E _]|(_ & _ & E)]].
  - now rewrite E.
  - contradiction.
  - rewrite E. pose proof (slots_nonneg tid tid_range). lia.
Qed.

Lemma published_frame (b : Z) :
  entries t b <> -1 -> entries t b <> -2 -> entries t' b = entries t b.
Proof.
  intros H1 H2. destruct (entries_frame b) as [E|[[E _]|(_ & E & _)]];
    [assumption|contradiction|contradiction].
Qed.

Lemma unpublished_frame (tid' : Z) :
  0 <= tid' < N -> tid' <> tid -> unpublished t tid' -> unpublished t' tid'.
Proof.
  intros R Hne U b. pose proof (slots_nonneg tid' R).
  destruct (entries_frame b) as [E|[[_ E]|(_ & _ & E)]]; rewrite E.
  - apply U.
  - lia.
  - intros S. apply Hne. now apply slots_distinct.
Qed.

Lemma pc_ok_frame (tid' : Z) (pc : insert_pc) :
  0 <= tid' < N -> tid' <> tid ->
  (forall i, pc <> AtWrite locked_bucket i) ->
  pc_ok t tid' pc -> pc_ok t' tid' pc.
Proof.
  intros R Hne Hl. pose proof (slots_nonneg tid' R) as Hs'.
  assert (Hsl : slot_of_call tid' <> slot_of_call tid)
    by (intros S; apply Hne; now apply slots_distinct).
  assert (PM : forall h, on_path t tid' h -> on_path t' tid' h)
    by (intros h; apply on_path_mono, nonempty_frame).
  destruct pc as [h|h i|h c i|h]; cbn [pc_ok].
  - intros (Hh & P & U).
    split; [exact Hh|]. split; [now apply PM|]. now apply unpublished_frame.
  - intros (Hh & P & U & E & Hi & K).
    split; [exact Hh|]. split; [now apply PM|]. split; [now apply unpublished_frame|].
    split; [|split; [exact Hi|]].
    + destruct (entries_frame h) as [E'|[[E' _]|(-> & _ & _)]].
      * now rewrite E'.
      * rewrite E in E'. discriminate.
      * exfalso. now apply (Hl i).
    + intros i' Hi'. rewrite keys_frame by (try assumption; lia). now apply K.
  - intros (Hh & P & U & E & C1 & C2 & Hi & K).
    split; [exact Hh|]. split; [now apply PM|]. split; [now apply unpublished_frame|].
    split; [rewrite published_frame; rewrite E; auto|].
    split; [exact C1|]. split; [exact C2|]. split; [exact Hi|].
    intros i' Hi'. rewrite keys_frame; [now apply K|lia|].
    rewrite <- E. apply before.
  - intros (Hh & P & E1 & E2 & S). rewrite (published_frame h E1 E2).
    split; [exact Hh|]. split; [now apply PM|]. split; [exact E1|]. split; [exact E2|].
    apply stores_frame; [apply before|exact S].
Qed.

(** A bucket that the access leaves as it is. *)
Lemma bucket_ok_frame (pcs pcs' : Z -> insert_pc) (b : Z) :
  entries t' b = entries t b ->
  (forall tid', tid' <> tid -> pcs' tid' = pcs tid') ->
  (forall i, pcs tid = AtWrite b i -> exists i', pcs' tid = AtWrite b i') ->
  (forall h, pcs tid <> AtReturn h) ->
  bucket_ok t pcs b -> bucket_ok t' pcs' b.
Proof.
  intros E Ho Hw Hr [B|[(B & tw & i & Rw & Pw)|(tp & Rp & B & Pp & S)]].
  - left. now rewrite E.
  - right. left. split; [now rewrite E|].
    destruct (Z.eq_dec tw tid) as [->|Hne].
    + destruct (Hw i Pw) as (i' & Pw'). exists tid, i'. auto.
    + exists tw, i. rewrite Ho by assumption. auto.
  - right. right. exists tp.
    assert (Hne : tp <> tid) by (intros ->; now apply (Hr b)).
    rewrite E, Ho by assumption.
    split; [exact Rp|]. split; [exact B|]. split; [exact Pp|].
    apply stores_frame; [|exact S]. rewrite <- B. apply before.
Qed.

End Frame.

(** **** One access keeps the invariant *)

Lemma racing_assemble (t t' : HashTableGPU) (pcs : Z -> insert_pc) (pc' : insert_pc)
    (tid hb : Z) :
  0 <= tid < N ->
  racing_inv (t, pcs) ->
  unpublished t tid ->
  capacity t' = capacity t ->
  (forall s i, 0 <= i < Z.of_nat pd -> s <> slot_of_call tid ->
     keys t' (s * Z.of_nat pd + i) = keys t (s * Z.of_nat pd + i)) ->
  (forall b, entries t' b = entries t b \/
             (entries t b = -1 /\ entries t' b = -2) \/
             (b = hb /\ entries t b = -2 /\ entries t' b = slot_of_call tid)) ->
  (forall h, pcs tid <> AtReturn h) ->
  pc_ok t' tid pc' ->
  (forall b, entries t' b <> entries t b -> bucket_ok t' (upd pcs tid pc') b) ->
  (forall b i, entries t' b = entries t b -> pcs tid = AtWrite b i ->
     exists i', pc' = AtWrite b i') ->
  (forall h i, pc' = AtWrite h i ->
     forall tid' i', 0 <= tid' < N -> tid' <> tid -> pcs tid' <> AtWrite h i') ->
  (forall tid' i, 0 <= tid' < N -> tid' <> tid -> pcs tid' <> AtWrite hb i) ->
  racing_inv (t', upd pcs tid pc').
Proof.
  intros R [C B P L] U Hc Hk He Hr Hpc Hchg Hw Hl Hhb. cbn [fst snd] in *.
  constructor; cbn [fst snd].
  - now rewrite Hc.
  - intros b. destruct (Z.eq_dec (entries t' b) (entries t b)) as [E|E]; [|now apply Hchg].
    apply (bucket_ok_frame t t' tid U Hk pcs (upd pcs tid pc') b E).
    + intros tid' Hne. now apply upd_other.
    + intros i Pw. rewrite upd_same. now apply (Hw b i).
    + exact Hr.
    + apply B.
  - intros tid' R'. destruct (Z.eq_dec tid' tid) as [->|Hne].
    + now rewrite upd_same.
    + rewrite upd_other by assumption.
      apply (pc_ok_frame t t' tid R U Hk hb He tid' (pcs tid') R' Hne).
      * intros i. now apply Hhb.
      * now apply P.
  - intros t1 t2 h i i' R1 R2.
    destruct (Z.eq_dec t1 tid) as [->|N1], (Z.eq_dec t2 tid) as [->|N2];
      rewrite ?upd_same, ?upd_other by assumption; intros E1 E2.
    + reflexivity.
    + exfalso. now apply (Hl h i E1 t2 i').
    + exfalso. now apply (Hl h i' E2 t1 i).
    + now apply (L t1 t2 h i i').
Qed.

Lemma racing_step (st : HashTableGPU * (Z -> insert_pc)) (tid : Z) :
  0 <= tid < N -> racing_inv st -> racing_inv (schedule_step pd calls st tid).
Proof.
  intros R I. destruct st as [t pcs].
  pose proof I as [C B P L]. cbn [fst snd] in *.
  pose proof (P tid R) as Ptid. pose proof (slots_nonneg tid R) as Hs.
  unfold schedule_step. cbn [fst snd].
  assert (Others : forall tid' h i, 0 <= tid' < N -> pcs tid' = AtWrite h i ->
            0 <= h /\ entries t h = -2).
  { intros tid' h i R' E. pose proof (P tid' R') as P'. rewrite E in P'.
    cbn [pc_ok] in P'. intuition lia. }
  destruct (pcs tid) as [h|h i|h c i|h] eqn:Epc; cbn [pc_ok insert_access] in *.
  - (* the atomicCAS *)
    destruct Ptid as (Hh & Path & U). unfold atomicCAS.
    destruct (Z.eqb_spec (entries t h) (-1)) as [E1|N1].
    + (* the bucket was empty: it is locked *)
      rewrite E1. cbn [Z.eqb]. cbv iota.
      apply (racing_assemble t _ pcs _ tid (-1) R I U); cbn [capacity keys entries set_entries].
      * reflexivity.
      * reflexivity.
      * intros b. destruct (Z.eq_dec b h) as [->|Hne].
        -- right. left. now rewrite upd_same.
        -- left. now rewrite upd_other.
      * intros h' Eh. rewrite Epc in Eh. discriminate.
      * cbn [pc_ok entries set_entries keys].
        split; [exact Hh|]. split; [|split; [|split; [now rewrite upd_same|split; [lia|]]]].
        -- eapply on_path_mono; [|exact Path]. intros b Hb. cbn [entries set_entries].
           destruct (Z.eq_dec b h) as [->|Hne]; [rewrite upd_same; lia|now rewrite upd_other].
        -- intros b. cbn [entries set_entries].
           destruct (Z.eq_dec b h) as [->|Hne]; [rewrite upd_same; lia|].
           rewrite upd_other by assumption. apply U.
        -- intros i' Hi'. lia.
      * intros b Hb. destruct (Z.eq_dec b h) as [->|Hne];
          [|now rewrite upd_other in Hb].
        right. left. cbn [entries set_entries]. rewrite upd_same. split; [reflexivity|].
        exists tid, 0. now rewrite upd_same.
      * intros b i _ Eh. rewrite Epc in Eh. discriminate.
      * intros h' i Eh tid' i' R' Hne E'. injection Eh as <- <-.
        destruct (Others tid' h i' R' E'). lia.
      * intros tid' i R' Hne E'. destruct (Others tid' (-1) i R' E'). lia.
    + (* the bucket was not empty: the table is as it was *)
      rewrite set_entries_same.
      destruct (Z.eqb_spec (entries t h) (-2)) as [E2|N2].
      * (* locked: on to the next bucket *)
        rewrite (next_bucket_cap t h C).
        apply (racing_assemble t t pcs _ tid (-1) R I U); auto.
        -- intros h' Eh. rewrite Epc in Eh. discriminate.
        -- cbn [pc_ok]. split; [now apply probe_next_range|]. split; [|exact U].
           apply on_path_next; [lia|exact Path].
        -- intros b Hb. contradiction.
        -- intros b i _ Eh. rewrite Epc in Eh. discriminate.
        -- intros h' i Eh. discriminate.
        -- intros tid' i R' Hne E'. destruct (Others tid' (-1) i R' E'). lia.
      * (* a slot: its key is compared *)
        apply (racing_assemble t t pcs _ tid (-1) R I U); auto.
        -- intros h' Eh. rewrite Epc in Eh. discriminate.
        -- cbn [pc_ok]. split; [exact Hh|]. split; [exact Path|]. split; [exact U|].
           split; [reflexivity|]. split; [exact N1|]. split; [exact N2|].
           split; [lia|]. intros i' Hi'. lia.
        -- intros b Hb. contradiction.
        -- intros b i _ Eh. rewrite Epc in Eh. discriminate.
        -- intros h' i Eh. discriminate.
        -- intros tid' i R' Hne E'. destruct (Others tid' (-1) i R' E'). lia.
  - (* the call holds the lock of bucket [h] *)
    destruct Ptid as (Hh & Path & U & E & Hi & K).
    destruct (Z.ltb_spec i (Z.of_nat pd)) as [Hlt|Hge].
    + (* one coordinate of the key is written *)
      apply (racing_assemble t _ pcs _ tid (-1) R I U); cbn [capacity keys entries set_keys].
      * reflexivity.
      * intros s i' Hi' Hne. apply upd_other. apply slot_cell; [assumption|lia|assumption].
      * intros b. now left.
      * intros h' Eh. rewrite Epc in Eh. discriminate.
      * cbn [pc_ok entries keys set_keys].
        split; [exact Hh|]. split; [exact Path|]. split; [exact U|]. split; [exact E|].
        split; [lia|]. intros i' Hi'.
        destruct (Z.eq_dec i' i) as [->|Hne]; [now rewrite upd_same|].
        rewrite upd_other by lia. apply K. lia.
      * intros b Hb. contradiction.
      * intros b i0 _ Eh. rewrite Epc in Eh. injection Eh as <- <-. eauto.
      * intros h' i0 Eh tid' i' R' Hne E'. injection Eh as <- _.
        apply Hne. symmetry. apply (L tid tid' h i i' R R' Epc E').
      * intros tid' i0 R' Hne E'. destruct (Others tid' (-1) i0 R' E'). lia.
    + (* the key is written: the slot is published *)
      assert (i = Z.of_nat pd) by lia. subst i. unfold atomicExch.
      apply (racing_assemble t _ pcs _ tid h R I U); cbn [capacity keys entries set_entries].
      * reflexivity.
      * reflexivity.
      * intros b. destruct (Z.eq_dec b h) as [->|Hne].
        -- right. right. now rewrite upd_same.
        -- left. now rewrite upd_other.
      * intros h' Eh. rewrite Epc in Eh. discriminate.
      * cbn [pc_ok entries keys set_entries]. rewrite upd_same.
        split; [exact Hh|]. split; [|split; [lia|split; [lia|]]].
        -- eapply on_path_mono; [|exact Path]. intros b Hb. cbn [entries set_entries].
           destruct (Z.eq_dec b h) as [->|Hne]; [rewrite upd_same; lia|now rewrite upd_other].
        -- intros i' Hi'. now apply K.
      * intros b Hb. destruct (Z.eq_dec b h) as [->|Hne];
          [|now rewrite upd_other in Hb].
        right. right. exists tid. cbn [entries keys set_entries]. rewrite !upd_same.
        split; [exact R|]. split; [reflexivity|]. split; [reflexivity|].
        intros i' Hi'. now apply K.
      * intros b i0 Eb Eh. rewrite Epc in Eh. injection Eh as <- <-.
        rewrite upd_same in Eb. lia.
      * intros h' i0 Eh. discriminate.
      * intros tid' i0 R' Hne E'. apply Hne. symmetry.
        apply (L tid tid' h (Z.of_nat pd) i0 R R' Epc E').
  - (* a stored key is compared *)
    destruct Ptid as (Hh & Path & U & E & C1 & C2 & Hi & K).
    destruct (Z.ltb_spec i (Z.of_nat pd)) as [Hlt|Hge].
    + destruct (Z.eqb_spec (keys t (c * Z.of_nat pd + i)) (key_of_call tid i)) as [Ek|Nk].
      * apply (racing_assemble t t pcs _ tid (-1) R I U); auto.
        -- intros h' Eh. rewrite Epc in Eh. discriminate.
        -- cbn [pc_ok]. split; [exact Hh|]. split; [exact Path|]. split; [exact U|].
           split; [exact E|]. split; [exact C1|]. split; [exact C2|]. split; [lia|].
           intros i' Hi'. destruct (Z.eq_dec i' i) as [->|Hne]; [exact Ek|apply K; lia].
        -- intros b Hb. contradiction.
        -- intros b i0 _ Eh. rewrite Epc in Eh. discriminate.
        -- intros h' i0 Eh. discriminate.
        -- intros tid' i0 R' Hne E'. destruct (Others tid' (-1) i0 R' E'). lia.
      * rewrite (next_bucket_cap t h C).
        apply (racing_assemble t t pcs _ tid (-1) R I U); auto.
        -- intros h' Eh. rewrite Epc in Eh. discriminate.
        -- cbn [pc_ok]. split; [now apply probe_next_range|]. split; [|exact U].
           apply on_path_next; [now rewrite E|exact Path].
        -- intros b Hb. contradiction.
        -- intros b i0 _ Eh. rewrite Epc in Eh. discriminate.
        -- intros h' i0 Eh. discriminate.
        -- intros tid' i0 R' Hne E'. destruct (Others tid' (-1) i0 R' E'). lia.
    + apply (racing_assemble t t pcs _ tid (-1) R I U); auto.
      * intros h' Eh. rewrite Epc in Eh. discriminate.
      * cbn [pc_ok]. split; [exact Hh|]. split; [exact Path|]. rewrite E.
        split; [exact C1|]. split; [exact C2|]. intros i' Hi'. apply K. lia.
      * intros b Hb. contradiction.
      * intros b i0 _ Eh. rewrite Epc in Eh. discriminate.
      * intros h' i0 Eh. discriminate.
      * intros tid' i0 R' Hne E'. destruct (Others tid' (-1) i0 R' E'). lia.
  - (* the call has returned *)
    rewrite <- Epc, upd_id. exact I.
Qed.

Lemma racing_run (schedule : list Z) (st : HashTableGPU * (Z -> insert_pc)) :
  Forall (fun tid => 0 <= tid < N) schedule ->
  racing_inv st -> racing_inv (run_schedule pd calls schedule st).
Proof.
  unfold run_schedule. revert st. induction schedule as [|tid l IH]; intros st F I.
  - exact I.
  - cbn [fold_left]. inversion F as [|? ? Ht Hl]; subst.
    apply IH; [assumption|]. now apply racing_step.
Qed.

Lemma racing_start : racing_inv (new_table cap, start_calls pd calls (new_table cap)).
Proof.
  constructor; cbn [fst snd].
  - reflexivity.
  - intros b. now left.
  - intros tid R. unfold start_calls. cbn [pc_ok].
    split; [apply modHash_range; exact cap_pos|]. split.
    + exists 0%nat. split; [reflexivity|]. intros d' Hd. lia.
    + intros b. cbn [entries new_table]. pose proof (slots_nonneg tid R). lia.
  - intros tid tid' h i i' _ _ E. unfold start_calls in E. discriminate.
Qed.

End RacingInserts.

(** **** The table when every call has returned *)

Section Quiescent.

Variable pd : nat.
Variable calls : Z -> insert_call.
Variable N cap : Z.
Hypothesis cap_pos : 0 < cap.
Variable fuel : nat.
Hypothesis enough_fuel : (Z.to_nat (2 * cap) <= fuel)%nat.

Variable t : HashTableGPU.
Variable pcs : Z -> insert_pc.
Hypothesis ri_slots : forall tid, 0 <= tid < N -> 0 <= call_slot (calls tid).
Hypothesis inv : racing_inv pd calls N cap (t, pcs).
Hypothesis returned_all : forall tid, 0 <= tid < N -> exists h, pcs tid = AtReturn h.

Lemma quiescent_capacity : capacity t = cap.
Proof. exact (ri_capacity _ _ _ _ _ inv). Qed.

Lemma iter_probe_next (d : nat) (h : Z) :
  Nat.iter d (probe_next cap) h = Nat.iter d (next_bucket t) h.
Proof.
  induction d as [|d IH]; [reflexivity|]. rewrite !Nat.iter_succ, IH.
  symmetry. apply next_bucket_cap. exact quiescent_capacity.
Qed.

(** A bucket is empty or holds the slot of a call that returned it. *)
Lemma quiescent_bucket (b : Z) :
  entries t b = -1 \/
  exists tid, 0 <= tid < N /\ entries t b = call_slot (calls tid) /\
              pcs tid = AtReturn b /\
              stores pd t (call_slot (calls tid)) (call_key (calls tid)).
Proof.
  destruct (ri_buckets _ _ _ _ _ inv b) as [E|[(_ & tid & i & R & W)|H]].
  - now left.
  - destruct (returned_all tid R) as (h & E). cbn [snd] in W. congruence.
  - now right.
Qed.

Lemma path_lookup (tid p : Z) (key : Z -> Z) :
  on_path pd calls cap t tid p ->
  (forall i, 0 <= i < Z.of_nat pd -> key i = call_key (calls tid) i) ->
  entries t p <> -1 ->
  key_match pd t (entries t p) key = true ->
  exists m, probe_stop pd fuel t key (modHash t (hash pd key)) = Some m /\
            entries t m <> -1 /\ key_match pd t (entries t m) key = true.
Proof.
  intros (d & E & P) Hk Hp M.
  pose proof quiescent_capacity as C.
  assert (H0 : first_bucket pd calls cap tid = modHash t (hash pd key)).
  { unfold first_bucket, modHash. rewrite C. now rewrite (hash_ext pd key _ Hk). }
  rewrite H0 in *. set (h0 := modHash t (hash pd key)) in *.
  assert (R0 : 0 <= h0 < 2 * capacity t) by (apply modHash_range; lia).
  set (d0 := Z.to_nat (Z.of_nat d mod (2 * cap))).
  pose proof (Z.mod_pos_bound (Z.of_nat d) (2 * cap) ltac:(lia)) as B.
  assert (Hle : (d0 <= d)%nat).
  { unfold d0. pose proof (Z.mod_le (Z.of_nat d) (2 * cap) ltac:(lia) ltac:(lia)). lia. }
  assert (E0 : Nat.iter d0 (next_bucket t) h0 = p).
  { rewrite <- E, iter_probe_next, !iter_next_bucket by assumption.
    unfold d0. rewrite Z2Nat.id by lia. rewrite C.
    now rewrite Z.add_mod_idemp_r by lia. }
  apply (probe_stop_path pd t key d0).
  - unfold d0. lia.
  - intros d' Hd'. rewrite <- iter_probe_next. apply P. lia.
  - now rewrite E0.
  - now rewrite E0.
Qed.

(** Every key of the table is found by a lookup. *)
Lemma quiescent_found (b : Z) :
  0 <= b < 2 * capacity t -> 0 <= entries t b ->
  retrieve pd fuel t (bucket_key pd t b) <> Ret (-1).
Proof.
  intros Hb He.
  destruct (quiescent_bucket b) as [E|(tid & R & E & Ep & S)]; [lia|].
  pose proof (ri_calls _ _ _ _ _ inv tid R) as Pc. cbn [fst snd] in Pc.
  rewrite Ep in Pc. cbn [pc_ok] in Pc. destruct Pc as (_ & Path & _).
  destruct (path_lookup tid b (bucket_key pd t b) Path) as (m & Pm & Em & _).
  - intros i Hi. unfold bucket_key. rewrite E. now apply S.
  - lia.
  - apply key_match_spec. reflexivity.
  - unfold retrieve. rewrite retrieve_loop_stop, Pm. congruence.
Qed.

(** After the pass of [cleanHashTable] over all the buckets, a lookup of
    the key of a call returns what the bucket that the call returned
    holds. *)
Lemma quiescent_clean :
  exists t',
    cleanHashTable pd fuel (Z.to_nat (2 * cap)) t = Ret t' /\
    forall tid h, 0 <= tid < N -> pcs tid = AtReturn h ->
      retrieve pd fuel t' (call_key (calls tid)) = Ret (entries t' h) /\
      entries t' h <> -1 /\
      key_match pd t' (entries t' h) (call_key (calls tid)) = true.
Proof.
  pose proof quiescent_capacity as C.
  assert (Hc : 0 < capacity t) by lia.
  assert (Hf : (Z.to_nat (2 * capacity t) <= fuel)%nat) by (now rewrite C).
  destruct (clean_all pd fuel t Hc Hf quiescent_found (Z.to_nat (2 * cap)) ltac:(lia))
    as (t' & Ht' & I).
  exists t'. split; [exact Ht'|]. intros tid h R Eh.
  pose proof (ri_calls _ _ _ _ _ inv tid R) as Pc. cbn [fst snd] in Pc.
  rewrite Eh in Pc. cbn [pc_ok] in Pc. destruct Pc as (Hh & Path & E1 & E2 & S).
  assert (He : 0 <= entries t h).
  { destruct (quiescent_bucket h) as [E|(tid' & R' & E & _)]; [contradiction|].
    rewrite E. now apply (ri_slots tid'). }
  assert (Kh : forall i, 0 <= i < Z.of_nat pd ->
             bucket_key pd t h i = call_key (calls tid) i)
    by (intros i Hi; unfold bucket_key; now apply S).
  pose proof (ci_done _ _ _ _ _ I h ltac:(lia) He) as D.
  rewrite (retrieve_key_ext pd fuel t _ _ Kh) in D.
  rewrite (clean_keeps_lookups pd fuel t Hc Hf quiescent_found
             (Z.of_nat (Z.to_nat (2 * cap))) t' _ ltac:(lia) I).
  split; [exact D|].
  destruct (path_lookup tid h (call_key (calls tid)) Path ltac:(reflexivity) E1)
    as (m & Pm & Em & Mm); [now apply key_match_spec|].
  unfold retrieve in D. rewrite retrieve_loop_stop, Pm in D. injection D as D.
  rewrite <- D. split; [exact Em|].
  erewrite key_match_ext; [exact Mm|]. intros i Hi. now rewrite (ci_keys _ _ _ _ _ I).
Qed.

End Quiescent.

(** C1, amended: when [insert] of a key returns the bucket (probe) index
    [h], a [retrieve] of the same key returns the slot stored in that
    bucket, [entries[h]], a slot in which the key is stored, and not the
    index [h] itself.  This holds at once after the [insert] in a
    sequential execution (the slot, an [unsigned int], is not negative),
    and it holds after the coalescing pass of [cleanHashTable] over all
    the buckets for the calls of [insert] that ran at the same time on the
    table of the constructor, with slots of their own, whatever the order
    of their accesses. *)
Theorem retrieve_after_insert (pd fuel : nat) :
  (forall (t : HashTableGPU) (key : Z -> Z) (slot h : Z) (t' : HashTableGPU),
     unlocked t ->
     0 <= slot ->
     insert pd fuel t key slot = Ret (h, t') ->
     retrieve pd fuel t' key = Ret (entries t' h) /\
     entries t' h <> -1 /\
     key_match pd t' (entries t' h) key = true) /\
  (forall (calls : Z -> insert_call) (N cap : Z) (schedule : list Z),
     0 < cap ->
     (Z.to_nat (2 * cap) <= fuel)%nat ->
     (forall tid, 0 <= tid < N -> 0 <= call_slot (calls tid)) ->
     (forall tid tid', 0 <= tid < N -> 0 <= tid' < N ->
        call_slot (calls tid) = call_slot (calls tid') -> tid = tid') ->
     Forall (fun tid => 0 <= tid < N) schedule ->
     let st := run_schedule pd calls schedule
                 (new_table cap, start_calls pd calls (new_table cap)) in
     (forall tid, 0 <= tid < N -> exists h, snd st tid = AtReturn h) ->
     exists t',
       cleanHashTable pd fuel (Z.to_nat (2 * cap)) (fst st) = Ret t' /\
       forall tid h, 0 <= tid < N -> snd st tid = AtReturn h ->
         retrieve pd fuel t' (call_key (calls tid)) = Ret (entries t' h) /\
         entries t' h <> -1 /\
         key_match pd t' (entries t' h) (call_key (calls tid)) = true).
Proof.
  split.
  - intros t key slot h t' Hu Hs H.
    pose proof (insert_retrieve pd fuel t key slot h t' Hu H) as R.
    split; [exact R|].
    unfold insert in H.
    destruct (insert_loop_effect _ _ _ _ _ _ _ _ Hu H) as [_ _ _ Ks Es | N M ->].
    + rewrite Es, Z.eqb_refl. split; [lia|].
      erewrite key_match_ext; [apply (key_match_written pd t slot key)|].
      intros i Hi. now rewrite Ks.
    + auto.
  - intros calls N cap schedule Hc Hf Hs Hd Hsch st Hq.
    pose proof (racing_run pd calls N cap Hs Hd schedule _ Hsch
                  (racing_start pd calls N cap Hc Hs)) as I.
    fold st in I. destruct st as [t pcs]. cbn [fst snd] in *.
    exact (quiescent_clean pd calls N cap Hc fuel Hf t pcs Hs I Hq).
Qed.

(** Two calls insert the same key at the same time: the first one locks
    the bucket of the key, the second one finds it locked and takes the
    next bucket.  The key is then stored twice, and until the coalescing
    pass a lookup answers the slot of the first call, which is not what
    the bucket of the second call holds. *)
Definition two_calls : Z -> insert_call :=
  fun tid => mkCall (fun _ => 1) tid.

Definition two_calls_schedule : list Z := [0; 1; 1; 1; 1; 0; 0].

Lemma racing_inserts_store_a_key_twice :
  let st := run_schedule 1 two_calls two_calls_schedule
              (new_table 2, start_calls 1 two_calls (new_table 2)) in
  snd st 0 = AtReturn 3 /\ snd st 1 = AtReturn 0 /\
  entries (fst st) 3 = 0 /\ entries (fst st) 0 = 1 /\
  retrieve 1 4 (fst st) (fun _ => 1) = Ret 0.
Proof. vm_compute. repeat split. Qed.

Lemma retrieve_after_insert_witness :
  (let t' := table_after (insert 1 2 (new_table 1) (fun _ => 1) 0) (new_table 1) in
   retrieve 1 2 t' (fun _ => 1) = Ret (entries t' 1) /\
   entries t' 1 <> -1 /\
   key_match 1 t' (entries t' 1) (fun _ => 1) = true) /\
  (let st := run_schedule 1 two_calls two_calls_schedule
               (new_table 2, start_calls 1 two_calls (new_table 2)) in
   exists t',
     cleanHashTable 1 4 (Z.to_nat (2 * 2)) (fst st) = Ret t' /\
     forall tid h, 0 <= tid < 2 -> snd st tid = AtReturn h ->
       retrieve 1 4 t' (call_key (two_calls tid)) = Ret (entries t' h) /\
       entries t' h <> -1 /\
       key_match 1 t' (entries t' h) (call_key (two_calls tid)) = true).
Proof.
  split.
  - apply (proj1 (retrieve_after_insert 1 2) (new_table 1) (fun _ => 1) 0 1).
    + intros p. cbn. lia.
    + lia.
    + vm_compute. reflexivity.
  - apply (proj2 (retrieve_after_insert 1 4) two_calls 2 2 two_calls_schedule).
    + lia.
    + vm_compute. lia.
    + intros tid Ht. cbn. lia.
    + intros tid tid' _ _ E. exact E.
    + repeat constructor; lia.
    + intros tid Ht. assert (E : tid = 0 \/ tid = 1) by lia.
      destruct E as [-> | ->]; eexists; vm_compute; reflexivity.
Defined.

(** ** Resetting the accumulators *)

(** X20. [resetHashTable] zeroes the accumulators of every slot and leaves
    the lattice as it was: every key is looked up as before. *)
Theorem resetHashTable_keeps_the_keys (pd vd fuel : nat) (t : HashTableGPU) (key : Z -> Z) :
  retrieve pd fuel (resetHashTable vd t) key = retrieve pd fuel t key /\
  (forall s j, 0 <= s < capacity t -> 0 <= j < Z.of_nat vd ->
     values (resetHashTable vd t) (s * Z.of_nat vd + j) = 0%Q) /\
  (forall k, ~ 0 <= k < capacity t * Z.of_nat vd ->
     values (resetHashTable vd t) k = values t k).
Proof.
  split; [|split].
  - unfold retrieve, resetHashTable. apply retrieve_loop_values.
  - intros s j Hs Hj. unfold resetHashTable. cbn [values set_values].
    destruct (Z.leb_spec 0 (s * Z.of_nat vd + j)); [|nia].
    destruct (Z.ltb_spec (s * Z.of_nat vd + j) (capacity t * Z.of_nat vd)); [|nia].
    reflexivity.
  - intros k Hk. unfold resetHashTable. cbn [values set_values].
    destruct (Z.leb_spec 0 k); [|reflexivity].
    destruct (Z.ltb_spec k (capacity t * Z.of_nat vd)); [lia|reflexivity].
Qed.

(** ** The lattice embedder: the hyperplane, the ranks and the weights *)

(** X5. The [pd + 1] elevated coordinates of every position sum to zero:
    the loop of lines 164-170 maps into the hyperplane of the lattice. *)
Theorem elevated_coordinates_sum_to_zero (pd : nat) (position scaleFactor : Z -> Q) :
  sumQ (elevate pd position scaleFactor) (S pd) == 0.
Proof. apply elevate_sum_zero. Qed.

(** X6. The ranks of lines 216-223 are a permutation of [0..pd] that sorts
    the residuals [elevated[i] - rem0[i]] in decreasing order: every rank
    is in range, no two coordinates share a rank, every rank is taken, and
    a smaller rank goes with a residual at least as large. *)
Theorem ranks_are_a_sorting_permutation (pd : nat) (elevated : Z -> Q) (rem0 : Z -> Z) :
  let rank := rank_of pd elevated rem0 in
  (forall i, 0 <= i <= Z.of_nat pd -> 0 <= rank i <= Z.of_nat pd) /\
  (forall i j, 0 <= i <= Z.of_nat pd -> 0 <= j <= Z.of_nat pd ->
     rank i = rank j -> i = j) /\
  (forall m, 0 <= m <= Z.of_nat pd -> exists i, 0 <= i <= Z.of_nat pd /\ rank i = m) /\
  (forall i j, 0 <= i <= Z.of_nat pd -> 0 <= j <= Z.of_nat pd ->
     rank i < rank j -> (residual elevated rem0 j <= residual elevated rem0 i)%Q).
Proof.
  cbv zeta.
  assert (R : forall i, 0 <= i <= Z.of_nat pd ->
            0 <= rank_of pd elevated rem0 i <= Z.of_nat pd)
    by (intros; now apply rank_of_range).
  assert (Inj : forall i j, 0 <= i <= Z.of_nat pd -> 0 <= j <= Z.of_nat pd ->
            rank_of pd elevated rem0 i = rank_of pd elevated rem0 j -> i = j)
    by (intros i j; apply rank_injective).
  split; [exact R|]. split; [exact Inj|]. split.
  - intros m Hm. now apply (rank_reached pd (rank_of pd elevated rem0) R Inj).
  - intros i j. apply rank_monotone.
Qed.

Lemma sumQ_term_le (f : Z -> Q) (m : nat) (k : Z) :
  (forall i, 0 <= i < Z.of_nat m -> (0 <= f i)%Q) ->
  0 <= k < Z.of_nat m -> (f k <= sumQ f m)%Q.
Proof.
  induction m as [|m IH]; intros H Hk; [lia|]. cbn [sumQ].
  pose proof (sumQ_nonneg f m ltac:(intros; apply H; lia)).
  pose proof (H (Z.of_nat m) ltac:(lia)).
  destruct (Z.eq_dec k (Z.of_nat m)) as [->|Hne]; [lra|].
  specialize (IH ltac:(intros; apply H; lia) ltac:(lia)). lra.
Qed.

Lemma embed_weights_sum (pd : nat) (position scaleFactor : Z -> Q) :
  sumQ (s_barycentric (embed pd position scaleFactor)) (S pd) == 1.
Proof.
  pose proof (embed_rank_range pd position scaleFactor) as R.
  pose proof (embed_unfold pd position scaleFactor) as E. cbv zeta in E.
  rewrite E in R |- *. cbn [s_barycentric s_rank] in *.
  now apply barycentric_of_sum.
Qed.

(** X7. For a position whose rounding fits the 16-bit coordinates, every
    barycentric weight lies between 0 and 1: the position is a convex
    combination of the corners of its simplex. *)
Theorem barycentric_weights_in_unit_interval (pd : nat) (position scaleFactor : Z -> Q)
    (k : Z) :
  pd1 pd * pd1 pd < 2 ^ 16 ->
  valid_position pd position scaleFactor ->
  0 <= k <= Z.of_nat pd ->
  (0 <= s_barycentric (embed pd position scaleFactor) k <= 1)%Q.
Proof.
  intros Hs Hv Hk. split.
  - now apply valid_weights_nonneg.
  - rewrite <- (embed_weights_sum pd position scaleFactor).
    apply sumQ_term_le; [|lia].
    intros i Hi. apply valid_weights_nonneg; [assumption|assumption|lia].
Qed.

Lemma barycentric_weights_in_unit_interval_witness :
  (0 <= s_barycentric (embed 2 (fun i => inject_Z (i + 1) * (3 # 7)) (fun _ => 1%Q)) 1 <= 1)%Q.
Proof.
  apply (barycentric_weights_in_unit_interval 2
           (fun i => inject_Z (i + 1) * (3 # 7))%Q (fun _ => 1%Q) 1).
  - reflexivity.
  - intros i Hi. assert (E : i = 0 \/ i = 1 \/ i = 2) by lia.
    destruct E as [-> | [-> | ->]]; vm_compute; intuition discriminate.
  - lia.
Defined.

(** *** The rounded point *)

Definition sum_list (g : Z -> Z) (l : list Z) : Z :=
  fold_right (fun x acc => g x + acc) 0 l.

Lemma sum_list_app (g : Z -> Z) (l l' : list Z) :
  sum_list g (l ++ l') = sum_list g l + sum_list g l'.
Proof.
  induction l as [|x l IH]; cbn [sum_list fold_right app] in *; [reflexivity|].
  fold (sum_list g (l ++ l')). fold (sum_list g l). lia.
Qed.

Lemma sumZ_sum_list (g : Z -> Z) (m : nat) :
  sumZ g m = sum_list g (map Z.of_nat (seq 0 m)).
Proof.
  induction m as [|m IH]; [reflexivity|].
  rewrite seq_S, map_app, sum_list_app, <- IH. cbn. lia.
Qed.

Lemma sum_list_perm (g : Z -> Z) (l l' : list Z) :
  Permutation l l' -> sum_list g l = sum_list g l'.
Proof.
  induction 1; cbn [sum_list fold_right] in *; try lia.
  fold (sum_list g l). fold (sum_list g l'). lia.
Qed.

Lemma sum_list_map (g f : Z -> Z) (l : list Z) :
  sum_list g (map f l) = sum_list (fun x => g (f x)) l.
Proof.
  induction l as [|x l IH]; cbn [sum_list fold_right map] in *; [reflexivity|].
  fold (sum_list g (map f l)). fold (sum_list (fun x => g (f x)) l). lia.
Qed.

(** A sum taken through a permutation of the indices. *)
Lemma sumZ_permuted (m : nat) (f g : Z -> Z) :
  (forall i, 0 <= i < Z.of_nat m -> 0 <= f i < Z.of_nat m) ->
  (forall i j, 0 <= i < Z.of_nat m -> 0 <= j < Z.of_nat m -> f i = f j -> i = j) ->
  sumZ (fun i => g (f i)) m = sumZ g m.
Proof.
  intros Hr Hi. rewrite !sumZ_sum_list, <- sum_list_map.
  set (dom := map Z.of_nat (seq 0 m)).
  assert (Hdom : forall x, In x dom <-> 0 <= x < Z.of_nat m).
  { intros x. unfold dom. rewrite in_map_iff. split.
    - intros (y & <- & Hy). apply in_seq in Hy. lia.
    - intros Hx. exists (Z.to_nat x). split; [lia|]. apply in_seq. lia. }
  assert (Nd : NoDup dom).
  { unfold dom. apply NoDup_map_NoDup_ForallPairs; [|apply seq_NoDup].
    intros x y _ _ E. lia. }
  apply sum_list_perm. apply NoDup_Permutation_bis.
  - apply NoDup_map_NoDup_ForallPairs; [|exact Nd].
    intros x y Hx Hy E. apply Hi; try assumption; now apply Hdom.
  - now rewrite length_map.
  - intros y Hy. apply in_map_iff in Hy. destruct Hy as (x & <- & Hx).
    apply Hdom, Hr, Hdom, Hx.
Qed.

Lemma sumZ_add (f g : Z -> Z) (m : nat) :
  sumZ (fun i => f i + g i) m = sumZ f m + sumZ g m.
Proof. induction m as [|m IH]; cbn [sumZ]; lia. Qed.

Lemma sumZ_from (a c : Z) (m : nat) :
  0 <= a <= Z.of_nat m ->
  sumZ (fun k => if a <=? k then c else 0) m = c * (Z.of_nat m - a).
Proof.
  induction m as [|m IH]; intros Ha; cbn [sumZ].
  - replace a with 0 by lia. cbn. lia.
  - destruct (Z.leb_spec a (Z.of_nat m)).
    + rewrite IH by lia. lia.
    + rewrite (sumZ_ext _ (fun _ => 0)).
      * replace a with (Z.of_nat (S m)) by lia.
        clear. induction m as [|m IH]; cbn [sumZ] in *; lia.
      * intros i Hi. destruct (Z.leb_spec a i); [lia|reflexivity].
Qed.

Lemma sumZ_below (b c : Z) (m : nat) :
  0 <= b <= Z.of_nat m ->
  sumZ (fun k => if k <? b then c else 0) m = c * b.
Proof.
  induction m as [|m IH]; intros Hb; cbn [sumZ].
  - replace b with 0 by lia. lia.
  - destruct (Z.ltb_spec (Z.of_nat m) b).
    + rewrite (sumZ_ext _ (fun _ => c)).
      * replace b with (Z.of_nat (S m)) by lia.
        clear. induction m as [|m IH]; cbn [sumZ] in *; lia.
      * intros i Hi. destruct (Z.ltb_spec i b); [reflexivity|lia].
    + rewrite IH by lia. lia.
Qed.

Lemma sumZ_divide (d : Z) (f : Z -> Z) (m : nat) :
  (forall i, 0 <= i < Z.of_nat m -> (d | f i)) -> (d | sumZ f m).
Proof.
  induction m as [|m IH]; intros H; cbn [sumZ]; [apply Z.divide_0_r|].
  apply Z.divide_add_r; [apply IH; intros; apply H; lia|apply H; lia].
Qed.

Section LatticePoint.

Variable pd : nat.
Variable position scaleFactor : Z -> Q.

Hypothesis pd_small : pd1 pd * pd1 pd < 2 ^ 16.
Hypothesis valid : valid_position pd position scaleFactor.

Let elevated := elevate pd position scaleFactor.
Let sum := fst (round_to_lattice pd elevated).
Let rem0 := snd (round_to_lattice pd elevated).
Let rank := rank_of pd elevated rem0.

(** [sum /= pd + 1] is exact. *)
Lemma valid_sum_exact : sum * pd1 pd = sumZ rem0 (S pd).
Proof.
  pose proof (valid_rem0 pd position scaleFactor valid) as Hrem. cbv zeta in Hrem.
  fold elevated in Hrem. fold rem0 in Hrem.
  unfold sum. rewrite round_to_lattice_unfold. cbn [fst].
  destruct (round_loop_spec pd elevated (S pd)) as (S1 & S2 & _). cbv zeta in S1, S2.
  rewrite S1.
  rewrite (to_short_sumZ (fun i => chosen_multiple pd (elevated i)))
    by (intros; rewrite S2 by assumption; apply round_coordinate_chosen).
  rewrite (sumZ_ext rem0 (fun i => chosen_multiple pd (elevated i)))
    by (intros; apply Hrem; lia).
  pose proof (chosen_sum_bound pd position scaleFactor) as B. cbv zeta in B.
  fold elevated in B.
  assert (Dv : (pd1 pd | sumZ (fun i => chosen_multiple pd (elevated i)) (S pd)))
    by (apply sumZ_divide; intros; apply chosen_multiple_divides).
  set (total := sumZ (fun i => chosen_multiple pd (elevated i)) (S pd)) in *.
  pose proof (pd1_pos pd) as HD.
  assert (HD' : pd1 pd < 2 ^ 15) by nia.
  rewrite (to_short_small total) by (unfold in_short; lia).
  destruct Dv as [k Hk]. rewrite Hk. rewrite Z.quot_mul by lia.
  rewrite to_short_small; [reflexivity|]. unfold in_short. nia.
Qed.

(** The amount that the correction adds to the coordinate of rank [k]. *)
Definition adjustment (k : Z) : Z :=
  if 0 <? sum then (if pd1 pd - sum <=? k then - pd1 pd else 0)
  else if sum <? 0 then (if k <? - sum then pd1 pd else 0)
  else 0.

Lemma corrected_adjustment (r k : Z) :
  fst (corrected pd sum (r, k)) = r + adjustment k.
Proof.
  unfold corrected, adjustment.
  destruct (0 <? sum); [|destruct (sum <? 0)].
  - destruct (pd1 pd - sum <=? k); cbn [fst]; lia.
  - destruct (k <? - sum); cbn [fst]; lia.
  - cbn [fst]. lia.
Qed.

Lemma adjustment_total : sumZ adjustment (S pd) = - (sum * pd1 pd).
Proof.
  pose proof (valid_sum_range pd position scaleFactor pd_small) as R.
  cbv zeta in R. fold elevated in R. fold sum in R.
  assert (HS : Z.of_nat (S pd) = pd1 pd) by (unfold pd1; lia).
  unfold adjustment.
  destruct (Z.ltb_spec 0 sum); [|destruct (Z.ltb_spec sum 0)].
  - rewrite sumZ_from by lia. rewrite HS. lia.
  - rewrite sumZ_below by lia. lia.
  - assert (E : sum = 0) by lia. rewrite E.
    etransitivity; [apply (sumZ_ext _ (fun k => if k <? 0 then 0 else 0))|].
    + intros i Hi. destruct (i <? 0); reflexivity.
    + rewrite sumZ_below by lia. lia.
Qed.

Lemma corrected_point_sum :
  sumZ (s_rem0 (embed pd position scaleFactor)) (S pd) = 0.
Proof.
  pose proof (embed_unfold pd position scaleFactor) as E. cbv zeta in E.
  rewrite E. cbn [s_rem0]. clear E.
  fold elevated. fold sum. fold rem0. fold rank.
  rewrite (sumZ_ext _ (fun i => rem0 i + adjustment (rank i))).
  - rewrite sumZ_add.
    rewrite (sumZ_permuted (S pd) rank adjustment).
    + rewrite adjustment_total, valid_sum_exact. lia.
    + intros i Hi. pose proof (rank_of_range pd elevated rem0 i ltac:(lia)).
      fold rank in H. lia.
    + intros i j Hi Hj. apply rank_injective; lia.
  - intros i Hi.
    pose proof (correct_sum_spec pd sum rem0 rank i) as S. cbv zeta in S.
    destruct (Z.leb_spec 0 i), (Z.leb_spec i (Z.of_nat pd)); try lia.
    cbn [andb] in S. rewrite <- corrected_adjustment, <- S. reflexivity.
Qed.

Lemma corrected_point_divides (i : Z) :
  0 <= i <= Z.of_nat pd -> (pd1 pd | s_rem0 (embed pd position scaleFactor) i).
Proof.
  intros Hi. pose proof (embed_unfold pd position scaleFactor) as E. cbv zeta in E.
  rewrite E. cbn [s_rem0]. clear E.
  fold elevated. fold sum. fold rem0. fold rank.
  pose proof (correct_sum_spec pd sum rem0 rank i) as S. cbv zeta in S.
  destruct (Z.leb_spec 0 i), (Z.leb_spec i (Z.of_nat pd)); try lia.
  cbn [andb] in S.
  replace (fst (correct_sum pd sum rem0 rank) i)
    with (fst (corrected pd sum (rem0 i, rank i))) by (rewrite <- S; reflexivity).
  rewrite corrected_adjustment.
  pose proof (valid_rem0 pd position scaleFactor valid i Hi) as Hrem. cbv zeta in Hrem.
  fold elevated in Hrem. fold rem0 in Hrem. rewrite Hrem.
  apply Z.divide_add_r; [apply chosen_multiple_divides|].
  unfold adjustment.
  destruct (0 <? sum); [|destruct (sum <? 0)];
    try destruct (_ <=? _); try destruct (_ <? _);
    first [apply Z.divide_0_r | apply Z.divide_opp_r, Z.divide_refl | apply Z.divide_refl].
Qed.

End LatticePoint.

(** X8. For a position whose rounding fits the 16-bit coordinates, the
    point [rem0] left by the rounding and the correction of lines 175-243
    is a vertex of the lattice of color 0: every coordinate is a multiple
    of [pd + 1] and the coordinates sum to zero. *)
Theorem rounded_point_is_a_lattice_vertex (pd : nat) (position scaleFactor : Z -> Q) :
  pd1 pd * pd1 pd < 2 ^ 16 ->
  valid_position pd position scaleFactor ->
  (forall i, 0 <= i <= Z.of_nat pd ->
     (pd1 pd | s_rem0 (embed pd position scaleFactor) i)) /\
  sumZ (s_rem0 (embed pd position scaleFactor)) (S pd) = 0.
Proof.
  intros Hs Hv. split.
  - intros i Hi. now apply corrected_point_divides.
  - now apply corrected_point_sum.
Qed.

Lemma rounded_point_is_a_lattice_vertex_witness :
  let sx := embed 2 (fun i => inject_Z (i + 1) * (13 # 7))%Q (fun _ => 1%Q) in
  (forall i, 0 <= i <= Z.of_nat 2 -> (pd1 2 | s_rem0 sx i)) /\
  sumZ (s_rem0 sx) 3 = 0.
Proof.
  apply (rounded_point_is_a_lattice_vertex 2
           (fun i => inject_Z (i + 1) * (13 # 7))%Q (fun _ => 1%Q)).
  - reflexivity.
  - intros i Hi. assert (E : i = 0 \/ i = 1 \/ i = 2) by lia.
    destruct E as [-> | [-> | ->]]; vm_compute; intuition discriminate.
Defined.

(** ** The canonical simplex *)

Lemma init_canonical_row (pd : nat) (i : Z) (c : Z -> Z) (k : Z) :
  0 <= i <= Z.of_nat pd ->
  for_up (Z.to_nat i)
    (fun k c => let j := Z.of_nat pd - i + 1 + k in upd c (i * pd1 pd + j) (i - pd1 pd))
    (for_up (S pd - Z.to_nat i) (fun j c => upd c (i * pd1 pd + j) i) c) k
  = if (i * pd1 pd <=? k) && (k <? i * pd1 pd + pd1 pd)
    then (if k - i * pd1 pd <=? Z.of_nat pd - i then i else i - pd1 pd)
    else c k.
Proof.
  intros Hi.
  rewrite (for_up_ext (Z.to_nat i) _
             (fun k c => upd c (i * pd1 pd + (Z.of_nat pd - i + 1) + k) (i - pd1 pd)))
    by (intros; cbv zeta; f_equal; lia).
  rewrite (for_up_fill (Z.to_nat i) (i * pd1 pd + (Z.of_nat pd - i + 1))
             (fun _ => i - pd1 pd)).
  rewrite (for_up_fill (S pd - Z.to_nat i) (i * pd1 pd) (fun _ => i)).
  unfold pd1.
  destruct (Z.leb_spec (i * (Z.of_nat pd + 1) + (Z.of_nat pd - i + 1)) k),
    (Z.ltb_spec k (i * (Z.of_nat pd + 1) + (Z.of_nat pd - i + 1) + Z.of_nat (Z.to_nat i))),
    (Z.leb_spec (i * (Z.of_nat pd + 1)) k),
    (Z.ltb_spec k (i * (Z.of_nat pd + 1) + Z.of_nat (S pd - Z.to_nat i))),
    (Z.ltb_spec k (i * (Z.of_nat pd + 1) + (Z.of_nat pd + 1))),
    (Z.leb_spec (k - i * (Z.of_nat pd + 1)) (Z.of_nat pd - i));
    cbn [andb]; try reflexivity; lia.
Qed.

(** The table that [init_canonical] fills, lines 459-464. *)
Lemma init_canonical_spec (pd : nat) (i j : Z) :
  0 <= i <= Z.of_nat pd -> 0 <= j <= Z.of_nat pd ->
  init_canonical pd (i * pd1 pd + j) = if j <=? Z.of_nat pd - i then i else i - pd1 pd.
Proof.
  intros Hi Hj. unfold init_canonical.
  set (body := fun (i : Z) (c : Z -> Z) => _).
  assert (L : forall m, (m <= S pd)%nat ->
            for_up m body (fun _ => 0) (i * pd1 pd + j)
            = if i <? Z.of_nat m
              then (if j <=? Z.of_nat pd - i then i else i - pd1 pd) else 0).
  { intros m. induction m as [|m IH]; intros Hm.
    - rewrite for_up_0. destruct (Z.ltb_spec i (Z.of_nat 0)); [lia|reflexivity].
    - rewrite for_up_S. unfold body at 1. cbv beta zeta.
      rewrite (init_canonical_row pd (Z.of_nat m)) by lia.
      rewrite IH by lia. unfold pd1.
      destruct (Z.leb_spec (Z.of_nat m * (Z.of_nat pd + 1)) (i * (Z.of_nat pd + 1) + j)),
        (Z.ltb_spec (i * (Z.of_nat pd + 1) + j)
           (Z.of_nat m * (Z.of_nat pd + 1) + (Z.of_nat pd + 1)));
        cbn [andb].
      + assert (i = Z.of_nat m) by nia. subst i.
        replace (Z.of_nat m * (Z.of_nat pd + 1) + j - Z.of_nat m * (Z.of_nat pd + 1))
          with j by lia.
        destruct (Z.ltb_spec (Z.of_nat m) (Z.of_nat (S m))); [reflexivity|lia].
      + assert (Z.of_nat m < i) by nia.
        destruct (Z.ltb_spec i (Z.of_nat m)), (Z.ltb_spec i (Z.of_nat (S m)));
          try reflexivity; lia.
      + assert (i < Z.of_nat m) by nia.
        destruct (Z.ltb_spec i (Z.of_nat m)), (Z.ltb_spec i (Z.of_nat (S m)));
          try reflexivity; lia.
      + exfalso. lia. }
  rewrite (L (S pd) (Nat.le_refl _)).
  destruct (Z.ltb_spec i (Z.of_nat (S pd))); [reflexivity|lia].
Qed.

(** X9. The key loop of lines 264-268 reads the canonical simplex without
    the table: for ranks in [0..pd], the key coordinate it computes for the
    corner [remainder] is [rem0[i] + canonical[remainder * (pd + 1) +
    rank[i]]], converted to 16 bits, with the table of [init_canonical]. *)
Theorem simplex_key_reads_canonical (pd : nat) (rem0 rank : Z -> Z) (remainder : Z)
    (key : Z -> Z) (i : Z) :
  0 <= remainder <= Z.of_nat pd ->
  0 <= i < Z.of_nat pd ->
  0 <= rank i <= Z.of_nat pd ->
  simplex_key pd rem0 rank remainder key i
  = to_short (rem0 i + init_canonical pd (remainder * pd1 pd + rank i)).
Proof.
  intros Hr Hi Hk. unfold simplex_key.
  rewrite (for_up_tabulate pd
             (fun i => let k := to_short (rem0 i + remainder) in
                       if Z.of_nat pd - remainder <? rank i then to_short (k - pd1 pd) else k)).
  destruct (Z.leb_spec 0 i), (Z.ltb_spec i (Z.of_nat pd)); try lia. cbn [andb].
  rewrite init_canonical_spec by assumption. cbv zeta.
  destruct (Z.ltb_spec (Z.of_nat pd - remainder) (rank i)),
    (Z.leb_spec (rank i) (Z.of_nat pd - remainder)); try lia.
  change (to_short (rem0 i + remainder) - pd1 pd)
    with (to_short (rem0 i + remainder) + - pd1 pd).
  rewrite to_short_idem_add. f_equal. lia.
Qed.

Lemma simplex_key_reads_canonical_witness :
  simplex_key 2 (fun _ => 3) (fun i => 2 - i) 1 (fun _ => 0) 0
  = to_short (3 + init_canonical 2 (1 * pd1 2 + (2 - 0))).
Proof.
  apply (simplex_key_reads_canonical 2 (fun _ => 3) (fun i => 2 - i) 1 (fun _ => 0) 0); lia.
Defined.

(** X10. Every vertex of the canonical simplex lies on the hyperplane: the
    [pd + 1] entries of each row of the table of [init_canonical] sum to
    zero. *)
Theorem canonical_rows_sum_to_zero (pd : nat) (i : Z) :
  0 <= i <= Z.of_nat pd ->
  sumZ (fun j => init_canonical pd (i * pd1 pd + j)) (S pd) = 0.
Proof.
  intros Hi.
  rewrite (sumZ_ext _ (fun j => i + (if Z.of_nat pd - i + 1 <=? j then - pd1 pd else 0))).
  - rewrite sumZ_add, sumZ_from by lia.
    rewrite (sumZ_ext _ (fun j => if j <? Z.of_nat (S pd) then i else 0)).
    + rewrite sumZ_below by lia. unfold pd1. lia.
    + intros j Hj. destruct (Z.ltb_spec j (Z.of_nat (S pd))); [reflexivity|lia].
  - intros j Hj. rewrite init_canonical_spec by lia.
    destruct (Z.leb_spec j (Z.of_nat pd - i)), (Z.leb_spec (Z.of_nat pd - i + 1) j); lia.
Qed.

Lemma canonical_rows_sum_to_zero_witness :
  sumZ (fun j => init_canonical 3 (2 * pd1 3 + j)) 4 = 0.
Proof. apply (canonical_rows_sum_to_zero 3 2). lia. Defined.

(** ** The table and the matrix that createLattice builds *)

Section FreshLattice.

Variable pd fuel n : nat.
Variable positions scaleFactor : Z -> Q.
Variable matrix0 : Z -> MatrixEntry.

Local Abbreviation cells := (Z.of_nat n * pd1 pd).

Hypothesis enough_fuel : (Z.to_nat (2 * cells) <= fuel)%nat.

(** The kernel, run thread after thread on the table of the constructor. *)
Lemma createLattice_fresh :
  exists t' m',
    createLattice pd fuel n positions scaleFactor matrix0 (new_table cells) = Ret (t', m') /\
    lattice_inv pd fuel positions scaleFactor cells cells t' m'.
Proof.
  apply createLattice_spec; [assumption|]. pose proof (pd1_pos pd). nia.
Qed.

Variable t' : HashTableGPU.
Variable m' : Z -> MatrixEntry.
Hypothesis built : lattice_inv pd fuel positions scaleFactor cells cells t' m'.

(** The key that thread [idx] computes for its corner [r]. *)
Definition thread_key (idx r : Z) : Z -> Z :=
  let sx := embed pd (fun i => positions (idx * Z.of_nat pd + i)) scaleFactor in
  simplex_key pd (s_rem0 sx) (s_rank sx) r (fun _ => 0).

Lemma thread_key_of (idx r : Z) :
  0 <= r < pd1 pd ->
  key_of pd positions scaleFactor (idx * pd1 pd + r) = thread_key idx r.
Proof.
  intros Hr. unfold key_of, thread_key. rewrite slot_div, slot_mod by assumption.
  cbv zeta. symmetry. apply simplex_key_corner. reflexivity.
Qed.

Lemma fresh_capacity_pos : (1 <= n)%nat -> 0 < capacity t'.
Proof.
  intros Hn. rewrite (inv_capacity _ _ _ _ _ _ _ _ built). pose proof (pd1_pos pd). nia.
Qed.

Lemma fresh_cell (idx r : Z) :
  0 <= idx < Z.of_nat n -> 0 <= r <= Z.of_nat pd ->
  0 <= idx * pd1 pd + r < cells /\ 0 <= r < pd1 pd /\ (1 <= n)%nat.
Proof. intros Hidx Hr. unfold pd1 in *. split; [nia|lia]. Qed.

Lemma fresh_lookup (idx r : Z) :
  0 <= idx < Z.of_nat n -> 0 <= r <= Z.of_nat pd ->
  let c := entries t' (index (m' (idx * pd1 pd + r))) in
  0 <= c < cells /\
  retrieve pd fuel t' (thread_key idx r) = Ret c /\
  (forall i, 0 <= i < Z.of_nat pd -> keys t' (c * Z.of_nat pd + i) = thread_key idx r i) /\
  index (m' c) = index (m' (idx * pd1 pd + r)).
Proof.
  intros Hidx Hr. cbv zeta.
  destruct (fresh_cell idx r Hidx Hr) as (Hs & Hr' & Hn).
  destruct (inv_found _ _ _ _ _ _ _ _ built _ Hs) as (Hne & Hret & _).
  rewrite (thread_key_of idx r Hr') in Hret.
  split; [|split; [exact Hret|split]].
  - destruct (inv_entries _ _ _ _ _ _ _ _ built (index (m' (idx * pd1 pd + r))));
      [contradiction|assumption].
  - unfold retrieve in Hret.
    destruct (retrieve_loop_result pd fuel t' _ _ _
                (modHash_range t' _ (fresh_capacity_pos Hn)) Hret) as (_ & [E|M]);
      [contradiction|].
    now apply key_match_spec.
  - now apply (inv_owner _ _ _ _ _ _ _ _ built).
Qed.

End FreshLattice.

(** X11. Run thread after thread on the table of the constructor, for
    positions whose rounding fits the 16-bit coordinates, [createLattice]
    returns and indexes every corner of every sample: the matrix entry of
    corner [r] of sample [idx] holds the barycentric weight of the corner
    and the bucket whose slot stores the corner's key, and a lookup of that
    key returns that slot. *)
Theorem createLattice_indexes_every_corner (pd fuel n : nat)
    (positions scaleFactor : Z -> Q) (matrix0 : Z -> MatrixEntry) :
  pd1 pd * pd1 pd < 2 ^ 16 ->
  (forall idx, 0 <= idx < Z.of_nat n ->
     valid_position pd (fun i => positions (idx * Z.of_nat pd + i)) scaleFactor) ->
  (Z.to_nat (2 * (Z.of_nat n * pd1 pd)) <= fuel)%nat ->
  exists t' m',
    createLattice pd fuel n positions scaleFactor matrix0 (new_table (Z.of_nat n * pd1 pd))
      = Ret (t', m') /\
    forall idx r, 0 <= idx < Z.of_nat n -> 0 <= r <= Z.of_nat pd ->
      let sx := embed pd (fun i => positions (idx * Z.of_nat pd + i)) scaleFactor in
      let key := simplex_key pd (s_rem0 sx) (s_rank sx) r (fun _ => 0) in
      let e := m' (idx * pd1 pd + r) in
      weight e = s_barycentric sx r /\
      0 <= entries t' (index e) < Z.of_nat n * pd1 pd /\
      retrieve pd fuel t' key = Ret (entries t' (index e)) /\
      forall i, 0 <= i < Z.of_nat pd ->
        keys t' (entries t' (index e) * Z.of_nat pd + i) = key i.
Proof.
  intros _ _ Hf.
  destruct (createLattice_fresh pd fuel n positions scaleFactor matrix0 Hf)
    as (t' & m' & Hc & I).
  exists t', m'. split; [exact Hc|]. intros idx r Hidx Hr. cbv zeta.
  destruct (fresh_lookup pd fuel n positions scaleFactor Hf t' m' I idx r Hidx Hr)
    as (H1 & H2 & H3 & _).
  destruct (fresh_cell pd fuel n Hf idx r Hidx Hr) as (Hs & Hr' & _).
  destruct (inv_found _ _ _ _ _ _ _ _ I _ Hs) as (_ & _ & W).
  split; [|split; [exact H1|split; [exact H2|exact H3]]].
  rewrite W. unfold weight_of, sample_simplex. now rewrite slot_div, slot_mod.
Qed.

Lemma createLattice_indexes_every_corner_witness :
  exists t' m',
    createLattice 1 8 2 (fun i => i # 3) (fun _ => 1%Q) (fun _ => mkEntry 0 0)
      (new_table (Z.of_nat 2 * pd1 1)) = Ret (t', m') /\
    forall idx r, 0 <= idx < Z.of_nat 2 -> 0 <= r <= Z.of_nat 1 ->
      let sx := embed 1 (fun i => (fun i => i # 3) (idx * Z.of_nat 1 + i))
                  (fun _ => 1%Q) in
      let key := simplex_key 1 (s_rem0 sx) (s_rank sx) r (fun _ => 0) in
      let e := m' (idx * pd1 1 + r) in
      weight e = s_barycentric sx r /\
      0 <= entries t' (index e) < Z.of_nat 2 * pd1 1 /\
      retrieve 1 8 t' key = Ret (entries t' (index e)) /\
      forall i, 0 <= i < Z.of_nat 1 ->
        keys t' (entries t' (index e) * Z.of_nat 1 + i) = key i.
Proof.
  apply (createLattice_indexes_every_corner 1 8 2 (fun i => i # 3)
           (fun _ => 1%Q) (fun _ => mkEntry 0 0)).
  - reflexivity.
  - intros idx Hidx i Hi.
    assert (E : idx = 0 \/ idx = 1) by lia. assert (E' : i = 0 \/ i = 1) by lia.
    destruct E as [-> | ->], E' as [-> | ->]; vm_compute; intuition discriminate.
  - vm_compute. lia.
Defined.

(** X12. For positions whose rounding fits the 16-bit coordinates, a
    sequential [createLattice] stores every vertex once: two corners (of the
    same sample or of two samples) have the same matrix index exactly when
    their keys agree on the [pd] coordinates; corners with different keys
    are kept apart. *)
Theorem createLattice_merges_equal_keys (pd fuel n : nat)
    (positions scaleFactor : Z -> Q) (matrix0 : Z -> MatrixEntry) :
  pd1 pd * pd1 pd < 2 ^ 16 ->
  (forall idx, 0 <= idx < Z.of_nat n ->
     valid_position pd (fun i => positions (idx * Z.of_nat pd + i)) scaleFactor) ->
  (Z.to_nat (2 * (Z.of_nat n * pd1 pd)) <= fuel)%nat ->
  exists t' m',
    createLattice pd fuel n positions scaleFactor matrix0 (new_table (Z.of_nat n * pd1 pd))
      = Ret (t', m') /\
    forall idx r idx' r',
      0 <= idx < Z.of_nat n -> 0 <= r <= Z.of_nat pd ->
      0 <= idx' < Z.of_nat n -> 0 <= r' <= Z.of_nat pd ->
      let sx := embed pd (fun i => positions (idx * Z.of_nat pd + i)) scaleFactor in
      let key := simplex_key pd (s_rem0 sx) (s_rank sx) r (fun _ => 0) in
      let sx' := embed pd (fun i => positions (idx' * Z.of_nat pd + i)) scaleFactor in
      let key' := simplex_key pd (s_rem0 sx') (s_rank sx') r' (fun _ => 0) in
      (forall i, 0 <= i < Z.of_nat pd -> key i = key' i) <->
      index (m' (idx * pd1 pd + r)) = index (m' (idx' * pd1 pd + r')).
Proof.
  intros _ _ Hf.
  destruct (createLattice_fresh pd fuel n positions scaleFactor matrix0 Hf)
    as (t' & m' & Hc & I).
  exists t', m'. split; [exact Hc|]. intros idx r idx' r' Hidx Hr Hidx' Hr'. cbv zeta.
  destruct (fresh_lookup pd fuel n positions scaleFactor Hf t' m' I idx r Hidx Hr)
    as (_ & R & K & O).
  destruct (fresh_lookup pd fuel n positions scaleFactor Hf t' m' I idx' r' Hidx' Hr')
    as (_ & R' & K' & O').
  cbv zeta in *. unfold thread_key in *. cbv zeta in *. split.
  - intros E. rewrite (retrieve_key_ext pd fuel t' _ _ E) in R.
    rewrite R' in R. injection R as R. rewrite <- O, <- O', R. reflexivity.
  - intros E i Hi. rewrite <- K, <- K' by assumption. now rewrite E.
Qed.

Lemma createLattice_merges_equal_keys_witness :
  exists t' m',
    createLattice 1 8 2 (fun i => i # 3) (fun _ => 1%Q) (fun _ => mkEntry 0 0)
      (new_table (Z.of_nat 2 * pd1 1)) = Ret (t', m') /\
    forall idx r idx' r',
      0 <= idx < Z.of_nat 2 -> 0 <= r <= Z.of_nat 1 ->
      0 <= idx' < Z.of_nat 2 -> 0 <= r' <= Z.of_nat 1 ->
      let sx := embed 1 (fun i => (fun i => i # 3) (idx * Z.of_nat 1 + i))
                  (fun _ => 1%Q) in
      let key := simplex_key 1 (s_rem0 sx) (s_rank sx) r (fun _ => 0) in
      let sx' := embed 1 (fun i => (fun i => i # 3) (idx' * Z.of_nat 1 + i))
                   (fun _ => 1%Q) in
      let key' := simplex_key 1 (s_rem0 sx') (s_rank sx') r' (fun _ => 0) in
      (forall i, 0 <= i < Z.of_nat 1 -> key i = key' i) <->
      index (m' (idx * pd1 1 + r)) = index (m' (idx' * pd1 1 + r')).
Proof.
  apply (createLattice_merges_equal_keys 1 8 2 (fun i => i # 3)
           (fun _ => 1%Q) (fun _ => mkEntry 0 0)).
  - reflexivity.
  - intros idx Hidx i Hi.
    assert (E : idx = 0 \/ idx = 1) by lia. assert (E' : i = 0 \/ i = 1) by lia.
    destruct E as [-> | ->], E' as [-> | ->]; vm_compute; intuition discriminate.
  - vm_compute. lia.
Defined.

(** X13. The table of the constructor cannot fill up: for positions whose
    rounding fits the 16-bit coordinates, after a sequential [createLattice]
    at most [n * (pd + 1)] of its [2 * n * (pd + 1)] buckets are occupied,
    so that [retrieve] returns for every key, present or not. *)
Theorem lookups_return_after_createLattice (pd fuel n : nat)
    (positions scaleFactor : Z -> Q) (matrix0 : Z -> MatrixEntry) :
  (1 <= n)%nat ->
  pd1 pd * pd1 pd < 2 ^ 16 ->
  (forall idx, 0 <= idx < Z.of_nat n ->
     valid_position pd (fun i => positions (idx * Z.of_nat pd + i)) scaleFactor) ->
  (Z.to_nat (2 * (Z.of_nat n * pd1 pd)) <= fuel)%nat ->
  exists t' m',
    createLattice pd fuel n positions scaleFactor matrix0 (new_table (Z.of_nat n * pd1 pd))
      = Ret (t', m') /\
    capacity t' = Z.of_nat n * pd1 pd /\
    countb (fun p => negb (Z.eqb (entries t' p) (-1))) (Z.to_nat (2 * capacity t'))
      <= Z.of_nat n * pd1 pd /\
    forall key, exists r, retrieve pd fuel t' key = Ret r.
Proof.
  intros Hn _ _ Hf.
  destruct (createLattice_fresh pd fuel n positions scaleFactor matrix0 Hf)
    as (t' & m' & Hc & I).
  exists t', m'. split; [exact Hc|].
  pose proof (inv_capacity _ _ _ _ _ _ _ _ I) as C.
  pose proof (pd1_pos pd) as HD.
  split; [exact C|]. split.
  - rewrite C. apply (inv_count _ _ _ _ _ _ _ _ I).
  - intros key. apply retrieve_returns.
    + rewrite C. nia.
    + apply (lattice_inv_empty_bucket _ _ _ _ _ _ _ _ I). nia.
    + now rewrite C.
Qed.

Lemma lookups_return_after_createLattice_witness :
  exists t' m',
    createLattice 1 8 2 (fun i => i # 3) (fun _ => 1%Q) (fun _ => mkEntry 0 0)
      (new_table (Z.of_nat 2 * pd1 1)) = Ret (t', m') /\
    capacity t' = Z.of_nat 2 * pd1 1 /\
    countb (fun p => negb (Z.eqb (entries t' p) (-1))) (Z.to_nat (2 * capacity t'))
      <= Z.of_nat 2 * pd1 1 /\
    forall key, exists r, retrieve 1 8 t' key = Ret r.
Proof.
  apply (lookups_return_after_createLattice 1 8 2 (fun i => i # 3)
           (fun _ => 1%Q) (fun _ => mkEntry 0 0)).
  - lia.
  - reflexivity.
  - intros idx Hidx i Hi.
    assert (E : idx = 0 \/ idx = 1) by lia. assert (E' : i = 0 \/ i = 1) by lia.
    destruct E as [-> | ->], E' as [-> | ->]; vm_compute; intuition discriminate.
  - vm_compute. lia.
Defined.

(** X14. When [createLattice] has run without races, on positions whose
    rounding fits the 16-bit coordinates, the pass of [cleanHashTable] finds
    nothing to merge: launched on any number of buckets it returns the
    table unchanged. *)
Theorem cleanHashTable_after_sequential_createLattice (pd fuel n : nat)
    (positions scaleFactor : Z -> Q) (matrix0 : Z -> MatrixEntry) :
  pd1 pd * pd1 pd < 2 ^ 16 ->
  (forall idx, 0 <= idx < Z.of_nat n ->
     valid_position pd (fun i => positions (idx * Z.of_nat pd + i)) scaleFactor) ->
  (Z.to_nat (2 * (Z.of_nat n * pd1 pd)) <= fuel)%nat ->
  exists t' m',
    createLattice pd fuel n positions scaleFactor matrix0 (new_table (Z.of_nat n * pd1 pd))
      = Ret (t', m') /\
    forall k, cleanHashTable pd fuel k t' = Ret t'.
Proof.
  intros _ _ Hf.
  destruct (createLattice_fresh pd fuel n positions scaleFactor matrix0 Hf)
    as (t' & m' & Hc & I).
  exists t', m'. split; [exact Hc|]. intros k.
  exact (cleanHashTable_id pd fuel positions scaleFactor _ Hf _ t' m' k I).
Qed.

Lemma cleanHashTable_after_sequential_createLattice_witness :
  exists t' m',
    createLattice 1 8 2 (fun i => i # 3) (fun _ => 1%Q) (fun _ => mkEntry 0 0)
      (new_table (Z.of_nat 2 * pd1 1)) = Ret (t', m') /\
    forall k, cleanHashTable 1 8 k t' = Ret t'.
Proof.
  apply (cleanHashTable_after_sequential_createLattice 1 8 2 (fun i => i # 3)
           (fun _ => 1%Q) (fun _ => mkEntry 0 0)).
  - reflexivity.
  - intros idx Hidx i Hi.
    assert (E : idx = 0 \/ idx = 1) by lia. assert (E' : i = 0 \/ i = 1) by lia.
    destruct E as [-> | ->], E' as [-> | ->]; vm_compute; intuition discriminate.
  - vm_compute. lia.
Defined.

(** The blur rounds run on a table at rest: the table that a sequential
    [createLattice] leaves, which [cleanHashTable] returns as it is and of
    which [splatCache] changes the accumulators only. *)
Lemma createLattice_at_rest (pd fuel n : nat) (positions scaleFactor : Z -> Q)
    (matrix0 : Z -> MatrixEntry) :
  (1 <= n)%nat ->
  (Z.to_nat (2 * (Z.of_nat n * pd1 pd)) <= fuel)%nat ->
  exists t' m',
    createLattice pd fuel n positions scaleFactor matrix0 (new_table (Z.of_nat n * pd1 pd))
      = Ret (t', m') /\
    at_rest pd t'.
Proof.
  intros Hn Hf.
  destruct (createLattice_fresh pd fuel n positions scaleFactor matrix0 Hf)
    as (t' & m' & Hc & I).
  exists t', m'. split; [exact Hc|].
  refine (lattice_inv_at_rest pd fuel positions scaleFactor _ _ t' m' _ I).
  pose proof (pd1_pos pd). nia.
Qed.

(** ** The splat kernel, for every input *)

Lemma sumQ_split (f : Z -> Q) (a m : nat) :
  (sumQ f (a + m) == sumQ f a + sumQ (fun i => f (i + Z.of_nat a)%Z) m)%Q.
Proof.
  induction m as [|m IH].
  - rewrite Nat.add_0_r. cbn [sumQ]. ring.
  - rewrite Nat.add_succ_r. cbn [sumQ]. rewrite IH.
    replace (Z.of_nat (a + m)) with (Z.of_nat m + Z.of_nat a) by lia. ring.
Qed.

Lemma sumQ_truncate (f : Z -> Q) (a m : nat) :
  (a <= m)%nat -> (forall i, Z.of_nat a <= i -> f i == 0) -> sumQ f m == sumQ f a.
Proof.
  intros Ham H. replace m with (a + (m - a))%nat by lia. rewrite sumQ_split.
  rewrite (sumQ_ext (fun i => f (i + Z.of_nat a)) (fun _ => 0%Q))
    by (intros i Hi; apply H; lia).
  rewrite (sumQ_zero (fun _ => 0%Q)) by reflexivity. ring.
Qed.

Lemma sumQ_split_at (f : Z -> Q) (m : nat) (k : Z) :
  0 <= k < Z.of_nat m ->
  (sumQ f m == f k + sumQ (fun i => if Z.eqb i k then 0 else f i) m)%Q.
Proof.
  induction m as [|m IH]; intros Hk; [lia|]. cbn [sumQ].
  destruct (Z.eqb_spec (Z.of_nat m) k) as [E|N].
  - subst k. rewrite (sumQ_ext (fun i => if Z.eqb i (Z.of_nat m) then 0%Q else f i) f).
    + ring.
    + intros i Hi. destruct (Z.eqb_spec i (Z.of_nat m)); [lia|reflexivity].
  - rewrite IH by lia. ring.
Qed.

Section SplatScan.

Variable vd : nat.
Hypothesis vd_pos : (1 <= vd)%nat.
Variable offs : Z -> Z.

(** The scan of lines 340-354 by thread [k]: whether the thread returns
    early, and the row it has accumulated when it does not. *)
Lemma scan_general (k : Z) (sv : Z -> Q) (m : nat) :
  let r := for_up m (scan_step vd offs k) (false, sv) in
  (fst r = true <-> exists i, 0 <= i < Z.of_nat m /\ i < k /\ offs k = offs i) /\
  (forall s j, s <> k -> 0 <= j < Z.of_nat vd ->
     snd r (s * Z.of_nat vd + j) = sv (s * Z.of_nat vd + j)) /\
  (fst r = false -> forall j, 0 <= j < Z.of_nat vd ->
     (snd r (k * Z.of_nat vd + j)%Z ==
      sv (k * Z.of_nat vd + j)%Z
      + sumQ (fun i => if ((k <? i) && (offs k =? offs i))%Z
                       then sv (i * Z.of_nat vd + j)%Z else 0) m)%Q).
Proof.
  cbv zeta. induction m as [|m (I1 & I2 & I3)].
  - rewrite for_up_0. cbn [fst snd sumQ]. split; [|split].
    + split; [discriminate|]. intros (i & Hi & _). lia.
    + reflexivity.
    + intros _ j Hj. ring.
  - rewrite for_up_S. destruct (for_up m _ _) as [flag sv']. cbn [fst snd] in *.
    unfold scan_step. destruct flag.
    + cbn [fst snd]. split; [|split].
      * split; [|reflexivity]. intros _.
        destruct (proj1 I1 eq_refl) as (i & Hi & Hik & E). exists i. repeat split; auto; lia.
      * exact I2.
      * discriminate.
    + assert (No : forall i, 0 <= i < Z.of_nat m -> i < k -> offs k <> offs i).
      { intros i Hi Hik E. assert (F : false = true) by (apply I1; eauto). discriminate. }
      destruct (Z.ltb_spec (Z.of_nat m) k) as [Hmk|Hmk].
      * cbn [fst snd]. split; [|split].
        -- split.
           ++ intros E. apply Z.eqb_eq in E. exists (Z.of_nat m). repeat split; auto; lia.
           ++ intros (i & Hi & Hik & E). destruct (Z.eq_dec i (Z.of_nat m)) as [->|Hne].
              ** now apply Z.eqb_eq.
              ** exfalso. apply (No i); auto. lia.
        -- exact I2.
        -- intros _ j Hj. rewrite (I3 eq_refl j Hj). cbn [sumQ].
           destruct (Z.ltb_spec k (Z.of_nat m)); [lia|]. cbn [andb]. ring.
      * destruct (Z.ltb_spec k (Z.of_nat m)) as [Hkm|Hkm].
        -- assert (Same : false = true <->
                     exists i, 0 <= i < Z.of_nat (S m) /\ i < k /\ offs k = offs i).
           { split; [discriminate|]. intros (i & Hi & Hik & E).
             exfalso. apply (No i); auto. lia. }
           destruct (Z.eqb_spec (offs k) (offs (Z.of_nat m))) as [E|N].
           ++ pose proof (accumulate_row vd vd_pos k (Z.of_nat m) sv' ltac:(lia)) as R.
              cbn [fst snd]. split; [exact Same|]. split.
              ** intros s j Hs Hj. rewrite R by assumption.
                 destruct (Z.eqb_spec s k); [contradiction|]. now apply I2.
              ** intros _ j Hj. rewrite R by assumption. rewrite Z.eqb_refl.
                 rewrite (I3 eq_refl j Hj). rewrite (I2 (Z.of_nat m) j) by (try lia; assumption).
                 cbn [sumQ]. destruct (Z.ltb_spec k (Z.of_nat m)); [|lia].
                 destruct (Z.eqb_spec (offs k) (offs (Z.of_nat m))); [|contradiction].
                 cbn [andb]. ring.
           ++ cbn [fst snd]. split; [exact Same|]. split; [exact I2|].
              intros _ j Hj. rewrite (I3 eq_refl j Hj). cbn [sumQ].
              destruct (Z.eqb_spec (offs k) (offs (Z.of_nat m))); [contradiction|].
              rewrite andb_false_r. ring.
        -- cbn [fst snd]. split; [|split].
           ++ split; [discriminate|]. intros (i & Hi & Hik & E).
              exfalso. apply (No i); auto. lia.
           ++ exact I2.
           ++ intros _ j Hj. rewrite (I3 eq_refl j Hj). cbn [sumQ].
              destruct (Z.ltb_spec k (Z.of_nat m)); [lia|]. cbn [andb]. ring.
Qed.

End SplatScan.

Section SplatGeneral.

Variable pd vd : nat.
Hypothesis vd_pos : (1 <= vd)%nat.
Variable n : Z.
Variable values_in : Z -> Q.

(** What corner [c] of sample [idx] adds to channel [j] of its slot: the
    weight for the last channel, the value times the weight for the
    others. *)
Definition splat_term (matrix : Z -> MatrixEntry) (idx c j : Z) : Q :=
  if Z.eqb j (Z.of_nat vd - 1) then weight (matrix (idx * pd1 pd + c))
  else (values_in (idx * (Z.of_nat vd - 1) + j)%Z * weight (matrix (idx * pd1 pd + c)%Z))%Q.

Section Block.

Variable table : HashTableGPU.
Variable color b : Z.
Hypothesis b_range : 0 <= b.
Variable matrix : Z -> MatrixEntry.

(** The slot of the corner that thread [tid] of the block handles. *)
Definition thread_slot (tid : Z) : Z :=
  entries table (index (matrix (cell_of pd color b tid))).

(** The shared memory of the block when its first [k] threads have reached
    the barrier. *)
Record block_loaded (k : nat) (st : (Z -> MatrixEntry) * (Z -> Z) * (Z -> Q)) : Prop := {
  bl_cells : forall tid, 0 <= tid < Z.of_nat k -> sample_of b tid < n ->
    fst (fst st) (cell_of pd color b tid) = converted table matrix (cell_of pd color b tid);
  bl_frame : forall c,
    (forall tid, 0 <= tid < Z.of_nat k -> sample_of b tid < n -> c <> cell_of pd color b tid) ->
    fst (fst st) c = matrix c;
  bl_offsets : forall tid, 0 <= tid < Z.of_nat k ->
    snd (fst st) tid =
    if sample_of b tid <? n then thread_slot tid * Z.of_nat vd else -1;
  bl_rows : forall tid j, 0 <= tid < Z.of_nat k -> sample_of b tid < n ->
    0 <= j < Z.of_nat vd ->
    snd st (tid * Z.of_nat vd + j) = splat_term matrix (sample_of b tid) color j
}.

Lemma block_load (k : nat) :
  block_loaded k
    (for_up k (splat_load pd vd n values_in table color b)
       (matrix, fun _ => 0, fun _ => 0%Q)).
Proof.
  induction k as [|k IH].
  - rewrite for_up_0. constructor; cbn [fst snd]; intros; try lia. reflexivity.
  - rewrite for_up_S. destruct (for_up k _ _) as [[M offs] sv].
    destruct IH as [IC IF IO IR]. cbn [fst snd] in *.
    destruct (Z_lt_ge_dec (sample_of b (Z.of_nat k)) n) as [Hin|Hout].
    + destruct (splat_load_in pd vd vd_pos n values_in table color b (Z.of_nat k) M offs sv Hin)
        as (sv' & -> & R).
      assert (EM : M (cell_of pd color b (Z.of_nat k)) = matrix (cell_of pd color b (Z.of_nat k))).
      { apply IF. intros tid Ht _ E. apply (cell_of_inj pd vd vd_pos) in E. lia. }
      constructor; cbn [fst snd].
      * intros tid Ht Hs'. destruct (Z.eq_dec tid (Z.of_nat k)) as [->|Hne].
        -- rewrite upd_same. unfold converted. now rewrite EM.
        -- rewrite upd_other
             by (intros E; apply (cell_of_inj pd vd vd_pos) in E; lia).
           apply IC; [lia|assumption].
      * intros c Hc. rewrite upd_other by (apply Hc; [lia|assumption]).
        apply IF. intros tid Ht Hs'. apply Hc; [lia|assumption].
      * intros tid Ht. destruct (Z.eq_dec tid (Z.of_nat k)) as [->|Hne].
        -- rewrite upd_same, EM. destruct (Z.ltb_spec (sample_of b (Z.of_nat k)) n); [|lia].
           reflexivity.
        -- rewrite upd_other by assumption. apply IO. lia.
      * intros tid j Ht Hs' Hj. rewrite R by assumption.
        destruct (Z.eqb_spec tid (Z.of_nat k)) as [->|Hne].
        -- unfold loaded_row, splat_term. rewrite EM. reflexivity.
        -- apply IR; [lia|assumption|assumption].
    + rewrite (splat_load_out pd vd vd_pos) by lia.
      constructor; cbn [fst snd].
      * intros tid Ht Hs'. apply IC; [|assumption].
        destruct (Z.eq_dec tid (Z.of_nat k)) as [->|]; lia.
      * intros c Hc. apply IF. intros tid Ht Hs'. apply Hc; [lia|assumption].
      * intros tid Ht. destruct (Z.eq_dec tid (Z.of_nat k)) as [->|Hne].
        -- rewrite upd_same. destruct (Z.ltb_spec (sample_of b (Z.of_nat k)) n); [lia|].
           reflexivity.
        -- rewrite upd_other by assumption. apply IO. lia.
      * intros tid j Ht Hs' Hj.
        assert (tid <> Z.of_nat k) by (intros ->; lia).
        apply IR; [lia|assumption|assumption].
Qed.

(** After the barrier. *)

Hypothesis slots_ok :
  forall tid, 0 <= tid < Z.of_nat BLOCK_SIZE -> sample_of b tid < n -> 0 <= thread_slot tid.

Variable offs : Z -> Z.
Variable sv0 : Z -> Q.

Hypothesis offsets_loaded : forall tid, 0 <= tid < Z.of_nat BLOCK_SIZE ->
  offs tid = if sample_of b tid <? n then thread_slot tid * Z.of_nat vd else -1.
Hypothesis rows_loaded : forall tid j, 0 <= tid < Z.of_nat BLOCK_SIZE ->
  sample_of b tid < n -> 0 <= j < Z.of_nat vd ->
  sv0 (tid * Z.of_nat vd + j) = splat_term matrix (sample_of b tid) color j.

(** Thread [tid] is in bounds and its corner points to slot [s]. *)
Definition member (s tid : Z) : bool :=
  (sample_of b tid <? n) && (thread_slot tid =? s).

(** What the block adds to channel [j] of slot [s]. *)
Definition class_total (s j : Z) : Q :=
  sumQ (fun i => if member s i then splat_term matrix (sample_of b i) color j else 0%Q)
    BLOCK_SIZE.

Lemma offsets_member (k i : Z) :
  0 <= k < Z.of_nat BLOCK_SIZE -> sample_of b k < n -> 0 <= i < Z.of_nat BLOCK_SIZE ->
  (offs k =? offs i) = member (thread_slot k) i.
Proof.
  intros Hk Hin Hi. rewrite !offsets_loaded by assumption. unfold member.
  pose proof (slots_ok k Hk Hin) as Sk.
  destruct (Z.ltb_spec (sample_of b k) n); [|lia].
  destruct (Z.ltb_spec (sample_of b i) n) as [Hi'|Hi']; cbn [andb].
  - destruct (Z.eqb_spec (thread_slot k * Z.of_nat vd) (thread_slot i * Z.of_nat vd)),
      (Z.eqb_spec (thread_slot i) (thread_slot k)); try reflexivity; exfalso; nia.
  - destruct (Z.eqb_spec (thread_slot k * Z.of_nat vd) (-1)); [exfalso; nia|reflexivity].
Qed.

(** The accumulators when the first [k] threads of the block are done: a
    slot has received the whole contribution of the block as soon as one of
    the threads that point to it has run. *)
Definition block_reduced (tv0 : Z -> Q) (k : nat) (st : (Z -> Q) * (Z -> Q)) : Prop :=
  (forall s j, Z.of_nat k <= s -> 0 <= j < Z.of_nat vd ->
     fst st (s * Z.of_nat vd + j) = sv0 (s * Z.of_nat vd + j)) /\
  (forall s j, 0 <= j < Z.of_nat vd ->
     ((exists tid, 0 <= tid < Z.of_nat k /\ member s tid = true) /\
      (snd st (s * Z.of_nat vd + j)%Z == tv0 (s * Z.of_nat vd + j)%Z + class_total s j)%Q) \/
     ((forall tid, 0 <= tid < Z.of_nat k -> member s tid = false) /\
      snd st (s * Z.of_nat vd + j) == tv0 (s * Z.of_nat vd + j))).

Lemma block_reduce_step (tv0 : Z -> Q) (k : nat) (st : (Z -> Q) * (Z -> Q)) :
  (k < BLOCK_SIZE)%nat ->
  block_reduced tv0 k st ->
  block_reduced tv0 (S k) (splat_reduce vd n offs b (Z.of_nat k) st).
Proof.
  intros Hk (I1 & I2). destruct st as [sv tv]. cbn [fst snd] in *.
  rewrite splat_reduce_unfold. fold (sample_of b (Z.of_nat k)).
  assert (Hk' : 0 <= Z.of_nat k < Z.of_nat BLOCK_SIZE) by lia.
  destruct (Z.leb_spec n (sample_of b (Z.of_nat k))) as [Hout|Hin].
  - (* out of bounds: the thread does nothing *)
    assert (Mk : forall s, member s (Z.of_nat k) = false).
    { intros s. unfold member. destruct (Z.ltb_spec (sample_of b (Z.of_nat k)) n); [lia|].
      reflexivity. }
    split; cbn [fst snd].
    + intros s j Hs Hj. apply I1; [lia|assumption].
    + intros s j Hj. destruct (I2 s j Hj) as [((tid & Ht & Hm) & E)|(Hno & E)].
      * left. split; [exists tid; split; [lia|assumption]|exact E].
      * right. split; [|exact E]. intros tid Ht.
        destruct (Z.eq_dec tid (Z.of_nat k)) as [->|]; [apply Mk|apply Hno; lia].
  - set (c := thread_slot (Z.of_nat k)).
    assert (Mk : member c (Z.of_nat k) = true).
    { unfold member, c. destruct (Z.ltb_spec (sample_of b (Z.of_nat k)) n); [|lia].
      now rewrite Z.eqb_refl. }
    assert (Mo : forall s, s <> c -> member s (Z.of_nat k) = false).
    { intros s Hs. unfold member. fold c.
      destruct (Z.eqb_spec c s); [congruence|]. now rewrite andb_false_r. }
    assert (Ok : offs (Z.of_nat k) = c * Z.of_nat vd).
    { rewrite offsets_loaded by assumption.
      destruct (Z.ltb_spec (sample_of b (Z.of_nat k)) n); [reflexivity|lia]. }
    destruct (scan_general vd vd_pos offs (Z.of_nat k) sv BLOCK_SIZE) as (S1 & S2 & S3).
    cbv zeta in S1, S2, S3.
    set (r := for_up BLOCK_SIZE (scan_step vd offs (Z.of_nat k)) (false, sv)) in *.
    cbv zeta. destruct (fst r) eqn:Er.
    + (* an earlier thread points to the same slot *)
      destruct (proj1 S1 eq_refl) as (i & Hi & Hik & E).
      assert (Mi : member c i = true).
      { unfold c. rewrite <- offsets_member by (try assumption; lia). now apply Z.eqb_eq. }
      split; cbn [fst snd].
      * intros s j Hs Hj. rewrite S2 by (try assumption; lia). apply I1; [lia|assumption].
      * intros s j Hj. destruct (I2 s j Hj) as [((tid & Ht & Hm) & E')|(Hno & E')].
        -- left. split; [exists tid; split; [lia|assumption]|exact E'].
        -- right. split; [|exact E']. intros tid Ht.
           destruct (Z.eq_dec tid (Z.of_nat k)) as [->|]; [|apply Hno; lia].
           apply Mo. intros ->. rewrite (Hno i) in Mi by lia. discriminate.
    + (* the first thread of its slot: it adds the rows of the whole class *)
      assert (No : forall i, 0 <= i < Z.of_nat k -> member c i = false).
      { intros i Hi. destruct (member c i) eqn:Mi; [|reflexivity].
        assert (F : false = true).
        { apply S1. exists i. split; [lia|]. split; [lia|].
          apply Z.eqb_eq. unfold c in Mi. now rewrite offsets_member by (try assumption; lia). }
        discriminate. }
      rewrite Ok.
      pose proof (add_row_spec vd vd_pos c
                    (fun j => snd r (Z.of_nat k * Z.of_nat vd + j)) tv) as R.
      split; cbn [fst snd].
      * intros s j Hs Hj. rewrite S2 by (try assumption; lia). apply I1; [lia|assumption].
      * intros s j Hj. rewrite R by assumption.
        destruct (Z.eqb_spec s c) as [->|Hs].
        -- left. split; [exists (Z.of_nat k); split; [lia|assumption]|].
           destruct (I2 c j Hj) as [((tid & Ht & Hm) & _)|(_ & E')];
             [rewrite (No tid Ht) in Hm; discriminate|].
           rewrite E', (S3 eq_refl j Hj).
           rewrite (I1 (Z.of_nat k) j) by (try assumption; lia).
           rewrite (rows_loaded (Z.of_nat k) j) by assumption.
           unfold class_total.
           rewrite (sumQ_split_at
                      (fun i => if member c i
                                then splat_term matrix (sample_of b i) color j else 0%Q)
                      BLOCK_SIZE (Z.of_nat k)) by assumption.
           cbv beta. rewrite Mk.
           rewrite (sumQ_ext
                      (fun i => if Z.eqb i (Z.of_nat k) then 0%Q
                                else if member c i
                                     then splat_term matrix (sample_of b i) color j else 0%Q)
                      (fun i => if (Z.of_nat k <? i) && (offs (Z.of_nat k) =? offs i)
                                then sv (i * Z.of_nat vd + j) else 0%Q)).
           ++ ring.
           ++ intros i Hi. rewrite (offsets_member (Z.of_nat k) i) by assumption. fold c.
              destruct (Z.eqb_spec i (Z.of_nat k)) as [->|Hne].
              ** rewrite Z.ltb_irrefl. reflexivity.
              ** destruct (Z.ltb_spec (Z.of_nat k) i) as [Hgt|Hle]; cbn [andb].
                 --- destruct (member c i) eqn:Mi; [|reflexivity].
                     rewrite (I1 i j) by (try assumption; lia).
                     rewrite (rows_loaded i j); try assumption; [reflexivity|].
                     unfold member in Mi. apply andb_true_iff in Mi.
                     destruct Mi as [Mi _]. now apply Z.ltb_lt.
                 --- rewrite (No i) by lia. reflexivity.
        -- destruct (I2 s j Hj) as [((tid & Ht & Hm) & E')|(Hno & E')].
           ++ left. split; [exists tid; split; [lia|assumption]|exact E'].
           ++ right. split; [|exact E']. intros tid Ht.
              destruct (Z.eq_dec tid (Z.of_nat k)) as [->|]; [now apply Mo|apply Hno; lia].
Qed.

Lemma block_reduce (tv0 : Z -> Q) (s j : Z) :
  0 <= j < Z.of_nat vd ->
  (snd (for_up BLOCK_SIZE (splat_reduce vd n offs b) (sv0, tv0)) (s * Z.of_nat vd + j)%Z
   == tv0 (s * Z.of_nat vd + j)%Z + class_total s j)%Q.
Proof.
  intros Hj.
  assert (L : forall k, (k <= BLOCK_SIZE)%nat ->
            block_reduced tv0 k (for_up k (splat_reduce vd n offs b) (sv0, tv0))).
  { intros k. induction k as [|k IH]; intros Hk.
    - rewrite for_up_0. split; cbn [fst snd]; [reflexivity|].
      intros s' j' Hj'. right. split; [intros; lia|reflexivity].
    - rewrite for_up_S. apply block_reduce_step; [lia|]. apply IH. lia. }
  destruct (L BLOCK_SIZE (Nat.le_refl _)) as (_ & I2).
  destruct (I2 s j Hj) as [(_ & E)|(Hno & E)]; [exact E|].
  rewrite E. unfold class_total.
  rewrite (sumQ_ext _ (fun _ => 0%Q)).
  - rewrite (sumQ_zero (fun _ => 0%Q)) by reflexivity. ring.
  - intros i Hi. now rewrite (Hno i Hi).
Qed.

End Block.

End SplatGeneral.

Lemma grid_blocks (n : Z) :
  0 <= n ->
  let B := Z.to_nat (Z.quot (n - 1) (Z.of_nat BLOCK_SIZE) + 1) in
  n <= Z.of_nat B * Z.of_nat BLOCK_SIZE.
Proof.
  intros Hn. cbv zeta. change (Z.of_nat BLOCK_SIZE) with 256.
  destruct (Z.eq_dec n 0) as [->|Hne]; [cbn; lia|].
  rewrite Z.quot_div_nonneg by lia.
  pose proof (Z.div_pos (n - 1) 256 ltac:(lia) ltac:(lia)).
  pose proof (Z.mul_succ_div_gt (n - 1) 256 ltac:(lia)).
  rewrite Z2Nat.id by lia. lia.
Qed.

Section SplatEveryInput.

Variable pd vd : nat.
Hypothesis vd_pos : (1 <= vd)%nat.
Variable n : Z.
Hypothesis n_range : 0 <= n.
Variable values_in : Z -> Q.

(** The table and the matrix when the kernel is launched. *)
Variable t0 : HashTableGPU.
Variable m0 : Z -> MatrixEntry.

(** The slot that corner [c] of sample [idx] points to. *)
Definition corner_slot (idx c : Z) : Z := entries t0 (index (m0 (idx * pd1 pd + c))).

(** Every corner points to a slot. *)
Definition slots_assigned : Prop :=
  forall idx c, 0 <= idx < n -> 0 <= c < pd1 pd -> 0 <= corner_slot idx c.

(** What sample [idx] adds to channel [j] of slot [s] through corner [c]. *)
Definition cell_term (s c j idx : Z) : Q :=
  if (idx <? n) && (corner_slot idx c =? s)
  then splat_term pd vd values_in m0 idx c j else 0%Q.

(** The state when the colors below [c] are done, and [b] blocks of color
    [c]. *)
Record splat_state (c b : Z) (st : (Z -> MatrixEntry) * HashTableGPU) : Prop := {
  ss_entries : entries (snd st) = entries t0;
  ss_keys : keys (snd st) = keys t0;
  ss_capacity : capacity (snd st) = capacity t0;
  ss_cells : forall idx col, 0 <= col < pd1 pd ->
    fst st (idx * pd1 pd + col) =
    if visited n c b idx col then converted t0 m0 (idx * pd1 pd + col)
    else m0 (idx * pd1 pd + col);
  ss_values : slots_assigned -> forall s j, 0 <= j < Z.of_nat vd ->
    (values (snd st) (s * Z.of_nat vd + j)%Z ==
     values t0 (s * Z.of_nat vd + j)%Z
     + sumQ (fun c' => sumQ (cell_term s c' j) (Z.to_nat n)) (Z.to_nat c)
     + sumQ (cell_term s c j) (Z.to_nat (b * Z.of_nat BLOCK_SIZE)))%Q
}.

Lemma splat_state_block (c b : Z) (st : (Z -> MatrixEntry) * HashTableGPU) :
  0 <= c < pd1 pd -> 0 <= b ->
  splat_state c b st ->
  splat_state c (b + 1) (splat_block pd vd n values_in c b st).
Proof.
  intros Hc Hb [IE IK IC ICe IV]. destruct st as [M T]. cbn [fst snd] in *.
  pose proof (splat_block_unfold pd vd n values_in c b M T) as U. cbv zeta in U.
  rewrite U. clear U.
  pose proof (pd1_pos pd) as HD.
  assert (Unv : forall tid, 0 <= tid ->
            M (cell_of pd c b tid) = m0 (cell_of pd c b tid)).
  { intros tid Ht. unfold cell_of, sample_of. rewrite ICe by assumption.
    unfold visited. destruct (Z.ltb_spec c c); [lia|].
    destruct (Z.ltb_spec (tid + b * Z.of_nat BLOCK_SIZE) (b * Z.of_nat BLOCK_SIZE)); [lia|].
    now rewrite andb_false_r, orb_false_r, andb_false_r. }
  destruct (block_load pd vd vd_pos n values_in T c b M BLOCK_SIZE) as [LC LF LO LR].
  set (ld := for_up BLOCK_SIZE (splat_load _ _ _ _ _ _ _) _) in *.
  constructor; cbn [fst snd set_values entries keys capacity values]; try assumption.
  - (* the matrix *)
    intros idx col Hcol.
    assert (Frame : forall tid, 0 <= tid < Z.of_nat BLOCK_SIZE ->
              idx * pd1 pd + col = cell_of pd c b tid ->
              col = c /\ idx = tid + b * Z.of_nat BLOCK_SIZE).
    { intros tid Ht E. unfold cell_of, sample_of in E.
      destruct (matrix_cell_inj pd _ _ _ _ Hcol Hc E). auto. }
    destruct (Z.eq_dec col c) as [->|Hcol'].
    + destruct (Z_le_gt_dec (b * Z.of_nat BLOCK_SIZE) idx) as [Hlo|Hlo].
      * destruct (Z_lt_ge_dec idx ((b + 1) * Z.of_nat BLOCK_SIZE)) as [Hhi|Hhi].
        -- destruct (Z_lt_ge_dec idx n) as [Hn|Hn].
           ++ set (tid := idx - b * Z.of_nat BLOCK_SIZE).
              assert (Ecell : idx * pd1 pd + c = cell_of pd c b tid)
                by (unfold cell_of, sample_of, tid; f_equal; f_equal; lia).
              rewrite Ecell, LC by (unfold sample_of, tid; lia).
              unfold converted. rewrite Unv, IE by (unfold tid; lia). rewrite <- Ecell.
              unfold visited.
              destruct (Z.leb_spec 0 idx); [|lia]. destruct (Z.ltb_spec idx n); [|lia].
              destruct (Z.ltb_spec idx ((b + 1) * Z.of_nat BLOCK_SIZE)); [|lia].
              now rewrite Z.eqb_refl, orb_true_r.
           ++ rewrite LF, ICe by
                (try assumption; intros tid Ht Hs E;
                 destruct (Frame tid Ht E); unfold sample_of in Hs; lia).
              unfold visited. destruct (Z.ltb_spec idx n); [lia|].
              now rewrite !andb_false_r.
        -- rewrite LF, ICe by
             (try assumption; intros tid Ht Hs E; destruct (Frame tid Ht E); lia).
           unfold visited.
           destruct (Z.ltb_spec idx (b * Z.of_nat BLOCK_SIZE)); [lia|].
           destruct (Z.ltb_spec idx ((b + 1) * Z.of_nat BLOCK_SIZE)); [lia|].
           reflexivity.
      * rewrite LF, ICe by
          (try assumption; intros tid Ht Hs E; destruct (Frame tid Ht E); lia).
        unfold visited.
        destruct (Z.ltb_spec idx (b * Z.of_nat BLOCK_SIZE)); [|lia].
        destruct (Z.ltb_spec idx ((b + 1) * Z.of_nat BLOCK_SIZE)); [|lia].
        reflexivity.
    + rewrite LF, ICe by
        (try assumption; intros tid Ht Hs E; destruct (Frame tid Ht E); lia).
      unfold visited. destruct (Z.eqb_spec col c); [contradiction|].
      reflexivity.
  - (* the accumulators *)
    intros Hslots s j Hj.
    assert (Slot : forall tid, 0 <= tid ->
              thread_slot pd T c b M tid = corner_slot (sample_of b tid) c).
    { intros tid Ht. unfold thread_slot, corner_slot. rewrite Unv, IE by assumption.
      reflexivity. }
    rewrite (block_reduce pd vd vd_pos n values_in T c b M) with (s := s) (j := j);
      try assumption.
    + rewrite (IV Hslots s j Hj).
      replace (Z.to_nat ((b + 1) * Z.of_nat BLOCK_SIZE))
        with (Z.to_nat (b * Z.of_nat BLOCK_SIZE) + BLOCK_SIZE)%nat by lia.
      rewrite sumQ_split.
      assert (E : class_total pd vd n values_in T c b M s j ==
                  sumQ (fun i => cell_term s c j (i + Z.of_nat (Z.to_nat (b * Z.of_nat BLOCK_SIZE))))
                    BLOCK_SIZE).
      { unfold class_total. apply sumQ_ext. intros i Hi.
        rewrite Z2Nat.id by lia. unfold member, cell_term.
        rewrite Slot by lia. fold (sample_of b i).
        destruct (_ && _); [|reflexivity].
        unfold splat_term. fold (cell_of pd c b i). rewrite Unv by lia. reflexivity. }
      rewrite E. ring.
    + intros tid Ht Hs. rewrite Slot by lia. apply Hslots; [|assumption].
      unfold sample_of in *. lia.
Qed.

Lemma splat_state_blocks (c : Z) (B : nat) (st : (Z -> MatrixEntry) * HashTableGPU) :
  0 <= c < pd1 pd ->
  splat_state c 0 st ->
  splat_state c (Z.of_nat B)
    (for_up B (fun blockIdx_x st => splat_block pd vd n values_in c blockIdx_x st) st).
Proof.
  intros Hc I. induction B as [|B IH]; [exact I|].
  rewrite for_up_S. replace (Z.of_nat (S B)) with (Z.of_nat B + 1) by lia.
  apply splat_state_block; [assumption|lia|exact IH].
Qed.

Lemma splat_state_color (c B : Z) (st : (Z -> MatrixEntry) * HashTableGPU) :
  0 <= c < pd1 pd -> n <= B * Z.of_nat BLOCK_SIZE ->
  splat_state c B st -> splat_state (c + 1) 0 st.
Proof.
  intros Hc HB [IE IK IC ICe IV]. constructor; try assumption.
  - intros idx col Hcol. rewrite ICe by assumption.
    replace (visited n (c + 1) 0 idx col) with (visited n c B idx col); [reflexivity|].
    unfold visited.
    destruct (Z.leb_spec 0 idx), (Z.ltb_spec idx n); cbn [andb]; try reflexivity.
    destruct (Z.ltb_spec col c), (Z.ltb_spec col (c + 1)), (Z.eqb_spec col c),
      (Z.eqb_spec col (c + 1)), (Z.ltb_spec idx (B * Z.of_nat BLOCK_SIZE)),
      (Z.ltb_spec idx (0 * Z.of_nat BLOCK_SIZE)); cbn [andb orb]; try reflexivity; lia.
  - intros Hslots s j Hj. rewrite (IV Hslots s j Hj).
    replace (Z.to_nat (c + 1)) with (S (Z.to_nat c)) by lia. cbn [sumQ].
    rewrite Z2Nat.id by lia.
    rewrite (sumQ_truncate (cell_term s c j) (Z.to_nat n) (Z.to_nat (B * Z.of_nat BLOCK_SIZE)));
      [change (Z.to_nat (0 * Z.of_nat BLOCK_SIZE)) with 0%nat; cbn [sumQ]; ring|lia|].
    intros i Hi. unfold cell_term. destruct (Z.ltb_spec i n); [lia|]. reflexivity.
Qed.

(** The matrix and the table that [splatCache] leaves, for every input. *)
Lemma splatCache_state :
  splat_state (pd1 pd) 0 (splatCache pd vd n values_in m0 t0).
Proof.
  unfold splatCache.
  pose proof (grid_blocks n n_range) as HB. cbv zeta in HB.
  set (B := Z.to_nat (Z.quot (n - 1) (Z.of_nat BLOCK_SIZE) + 1)) in *.
  replace (pd1 pd) with (Z.of_nat (S pd)) by (unfold pd1; lia).
  apply (for_up_ind (fun c st => splat_state (Z.of_nat c) 0 st)).
  - constructor; cbn [fst snd]; try reflexivity.
    + intros idx col Hcol.
      assert (V : visited n 0 0 idx col = false).
      { unfold visited. destruct (Z.ltb_spec col 0); [lia|].
        destruct (Z.ltb_spec idx (0 * Z.of_nat BLOCK_SIZE)), (Z.leb_spec 0 idx),
          (Z.ltb_spec idx n), (Z.eqb_spec col 0); cbn [andb orb]; try reflexivity; lia. }
      change (Z.of_nat 0) with 0. now rewrite V.
    + intros _ s j Hj. change (Z.to_nat (Z.of_nat 0)) with 0%nat.
      change (Z.to_nat (0 * Z.of_nat BLOCK_SIZE)) with 0%nat. cbn [sumQ]. ring.
  - intros c st Hc I.
    replace (Z.of_nat (S c)) with (Z.of_nat c + 1) by lia.
    apply (splat_state_color (Z.of_nat c) (Z.of_nat B)); try assumption.
    + unfold pd1. lia.
    + apply splat_state_blocks; [unfold pd1; lia|assumption].
Qed.

End SplatEveryInput.

(** The accumulators after [splatCache], cell by cell. *)
Lemma splatCache_values (pd vd : nat) (n : Z) (values_in : Z -> Q)
    (t0 : HashTableGPU) (m0 : Z -> MatrixEntry) (s j : Z) :
  (1 <= vd)%nat ->
  0 <= n ->
  (forall idx c, 0 <= idx < n -> 0 <= c <= Z.of_nat pd ->
     0 <= entries t0 (index (m0 (idx * pd1 pd + c)))) ->
  0 <= j < Z.of_nat vd ->
  (values (snd (splatCache pd vd n values_in m0 t0)) (s * Z.of_nat vd + j)%Z ==
   values t0 (s * Z.of_nat vd + j)%Z
   + sumQ (fun c =>
       sumQ (fun idx =>
         if (entries t0 (index (m0 (idx * pd1 pd + c))) =? s)%Z
         then (if (j =? Z.of_nat vd - 1)%Z then 1
               else values_in (idx * (Z.of_nat vd - 1) + j)%Z)
              * weight (m0 (idx * pd1 pd + c)%Z)
         else 0) (Z.to_nat n)) (S pd))%Q.
Proof.
  intros Hvd Hn Hslots Hj.
  pose proof (splatCache_state pd vd Hvd n Hn values_in t0 m0) as [_ _ _ _ V].
  rewrite (V ltac:(intros idx c Hidx Hc; apply Hslots; [assumption|unfold pd1 in Hc; lia])
             s j Hj).
  change (Z.to_nat (0 * Z.of_nat BLOCK_SIZE)) with 0%nat.
  change (sumQ (cell_term pd vd n values_in t0 m0 s (pd1 pd) j) 0) with 0%Q.
  replace (Z.to_nat (pd1 pd)) with (S pd) by (unfold pd1; lia).
  rewrite (sumQ_ext
             (fun c' => sumQ (cell_term pd vd n values_in t0 m0 s c' j) (Z.to_nat n))
             (fun c =>
                sumQ (fun idx =>
                  if (entries t0 (index (m0 (idx * pd1 pd + c))) =? s)%Z
                  then ((if (j =? Z.of_nat vd - 1)%Z then 1
                         else values_in (idx * (Z.of_nat vd - 1) + j)%Z)
                        * weight (m0 (idx * pd1 pd + c)%Z))%Q
                  else 0%Q) (Z.to_nat n))).
  - ring.
  - intros c Hc. apply sumQ_ext. intros idx Hidx.
    unfold cell_term, corner_slot, splat_term.
    destruct (Z.ltb_spec idx n); [|lia]. cbn [andb].
    destruct (_ =? s); [|reflexivity].
    destruct (j =? Z.of_nat vd - 1); ring.
Qed.


(** X15. What [splatCache] adds to the table, for every input: when every
    corner of the [n] samples points to a slot, channel [j] of slot [s]
    receives the contributions of exactly the corners that point to [s],
    each once: the weight of the corner for the last channel, and the
    sample's value times that weight for the other channels. *)
Theorem splatCache_accumulates_every_corner (pd vd : nat) (n : Z) (values_in : Z -> Q)
    (t0 : HashTableGPU) (m0 : Z -> MatrixEntry) (s j : Z) :
  (1 <= vd)%nat ->
  0 <= n ->
  (forall idx c, 0 <= idx < n -> 0 <= c <= Z.of_nat pd ->
     0 <= entries t0 (index (m0 (idx * pd1 pd + c)))) ->
  0 <= j < Z.of_nat vd ->
  (values (snd (splatCache pd vd n values_in m0 t0)) (s * Z.of_nat vd + j)%Z ==
   values t0 (s * Z.of_nat vd + j)%Z
   + sumQ (fun c =>
       sumQ (fun idx =>
         if (entries t0 (index (m0 (idx * pd1 pd + c))) =? s)%Z
         then (if (j =? Z.of_nat vd - 1)%Z then 1
               else values_in (idx * (Z.of_nat vd - 1) + j)%Z)
              * weight (m0 (idx * pd1 pd + c)%Z)
         else 0) (Z.to_nat n)) (S pd))%Q.
Proof. apply splatCache_values. Qed.

Lemma splatCache_accumulates_every_corner_witness :
  let t0 := mkTable 2 (fun _ => 0%Q) (fun _ => 0) (fun _ => 0) in
  let m0 := fun _ : Z => mkEntry 0 (1 # 2) in
  let values_in := fun i : Z => inject_Z (i + 3) in
  (values (snd (splatCache 1 2 2 values_in m0 t0)) (0 * Z.of_nat 2 + 0)%Z ==
   values t0 (0 * Z.of_nat 2 + 0)%Z
   + sumQ (fun c =>
       sumQ (fun idx =>
         if (entries t0 (index (m0 (idx * pd1 1 + c))) =? 0)%Z
         then (if (0 =? Z.of_nat 2 - 1)%Z then 1
               else values_in (idx * (Z.of_nat 2 - 1) + 0)%Z)
              * weight (m0 (idx * pd1 1 + c)%Z)
         else 0) (Z.to_nat 2)) 2)%Q.
Proof.
  apply (splatCache_accumulates_every_corner 1 2 2 (fun i : Z => inject_Z (i + 3))
           (mkTable 2 (fun _ => 0%Q) (fun _ => 0) (fun _ => 0))
           (fun _ : Z => mkEntry 0 (1 # 2)) 0 0).
  - lia.
  - lia.
  - intros idx c _ _. cbn. lia.
  - lia.
Defined.

(** X16. What [splatCache] does to the matrix and to the structure of the
    table, for every input: the capacity, the keys and the entries are left
    as they are, and the matrix entry of every corner of the samples below
    [n] is converted once from a bucket index into the slot stored in that
    bucket, its weight kept; the entries of other samples are not
    touched. *)
Theorem splatCache_converts_the_matrix (pd vd : nat) (n : Z) (values_in : Z -> Q)
    (t0 : HashTableGPU) (m0 : Z -> MatrixEntry) :
  (1 <= vd)%nat ->
  0 <= n ->
  let st := splatCache pd vd n values_in m0 t0 in
  capacity (snd st) = capacity t0 /\
  keys (snd st) = keys t0 /\
  entries (snd st) = entries t0 /\
  forall idx c, 0 <= c <= Z.of_nat pd ->
    fst st (idx * pd1 pd + c) =
    if (0 <=? idx) && (idx <? n)
    then mkEntry (entries t0 (index (m0 (idx * pd1 pd + c)))) (weight (m0 (idx * pd1 pd + c)))
    else m0 (idx * pd1 pd + c).
Proof.
  intros Hvd Hn. cbv zeta.
  pose proof (splatCache_state pd vd Hvd n Hn values_in t0 m0) as [E K C Ce _].
  split; [exact C|]. split; [exact K|]. split; [exact E|].
  intros idx c Hc. rewrite Ce by (unfold pd1; lia). unfold visited, converted.
  destruct (Z.ltb_spec c (pd1 pd)); [|unfold pd1 in *; lia].
  cbn [orb]. now rewrite andb_true_r.
Qed.

Lemma splatCache_converts_the_matrix_witness :
  let t0 := mkTable 2 (fun _ => 0%Q) (fun _ => 0) (fun p => p + 1) in
  let m0 := fun k : Z => mkEntry (k + 2) (1 # 2) in
  let st := splatCache 1 2 2 (fun _ => 1%Q) m0 t0 in
  capacity (snd st) = capacity t0 /\
  keys (snd st) = keys t0 /\
  entries (snd st) = entries t0 /\
  forall idx c, 0 <= c <= Z.of_nat 1 ->
    fst st (idx * pd1 1 + c) =
    if (0 <=? idx) && (idx <? 2)
    then mkEntry (entries t0 (index (m0 (idx * pd1 1 + c)))) (weight (m0 (idx * pd1 1 + c)))
    else m0 (idx * pd1 1 + c).
Proof.
  apply (splatCache_converts_the_matrix 1 2 2 (fun _ => 1%Q)
           (mkTable 2 (fun _ => 0%Q) (fun _ => 0) (fun p => p + 1))
           (fun k : Z => mkEntry (k + 2) (1 # 2))); lia.
Defined.

(** ** Conservation in the splat *)

Lemma sumQ_add (f g : Z -> Q) (m : nat) :
  (sumQ (fun i => f i + g i) m == sumQ f m + sumQ g m)%Q.
Proof.
  induction m as [|m IH]; cbn [sumQ]; [ring|]. rewrite IH. ring.
Qed.

Lemma sumQ_swap (f : Z -> Z -> Q) (a b : nat) :
  (sumQ (fun i => sumQ (fun j => f i j) b) a == sumQ (fun j => sumQ (fun i => f i j) a) b)%Q.
Proof.
  induction a as [|a IH]; cbn [sumQ].
  - symmetry. apply sumQ_zero. reflexivity.
  - rewrite IH. rewrite <- (sumQ_add (fun j => sumQ (fun i => f i j) a)
                              (fun j => f (Z.of_nat a) j)). reflexivity.
Qed.

(** A term that is counted for one index only. *)
Lemma sumQ_indicator (k : Z) (x : Q) (m : nat) :
  0 <= k < Z.of_nat m -> (sumQ (fun s => if (k =? s)%Z then x else 0) m == x)%Q.
Proof.
  intros Hk. rewrite (sumQ_single _ m k Hk).
  - now rewrite Z.eqb_refl.
  - intros i _ Hne. destruct (Z.eqb_spec k i); [congruence|reflexivity].
Qed.

(** X24. [splatCache] loses nothing: when every corner of the samples points
    to one of the first [slots] slots, the total of channel [j] over these
    slots grows by the weighted total of the inputs of the channel (by the
    total of the weights, for the last channel). *)
Theorem splatCache_conserves_totals (pd vd : nat) (n : Z) (values_in : Z -> Q)
    (t0 : HashTableGPU) (m0 : Z -> MatrixEntry) (slots : nat) (j : Z) :
  (1 <= vd)%nat ->
  0 <= n ->
  (forall idx c, 0 <= idx < n -> 0 <= c <= Z.of_nat pd ->
     0 <= entries t0 (index (m0 (idx * pd1 pd + c))) < Z.of_nat slots) ->
  0 <= j < Z.of_nat vd ->
  (sumQ (fun s => values (snd (splatCache pd vd n values_in m0 t0)) (s * Z.of_nat vd + j)%Z)
     slots ==
   sumQ (fun s => values t0 (s * Z.of_nat vd + j)%Z) slots
   + sumQ (fun c =>
       sumQ (fun idx =>
         (if (j =? Z.of_nat vd - 1)%Z then 1
          else values_in (idx * (Z.of_nat vd - 1) + j)%Z)
         * weight (m0 (idx * pd1 pd + c)%Z)) (Z.to_nat n)) (S pd))%Q.
Proof.
  intros Hvd Hn Hslots Hj.
  rewrite (sumQ_ext _ _ slots
             (fun s _ => splatCache_values pd vd n values_in t0 m0 s j Hvd Hn
                           (fun idx c Hidx Hc => proj1 (Hslots idx c Hidx Hc)) Hj)).
  rewrite sumQ_add.
  assert (E : (sumQ (fun s =>
                 sumQ (fun c =>
                   sumQ (fun idx =>
                     if (entries t0 (index (m0 (idx * pd1 pd + c))) =? s)%Z
                     then (if (j =? Z.of_nat vd - 1)%Z then 1
                           else values_in (idx * (Z.of_nat vd - 1) + j)%Z)
                          * weight (m0 (idx * pd1 pd + c)%Z)
                     else 0) (Z.to_nat n)) (S pd)) slots ==
               sumQ (fun c =>
                 sumQ (fun idx =>
                   (if (j =? Z.of_nat vd - 1)%Z then 1
                    else values_in (idx * (Z.of_nat vd - 1) + j)%Z)
                   * weight (m0 (idx * pd1 pd + c)%Z)) (Z.to_nat n)) (S pd))%Q).
  { rewrite (sumQ_swap
               (fun s c =>
                  sumQ (fun idx =>
                    if (entries t0 (index (m0 (idx * pd1 pd + c))) =? s)%Z
                    then ((if (j =? Z.of_nat vd - 1)%Z then 1
                           else values_in (idx * (Z.of_nat vd - 1) + j)%Z)
                          * weight (m0 (idx * pd1 pd + c)%Z))%Q
                    else 0%Q) (Z.to_nat n)) slots (S pd)).
    apply sumQ_ext. intros c Hc.
    rewrite (sumQ_swap
               (fun s idx =>
                  if (entries t0 (index (m0 (idx * pd1 pd + c))) =? s)%Z
                  then ((if (j =? Z.of_nat vd - 1)%Z then 1
                         else values_in (idx * (Z.of_nat vd - 1) + j)%Z)
                        * weight (m0 (idx * pd1 pd + c)%Z))%Q
                  else 0%Q) slots (Z.to_nat n)).
    apply sumQ_ext. intros idx Hidx.
    apply sumQ_indicator. apply Hslots; lia. }
  rewrite E. reflexivity.
Qed.

Lemma splatCache_conserves_totals_witness :
  let t0 := mkTable 2 (fun _ => 0%Q) (fun _ => 0) (fun b => b) in
  let m0 := fun k : Z => mkEntry (k mod 2) (1 # 2) in
  let values_in := fun i : Z => inject_Z (i + 3) in
  (sumQ (fun s => values (snd (splatCache 1 2 2 values_in m0 t0)) (s * Z.of_nat 2 + 0)%Z) 2 ==
   sumQ (fun s => values t0 (s * Z.of_nat 2 + 0)%Z) 2
   + sumQ (fun c =>
       sumQ (fun idx =>
         (if (0 =? Z.of_nat 2 - 1)%Z then 1
          else values_in (idx * (Z.of_nat 2 - 1) + 0)%Z)
         * weight (m0 (idx * pd1 1 + c)%Z)) (Z.to_nat 2)) 2)%Q.
Proof.
  apply (splatCache_conserves_totals 1 2 2 (fun i : Z => inject_Z (i + 3))
           (mkTable 2 (fun _ => 0%Q) (fun _ => 0) (fun b => b))
           (fun k : Z => mkEntry (k mod 2) (1 # 2)) 2 0).
  - lia.
  - lia.
  - intros idx c Hidx Hc. cbn [entries index]. apply Z.mod_pos_bound. lia.
  - lia.
Defined.

(** ** The filter as an average *)

Lemma sumQ_le (f g : Z -> Q) (m : nat) :
  (forall i, 0 <= i < Z.of_nat m -> (f i <= g i)%Q) -> (sumQ f m <= sumQ g m)%Q.
Proof.
  induction m as [|m IH]; intros H; cbn [sumQ]; [apply Qle_refl|].
  specialize (IH ltac:(intros; apply H; lia)).
  pose proof (H (Z.of_nat m) ltac:(lia)). lra.
Qed.

Section Averaging.

Variable vd : nat.
Hypothesis vd_pos : (1 <= vd)%nat.

(** Bounds on the channels of the input. *)
Variable lo hi : Z -> Q.

(** Every row of the buffer is a non-negative mass times a vector that lies
    between the bounds. *)
Definition within (tv : Z -> Q) : Prop :=
  (forall s j, 0 <= j < Z.of_nat vd - 1 ->
     (lo j * mass vd tv s <= tv (s * Z.of_nat vd + j)%Z <= hi j * mass vd tv s)%Q) /\
  (forall s, (0 <= mass vd tv s)%Q).

Lemma within_zero : within (fun _ => 0%Q).
Proof.
  split.
  - intros s j _. unfold mass. split; lra.
  - intros s. unfold mass. apply Qle_refl.
Qed.

Lemma neighbour_within (table : HashTableGPU) (off : Z) :
  within (values table) ->
  (forall j, 0 <= j < Z.of_nat vd - 1 ->
     (lo j * neighbour_value vd table off (Z.of_nat vd - 1)
      <= neighbour_value vd table off j
      <= hi j * neighbour_value vd table off (Z.of_nat vd - 1))%Q) /\
  (0 <= neighbour_value vd table off (Z.of_nat vd - 1))%Q.
Proof.
  intros [P1 P2]. unfold neighbour_value. destruct (0 <=? off).
  - rewrite (Z.mul_comm (Z.of_nat vd) off). split.
    + intros j Hj. apply P1. assumption.
    + apply P2.
  - split; [intros; split; lra|apply Qle_refl].
Qed.

Lemma blurred_within (table : HashTableGPU) (idx offNp offNm : Z) :
  within (values table) ->
  (forall j, 0 <= j < Z.of_nat vd - 1 ->
     (lo j * blurred vd table idx offNp offNm (Z.of_nat vd - 1)
      <= blurred vd table idx offNp offNm j
      <= hi j * blurred vd table idx offNp offNm (Z.of_nat vd - 1))%Q) /\
  ((1 # 2) * mass vd (values table) idx
   <= blurred vd table idx offNp offNm (Z.of_nat vd - 1))%Q.
Proof.
  intros P. pose proof P as [P1 P2].
  destruct (neighbour_within table offNp P) as [A1 A2].
  destruct (neighbour_within table offNm P) as [B1 B2].
  unfold blurred. fold (neighbour_value vd table offNp). fold (neighbour_value vd table offNm).
  rewrite (Z.mul_comm (Z.of_nat vd) idx). split.
  - intros j Hj. specialize (A1 j Hj). specialize (B1 j Hj). specialize (P1 idx j Hj).
    unfold mass, neighbour_value in *.
    set (a := if 0 <=? offNp then values table (Z.of_nat vd * offNp + j) else 0%Q) in *.
    set (am := if 0 <=? offNp
               then values table (Z.of_nat vd * offNp + (Z.of_nat vd - 1)) else 0%Q) in *.
    set (b := if 0 <=? offNm then values table (Z.of_nat vd * offNm + j) else 0%Q) in *.
    set (bm := if 0 <=? offNm
               then values table (Z.of_nat vd * offNm + (Z.of_nat vd - 1)) else 0%Q) in *.
    set (x := values table (idx * Z.of_nat vd + j)) in *.
    set (xm := values table (idx * Z.of_nat vd + (Z.of_nat vd - 1))) in *.
    set (L := lo j) in *. set (H := hi j) in *.
    clearbody a am b bm x xm L H. split; nra.
  - unfold mass, neighbour_value in *. pose proof (P2 idx) as M. lra.
Qed.

Section Rounds.

Variable pd : nat.
Variable fuel : nat.
Variable n : nat.
Variable matrix : Z -> MatrixEntry.
Variable t0 : HashTableGPU.
Hypothesis capacity_pos : 0 < capacity t0.
Hypothesis empty_bucket : exists p, 0 <= p < 2 * capacity t0 /\ entries t0 p = -1.
Hypothesis enough_fuel : (Z.to_nat (2 * capacity t0) <= fuel)%nat.

Variable watched : Z -> Prop.
Hypothesis watched_valid :
  forall s, watched s -> 0 <= s < Z.of_nat (n * S pd) /\ index (matrix s) = s.

Record average_inv (st : HashTableGPU * (Z -> Q)) : Prop := {
  av_entries : entries (fst st) = entries t0;
  av_keys : keys (fst st) = keys t0;
  av_capacity : capacity (fst st) = capacity t0;
  av_values : within (values (fst st));
  av_other : within (snd st);
  av_positive : forall s, watched s -> (0 < mass vd (values (fst st)) s)%Q
}.

Lemma average_round (color : Z) (st : HashTableGPU * (Z -> Q)) :
  average_inv st ->
  exists st', blur_round pd vd fuel n matrix color st = Ret st' /\ average_inv st'.
Proof.
  intros [IE IK IC IV IO IP]. destruct st as [T nv]. cbn [fst snd] in *.
  destruct (blur_returns pd vd fuel (n * S pd) nv matrix color T) as (out & Hout).
  { intros key. apply retrieve_returns; rewrite ?IC, ?IE; assumption. }
  exists (set_values T out, values T). split.
  - unfold blur_round. now rewrite Hout.
  - destruct (blur_spec _ _ _ _ _ _ _ _ _ Hout) as (Hrows & Hframe).
    assert (Rows : forall s,
              (forall i, 0 <= i < Z.of_nat vd ->
                 out (s * Z.of_nat vd + i) = nv (s * Z.of_nat vd + i)) \/
              (0 <= s < Z.of_nat (n * S pd) /\ index (matrix s) = s /\
               exists offNp offNm, forall i, 0 <= i < Z.of_nat vd ->
                 out (s * Z.of_nat vd + i) = blurred vd T s offNp offNm i)).
    { intros s. rewrite (Z.mul_comm s).
      destruct (Z_le_gt_dec 0 s) as [H0|H0];
        [destruct (Z_lt_ge_dec s (Z.of_nat (n * S pd))) as [H1|H1]|].
      - destruct (Hrows s ltac:(lia)) as [(_ & Hrow)|(Hv & a & b & _ & _ & Hrow)].
        + left. exact Hrow.
        + right. split; [lia|]. split; [assumption|]. exists a, b. exact Hrow.
      - left. intros i Hi. apply Hframe; [lia|assumption].
      - left. intros i Hi. apply Hframe; [lia|assumption]. }
    constructor; cbn [fst snd set_values entries keys capacity values]; try assumption.
    + split.
      * intros s j Hj. unfold mass.
        destruct (Rows s) as [Hrow|(_ & _ & a & b & Hrow)]; rewrite !Hrow by lia.
        -- apply (proj1 IO). assumption.
        -- apply (blurred_within T s a b IV). assumption.
      * intros s. unfold mass.
        destruct (Rows s) as [Hrow|(_ & _ & a & b & Hrow)]; rewrite !Hrow by lia.
        -- apply (proj2 IO).
        -- pose proof (proj2 (blurred_within T s a b IV)).
           pose proof (proj2 IV s). lra.
    + intros s Hs. destruct (watched_valid s Hs) as [Hr Hv]. unfold mass.
      destruct (Hrows s Hr) as [(Hn & _)|(_ & a & b & _ & _ & Hrow)]; [contradiction|].
      rewrite (Z.mul_comm s), Hrow by lia.
      pose proof (proj2 (blurred_within T s a b IV)).
      pose proof (IP s Hs). lra.
Qed.

Lemma average_rounds (reverse : bool) (table : HashTableGPU) (nv : Z -> Q) :
  average_inv (table, nv) ->
  exists st', blur_rounds pd vd fuel n reverse matrix table nv = Ret st' /\ average_inv st'.
Proof.
  intros I. unfold blur_rounds.
  apply (for_upM_ind (fun _ st => average_inv st)); [assumption|].
  intros k acc _ Ia. now apply average_round.
Qed.

End Rounds.

(** *** slice *)

Section SliceAverage.

Variable pd : nat.
Variable matrix : Z -> MatrixEntry.
Variable table : HashTableGPU.
Variable n : nat.

Hypothesis values_within : within (values table).
Hypothesis weights_nonneg :
  forall idx i, 0 <= idx < Z.of_nat n -> 0 <= i <= Z.of_nat pd ->
    (0 <= weight (matrix (idx * pd1 pd + i)))%Q.
Hypothesis mass_positive :
  forall idx, 0 <= idx < Z.of_nat n ->
    (0 < weighted_sum pd vd matrix table idx (Z.of_nat vd - 1))%Q.

Lemma weighted_sum_within (idx j : Z) :
  0 <= idx < Z.of_nat n -> 0 <= j < Z.of_nat vd - 1 ->
  (lo j * weighted_sum pd vd matrix table idx (Z.of_nat vd - 1)
   <= weighted_sum pd vd matrix table idx j
   <= hi j * weighted_sum pd vd matrix table idx (Z.of_nat vd - 1))%Q.
Proof.
  intros Hidx Hj. unfold weighted_sum. rewrite <- !sumQ_scale.
  split; apply sumQ_le; intros i Hi;
    pose proof (weights_nonneg idx i Hidx ltac:(lia)) as W;
    unfold corner_weight, corner_value;
    pose proof (proj1 values_within (index (matrix (idx * pd1 pd + i))) j Hj) as [B1 B2];
    unfold mass in B1, B2;
    set (w := weight (matrix (idx * pd1 pd + i))) in *;
    set (x := values table _) in *; set (m := values table _) in *;
    set (L := lo j) in *; set (H := hi j) in *;
    clearbody w x m L H; nra.
Qed.

Lemma slice_average (values_out : Z -> Q) :
  exists out,
    slice pd vd n values_out matrix table = Ret out /\
    forall idx j, 0 <= idx < Z.of_nat n -> 0 <= j < Z.of_nat vd - 1 ->
      (lo j <= out (idx * (Z.of_nat vd - 1) + j)%Z <= hi j)%Q.
Proof.
  unfold slice.
  apply (for_upM_ind
    (fun k out => forall idx j, 0 <= idx < Z.of_nat k -> 0 <= j < Z.of_nat vd - 1 ->
                    (lo j <= out (idx * (Z.of_nat vd - 1) + j)%Z <= hi j)%Q)).
  - intros idx j Hidx. lia.
  - intros k acc Hk IH.
    pose proof (mass_positive (Z.of_nat k) ltac:(lia)) as Hm.
    destruct (slice_thread_spec pd vd matrix table (Z.of_nat k) acc) as (_ & Hret).
    cbv zeta in Hret. destruct Hret as (out & Hout & Hs).
    { intros E. rewrite E in Hm. discriminate. }
    exists out. split; [assumption|]. intros idx j Hidx Hj. rewrite Hs.
    destruct (Z.eq_dec idx (Z.of_nat k)) as [->|Hne].
    + destruct (Z.leb_spec (Z.of_nat k * (Z.of_nat vd - 1))
                  (Z.of_nat k * (Z.of_nat vd - 1) + j)); [|lia].
      destruct (Z.ltb_spec (Z.of_nat k * (Z.of_nat vd - 1) + j)
                  (Z.of_nat k * (Z.of_nat vd - 1) + Z.of_nat (vd - 1))); [|lia].
      cbn [andb].
      replace (Z.of_nat k * (Z.of_nat vd - 1) + j - Z.of_nat k * (Z.of_nat vd - 1))
        with j by lia.
      destruct (weighted_sum_within (Z.of_nat k) j ltac:(lia) Hj) as [B1 B2].
      set (M := weighted_sum pd vd matrix table (Z.of_nat k) (Z.of_nat vd - 1)) in *.
      set (W := weighted_sum pd vd matrix table (Z.of_nat k) j) in *.
      assert (HI : (0 < 1 / M)%Q) by (apply Qlt_shift_div_l; lra).
      assert (E : (M * (1 / M) == 1)%Q) by (field; lra).
      set (I := (1 / M)%Q) in *. set (loj := lo j) in *. set (hij := hi j) in *.
      clearbody M W I loj hij.
      assert (E1 : (loj * M * I == loj)%Q) by (rewrite <- Qmult_assoc, E; ring).
      assert (E2 : (hij * M * I == hij)%Q) by (rewrite <- Qmult_assoc, E; ring).
      split.
      * rewrite <- E1. apply Qmult_le_compat_r; lra.
      * rewrite <- E2. apply Qmult_le_compat_r; lra.
    + destruct (Z.leb_spec (Z.of_nat k * (Z.of_nat vd - 1))
                  (idx * (Z.of_nat vd - 1) + j)); cbn [andb]; [|apply IH; lia].
      destruct (Z.ltb_spec (idx * (Z.of_nat vd - 1) + j)
                  (Z.of_nat k * (Z.of_nat vd - 1) + Z.of_nat (vd - 1)));
        [exfalso; nia|apply IH; lia].
Qed.

End SliceAverage.

End Averaging.

(** *** splatCache *)

Section SplatAverage.

Variable pd vd : nat.
Hypothesis vd_pos : (1 <= vd)%nat.
Variable lo hi : Z -> Q.
Variable n : Z.
Hypothesis n_range : 0 <= n.
Variable values_in : Z -> Q.
Variable t0 : HashTableGPU.
Variable m0 : Z -> MatrixEntry.

Hypothesis input_bounds :
  forall idx j, 0 <= idx < n -> 0 <= j < Z.of_nat vd - 1 ->
    (lo j <= values_in (idx * (Z.of_nat vd - 1) + j)%Z <= hi j)%Q.
Hypothesis weights_nonneg :
  forall idx c, 0 <= idx < n -> 0 <= c < pd1 pd ->
    (0 <= weight (m0 (idx * pd1 pd + c)%Z))%Q.
Hypothesis slots : slots_assigned pd n t0 m0.
Hypothesis initial : within vd lo hi (values t0).

Local Abbreviation term := (cell_term pd vd n values_in t0 m0).

Lemma cell_term_mass_nonneg (s c idx : Z) :
  0 <= idx -> 0 <= c < pd1 pd -> (0 <= term s c (Z.of_nat vd - 1) idx)%Q.
Proof.
  intros Hidx Hc. unfold cell_term, splat_term. rewrite Z.eqb_refl.
  destruct (Z.ltb_spec idx n); cbn [andb]; [|apply Qle_refl].
  destruct (_ =? s); [|apply Qle_refl]. apply weights_nonneg; lia.
Qed.

Lemma cell_term_within (s c j idx : Z) :
  0 <= idx -> 0 <= c < pd1 pd -> 0 <= j < Z.of_nat vd - 1 ->
  (lo j * term s c (Z.of_nat vd - 1) idx <= term s c j idx
   <= hi j * term s c (Z.of_nat vd - 1) idx)%Q.
Proof.
  intros Hidx Hc Hj. unfold cell_term, splat_term. rewrite Z.eqb_refl.
  destruct (Z.eqb_spec j (Z.of_nat vd - 1)); [lia|].
  destruct (Z.ltb_spec idx n); cbn [andb]; [|split; lra].
  destruct (_ =? s); [|split; lra].
  pose proof (weights_nonneg idx c ltac:(lia) Hc) as W.
  destruct (input_bounds idx j ltac:(lia) Hj) as [B1 B2].
  set (w := weight _) in *. set (x := values_in _) in *.
  set (loj := lo j) in *. set (hij := hi j) in *. clearbody w x loj hij.
  split; nra.
Qed.

Lemma splat_values (s j : Z) :
  0 <= j < Z.of_nat vd ->
  (values (snd (splatCache pd vd n values_in m0 t0)) (s * Z.of_nat vd + j)%Z ==
   values t0 (s * Z.of_nat vd + j)%Z
   + sumQ (fun c => sumQ (term s c j) (Z.to_nat n)) (S pd))%Q.
Proof.
  intros Hj.
  pose proof (splatCache_state pd vd vd_pos n n_range values_in t0 m0) as [_ _ _ _ V].
  rewrite (V slots s j Hj).
  change (Z.to_nat (0 * Z.of_nat BLOCK_SIZE)) with 0%nat.
  change (sumQ (term s (pd1 pd) j) 0) with 0%Q.
  replace (Z.to_nat (pd1 pd)) with (S pd) by (unfold pd1; lia). ring.
Qed.

Lemma splat_within : within vd lo hi (values (snd (splatCache pd vd n values_in m0 t0))).
Proof.
  destruct initial as [P1 P2]. split.
  - intros s j Hj. unfold mass.
    rewrite (splat_values s j) by lia. rewrite (splat_values s (Z.of_nat vd - 1)) by lia.
    specialize (P1 s j Hj). unfold mass in P1.
    assert (B : (lo j * sumQ (fun c => sumQ (term s c (Z.of_nat vd - 1)) (Z.to_nat n)) (S pd)
                 <= sumQ (fun c => sumQ (term s c j) (Z.to_nat n)) (S pd)
                 <= hi j * sumQ (fun c => sumQ (term s c (Z.of_nat vd - 1)) (Z.to_nat n)) (S pd))%Q).
    { rewrite <- !sumQ_scale. split; apply sumQ_le; intros c Hc;
        rewrite <- sumQ_scale; apply sumQ_le; intros idx Hidx;
        apply cell_term_within; unfold pd1; lia. }
    set (A := sumQ _ (S pd)) in *. set (Am := sumQ _ (S pd)) in *.
    set (x := values t0 _) in *. set (xm := values t0 _) in *.
    set (loj := lo j) in *. set (hij := hi j) in *. clearbody A Am x xm loj hij.
    split; nra.
  - intros s. unfold mass. rewrite (splat_values s (Z.of_nat vd - 1)) by lia.
    pose proof (P2 s) as M. unfold mass in M.
    assert (0 <= sumQ (fun c => sumQ (term s c (Z.of_nat vd - 1)) (Z.to_nat n)) (S pd))%Q.
    { apply sumQ_nonneg. intros c Hc. apply sumQ_nonneg. intros idx Hidx.
      apply cell_term_mass_nonneg; unfold pd1; lia. }
    lra.
Qed.

(** The slot of a corner holds at least the weight of the corner. *)
Lemma splat_mass_lower (idx c : Z) :
  0 <= idx < n -> 0 <= c < pd1 pd ->
  (weight (m0 (idx * pd1 pd + c)%Z)
   <= mass vd (values (snd (splatCache pd vd n values_in m0 t0))) (corner_slot pd t0 m0 idx c))%Q.
Proof.
  intros Hidx Hc. unfold mass.
  rewrite (splat_values (corner_slot pd t0 m0 idx c) (Z.of_nat vd - 1)) by lia.
  pose proof (proj2 initial (corner_slot pd t0 m0 idx c)) as M. unfold mass in M.
  set (s := corner_slot pd t0 m0 idx c) in *.
  assert (T : term s c (Z.of_nat vd - 1) idx = weight (m0 (idx * pd1 pd + c))).
  { unfold cell_term, splat_term, s. rewrite !Z.eqb_refl.
    destruct (Z.ltb_spec idx n); [reflexivity|lia]. }
  assert (L1 : (term s c (Z.of_nat vd - 1) idx
                <= sumQ (term s c (Z.of_nat vd - 1)) (Z.to_nat n))%Q).
  { apply sumQ_term_le; [|lia]. intros i Hi. apply cell_term_mass_nonneg; lia. }
  assert (L2 : (sumQ (term s c (Z.of_nat vd - 1)) (Z.to_nat n)
                <= sumQ (fun c => sumQ (term s c (Z.of_nat vd - 1)) (Z.to_nat n)) (S pd))%Q).
  { apply (sumQ_term_le (fun c => sumQ (term s c (Z.of_nat vd - 1)) (Z.to_nat n)) (S pd) c);
      [|unfold pd1 in Hc; lia].
    intros c' Hc'. apply sumQ_nonneg. intros i Hi.
    apply cell_term_mass_nonneg; unfold pd1; lia. }
  rewrite T in L1. lra.
Qed.

End SplatAverage.

(** *** The whole pipeline *)

Section AveragePipeline.

Variable pd vd : nat.
Hypothesis vd_pos : (1 <= vd)%nat.
Hypothesis pd_small : pd1 pd * pd1 pd < 2 ^ 16.
Variable scaleFactor : Z -> Q.
Variable fuel : nat.
Variable n : nat.
Hypothesis n_pos : (1 <= n)%nat.
Variable positions : Z -> Q.
Variable inputs : Z -> Q.
Variable lo hi : Z -> Q.

Hypothesis valid_positions :
  forall idx, 0 <= idx < Z.of_nat n ->
    valid_position pd (fun i => positions (idx * Z.of_nat pd + i)) scaleFactor.
Hypothesis input_bounds :
  forall idx j, 0 <= idx < Z.of_nat n -> 0 <= j < Z.of_nat vd - 1 ->
    (lo j <= inputs (idx * (Z.of_nat vd - 1) + j)%Z <= hi j)%Q.
Hypothesis enough_fuel : (Z.to_nat (2 * (Z.of_nat n * pd1 pd)) <= fuel)%nat.

Local Abbreviation cells := (Z.of_nat n * pd1 pd).

Variable t1 : HashTableGPU.
Variable m1 : Z -> MatrixEntry.
Hypothesis built : lattice_inv pd fuel positions scaleFactor cells cells t1 m1.

Lemma corner_cell (idx c : Z) :
  0 <= idx < Z.of_nat n -> 0 <= c < pd1 pd -> 0 <= idx * pd1 pd + c < cells.
Proof. intros Hidx Hc. nia. Qed.

Lemma corner_weight_embed (idx c : Z) :
  0 <= idx < Z.of_nat n -> 0 <= c < pd1 pd ->
  weight (m1 (idx * pd1 pd + c))
  = s_barycentric (embed pd (fun i => positions (idx * Z.of_nat pd + i)) scaleFactor) c.
Proof.
  intros Hidx Hc.
  destruct (inv_found _ _ _ _ _ _ _ _ built _ (corner_cell idx c Hidx Hc)) as (_ & _ & W).
  rewrite W. unfold weight_of, sample_simplex. now rewrite slot_div, slot_mod.
Qed.

Lemma corner_weight_nonneg (idx c : Z) :
  0 <= idx < Z.of_nat n -> 0 <= c < pd1 pd ->
  (0 <= weight (m1 (idx * pd1 pd + c)%Z))%Q.
Proof.
  intros Hidx Hc. rewrite corner_weight_embed by assumption.
  apply valid_weights_nonneg; [assumption|now apply valid_positions|unfold pd1 in Hc; lia].
Qed.

Lemma corner_slot_range (idx c : Z) :
  0 <= idx < Z.of_nat n -> 0 <= c < pd1 pd ->
  0 <= corner_slot pd t1 m1 idx c < cells.
Proof.
  intros Hidx Hc. unfold corner_slot.
  destruct (inv_found _ _ _ _ _ _ _ _ built _ (corner_cell idx c Hidx Hc)) as (Hne & _ & _).
  destruct (inv_entries _ _ _ _ _ _ _ _ built (index (m1 (idx * pd1 pd + c)))) as [E|E];
    [contradiction|exact E].
Qed.

Lemma corner_slot_owner (idx c : Z) :
  0 <= idx < Z.of_nat n -> 0 <= c < pd1 pd ->
  entries t1 (index (m1 (corner_slot pd t1 m1 idx c))) = corner_slot pd t1 m1 idx c.
Proof.
  intros Hidx Hc. unfold corner_slot.
  destruct (inv_found _ _ _ _ _ _ _ _ built _ (corner_cell idx c Hidx Hc)) as (Hne & _ & _).
  rewrite (inv_owner _ _ _ _ _ _ _ _ built _ Hne). reflexivity.
Qed.

Lemma some_corner_has_weight (idx : Z) :
  0 <= idx < Z.of_nat n ->
  exists c, 0 <= c < pd1 pd /\ (0 < weight (m1 (idx * pd1 pd + c)%Z))%Q.
Proof.
  intros Hidx.
  pose proof (embed_weights_sum pd (fun i => positions (idx * Z.of_nat pd + i)) scaleFactor)
    as S1.
  destruct (sumQ_some_positive
              (s_barycentric (embed pd (fun i => positions (idx * Z.of_nat pd + i)) scaleFactor))
              (S pd)) as (c & Hc & Hp); [lra|].
  assert (Hc' : 0 <= c < pd1 pd) by (unfold pd1; lia).
  exists c. split; [assumption|]. now rewrite corner_weight_embed.
Qed.

(** The slots of the corners that carry weight. *)
Definition weighted_slot (s : Z) : Prop :=
  exists idx c, 0 <= idx < Z.of_nat n /\ 0 <= c < pd1 pd /\
    s = corner_slot pd t1 m1 idx c /\ (0 < weight (m1 (idx * pd1 pd + c)%Z))%Q.

Variable st2 : (Z -> MatrixEntry) * HashTableGPU.
Hypothesis splatted : st2 = splatCache pd vd (Z.of_nat n) inputs m1 t1.

Lemma splatted_state :
  splat_state pd vd (Z.of_nat n) inputs t1 m1 (pd1 pd) 0 st2.
Proof. rewrite splatted. apply splatCache_state; [assumption|lia]. Qed.

Lemma splatted_cell (s : Z) : 0 <= s < cells -> fst st2 s = converted t1 m1 s.
Proof.
  intros Hs. pose proof (pd1_pos pd) as HD.
  assert (Hq : 0 <= s / pd1 pd < Z.of_nat n).
  { split; [apply Z.div_pos; lia|]. apply Z.div_lt_upper_bound; lia. }
  pose proof (Z.mod_pos_bound s (pd1 pd) HD) as Hr.
  pose proof (ss_cells _ _ _ _ _ _ _ _ _ splatted_state (s / pd1 pd) (s mod pd1 pd) Hr) as C.
  replace (s / pd1 pd * pd1 pd + s mod pd1 pd) with s in C
    by (rewrite (Z.div_mod s (pd1 pd)) at 1; lia).
  rewrite C. unfold visited.
  destruct (Z.leb_spec 0 (s / pd1 pd)); [|lia].
  destruct (Z.ltb_spec (s / pd1 pd) (Z.of_nat n)); [|lia].
  destruct (Z.ltb_spec (s mod pd1 pd) (pd1 pd)); [|lia].
  reflexivity.
Qed.

Lemma slots_are_assigned : slots_assigned pd (Z.of_nat n) t1 m1.
Proof. intros idx c Hidx Hc. now apply corner_slot_range. Qed.

Lemma initial_within : within vd lo hi (values t1).
Proof. rewrite (inv_values _ _ _ _ _ _ _ _ built). apply within_zero. Qed.

Lemma weighted_slot_valid (s : Z) :
  weighted_slot s -> 0 <= s < Z.of_nat (n * S pd) /\ index (fst st2 s) = s.
Proof.
  intros (idx & c & Hidx & Hc & -> & _).
  pose proof (corner_slot_range idx c Hidx Hc) as R. split.
  - unfold pd1 in R. lia.
  - rewrite splatted_cell by assumption. cbn [converted index].
    now apply corner_slot_owner.
Qed.

Lemma splatted_average_inv :
  average_inv vd lo hi (snd st2) weighted_slot (snd st2, fun _ => 0%Q).
Proof.
  constructor; cbn [fst snd]; try reflexivity.
  - rewrite splatted.
    apply (splat_within pd vd vd_pos lo hi (Z.of_nat n) ltac:(lia) inputs t1 m1);
      [exact input_bounds|exact corner_weight_nonneg|exact slots_are_assigned
      |exact initial_within].
  - apply within_zero.
  - intros s (idx & c & Hidx & Hc & -> & Hw). rewrite splatted.
    pose proof (splat_mass_lower pd vd vd_pos lo hi (Z.of_nat n) ltac:(lia) inputs t1 m1
                  corner_weight_nonneg slots_are_assigned initial_within idx c Hidx Hc) as L.
    lra.
Qed.

Variable st3 : HashTableGPU * (Z -> Q).
Hypothesis blurred_state : average_inv vd lo hi (snd st2) weighted_slot st3.

Lemma splatted_weight_nonneg (idx i : Z) :
  0 <= idx < Z.of_nat n -> 0 <= i <= Z.of_nat pd ->
  (0 <= weight (fst st2 (idx * pd1 pd + i)%Z))%Q.
Proof.
  intros Hidx Hi. assert (Hi' : 0 <= i < pd1 pd) by (unfold pd1; lia).
  rewrite splatted_cell by (now apply corner_cell). cbn [converted weight].
  now apply corner_weight_nonneg.
Qed.

Lemma blurred_mass_positive (idx : Z) :
  0 <= idx < Z.of_nat n ->
  (0 < weighted_sum pd vd (fst st2) (fst st3) idx (Z.of_nat vd - 1))%Q.
Proof.
  intros Hidx. destruct (some_corner_has_weight idx Hidx) as (c & Hc & Hw).
  pose proof (av_values _ _ _ _ _ _ blurred_state) as [_ Hmass].
  assert (Cell : forall i, 0 <= i < pd1 pd ->
            corner_weight pd (fst st2) idx i = weight (m1 (idx * pd1 pd + i)) /\
            corner_value pd vd (fst st2) (fst st3) idx i (Z.of_nat vd - 1)
            = mass vd (values (fst st3)) (corner_slot pd t1 m1 idx i)).
  { intros i Hi. unfold corner_weight, corner_value.
    rewrite splatted_cell by (now apply corner_cell). cbn [converted index weight].
    split; reflexivity. }
  unfold weighted_sum. apply (sumQ_positive _ (S pd) c).
  - intros i Hi. assert (Hi' : 0 <= i < pd1 pd) by (unfold pd1; lia).
    destruct (Cell i Hi') as [-> ->].
    apply Qmult_le_0_compat; [now apply corner_weight_nonneg|apply Hmass].
  - unfold pd1 in Hc. lia.
  - destruct (Cell c Hc) as [-> ->].
    apply Qmult_lt_0_compat; [assumption|].
    apply (av_positive _ _ _ _ _ _ blurred_state). exists idx, c. auto.
Qed.

End AveragePipeline.

(** The filter on positions that fit the 16-bit coordinates: it returns, and
    every output channel stays within the bounds of the inputs. *)
Lemma filter_average (pd vd : nat) (sqrtT : Q -> Q) (fuel num_samples : nat)
    (reverse : bool) (output inputs positions lo hi : Z -> Q) :
  (1 <= vd)%nat ->
  pd1 pd * pd1 pd < 2 ^ 16 ->
  (forall idx, 0 <= idx < Z.of_nat num_samples ->
     valid_position pd (fun i => positions (idx * Z.of_nat pd + i))
       (init_scaleFactor pd sqrtT)) ->
  (forall idx j, 0 <= idx < Z.of_nat num_samples -> 0 <= j < Z.of_nat vd - 1 ->
     (lo j <= inputs (idx * (Z.of_nat vd - 1) + j)%Z <= hi j)%Q) ->
  (Z.to_nat (2 * (Z.of_nat num_samples * pd1 pd)) <= fuel)%nat ->
  exists out,
    snd (filter pd vd sqrtT fuel output inputs positions (Z.of_nat num_samples) reverse) = Ret out /\
    forall idx j, 0 <= idx < Z.of_nat num_samples -> 0 <= j < Z.of_nat vd - 1 ->
      (lo j <= out (idx * (Z.of_nat vd - 1) + j)%Z <= hi j)%Q.
Proof.
  intros vd_pos pd_small Hv Hb Hf.
  unfold filter, new_lattice. cbv zeta. cbn [snd].
  unfold lattice_filter.
  cbn [n matrix hashTable newValues scaleFactor canonical].
  rewrite Nat2Z.id.
  set (sf := init_scaleFactor pd sqrtT) in *.
  destruct (Nat.eq_dec num_samples 0) as [->|Hn].
  - unfold createLattice, cleanHashTable, slice.
    replace (Z.to_nat (2 * Z.of_nat 0 * pd1 pd)) with 0%nat by lia.
    rewrite for_upM_0. cbn [bind]. rewrite for_upM_0. cbn [bind].
    match goal with
    | |- context [splatCache ?a ?b ?c ?d ?e ?f] => destruct (splatCache a b c d e f) as [M2 T2]
    end.
    destruct (blur_rounds_no_samples pd vd fuel reverse M2 T2 (fun _ => 0%Q))
      as ([T3 nv3] & ->).
    cbn [bind]. rewrite for_upM_0. cbn [bind].
    exists output. split; [reflexivity|]. intros idx j Hidx. lia.
  - assert (n_pos : (1 <= num_samples)%nat) by lia.
    pose proof (pd1_pos pd) as HD.
    destruct (createLattice_spec pd fuel positions sf (Z.of_nat num_samples * pd1 pd) Hf
                num_samples (fun _ => mkEntry 0 0%Q) ltac:(lia))
      as (t1 & m1 & -> & Hinv).
    cbn [bind].
    replace (2 * Z.of_nat num_samples * pd1 pd)
      with (2 * (Z.of_nat num_samples * pd1 pd)) by lia.
    rewrite (cleanHashTable_id pd fuel positions sf _ Hf _ t1 m1 _ Hinv). cbn [bind].
    remember (splatCache pd vd (Z.of_nat num_samples) inputs m1 t1) as st2 eqn:Es.
    assert (Hs : splat_state pd vd (Z.of_nat num_samples) inputs t1 m1 (pd1 pd) 0 st2).
    { rewrite Es. apply splatCache_state; [assumption|lia]. }
    pose proof (splatted_average_inv pd vd vd_pos pd_small sf fuel num_samples n_pos
                  positions inputs lo hi Hv Hb Hf t1 m1 Hinv st2 Es) as Hai.
    pose proof (weighted_slot_valid pd vd vd_pos pd_small sf fuel num_samples n_pos
                  positions inputs Hf t1 m1 Hinv st2 Es) as Hwv.
    pose proof (splatted_weight_nonneg pd vd vd_pos pd_small sf fuel num_samples n_pos
                  positions inputs Hv Hf t1 m1 Hinv st2 Es) as Hwn.
    pose proof (blurred_mass_positive pd vd vd_pos pd_small sf fuel num_samples n_pos
                  positions inputs lo hi Hv Hf t1 m1 Hinv st2 Es) as Hmp.
    clear Es. destruct st2 as [M2 T2]. cbn [fst snd] in *.
    assert (Hcap : capacity T2 = Z.of_nat num_samples * pd1 pd).
    { pose proof (ss_capacity _ _ _ _ _ _ _ _ _ Hs) as C. cbn [snd] in C.
      rewrite C. apply (inv_capacity _ _ _ _ _ _ _ _ Hinv). }
    pose proof (ss_entries _ _ _ _ _ _ _ _ _ Hs) as Hent. cbn [snd] in Hent.
    assert (Hempty : exists q, 0 <= q < 2 * capacity T2 /\ entries T2 q = -1).
    { destruct (lattice_inv_empty_bucket _ _ _ _ _ _ _ _ Hinv ltac:(nia)) as (q & Hq & Eq).
      exists q. rewrite Hent, Hcap.
      rewrite (inv_capacity _ _ _ _ _ _ _ _ Hinv) in Hq. auto. }
    destruct (average_rounds vd vd_pos lo hi pd fuel num_samples M2 T2
                ltac:(rewrite Hcap; nia) Hempty ltac:(rewrite Hcap; exact Hf)
                (weighted_slot pd num_samples t1 m1) Hwv reverse T2 (fun _ => 0%Q) Hai)
      as ([T3 nv3] & -> & Hbi).
    cbn [bind].
    destruct (slice_average vd vd_pos lo hi pd M2 T3 num_samples
                (av_values _ _ _ _ _ _ Hbi) Hwn (Hmp (T3, nv3) Hbi) output)
      as (out & -> & Hout).
    cbn [bind]. exists out. split; [reflexivity|]. exact Hout.
Qed.

(** X17. Every output channel of [filter] lies between the bounds that hold for that
    channel over all inputs: the filter computes weighted averages and never
    over- or undershoots, and it returns for every sample count. *)
Theorem filter_output_is_an_average (pd vd : nat) (sqrtT : Q -> Q) (fuel num_samples : nat)
    (reverse : bool) (output inputs positions lo hi : Z -> Q) :
  (1 <= vd)%nat ->
  pd1 pd * pd1 pd < 2 ^ 16 ->
  (forall idx, 0 <= idx < Z.of_nat num_samples ->
     valid_position pd (fun i => positions (idx * Z.of_nat pd + i))
       (init_scaleFactor pd sqrtT)) ->
  (forall idx j, 0 <= idx < Z.of_nat num_samples -> 0 <= j < Z.of_nat vd - 1 ->
     (lo j <= inputs (idx * (Z.of_nat vd - 1) + j)%Z <= hi j)%Q) ->
  (Z.to_nat (2 * (Z.of_nat num_samples * pd1 pd)) <= fuel)%nat ->
  exists out,
    snd (filter pd vd sqrtT fuel output inputs positions (Z.of_nat num_samples) reverse) = Ret out /\
    forall idx j, 0 <= idx < Z.of_nat num_samples -> 0 <= j < Z.of_nat vd - 1 ->
      (lo j <= out (idx * (Z.of_nat vd - 1) + j)%Z <= hi j)%Q.
Proof. apply filter_average. Qed.

Lemma filter_output_is_an_average_witness :
  exists out,
    snd (filter 1 2 (fun x => x) 8 (fun _ => 0%Q)
           (fun k => if k =? 0 then 2%Q else 5%Q)
           (fun k => if k =? 0 then (1 # 7)%Q else (9 # 4)%Q) (Z.of_nat 2) false) = Ret out /\
    forall idx j, 0 <= idx < Z.of_nat 2 -> 0 <= j < Z.of_nat 2 - 1 ->
      ((fun _ => 2%Q) j <= out (idx * (Z.of_nat 2 - 1) + j)%Z <= (fun _ => 5%Q) j)%Q.
Proof.
  apply (filter_output_is_an_average 1 2 (fun x => x) 8 2 false (fun _ => 0%Q)
           (fun k => if k =? 0 then 2%Q else 5%Q)
           (fun k => if k =? 0 then (1 # 7)%Q else (9 # 4)%Q)
           (fun _ => 2%Q) (fun _ => 5%Q)).
  - lia.
  - reflexivity.
  - intros idx Hidx i Hi.
    assert (E : idx = 0 \/ idx = 1) by lia. assert (E' : i = 0 \/ i = 1) by lia.
    destruct E as [-> | ->], E' as [-> | ->]; vm_compute; intuition discriminate.
  - intros idx j Hidx Hj.
    assert (E : idx = 0 \/ idx = 1) by lia. assert (j = 0) by lia. subst j.
    destruct E as [-> | ->]; vm_compute; intuition discriminate.
  - vm_compute. lia.
Defined.

(** ** The filter on an empty input *)

(** X19. On an empty input (no samples) [filter] returns the output buffer
    untouched, prints nothing, and needs no fuel. *)
Theorem filter_of_no_samples (pd vd : nat) (sqrtT : Q -> Q) (fuel : nat) (reverse : bool)
    (output inputs positions : Z -> Q) :
  filter pd vd sqrtT fuel output inputs positions 0 reverse = ([], Ret output).
Proof.
  unfold filter, new_lattice. cbv zeta.
  change (65535 * Z.of_nat BLOCK_SIZE <=? 0) with false. cbv iota. f_equal.
  unfold lattice_filter.
  cbn [n matrix hashTable newValues scaleFactor canonical].
  unfold createLattice, cleanHashTable, slice.
  change (Z.to_nat 0) with 0%nat.
  replace (Z.to_nat (2 * 0 * pd1 pd)) with 0%nat by lia.
  rewrite for_upM_0. cbn [bind]. rewrite for_upM_0. cbn [bind].
  match goal with
  | |- context [splatCache ?a ?b ?c ?d ?e ?f] => destruct (splatCache a b c d e f) as [M2 T2]
  end.
  destruct (blur_rounds_no_samples pd vd fuel reverse M2 T2 (fun _ => 0%Q))
    as ([T3 nv3] & ->).
  cbn [bind]. rewrite for_upM_0. cbn [bind]. reflexivity.
Qed.

(** ** Homogeneous coordinates in the slice *)

(** Two runs end the same way, with the same buffer when they return. *)
Definition same_output (r r' : result (Z -> Q)) : Prop :=
  match r, r' with
  | Ret out, Ret out' => forall k, out k == out' k
  | OutOfFuel, OutOfFuel => True
  | DivByZero, DivByZero => True
  | _, _ => False
  end.

(** The accumulators of [table], all multiplied by [c]. *)
Definition scale_values (c : Q) (table : HashTableGPU) : HashTableGPU :=
  set_values table (fun k => c * values table k)%Q.

Lemma weighted_sum_scaled (pd vd : nat) (c : Q) (matrix : Z -> MatrixEntry)
    (table : HashTableGPU) (idx j : Z) :
  (weighted_sum pd vd matrix (scale_values c table) idx j
   == c * weighted_sum pd vd matrix table idx j)%Q.
Proof.
  unfold weighted_sum. rewrite <- sumQ_scale. apply sumQ_ext. intros i _.
  unfold corner_value, scale_values. cbn [values set_values]. ring.
Qed.

Lemma slice_thread_scaled (pd vd : nat) (c : Q) (matrix : Z -> MatrixEntry)
    (table : HashTableGPU) (idx : Z) (values_out values_out' : Z -> Q) :
  ~ c == 0 ->
  (forall k, values_out' k == values_out k) ->
  same_output (slice_thread pd vd matrix (scale_values c table) idx values_out')
              (slice_thread pd vd matrix table idx values_out).
Proof.
  intros Hc Hv.
  destruct (slice_thread_spec pd vd matrix table idx values_out) as (Z0 & N0).
  destruct (slice_thread_spec pd vd matrix (scale_values c table) idx values_out')
    as (Z1 & N1).
  cbv zeta in *.
  pose proof (weighted_sum_scaled pd vd c matrix table idx (Z.of_nat vd - 1)) as M.
  destruct (Qeq_dec (weighted_sum pd vd matrix table idx (Z.of_nat vd - 1)) 0) as [E|E].
  - rewrite (Z0 E), Z1; [exact I|]. rewrite M, E. ring.
  - destruct (N0 E) as (out & -> & S0).
    destruct N1 as (out' & -> & S1).
    { rewrite M. intros H. apply Qmult_integral in H. tauto. }
    cbn [same_output]. intros k. rewrite S0, S1.
    destruct ((idx * (Z.of_nat vd - 1) <=? k)
              && (k <? idx * (Z.of_nat vd - 1) + Z.of_nat (vd - 1))); [|apply Hv].
    rewrite M, weighted_sum_scaled. field. split; assumption.
Qed.

(** X25. [slice] reads the accumulators as homogeneous coordinates:
    multiplying every accumulator of the table by the same non-zero factor
    changes neither whether the kernel returns nor the buffer it returns. *)
Theorem slice_ignores_a_common_factor (pd vd num_samples : nat) (c : Q)
    (values_out : Z -> Q) (matrix : Z -> MatrixEntry) (table : HashTableGPU) :
  ~ c == 0 ->
  same_output (slice pd vd num_samples values_out matrix (scale_values c table))
              (slice pd vd num_samples values_out matrix table).
Proof.
  intros Hc. unfold slice. induction num_samples as [|m IH].
  - rewrite !for_upM_0. cbn [same_output]. reflexivity.
  - rewrite !for_upM_S.
    destruct (for_upM m (slice_thread pd vd matrix (scale_values c table)) values_out)
      as [mid'| |];
      destruct (for_upM m (slice_thread pd vd matrix table) values_out) as [mid| |];
      cbn [same_output] in IH; try contradiction; cbn [bind]; try exact I.
    now apply slice_thread_scaled.
Qed.

Lemma slice_ignores_a_common_factor_witness :
  same_output
    (slice 1 2 2 (fun _ => 0%Q) (fun k => mkEntry (k mod 2) (1 # 2))
       (scale_values (3 # 1) (mkTable 2 (fun k => inject_Z (k + 1)) (fun _ => 0) (fun b => b))))
    (slice 1 2 2 (fun _ => 0%Q) (fun k => mkEntry (k mod 2) (1 # 2))
       (mkTable 2 (fun k => inject_Z (k + 1)) (fun _ => 0) (fun b => b))).
Proof.
  apply (slice_ignores_a_common_factor 1 2 2 (3 # 1) (fun _ => 0%Q)
           (fun k => mkEntry (k mod 2) (1 # 2))
           (mkTable 2 (fun k => inject_Z (k + 1)) (fun _ => 0) (fun b => b))).
  discriminate.
Defined.

(** ** The output buffer outside the samples *)

Lemma slice_frame (pd vd m : nat) (values_out out : Z -> Q) (matrix : Z -> MatrixEntry)
    (table : HashTableGPU) :
  slice pd vd m values_out matrix table = Ret out ->
  forall k, ~ 0 <= k < Z.of_nat m * (Z.of_nat vd - 1) -> out k = values_out k.
Proof.
  unfold slice.
  apply (for_upM_inv
           (fun i (o : Z -> Q) =>
              forall k, ~ 0 <= k < Z.of_nat i * (Z.of_nat vd - 1) -> o k = values_out k)).
  - reflexivity.
  - intros i acc acc' Hi IH Hth k Hk.
    destruct (slice_thread_spec pd vd matrix table (Z.of_nat i) acc) as (Z0 & N0).
    cbv zeta in Z0, N0.
    destruct (Qeq_dec (weighted_sum pd vd matrix table (Z.of_nat i) (Z.of_nat vd - 1)) 0)
      as [E|E]; [rewrite (Z0 E) in Hth; discriminate|].
    destruct (N0 E) as (o & Ho & S). rewrite Ho in Hth. injection Hth as <-.
    rewrite S.
    destruct (Z.leb_spec (Z.of_nat i * (Z.of_nat vd - 1)) k); cbn [andb]; [|apply IH; nia].
    destruct (Z.ltb_spec k (Z.of_nat i * (Z.of_nat vd - 1) + Z.of_nat (vd - 1)));
      [exfalso; nia|apply IH; nia].
Qed.

(** X26. [filter] writes the rows of the samples only: whenever it returns,
    every cell of the output buffer outside the first [n * (vd - 1)] cells
    holds what it held before the call. *)
Theorem filter_writes_the_sample_rows_only (pd vd : nat) (sqrtT : Q -> Q)
    (fuel num_samples : nat) (reverse : bool) (output inputs positions out : Z -> Q) :
  snd (filter pd vd sqrtT fuel output inputs positions (Z.of_nat num_samples) reverse)
  = Ret out ->
  forall k, ~ 0 <= k < Z.of_nat num_samples * (Z.of_nat vd - 1) -> out k = output k.
Proof.
  unfold filter, new_lattice. cbv zeta. cbn [snd].
  unfold lattice_filter.
  cbn [n matrix hashTable newValues scaleFactor canonical].
  rewrite Nat2Z.id. intros H.
  apply bind_Ret in H. destruct H as ([o L] & H & E). injection E as <-.
  apply bind_Ret in H. destruct H as ([t1 m1] & _ & H).
  apply bind_Ret in H. destruct H as (t2 & _ & H).
  destruct (splatCache pd vd (Z.of_nat num_samples) inputs m1 t2) as [M2 T2].
  apply bind_Ret in H. destruct H as ([T3 nv3] & _ & H).
  apply bind_Ret in H. destruct H as (o' & H & E). injection E as <- _.
  now apply (slice_frame pd vd num_samples output o' M2 T3).
Qed.

(** The buffer that a run returned ([d] when it did not return). *)
Definition returned (r : result (Z -> Q)) (d : Z -> Q) : Z -> Q :=
  match r with
  | Ret out => out
  | _ => d
  end.

Lemma filter_writes_the_sample_rows_only_witness :
  let output := fun i : Z => inject_Z i in
  let run := snd (filter 1 2 (fun x => x) 8 output (fun _ => (5 # 1)%Q) (fun _ => 0%Q)
                    (Z.of_nat 2) false) in
  run = Ret (returned run output) /\
  forall k, ~ 0 <= k < Z.of_nat 2 * (Z.of_nat 2 - 1) -> returned run output k = output k.
Proof.
  assert (R : snd (filter 1 2 (fun x => x) 8 (fun i : Z => inject_Z i) (fun _ => (5 # 1)%Q)
                     (fun _ => 0%Q) (Z.of_nat 2) false)
              = Ret (returned
                       (snd (filter 1 2 (fun x => x) 8 (fun i : Z => inject_Z i)
                               (fun _ => (5 # 1)%Q) (fun _ => 0%Q) (Z.of_nat 2) false))
                       (fun i : Z => inject_Z i))) by (vm_compute; reflexivity).
  split; [exact R|].
  exact (filter_writes_the_sample_rows_only 1 2 (fun x => x) 8 2 false
           (fun i : Z => inject_Z i) (fun _ => (5 # 1)%Q) (fun _ => 0%Q) _ R).
Defined.

(** ** Linearity of the filter *)

(** [splatCache] writes to the accumulators of the table only. *)
Lemma splatCache_table (pd vd : nat) (num : Z) (values_in : Z -> Q)
    (matrix : Z -> MatrixEntry) (table : HashTableGPU) :
  capacity (snd (splatCache pd vd num values_in matrix table)) = capacity table /\
  entries (snd (splatCache pd vd num values_in matrix table)) = entries table /\
  keys (snd (splatCache pd vd num values_in matrix table)) = keys table.
Proof.
  unfold splatCache.
  apply (for_up_ind
           (fun _ (st : (Z -> MatrixEntry) * HashTableGPU) =>
              capacity (snd st) = capacity table /\ entries (snd st) = entries table /\
              keys (snd st) = keys table)); [auto|].
  intros color st _ H.
  apply (for_up_ind
           (fun _ (st : (Z -> MatrixEntry) * HashTableGPU) =>
              capacity (snd st) = capacity table /\ entries (snd st) = entries table /\
              keys (snd st) = keys table)); [assumption|].
  intros b [m t] _ H'. cbn [snd] in H'. unfold splat_block.
  destruct (for_up BLOCK_SIZE (splat_load pd vd num values_in t (Z.of_nat color) (Z.of_nat b))
              (m, fun _ => 0, fun _ => 0%Q)) as [[m' so] sv].
  destruct (for_up BLOCK_SIZE (splat_reduce vd num so (Z.of_nat b)) (sv, values t))
    as [sv' tv]. cbn [snd set_values capacity entries keys]. assumption.
Qed.

Lemma table_eta (t t' : HashTableGPU) :
  capacity t' = capacity t -> keys t' = keys t -> entries t' = entries t ->
  t' = set_values t (values t').
Proof. destruct t, t'. cbn. now intros -> -> ->. Qed.

Lemma retrieve_values (pd fuel : nat) (t : HashTableGPU) (vs : Z -> Q) (key : Z -> Z) :
  retrieve pd fuel (set_values t vs) key = retrieve pd fuel t key.
Proof. unfold retrieve. apply retrieve_loop_values. Qed.

Section Linearity.

Variable vd : nat.
Hypothesis vd_pos : (1 <= vd)%nat.
Variable a b : Q.

(** In the value channels the third buffer is [a] times the first plus [b]
    times the second; the three buffers have the same mass channel. *)
Definition combined (u1 u2 u3 : Z -> Q) : Prop :=
  forall s,
    (forall j, 0 <= j < Z.of_nat vd - 1 ->
       u3 (s * Z.of_nat vd + j)%Z
       == a * u1 (s * Z.of_nat vd + j)%Z + b * u2 (s * Z.of_nat vd + j)%Z) /\
    u2 (s * Z.of_nat vd + (Z.of_nat vd - 1))%Z == u1 (s * Z.of_nat vd + (Z.of_nat vd - 1))%Z /\
    u3 (s * Z.of_nat vd + (Z.of_nat vd - 1))%Z == u1 (s * Z.of_nat vd + (Z.of_nat vd - 1))%Z.

Lemma combined_zero : combined (fun _ => 0%Q) (fun _ => 0%Q) (fun _ => 0%Q).
Proof. intros s. split; [intros; ring|split; reflexivity]. Qed.

Lemma sumQ_combined (f1 f2 f3 : Z -> Q) (m : nat) :
  (forall i, 0 <= i < Z.of_nat m -> f3 i == a * f1 i + b * f2 i) ->
  sumQ f3 m == a * sumQ f1 m + b * sumQ f2 m.
Proof.
  induction m as [|m IH]; intros H; cbn [sumQ]; [ring|].
  rewrite IH, (H (Z.of_nat m)) by (try intros; try apply H; lia). ring.
Qed.

(** *** splatCache *)

Lemma splat_combined (pd : nat) (n : Z) (x1 x2 x3 : Z -> Q) (t0 : HashTableGPU)
    (m0 : Z -> MatrixEntry) :
  0 <= n ->
  values t0 = (fun _ => 0%Q) ->
  (forall idx c, 0 <= idx < n -> 0 <= c <= Z.of_nat pd ->
     0 <= entries t0 (index (m0 (idx * pd1 pd + c)))) ->
  (forall idx j, 0 <= idx < n -> 0 <= j < Z.of_nat vd - 1 ->
     x3 (idx * (Z.of_nat vd - 1) + j)%Z
     == a * x1 (idx * (Z.of_nat vd - 1) + j)%Z + b * x2 (idx * (Z.of_nat vd - 1) + j)%Z) ->
  combined (values (snd (splatCache pd vd n x1 m0 t0)))
           (values (snd (splatCache pd vd n x2 m0 t0)))
           (values (snd (splatCache pd vd n x3 m0 t0))).
Proof.
  intros Hn Hz Hslots Hx s.
  assert (Hm : 0 <= Z.of_nat vd - 1 < Z.of_nat vd) by lia.
  split; [|split].
  - intros j Hj.
    rewrite !(fun x => splatCache_values pd vd n x t0 m0 s j vd_pos Hn Hslots ltac:(lia)).
    rewrite Hz.
    rewrite (sumQ_combined
               (fun c => sumQ (fun idx =>
                  if (entries t0 (index (m0 (idx * pd1 pd + c))) =? s)%Z
                  then ((if (j =? Z.of_nat vd - 1)%Z then 1
                         else x1 (idx * (Z.of_nat vd - 1) + j)%Z)
                        * weight (m0 (idx * pd1 pd + c)%Z))%Q
                  else 0%Q) (Z.to_nat n))
               (fun c => sumQ (fun idx =>
                  if (entries t0 (index (m0 (idx * pd1 pd + c))) =? s)%Z
                  then ((if (j =? Z.of_nat vd - 1)%Z then 1
                         else x2 (idx * (Z.of_nat vd - 1) + j)%Z)
                        * weight (m0 (idx * pd1 pd + c)%Z))%Q
                  else 0%Q) (Z.to_nat n))).
    + ring.
    + intros c Hc. apply sumQ_combined. intros idx Hidx.
      destruct (_ =? s); [|ring].
      destruct (Z.eqb_spec j (Z.of_nat vd - 1)); [lia|].
      rewrite Hx by lia. ring.
  - rewrite !(fun x => splatCache_values pd vd n x t0 m0 s _ vd_pos Hn Hslots Hm).
    rewrite Z.eqb_refl. reflexivity.
  - rewrite !(fun x => splatCache_values pd vd n x t0 m0 s _ vd_pos Hn Hslots Hm).
    rewrite Z.eqb_refl. reflexivity.
Qed.

(** *** blur *)

Section Rounds.

Variable pd fuel m : nat.
Variable matrix : Z -> MatrixEntry.
Variable t0 : HashTableGPU.
Hypothesis capacity_pos : 0 < capacity t0.
Hypothesis empty_bucket : exists p, 0 <= p < 2 * capacity t0 /\ entries t0 p = -1.
Hypothesis enough_fuel : (Z.to_nat (2 * capacity t0) <= fuel)%nat.

(** The rows that a launch of [blur] on [m] rows writes. *)
Definition blurs (s : Z) : bool :=
  (0 <=? s) && (s <? Z.of_nat m) && (index (matrix s) =? s).

Lemma blur_rows (color : Z) (v nv : Z -> Q) :
  exists out,
    blur pd vd fuel m nv matrix color (set_values t0 v) = Ret out /\
    forall s,
      if blurs s then
        exists offNp offNm,
          retrieve pd fuel t0 (fst (neighbours pd t0 s color)) = Ret offNp /\
          retrieve pd fuel t0 (snd (neighbours pd t0 s color)) = Ret offNm /\
          forall i, 0 <= i < Z.of_nat vd ->
            out (s * Z.of_nat vd + i) = blurred vd (set_values t0 v) s offNp offNm i
      else
        forall i, 0 <= i < Z.of_nat vd ->
          out (s * Z.of_nat vd + i) = nv (s * Z.of_nat vd + i).
Proof.
  destruct (blur_returns pd vd fuel m nv matrix color (set_values t0 v)) as (out & Hout).
  { intros key. rewrite retrieve_values. now apply retrieve_returns. }
  exists out. split; [exact Hout|].
  destruct (blur_spec _ _ _ _ _ _ _ _ _ Hout) as (Hrows & Hframe).
  intros s. unfold blurs. rewrite (Z.mul_comm s).
  destruct (Z.leb_spec 0 s) as [H0|H0]; cbn [andb];
    [destruct (Z.ltb_spec s (Z.of_nat m)) as [H1|H1]; cbn [andb]|].
  - destruct (Hrows s ltac:(lia)) as [(Hne & Hrow)|(He & oa & ob & Ra & Rb & Hrow)].
    + destruct (Z.eqb_spec (index (matrix s)) s); [contradiction|exact Hrow].
    + destruct (Z.eqb_spec (index (matrix s)) s); [|contradiction].
      exists oa, ob. rewrite retrieve_values in Ra, Rb. auto.
  - intros i Hi. apply Hframe; [lia|assumption].
  - intros i Hi. apply Hframe; [lia|assumption].
Qed.

Lemma blurred_combined (v1 v2 v3 : Z -> Q) (s offNp offNm : Z) :
  combined v1 v2 v3 ->
  (forall j, 0 <= j < Z.of_nat vd - 1 ->
     blurred vd (set_values t0 v3) s offNp offNm j
     == a * blurred vd (set_values t0 v1) s offNp offNm j
        + b * blurred vd (set_values t0 v2) s offNp offNm j) /\
  blurred vd (set_values t0 v2) s offNp offNm (Z.of_nat vd - 1)
  == blurred vd (set_values t0 v1) s offNp offNm (Z.of_nat vd - 1) /\
  blurred vd (set_values t0 v3) s offNp offNm (Z.of_nat vd - 1)
  == blurred vd (set_values t0 v1) s offNp offNm (Z.of_nat vd - 1).
Proof.
  intros C. unfold blurred. cbn [values set_values].
  rewrite !(Z.mul_comm (Z.of_nat vd)).
  destruct (C s) as (Cs & Ms2 & Ms3).
  destruct (C offNp) as (Cp & Mp2 & Mp3). destruct (C offNm) as (Cm & Mm2 & Mm3).
  split; [|split].
  - intros j Hj. rewrite (Cs j Hj).
    destruct (0 <=? offNp), (0 <=? offNm); rewrite ?(Cp j Hj), ?(Cm j Hj); ring.
  - rewrite Ms2. destruct (0 <=? offNp), (0 <=? offNm); rewrite ?Mp2, ?Mm2; reflexivity.
  - rewrite Ms3. destruct (0 <=? offNp), (0 <=? offNm); rewrite ?Mp3, ?Mm3; reflexivity.
Qed.

Lemma blur_combined (color : Z) (v1 v2 v3 nv1 nv2 nv3 : Z -> Q) :
  combined v1 v2 v3 -> combined nv1 nv2 nv3 ->
  exists o1 o2 o3,
    blur pd vd fuel m nv1 matrix color (set_values t0 v1) = Ret o1 /\
    blur pd vd fuel m nv2 matrix color (set_values t0 v2) = Ret o2 /\
    blur pd vd fuel m nv3 matrix color (set_values t0 v3) = Ret o3 /\
    combined o1 o2 o3.
Proof.
  intros Cv Cn.
  destruct (blur_rows color v1 nv1) as (o1 & H1 & R1).
  destruct (blur_rows color v2 nv2) as (o2 & H2 & R2).
  destruct (blur_rows color v3 nv3) as (o3 & H3 & R3).
  exists o1, o2, o3. repeat (split; [assumption|]).
  intros s. specialize (R1 s). specialize (R2 s). specialize (R3 s).
  assert (Hm : 0 <= Z.of_nat vd - 1 < Z.of_nat vd) by lia.
  destruct (blurs s).
  - destruct R1 as (oa & ob & Ra & Rb & E1).
    destruct R2 as (oa2 & ob2 & Ra2 & Rb2 & E2).
    destruct R3 as (oa3 & ob3 & Ra3 & Rb3 & E3).
    assert (oa2 = oa) by congruence. assert (ob2 = ob) by congruence.
    assert (oa3 = oa) by congruence. assert (ob3 = ob) by congruence. subst.
    destruct (blurred_combined v1 v2 v3 s oa ob Cv) as (B & M2 & M3).
    split; [|split].
    + intros j Hj. rewrite E1, E2, E3 by lia. now apply B.
    + rewrite E1, E2 by lia. exact M2.
    + rewrite E1, E3 by lia. exact M3.
  - destruct (Cn s) as (B & M2 & M3). split; [|split].
    + intros j Hj. rewrite R1, R2, R3 by lia. now apply B.
    + rewrite R1, R2 by lia. exact M2.
    + rewrite R1, R3 by lia. exact M3.
Qed.

End Rounds.

Lemma rounds_combined (pd fuel num : nat) (reverse : bool) (matrix : Z -> MatrixEntry)
    (t0 : HashTableGPU) (v1 v2 v3 nv1 nv2 nv3 : Z -> Q) :
  0 < capacity t0 ->
  (exists p, 0 <= p < 2 * capacity t0 /\ entries t0 p = -1) ->
  (Z.to_nat (2 * capacity t0) <= fuel)%nat ->
  combined v1 v2 v3 -> combined nv1 nv2 nv3 ->
  exists u1 u2 u3 w1 w2 w3,
    blur_rounds pd vd fuel num reverse matrix (set_values t0 v1) nv1
      = Ret (set_values t0 u1, w1) /\
    blur_rounds pd vd fuel num reverse matrix (set_values t0 v2) nv2
      = Ret (set_values t0 u2, w2) /\
    blur_rounds pd vd fuel num reverse matrix (set_values t0 v3) nv3
      = Ret (set_values t0 u3, w3) /\
    combined u1 u2 u3.
Proof.
  intros Hc He Hf Cv Cn. unfold blur_rounds. generalize (S pd). intros k.
  assert (G : exists u1 u2 u3 w1 w2 w3,
            for_upM k (fun k st => blur_round pd vd fuel num matrix
                                     (if reverse then Z.of_nat pd - k else k) st)
              (set_values t0 v1, nv1) = Ret (set_values t0 u1, w1) /\
            for_upM k (fun k st => blur_round pd vd fuel num matrix
                                     (if reverse then Z.of_nat pd - k else k) st)
              (set_values t0 v2, nv2) = Ret (set_values t0 u2, w2) /\
            for_upM k (fun k st => blur_round pd vd fuel num matrix
                                     (if reverse then Z.of_nat pd - k else k) st)
              (set_values t0 v3, nv3) = Ret (set_values t0 u3, w3) /\
            combined u1 u2 u3 /\ combined w1 w2 w3).
  { induction k as [|k IH].
    - exists v1, v2, v3, nv1, nv2, nv3. rewrite !for_upM_0. auto.
    - destruct IH as (u1 & u2 & u3 & w1 & w2 & w3 & E1 & E2 & E3 & Cu & Cw).
      rewrite !for_upM_S, E1, E2, E3. cbn [bind]. unfold blur_round.
      destruct (blur_combined pd fuel (num * S pd) matrix t0 Hc He Hf
                  (if reverse then Z.of_nat pd - Z.of_nat k else Z.of_nat k)
                  u1 u2 u3 w1 w2 w3 Cu Cw) as (o1 & o2 & o3 & -> & -> & -> & Co).
      cbn [bind]. exists o1, o2, o3, u1, u2, u3.
      cbn [set_values capacity keys entries values]. auto. }
  destruct G as (u1 & u2 & u3 & w1 & w2 & w3 & E1 & E2 & E3 & Cu & _).
  exists u1, u2, u3, w1, w2, w3. auto.
Qed.

(** *** slice *)

(** How three runs on inputs [x1], [x2] and [a * x1 + b * x2] end. *)
Definition linear_outputs (num : Z) (r1 r2 r3 : result (Z -> Q)) : Prop :=
  match r1, r2, r3 with
  | Ret o1, Ret o2, Ret o3 =>
      forall idx j, 0 <= idx < num -> 0 <= j < Z.of_nat vd - 1 ->
        o3 (idx * (Z.of_nat vd - 1) + j)%Z
        == a * o1 (idx * (Z.of_nat vd - 1) + j)%Z + b * o2 (idx * (Z.of_nat vd - 1) + j)%Z
  | DivByZero, DivByZero, DivByZero => True
  | _, _, _ => False
  end.

Lemma weighted_sum_combined (pd : nat) (matrix : Z -> MatrixEntry) (t0 : HashTableGPU)
    (u1 u2 u3 : Z -> Q) (idx : Z) :
  combined u1 u2 u3 ->
  (forall j, 0 <= j < Z.of_nat vd - 1 ->
     weighted_sum pd vd matrix (set_values t0 u3) idx j
     == a * weighted_sum pd vd matrix (set_values t0 u1) idx j
        + b * weighted_sum pd vd matrix (set_values t0 u2) idx j) /\
  weighted_sum pd vd matrix (set_values t0 u2) idx (Z.of_nat vd - 1)
  == weighted_sum pd vd matrix (set_values t0 u1) idx (Z.of_nat vd - 1) /\
  weighted_sum pd vd matrix (set_values t0 u3) idx (Z.of_nat vd - 1)
  == weighted_sum pd vd matrix (set_values t0 u1) idx (Z.of_nat vd - 1).
Proof.
  intros C. unfold weighted_sum, corner_value. cbn [values set_values].
  split; [|split].
  - intros j Hj. apply sumQ_combined. intros i _.
    destruct (C (index (matrix (idx * pd1 pd + i)))) as (Cs & _). rewrite (Cs j Hj). ring.
  - apply sumQ_ext. intros i _.
    destruct (C (index (matrix (idx * pd1 pd + i)))) as (_ & M2 & _). now rewrite M2.
  - apply sumQ_ext. intros i _.
    destruct (C (index (matrix (idx * pd1 pd + i)))) as (_ & _ & M3). now rewrite M3.
Qed.

Lemma slice_combined (pd num : nat) (matrix : Z -> MatrixEntry) (t0 : HashTableGPU)
    (u1 u2 u3 output : Z -> Q) :
  combined u1 u2 u3 ->
  linear_outputs (Z.of_nat num)
    (slice pd vd num output matrix (set_values t0 u1))
    (slice pd vd num output matrix (set_values t0 u2))
    (slice pd vd num output matrix (set_values t0 u3)).
Proof.
  intros C. unfold slice. induction num as [|k IH].
  - rewrite !for_upM_0. cbn [linear_outputs]. intros idx j Hidx. lia.
  - rewrite !for_upM_S.
    destruct (for_upM k (slice_thread pd vd matrix (set_values t0 u1)) output) as [p1| |];
      destruct (for_upM k (slice_thread pd vd matrix (set_values t0 u2)) output) as [p2| |];
      destruct (for_upM k (slice_thread pd vd matrix (set_values t0 u3)) output) as [p3| |];
      cbn [linear_outputs] in IH; try contradiction; cbn [bind]; try exact I.
    destruct (weighted_sum_combined pd matrix t0 u1 u2 u3 (Z.of_nat k) C) as (W & M2 & M3).
    destruct (slice_thread_spec pd vd matrix (set_values t0 u1) (Z.of_nat k) p1) as (Z1 & N1).
    destruct (slice_thread_spec pd vd matrix (set_values t0 u2) (Z.of_nat k) p2) as (Z2 & N2).
    destruct (slice_thread_spec pd vd matrix (set_values t0 u3) (Z.of_nat k) p3) as (Z3 & N3).
    cbv zeta in *.
    destruct (Qeq_dec (weighted_sum pd vd matrix (set_values t0 u1) (Z.of_nat k)
                         (Z.of_nat vd - 1)) 0) as [E|E].
    + rewrite (Z1 E), Z2, Z3; [exact I| |]; [rewrite M3|rewrite M2]; exact E.
    + destruct (N1 E) as (o1 & -> & S1).
      destruct N2 as (o2 & -> & S2); [now rewrite M2|].
      destruct N3 as (o3 & -> & S3); [now rewrite M3|].
      cbn [linear_outputs]. intros idx j Hidx Hj.
      rewrite S1, S2, S3.
      destruct (Z.eq_dec idx (Z.of_nat k)) as [->|Hne].
      * destruct (Z.leb_spec (Z.of_nat k * (Z.of_nat vd - 1))
                    (Z.of_nat k * (Z.of_nat vd - 1) + j)); [|lia].
        destruct (Z.ltb_spec (Z.of_nat k * (Z.of_nat vd - 1) + j)
                    (Z.of_nat k * (Z.of_nat vd - 1) + Z.of_nat (vd - 1))); [|lia].
        cbn [andb].
        replace (Z.of_nat k * (Z.of_nat vd - 1) + j - Z.of_nat k * (Z.of_nat vd - 1))
          with j by lia.
        rewrite (W j Hj), M2, M3. field. exact E.
      * replace ((Z.of_nat k * (Z.of_nat vd - 1) <=? idx * (Z.of_nat vd - 1) + j)
                 && (idx * (Z.of_nat vd - 1) + j
                     <? Z.of_nat k * (Z.of_nat vd - 1) + Z.of_nat (vd - 1)))
          with false.
        -- apply IH; [lia|assumption].
        -- symmetry. apply andb_false_iff.
           destruct (Z.leb_spec (Z.of_nat k * (Z.of_nat vd - 1))
                       (idx * (Z.of_nat vd - 1) + j)); [|now left].
           right. apply Z.ltb_ge. nia.
Qed.

End Linearity.

(** The matrix that [splatCache] leaves does not depend on the inputs. *)
Lemma splatCache_matrix (pd vd : nat) (num : Z) (x x' : Z -> Q) (m0 : Z -> MatrixEntry)
    (t0 : HashTableGPU) :
  (1 <= vd)%nat -> 0 <= num ->
  fst (splatCache pd vd num x m0 t0) = fst (splatCache pd vd num x' m0 t0).
Proof.
  intros Hvd Hn. apply functional_extensionality. intros k.
  pose proof (pd1_pos pd) as HD.
  pose proof (Z.mod_pos_bound k (pd1 pd) HD) as Hr.
  rewrite (Z.div_mod k (pd1 pd)) by lia. rewrite (Z.mul_comm (pd1 pd)).
  rewrite (ss_cells _ _ _ _ _ _ _ _ _ (splatCache_state pd vd Hvd num Hn x t0 m0) _ _ Hr).
  rewrite (ss_cells _ _ _ _ _ _ _ _ _ (splatCache_state pd vd Hvd num Hn x' t0 m0) _ _ Hr).
  reflexivity.
Qed.

(** The three runs end the same way, and linearly when they return. *)
Lemma filter_linear_outputs (pd vd : nat) (sqrtT : Q -> Q) (fuel num_samples : nat)
    (reverse : bool) (output positions x1 x2 x3 : Z -> Q) (a b : Q) :
  (1 <= vd)%nat ->
  (Z.to_nat (2 * (Z.of_nat num_samples * pd1 pd)) <= fuel)%nat ->
  (forall idx j, 0 <= idx < Z.of_nat num_samples -> 0 <= j < Z.of_nat vd - 1 ->
     x3 (idx * (Z.of_nat vd - 1) + j)%Z
     == a * x1 (idx * (Z.of_nat vd - 1) + j)%Z + b * x2 (idx * (Z.of_nat vd - 1) + j)%Z) ->
  linear_outputs vd a b (Z.of_nat num_samples)
    (snd (filter pd vd sqrtT fuel output x1 positions (Z.of_nat num_samples) reverse))
    (snd (filter pd vd sqrtT fuel output x2 positions (Z.of_nat num_samples) reverse))
    (snd (filter pd vd sqrtT fuel output x3 positions (Z.of_nat num_samples) reverse)).
Proof.
  intros vd_pos Hf Hx.
  unfold filter, new_lattice. cbv zeta. cbn [snd].
  unfold lattice_filter.
  cbn [n matrix hashTable newValues scaleFactor canonical].
  rewrite Nat2Z.id.
  set (sf := init_scaleFactor pd sqrtT) in *.
  destruct (Nat.eq_dec num_samples 0) as [->|Hn].
  - unfold createLattice, cleanHashTable, slice.
    replace (Z.to_nat (2 * Z.of_nat 0 * pd1 pd)) with 0%nat by lia.
    rewrite !for_upM_0. cbn [bind]. rewrite !for_upM_0. cbn [bind].
    destruct (splatCache pd vd (Z.of_nat 0) x1 _ _) as [M1 T1].
    destruct (splatCache pd vd (Z.of_nat 0) x2 _ _) as [M2 T2].
    destruct (splatCache pd vd (Z.of_nat 0) x3 _ _) as [M3 T3].
    destruct (blur_rounds_no_samples pd vd fuel reverse M1 T1 (fun _ => 0%Q)) as ([? ?] & ->).
    destruct (blur_rounds_no_samples pd vd fuel reverse M2 T2 (fun _ => 0%Q)) as ([? ?] & ->).
    destruct (blur_rounds_no_samples pd vd fuel reverse M3 T3 (fun _ => 0%Q)) as ([? ?] & ->).
    cbn [bind]. rewrite !for_upM_0. cbn [bind linear_outputs]. intros idx j Hidx. lia.
  - pose proof (pd1_pos pd) as HD.
    destruct (createLattice_spec pd fuel positions sf (Z.of_nat num_samples * pd1 pd) Hf
                num_samples (fun _ => mkEntry 0 0%Q) ltac:(lia))
      as (t1 & m1 & -> & Hinv).
    cbn [bind].
    replace (2 * Z.of_nat num_samples * pd1 pd)
      with (2 * (Z.of_nat num_samples * pd1 pd)) by lia.
    rewrite (cleanHashTable_id pd fuel positions sf _ Hf _ t1 m1 _ Hinv). cbn [bind].
    assert (Hslots : forall idx c, 0 <= idx < Z.of_nat num_samples -> 0 <= c <= Z.of_nat pd ->
              0 <= entries t1 (index (m1 (idx * pd1 pd + c)))).
    { intros idx c Hidx Hc.
      assert (Hs : 0 <= idx * pd1 pd + c < Z.of_nat num_samples * pd1 pd)
        by (unfold pd1 in *; nia).
      destruct (inv_found _ _ _ _ _ _ _ _ Hinv _ Hs) as (Hne & _ & _).
      destruct (inv_entries _ _ _ _ _ _ _ _ Hinv (index (m1 (idx * pd1 pd + c))));
        [contradiction|lia]. }
    pose proof (splat_combined vd vd_pos a b pd (Z.of_nat num_samples) x1 x2 x3 t1 m1
                  ltac:(lia) (inv_values _ _ _ _ _ _ _ _ Hinv) Hslots Hx) as Cs.
    pose proof (splatCache_matrix pd vd (Z.of_nat num_samples) x3 x1 m1 t1 vd_pos
                  ltac:(lia)) as EM3.
    pose proof (splatCache_matrix pd vd (Z.of_nat num_samples) x2 x1 m1 t1 vd_pos
                  ltac:(lia)) as EM2.
    pose proof (splatCache_table pd vd (Z.of_nat num_samples) x1 m1 t1) as (C1 & E1 & K1).
    pose proof (splatCache_table pd vd (Z.of_nat num_samples) x2 m1 t1) as (C2 & E2 & K2).
    pose proof (splatCache_table pd vd (Z.of_nat num_samples) x3 m1 t1) as (C3 & E3 & K3).
    destruct (splatCache pd vd (Z.of_nat num_samples) x1 m1 t1) as [M T1].
    destruct (splatCache pd vd (Z.of_nat num_samples) x2 m1 t1) as [M2 T2].
    destruct (splatCache pd vd (Z.of_nat num_samples) x3 m1 t1) as [M3 T3].
    cbn [fst snd] in *. subst M2 M3.
    rewrite (table_eta t1 T1 C1 K1 E1), (table_eta t1 T2 C2 K2 E2), (table_eta t1 T3 C3 K3 E3).
    assert (Hcap : 0 < capacity t1)
      by (rewrite (inv_capacity _ _ _ _ _ _ _ _ Hinv); nia).
    assert (Hempty : exists q, 0 <= q < 2 * capacity t1 /\ entries t1 q = -1)
      by (apply (lattice_inv_empty_bucket _ _ _ _ _ _ _ _ Hinv); nia).
    assert (Hfuel : (Z.to_nat (2 * capacity t1) <= fuel)%nat)
      by (rewrite (inv_capacity _ _ _ _ _ _ _ _ Hinv); exact Hf).
    destruct (rounds_combined vd vd_pos a b pd fuel num_samples reverse M t1
                (values T1) (values T2) (values T3)
                (fun _ => 0%Q) (fun _ => 0%Q) (fun _ => 0%Q)
                Hcap Hempty Hfuel Cs (combined_zero vd a b))
      as (u1 & u2 & u3 & w1 & w2 & w3 & -> & -> & -> & Cu).
    cbn [bind].
    pose proof (slice_combined vd vd_pos a b pd num_samples M t1 u1 u2 u3 output Cu) as L.
    destruct (slice pd vd num_samples output M (set_values t1 u1)) as [o1| |];
      destruct (slice pd vd num_samples output M (set_values t1 u2)) as [o2| |];
      destruct (slice pd vd num_samples output M (set_values t1 u3)) as [o3| |];
      cbn [linear_outputs] in L; try contradiction; cbn [bind linear_outputs]; exact L.
Qed.

Lemma inputs_bounded (x : Z -> Q) (m : nat) :
  exists B : Q, forall k, 0 <= k < Z.of_nat m -> (- B <= x k <= B)%Q.
Proof.
  induction m as [|m (B & HB)].
  - exists 0%Q. intros k Hk. lia.
  - exists (Qabs B + Qabs (x (Z.of_nat m)))%Q. intros k Hk.
    pose proof (Qabs_nonneg B) as N1. pose proof (Qabs_nonneg (x (Z.of_nat m))) as N2.
    pose proof (Qle_Qabs B) as L1.
    destruct (Z.eq_dec k (Z.of_nat m)) as [->|Hne].
    + pose proof (Qle_Qabs (x (Z.of_nat m))) as L2.
      pose proof (Qle_Qabs (- x (Z.of_nat m))) as L3. rewrite Qabs_opp in L3.
      split; lra.
    + destruct (HB k ltac:(lia)). split; lra.
Qed.

(** On positions that fit the 16-bit coordinates the filter returns. *)
Lemma filter_returns (pd vd : nat) (sqrtT : Q -> Q) (fuel num_samples : nat)
    (reverse : bool) (output inputs positions : Z -> Q) :
  (1 <= vd)%nat ->
  pd1 pd * pd1 pd < 2 ^ 16 ->
  (forall idx, 0 <= idx < Z.of_nat num_samples ->
     valid_position pd (fun i => positions (idx * Z.of_nat pd + i))
       (init_scaleFactor pd sqrtT)) ->
  (Z.to_nat (2 * (Z.of_nat num_samples * pd1 pd)) <= fuel)%nat ->
  exists out,
    snd (filter pd vd sqrtT fuel output inputs positions (Z.of_nat num_samples) reverse)
    = Ret out.
Proof.
  intros Hvd Hpd Hv Hf.
  destruct (inputs_bounded inputs (num_samples * (vd - 1))) as (B & HB).
  destruct (filter_average pd vd sqrtT fuel num_samples reverse output inputs positions
              (fun _ => (- B)%Q) (fun _ => B) Hvd Hpd Hv) as (out & Hout & _).
  - intros idx j Hidx Hj. apply HB. nia.
  - exact Hf.
  - exists out. exact Hout.
Qed.

(** X27. The filter is linear in the values: on positions that fit the
    16-bit coordinates, run thread after thread over exact rationals, the
    three runs on the inputs [x1], [x2] and [a * x1 + b * x2] return, and the
    output of the third is [a] times the output of the first plus [b]
    times the output of the second. *)
Theorem filter_is_linear (pd vd : nat) (sqrtT : Q -> Q) (fuel num_samples : nat)
    (reverse : bool) (output positions x1 x2 x3 : Z -> Q) (a b : Q) :
  (1 <= vd)%nat ->
  pd1 pd * pd1 pd < 2 ^ 16 ->
  (forall idx, 0 <= idx < Z.of_nat num_samples ->
     valid_position pd (fun i => positions (idx * Z.of_nat pd + i))
       (init_scaleFactor pd sqrtT)) ->
  (Z.to_nat (2 * (Z.of_nat num_samples * pd1 pd)) <= fuel)%nat ->
  (forall idx j, 0 <= idx < Z.of_nat num_samples -> 0 <= j < Z.of_nat vd - 1 ->
     x3 (idx * (Z.of_nat vd - 1) + j)%Z
     == a * x1 (idx * (Z.of_nat vd - 1) + j)%Z + b * x2 (idx * (Z.of_nat vd - 1) + j)%Z) ->
  exists o1 o2 o3,
    snd (filter pd vd sqrtT fuel output x1 positions (Z.of_nat num_samples) reverse) = Ret o1 /\
    snd (filter pd vd sqrtT fuel output x2 positions (Z.of_nat num_samples) reverse) = Ret o2 /\
    snd (filter pd vd sqrtT fuel output x3 positions (Z.of_nat num_samples) reverse) = Ret o3 /\
    forall idx j, 0 <= idx < Z.of_nat num_samples -> 0 <= j < Z.of_nat vd - 1 ->
      o3 (idx * (Z.of_nat vd - 1) + j)%Z
      == a * o1 (idx * (Z.of_nat vd - 1) + j)%Z + b * o2 (idx * (Z.of_nat vd - 1) + j)%Z.
Proof.
  intros Hvd Hpd Hv Hf Hx.
  pose proof (filter_linear_outputs pd vd sqrtT fuel num_samples reverse output positions
                x1 x2 x3 a b Hvd Hf Hx) as L.
  destruct (filter_returns pd vd sqrtT fuel num_samples reverse output x1 positions
              Hvd Hpd Hv Hf) as (o1 & E1).
  destruct (filter_returns pd vd sqrtT fuel num_samples reverse output x2 positions
              Hvd Hpd Hv Hf) as (o2 & E2).
  destruct (filter_returns pd vd sqrtT fuel num_samples reverse output x3 positions
              Hvd Hpd Hv Hf) as (o3 & E3).
  rewrite E1, E2, E3 in L. cbn [linear_outputs] in L.
  exists o1, o2, o3. auto.
Qed.

Lemma filter_is_linear_witness :
  exists o1 o2 o3,
    snd (filter 1 2 (fun x => x) 8 (fun _ => 0%Q) (fun k => inject_Z k)
           (fun k => (k # 3)%Q) (Z.of_nat 2) false) = Ret o1 /\
    snd (filter 1 2 (fun x => x) 8 (fun _ => 0%Q) (fun k => (1 # 2) * inject_Z k + 1)%Q
           (fun k => (k # 3)%Q) (Z.of_nat 2) false) = Ret o2 /\
    snd (filter 1 2 (fun x => x) 8 (fun _ => 0%Q)
           (fun k => (2 # 1) * inject_Z k + (3 # 1) * ((1 # 2) * inject_Z k + 1))%Q
           (fun k => (k # 3)%Q) (Z.of_nat 2) false) = Ret o3 /\
    forall idx j, 0 <= idx < Z.of_nat 2 -> 0 <= j < Z.of_nat 2 - 1 ->
      o3 (idx * (Z.of_nat 2 - 1) + j)%Z
      == (2 # 1) * o1 (idx * (Z.of_nat 2 - 1) + j)%Z
         + (3 # 1) * o2 (idx * (Z.of_nat 2 - 1) + j)%Z.
Proof.
  apply (filter_is_linear 1 2 (fun x => x) 8 2 false (fun _ => 0%Q) (fun k => (k # 3)%Q)
           (fun k => inject_Z k) (fun k => (1 # 2) * inject_Z k + 1)%Q
           (fun k => (2 # 1) * inject_Z k + (3 # 1) * ((1 # 2) * inject_Z k + 1))%Q
           (2 # 1) (3 # 1)).
  - lia.
  - reflexivity.
  - intros idx Hidx i Hi.
    assert (E : idx = 0 \/ idx = 1) by lia. assert (E' : i = 0 \/ i = 1) by lia.
    destruct E as [-> | ->], E' as [-> | ->]; vm_compute; intuition discriminate.
  - vm_compute. lia.
  - intros idx j _ _. reflexivity.
Defined.

(** ** The position kernel *)

Lemma fold_bind_failed {S : Type} (body : Z -> S -> result S) (l : list nat)
    (r : result S) :
  (forall a, r <> Ret a) ->
  fold_left (fun acc i => bind acc (body (Z.of_nat i))) l r = r.
Proof.
  intros H. induction l as [|x l IH]; [reflexivity|]. cbn [fold_left].
  destruct r; [exfalso; now apply (H a)| |]; cbn [bind]; exact IH.
Qed.

Lemma for_downM_S {S : Type} (m : nat) (body : Z -> S -> result S) (s : S) :
  for_downM (Datatypes.S m) body s = bind (body (Z.of_nat m) s) (for_downM m body).
Proof.
  unfold for_downM. rewrite seq_S, rev_app_distr. cbn [rev app fold_left bind Nat.add].
  destruct (body (Z.of_nat m) s) as [a| |]; cbn [bind]; [reflexivity| |];
    apply fold_bind_failed; discriminate.
Qed.

(** The product [sdims[a] * ... * sdims[a + m - 1]]. *)
Fixpoint extent (sdims : Z -> Z) (a : Z) (m : nat) : Z :=
  match m with
  | O => 1
  | S m' => sdims a * extent sdims (a + 1) m'
  end.

Lemma extent_pos (sdims : Z -> Z) (m : nat) (a : Z) :
  (forall s, a <= s < a + Z.of_nat m -> 0 < sdims s) -> 0 < extent sdims a m.
Proof.
  revert a. induction m as [|m IH]; intros a H; cbn [extent]; [lia|].
  apply Z.mul_pos_pos; [apply H; lia|]. apply IH. intros s Hs. apply H. lia.
Qed.

(** The stride of dimension [sdim] in a grid of [n_sdims] dimensions, the
    last one varying fastest. *)
Definition stride (sdims : Z -> Z) (n_sdims sdim : Z) : Z :=
  extent sdims (sdim + 1) (Z.to_nat (n_sdims - 1 - sdim)).

(** The coordinate of pixel [idx] along dimension [sdim]. *)
Definition coordinate (sdims : Z -> Z) (n_sdims idx sdim : Z) : Z :=
  (idx / stride sdims n_sdims sdim) mod sdims sdim.

Lemma stride_step (sdims : Z -> Z) (n_sdims sdim : Z) :
  0 <= sdim < n_sdims ->
  stride sdims n_sdims (sdim - 1) = sdims sdim * stride sdims n_sdims sdim.
Proof.
  intros H. unfold stride.
  replace (Z.to_nat (n_sdims - 1 - (sdim - 1))) with (S (Z.to_nat (n_sdims - 1 - sdim)))
    by lia.
  cbn [extent]. now replace (sdim - 1 + 1) with sdim by lia.
Qed.

Section PositionKernel.

Variable reference : Z -> Q.
Variable reference_channels n_sdims : Z.
Variable sdims : Z -> Z.
Variable spatial_std feature_std : Q.

Hypothesis channels_nonneg : 0 <= reference_channels.
Hypothesis sdims_nonneg : 0 <= n_sdims.
Hypothesis sdims_pos : forall s, 0 <= s < n_sdims -> 0 < sdims s.
Hypothesis spatial_std_nonzero : ~ spatial_std == 0.
Hypothesis feature_std_nonzero : ~ feature_std == 0.

Local Abbreviation num_dims := (n_sdims + reference_channels).

(** The row of [positions] that belongs to pixel [idx]. *)
Definition position_row (idx : Z) (out : Z -> Q) : Prop :=
  (forall sdim, 0 <= sdim < n_sdims ->
     out (num_dims * idx + sdim)
     = (inject_Z (coordinate sdims n_sdims idx sdim) / spatial_std)%Q) /\
  (forall channel, 0 <= channel < reference_channels ->
     out (num_dims * idx + n_sdims + channel)
     = (reference (idx * reference_channels + channel) / feature_std)%Q).

Lemma divide_returns (x y : Q) : ~ y == 0 -> divide x y = Ret (x / y)%Q.
Proof.
  intros H. unfold divide. destruct (Qeq_bool y 0) eqn:E; [|reflexivity].
  apply Qeq_bool_iff in E. contradiction.
Qed.

Lemma spatial_loop (idx : Z) (src : Z -> Q) (m : nat) :
  0 <= idx -> (Z.of_nat m <= n_sdims) ->
  exists out,
    for_downM m
      (fun sdim '(divisor, positions) =>
         if (divisor =? 0) || (sdims sdim =? 0) then DivByZero
         else
           do p <- divide (inject_Z (Z.rem (Z.quot idx divisor) (sdims sdim))) spatial_std;
           Ret (divisor * sdims sdim, upd positions (num_dims * idx + sdim) p))
      (stride sdims n_sdims (Z.of_nat m - 1), src)
    = Ret (stride sdims n_sdims (-1), out) /\
    (forall sdim, 0 <= sdim < Z.of_nat m ->
       out (num_dims * idx + sdim)
       = (inject_Z (coordinate sdims n_sdims idx sdim) / spatial_std)%Q) /\
    (forall k, ~ num_dims * idx <= k < num_dims * idx + Z.of_nat m -> out k = src k).
Proof.
  intros Hidx. revert src. induction m as [|m IH]; intros src Hm.
  - exists src. cbn [for_downM]. split; [reflexivity|]. split; [intros; lia|reflexivity].
  - rewrite for_downM_S. cbv beta iota.
    replace (Z.of_nat (S m) - 1) with (Z.of_nat m) by lia.
    assert (Hs : 0 < stride sdims n_sdims (Z.of_nat m)).
    { unfold stride. apply extent_pos. intros s Hs. apply sdims_pos. lia. }
    assert (Hd : 0 < sdims (Z.of_nat m)) by (apply sdims_pos; lia).
    destruct (Z.eqb_spec (stride sdims n_sdims (Z.of_nat m)) 0); [lia|].
    destruct (Z.eqb_spec (sdims (Z.of_nat m)) 0); [lia|]. cbn [orb].
    rewrite divide_returns by assumption. cbn [bind].
    rewrite (Z.mul_comm (stride _ _ _)), <- stride_step by lia.
    destruct (IH (upd src (num_dims * idx + Z.of_nat m)
                    (inject_Z (Z.rem (Z.quot idx (stride sdims n_sdims (Z.of_nat m)))
                                 (sdims (Z.of_nat m))) / spatial_std)%Q) ltac:(lia))
      as (out & -> & Hout & Hframe).
    exists out. split; [reflexivity|]. split.
    + intros sdim Hsd. destruct (Z.eq_dec sdim (Z.of_nat m)) as [->|Hne].
      * rewrite Hframe by lia. unfold upd. rewrite Z.eqb_refl. unfold coordinate.
        rewrite Z.quot_div_nonneg by lia. rewrite Z.rem_mod_nonneg; [reflexivity| |lia].
        apply Z.div_pos; lia.
      * apply Hout. lia.
    + intros k Hk. rewrite Hframe by lia. unfold upd.
      destruct (Z.eqb_spec k (num_dims * idx + Z.of_nat m)); [lia|reflexivity].
Qed.

Lemma channel_loop (idx : Z) (src : Z -> Q) (m : nat) :
  exists out,
    for_upM m
      (fun channel positions =>
         do p <- divide (reference (idx * reference_channels + channel)) feature_std;
         Ret (upd positions (num_dims * idx + n_sdims + channel) p))
      src
    = Ret out /\
    (forall channel, 0 <= channel < Z.of_nat m ->
       out (num_dims * idx + n_sdims + channel)
       = (reference (idx * reference_channels + channel) / feature_std)%Q) /\
    (forall k, ~ num_dims * idx + n_sdims <= k < num_dims * idx + n_sdims + Z.of_nat m ->
       out k = src k).
Proof.
  induction m as [|m IH].
  - exists src. split; [reflexivity|]. split; [intros; lia|reflexivity].
  - destruct IH as (mid & Hmid & Hout & Hframe).
    rewrite for_upM_S, Hmid. cbn [bind]. rewrite divide_returns by assumption. cbn [bind].
    eexists. split; [reflexivity|]. split.
    + intros channel Hc. unfold upd.
      destruct (Z.eqb_spec (num_dims * idx + n_sdims + channel)
                  (num_dims * idx + n_sdims + Z.of_nat m)) as [E|E].
      * now replace channel with (Z.of_nat m) by lia.
      * apply Hout. lia.
    + intros k Hk. unfold upd.
      destruct (Z.eqb_spec k (num_dims * idx + n_sdims + Z.of_nat m)); [lia|].
      apply Hframe. lia.
Qed.

Lemma compute_kernel_thread_spec (idx : Z) (src : Z -> Q) :
  0 <= idx ->
  exists out,
    compute_kernel_thread reference reference_channels n_sdims sdims spatial_std feature_std
      idx src = Ret out /\
    position_row idx out /\
    (forall k, ~ num_dims * idx <= k < num_dims * idx + num_dims -> out k = src k).
Proof.
  intros Hidx. unfold compute_kernel_thread. cbv zeta.
  destruct (spatial_loop idx src (Z.to_nat n_sdims) Hidx ltac:(lia))
    as (mid & Hmid & Hsp & Hf1).
  replace (Z.of_nat (Z.to_nat n_sdims) - 1) with (n_sdims - 1) in Hmid by lia.
  assert (E1 : stride sdims n_sdims (n_sdims - 1) = 1).
  { unfold stride. now replace (Z.to_nat (n_sdims - 1 - (n_sdims - 1))) with 0%nat by lia. }
  rewrite E1 in Hmid. rewrite Hmid. cbn [bind].
  destruct (channel_loop idx mid (Z.to_nat reference_channels)) as (out & -> & Hch & Hf2).
  exists out. split; [reflexivity|]. split; [split|].
  - intros sdim Hsd. rewrite Hf2 by lia. apply Hsp. lia.
  - intros channel Hc. apply Hch. lia.
  - intros k Hk. rewrite Hf2 by lia. apply Hf1. lia.
Qed.

Lemma compute_kernel_spec (positions : Z -> Q) (m : nat) :
  exists out,
    compute_kernel reference positions (Z.of_nat m) reference_channels n_sdims sdims
      spatial_std feature_std = Ret out /\
    (forall idx, 0 <= idx < Z.of_nat m -> position_row idx out) /\
    (forall k, ~ 0 <= k < Z.of_nat m * num_dims -> out k = positions k).
Proof.
  unfold compute_kernel. rewrite Nat2Z.id. induction m as [|m IH].
  - exists positions. split; [reflexivity|]. split; [intros; lia|reflexivity].
  - destruct IH as (mid & Hmid & Hrows & Hframe).
    rewrite for_upM_S, Hmid. cbn [bind].
    destruct (compute_kernel_thread_spec (Z.of_nat m) mid ltac:(lia))
      as (out & -> & Hrow & Hf).
    exists out. split; [reflexivity|]. split.
    + intros idx Hidx. destruct (Z.eq_dec idx (Z.of_nat m)) as [->|Hne]; [exact Hrow|].
      destruct (Hrows idx ltac:(lia)) as (Rs & Rc). split.
      * intros sdim Hsd. rewrite Hf by nia. now apply Rs.
      * intros channel Hc. rewrite Hf by nia. now apply Rc.
    + intros k Hk. rewrite Hf by nia. apply Hframe. nia.
Qed.

(** Two pixels of the grid with the same coordinates are the same pixel. *)
Lemma coordinates_determine (idx idx' : Z) (m : nat) :
  0 <= idx -> 0 <= idx' -> Z.of_nat m <= n_sdims ->
  (forall sdim, n_sdims - Z.of_nat m <= sdim < n_sdims ->
     coordinate sdims n_sdims idx sdim = coordinate sdims n_sdims idx' sdim) ->
  idx mod stride sdims n_sdims (n_sdims - Z.of_nat m - 1)
  = idx' mod stride sdims n_sdims (n_sdims - Z.of_nat m - 1).
Proof.
  intros Hidx Hidx'. induction m as [|m IH]; intros Hm Hc.
  - replace (n_sdims - Z.of_nat 0 - 1) with (n_sdims - 1) by lia.
    unfold stride. replace (Z.to_nat (n_sdims - 1 - (n_sdims - 1))) with 0%nat by lia.
    cbn [extent]. now rewrite !Z.mod_1_r.
  - replace (n_sdims - Z.of_nat (S m) - 1) with (n_sdims - Z.of_nat m - 1 - 1) by lia.
    set (d := n_sdims - Z.of_nat m - 1) in *.
    rewrite stride_step by lia.
    assert (Hs : 0 < stride sdims n_sdims d).
    { unfold stride. apply extent_pos. intros s Hs. apply sdims_pos. lia. }
    assert (Hd : 0 < sdims d) by (apply sdims_pos; lia).
    rewrite (Z.mul_comm (sdims d)).
    rewrite !Z.rem_mul_r by lia.
    rewrite IH by (try lia; intros sdim Hsd; apply Hc; lia).
    pose proof (Hc d ltac:(lia)) as E. unfold coordinate in E. now rewrite E.
Qed.

End PositionKernel.

(** X21. For positive grid sizes and non-zero standard deviations,
    [compute_kernel] returns, and row [idx] of [positions] holds the grid
    coordinates of pixel [idx] (last dimension fastest) divided by
    [spatial_std], followed by the reference channels of the pixel divided by
    [feature_std]; nothing outside the rows of the pixels is written. *)
Theorem compute_kernel_positions (reference positions : Z -> Q) (num_super_pixels : nat)
    (reference_channels n_sdims : Z) (sdims : Z -> Z) (spatial_std feature_std : Q) :
  0 <= reference_channels -> 0 <= n_sdims ->
  (forall s, 0 <= s < n_sdims -> 0 < sdims s) ->
  ~ spatial_std == 0 -> ~ feature_std == 0 ->
  exists out,
    compute_kernel reference positions (Z.of_nat num_super_pixels) reference_channels
      n_sdims sdims spatial_std feature_std = Ret out /\
    (forall idx sdim, 0 <= idx < Z.of_nat num_super_pixels -> 0 <= sdim < n_sdims ->
       out ((n_sdims + reference_channels) * idx + sdim)
       = (inject_Z ((idx / stride sdims n_sdims sdim) mod sdims sdim)%Z / spatial_std)%Q) /\
    (forall idx channel,
       0 <= idx < Z.of_nat num_super_pixels -> 0 <= channel < reference_channels ->
       out ((n_sdims + reference_channels) * idx + n_sdims + channel)
       = (reference (idx * reference_channels + channel)%Z / feature_std)%Q) /\
    (forall k, ~ 0 <= k < Z.of_nat num_super_pixels * (n_sdims + reference_channels) ->
       out k = positions k).
Proof.
  intros Hc Hn Hs Hsp Hft.
  destruct (compute_kernel_spec reference reference_channels n_sdims sdims spatial_std
              feature_std Hc Hn Hs Hsp Hft positions num_super_pixels)
    as (out & Hout & Hrows & Hframe).
  exists out. split; [exact Hout|]. split; [|split].
  - intros idx sdim Hidx Hsd. now apply (Hrows idx Hidx).
  - intros idx channel Hidx Hch. now apply (Hrows idx Hidx).
  - exact Hframe.
Qed.

Lemma compute_kernel_positions_witness :
  exists out,
    compute_kernel (fun k => inject_Z k) (fun _ => 0%Q) (Z.of_nat 6) 1 2
      (fun s => if s =? 0 then 2 else 3) (1 # 2) (5 # 1) = Ret out /\
    (forall idx sdim, 0 <= idx < Z.of_nat 6 -> 0 <= sdim < 2 ->
       out ((2 + 1) * idx + sdim)
       = (inject_Z ((idx / stride (fun s => if s =? 0 then 2 else 3) 2 sdim)
                    mod (fun s => if s =? 0 then 2 else 3) sdim)%Z / (1 # 2))%Q) /\
    (forall idx channel, 0 <= idx < Z.of_nat 6 -> 0 <= channel < 1 ->
       out ((2 + 1) * idx + 2 + channel)
       = ((fun k => inject_Z k) (idx * 1 + channel)%Z / (5 # 1))%Q) /\
    (forall k, ~ 0 <= k < Z.of_nat 6 * (2 + 1) -> out k = (fun _ => 0%Q) k).
Proof.
  apply (compute_kernel_positions (fun k => inject_Z k) (fun _ => 0%Q) 6 1 2
           (fun s => if s =? 0 then 2 else 3) (1 # 2) (5 # 1)).
  - lia.
  - lia.
  - intros s Hs. destruct (Z.eqb_spec s 0); lia.
  - discriminate.
  - discriminate.
Defined.

(** X22. Inside the grid (at most [sdims[0] * ... * sdims[n_sdims - 1]]
    pixels) [compute_kernel] gives different pixels different spatial
    positions. *)
Theorem compute_kernel_separates_pixels (reference positions : Z -> Q)
    (num_super_pixels : nat) (reference_channels n_sdims : Z) (sdims : Z -> Z)
    (spatial_std feature_std : Q) :
  0 <= reference_channels -> 0 <= n_sdims ->
  (forall s, 0 <= s < n_sdims -> 0 < sdims s) ->
  ~ spatial_std == 0 -> ~ feature_std == 0 ->
  Z.of_nat num_super_pixels <= extent sdims 0 (Z.to_nat n_sdims) ->
  exists out,
    compute_kernel reference positions (Z.of_nat num_super_pixels) reference_channels
      n_sdims sdims spatial_std feature_std = Ret out /\
    forall idx idx',
      0 <= idx < Z.of_nat num_super_pixels -> 0 <= idx' < Z.of_nat num_super_pixels ->
      (forall sdim, 0 <= sdim < n_sdims ->
         out ((n_sdims + reference_channels) * idx + sdim)
         == out ((n_sdims + reference_channels) * idx' + sdim)) ->
      idx = idx'.
Proof.
  intros Hc Hn Hs Hsp Hft Hgrid.
  destruct (compute_kernel_spec reference reference_channels n_sdims sdims spatial_std
              feature_std Hc Hn Hs Hsp Hft positions num_super_pixels)
    as (out & Hout & Hrows & _).
  exists out. split; [exact Hout|].
  intros idx idx' Hidx Hidx' Heq.
  pose proof (coordinates_determine n_sdims sdims Hs idx idx' (Z.to_nat n_sdims)
                ltac:(lia) ltac:(lia) ltac:(lia)) as D.
  replace (n_sdims - Z.of_nat (Z.to_nat n_sdims) - 1) with (-1) in D by lia.
  assert (E : stride sdims n_sdims (-1) = extent sdims 0 (Z.to_nat n_sdims)).
  { unfold stride. change (-1 + 1) with 0. now replace (n_sdims - 1 - -1) with n_sdims by lia. }
  rewrite E in D.
  rewrite !Z.mod_small in D by lia. apply D.
  intros sdim Hsd.
  destruct (Hrows idx Hidx) as [R _]. destruct (Hrows idx' Hidx') as [R' _].
  pose proof (Heq sdim ltac:(lia)) as Q. rewrite R, R' in Q by lia.
  apply inject_Z_injective.
  rewrite <- (Qmult_div_r (inject_Z (coordinate sdims n_sdims idx sdim)) spatial_std Hsp).
  rewrite <- (Qmult_div_r (inject_Z (coordinate sdims n_sdims idx' sdim)) spatial_std Hsp).
  now rewrite Q.
Qed.

Lemma compute_kernel_separates_pixels_witness :
  exists out,
    compute_kernel (fun k => inject_Z k) (fun _ => 0%Q) (Z.of_nat 6) 1 2
      (fun s => if s =? 0 then 2 else 3) (1 # 2) (5 # 1) = Ret out /\
    forall idx idx', 0 <= idx < Z.of_nat 6 -> 0 <= idx' < Z.of_nat 6 ->
      (forall sdim, 0 <= sdim < 2 ->
         out ((2 + 1) * idx + sdim) == out ((2 + 1) * idx' + sdim)) ->
      idx = idx'.
Proof.
  apply (compute_kernel_separates_pixels (fun k => inject_Z k) (fun _ => 0%Q) 6 1 2
           (fun s => if s =? 0 then 2 else 3) (1 # 2) (5 # 1)).
  - lia.
  - lia.
  - intros s Hs. destruct (Z.eqb_spec s 0); lia.
  - discriminate.
  - discriminate.
  - vm_compute. discriminate.
Defined.
